(** * drift-proxy: a shallow embedding of [server.js]

    The development follows the source file top to bottom:

    - [JSString]  : JavaScript strings as sequences of UTF-16 code units,
                    with the few [String.prototype] methods the server uses;
    - [Regex]     : a backtracking matcher with the priority semantics of
                    ECMAScript regular expressions, and [String.prototype.replace]
                    with a global pattern and a replacer function;
    - [URI]       : [encodeURIComponent] and [decodeURIComponent];
    - [Stripper]  : [stripTrackingElements];
    - [Rewrite]   : [toProxyUrl], [rewriteUrls], the CSS and the JS pipelines;
    - [Fetcher]   : [fetchWithRedirects];
    - [Dispatcher]: the [/proxy/*], [/adblock] and [/blocked-count] handlers.

    What the server takes from its platform and from modules that are not
    part of [server.js] enters as a class (the [URL] class of Node) or as
    section variables (the [isBlocked] function of [./blocklist], the
    network, the decoding of a [Buffer]); [WHATWG] is a model of the [URL]
    class on which the server is run on concrete inputs. *)

From Stdlib Require Import String Ascii DecimalString.
From Stdlib Require Import List NArith ZArith Bool Lia PeanoNat Compare_dec.
From Equations Require Import Equations.
Import ListNotations.

Set Implicit Arguments.

(* ===================================================================== *)
(** ** JavaScript strings *)
(* ===================================================================== *)

Module JSString.

(** A JavaScript string is a finite sequence of 16-bit code units. *)
Definition jsstring := list N.

(** ASCII literals. *)
Definition js (s : string) : jsstring :=
  map N_of_ascii (list_ascii_of_string s).

(** The two quote characters, an apostrophe being harmless in a literal and a
    double quote not. *)
Definition DQUOTE : N := 34.
Definition SQUOTE : N := 39.

(** [dq s] is [s] between double quotes, [sq s] between single quotes. *)
Definition dq (s : jsstring) : jsstring := DQUOTE :: s ++ [DQUOTE].
Definition sq (s : jsstring) : jsstring := SQUOTE :: s ++ [SQUOTE].

Fixpoint eqb (s t : jsstring) : bool :=
  match s, t with
  | [], [] => true
  | x :: s', y :: t' => N.eqb x y && eqb s' t'
  | _, _ => false
  end.

(** [s.startsWith(p)] *)
Fixpoint startsWith (s p : jsstring) {struct p} : bool :=
  match p with
  | [] => true
  | y :: p' =>
      match s with
      | [] => false
      | x :: s' => N.eqb x y && startsWith s' p'
      end
  end.

(** [s.includes(p)] *)
Fixpoint includes (s p : jsstring) : bool :=
  startsWith s p ||
  match s with
  | [] => false
  | _ :: s' => includes s' p
  end.

(** [parts.join(sep)] *)
Fixpoint join (sep : jsstring) (parts : list jsstring) : jsstring :=
  match parts with
  | [] => []
  | [p] => p
  | p :: ps => p ++ sep ++ join sep ps
  end.

(** [s.split(c)] for a one-character separator. *)
Fixpoint split_on (c : N) (s : jsstring) : list jsstring :=
  match s with
  | [] => [[]]
  | x :: s' =>
      if N.eqb x c then [] :: split_on c s'
      else match split_on c s' with
           | p :: ps => (x :: p) :: ps
           | [] => [[x]]
           end
  end.

(** ASCII upper-casing, which is what the [i] flag of a non-unicode
    pattern amounts to on the ASCII letters: a code unit at or above 128 is
    never identified with one below. *)
Definition upper (c : N) : N :=
  if (97 <=? c)%N && (c <=? 122)%N then (c - 32)%N else c.

Definition lower (c : N) : N :=
  if (65 <=? c)%N && (c <=? 90)%N then (c + 32)%N else c.

(** The [\s] class: WhiteSpace and LineTerminator of ECMAScript. *)
Definition is_space (c : N) : bool :=
  existsb (N.eqb c)
    [9; 10; 11; 12; 13; 32; 160; 5760; 8232; 8233; 8239; 8287; 12288; 65279]%N
  || ((8192 <=? c)%N && (c <=? 8202)%N).

(** The [\d] and [\w] classes. *)
Definition is_digit (c : N) : bool := (48 <=? c)%N && (c <=? 57)%N.
Definition is_alpha (c : N) : bool :=
  ((65 <=? c)%N && (c <=? 90)%N) || ((97 <=? c)%N && (c <=? 122)%N).
Definition is_word (c : N) : bool := is_alpha c || is_digit c || N.eqb c 95.

Definition is_ascii (s : jsstring) : bool := forallb (fun c => (c <? 128)%N) s.

(** Every element is a 16-bit code unit. *)
Definition code_units (s : jsstring) : bool :=
  forallb (fun c => (c <? 65536)%N) s.

(** [!s.includes(c)] for a character [c], and a string without a quote of
    either kind. *)
Definition lacks (c : N) (s : jsstring) : bool := negb (existsb (N.eqb c) s).

Definition no_quote (s : jsstring) : bool := lacks DQUOTE s && lacks SQUOTE s.

(** A quote of either kind. *)
Definition quote_char (x : N) : bool := existsb (N.eqb x) [DQUOTE; SQUOTE].

End JSString.
Import JSString.

(* ===================================================================== *)
(** ** Regular expressions *)
(* ===================================================================== *)

Module Regex.

(** The fragment of the pattern language that [server.js] uses.  A character
    class is a predicate on code units; [n] in [RGroup n r] is the number of
    the capture group; [RStar true r] is the greedy [r*] and [RStar false r]
    the lazy [r*?].  No pattern of the server puts a capture group under a
    quantifier. *)
Inductive regex : Type :=
| REmpty
| RChar (p : N -> bool)
| RSeq (r1 r2 : regex)
| RAlt (r1 r2 : regex)
| RStar (greedy : bool) (r : regex)
| RGroup (n : nat) (r : regex)
| RBackref (n : nat)
| RWordB.

(** Captures, most recent first.  A back-reference compares code units,
    which is also what it does under the [i] flag when the group holds no
    letter: the groups that the server refers back to hold a quote. *)
Definition captures := list (nat * jsstring).

Fixpoint get_cap (n : nat) (c : captures) : option jsstring :=
  match c with
  | [] => None
  | (m, s) :: c' => if Nat.eqb m n then Some s else get_cap n c'
  end.

(** What the replacer receives for a group that did not take part in the
    match is [undefined]; the server's replacers only use groups that always
    take part, so the empty string stands for it. *)
Definition cap (n : nat) (c : captures) : jsstring :=
  match get_cap n c with Some s => s | None => [] end.

Definition last_unit (prev : option N) (t : jsstring) : option N :=
  match rev t with
  | [] => prev
  | x :: _ => Some x
  end.

Definition word_at (o : option N) : bool :=
  match o with Some c => is_word c | None => false end.

Section Matcher.

Variable A : Type.

(** A continuation receives the code unit before the current position, the
    rest of the input and the captures. *)
Definition cont := option N -> jsstring -> captures -> option A.

(** The iterations of a star whose body is matched by [body].  An iteration
    that consumes nothing is rejected (RepeatMatcher, step 2.b), so the
    length of the input bounds the number of iterations, and [fuel], which
    starts from it, never runs out before the input does. *)
Fixpoint star_loop (body : option N -> jsstring -> captures -> cont -> option A)
         (greedy : bool) (k : cont) (fuel : nat)
         (prev : option N) (s : jsstring) (c : captures) : option A :=
  let iter :=
    match fuel with
    | O => None
    | S fuel' =>
        body prev s c
          (fun prev' s' c' =>
             if Nat.ltb (length s') (length s)
             then star_loop body greedy k fuel' prev' s' c' else None)
    end in
  if greedy then
    match iter with Some a => Some a | None => k prev s c end
  else
    match k prev s c with Some a => Some a | None => iter end.

(** The matcher explores alternatives in the order ECMAScript prescribes
    and answers with the first that lets the continuation succeed. *)
Fixpoint rmatch (r : regex) (prev : option N) (s : jsstring) (c : captures)
         (k : cont) {struct r} : option A :=
  match r with
  | REmpty => k prev s c
  | RChar p =>
      match s with
      | x :: s' => if p x then k (Some x) s' c else None
      | [] => None
      end
  | RSeq r1 r2 =>
      rmatch r1 prev s c (fun prev' s' c' => rmatch r2 prev' s' c' k)
  | RAlt r1 r2 =>
      match rmatch r1 prev s c k with
      | Some a => Some a
      | None => rmatch r2 prev s c k
      end
  | RStar greedy r1 => star_loop (rmatch r1) greedy k (length s) prev s c
  | RGroup n r1 =>
      rmatch r1 prev s c
        (fun prev' s' c' =>
           k prev' s' ((n, firstn (length s - length s') s) :: c'))
  | RBackref n =>
      match get_cap n c with
      | None => k prev s c
      | Some t =>
          if startsWith s t
          then k (last_unit prev t) (skipn (length t) s) c
          else None
      end
  | RWordB =>
      if xorb (word_at prev) (word_at (hd_error s)) then k prev s c else None
  end.

(** Continuations that agree on the inputs no longer than [s]. *)
Definition agree (k1 k2 : cont) (s : jsstring) : Prop :=
  forall prev' s' c', length s' <= length s -> k1 prev' s' c' = k2 prev' s' c'.

(** [reaches k s a]: the continuation [k] answers [a] on some suffix of [s]. *)
Definition reaches (k : cont) (s : jsstring) (a : A) : Prop :=
  exists prev' s' c' p, s = p ++ s' /\ k prev' s' c' = Some a.

End Matcher.

(** The result of a successful match at the current position. *)
Record match_result : Type := MatchResult {
  m_text : jsstring;       (* the matched substring *)
  m_caps : captures;
  m_rest : jsstring        (* the input after the match *)
}.

Definition exec_at (r : regex) (prev : option N) (s : jsstring)
  : option match_result :=
  rmatch r prev s []
    (fun _ s' c' => Some (MatchResult (firstn (length s - length s') s) c' s')).

(** [re.test(s)] *)
Fixpoint test_from (r : regex) (prev : option N) (s : jsstring) : bool :=
  match exec_at r prev s with
  | Some _ => true
  | None =>
      match s with
      | [] => false
      | x :: s' => test_from r (Some x) s'
      end
  end.

Definition test (r : regex) (s : jsstring) : bool := test_from r None s.

(** A global pattern cuts a string into its successive matches and the
    code units between them.  The scan is from left to right; after a match
    it resumes at the end of the match, or one code unit further when the
    match is empty.  [skip] counts the code units of the current match that
    are still to be passed over, so that the recursion is on the input. *)
Inductive piece : Type :=
| Kept (c : N)
| Matched (m : match_result).

Fixpoint scan_go (r : regex) (prev : option N) (s : jsstring) (skip : nat)
  : list piece :=
  match skip with
  | S skip' =>
      match s with
      | [] => []
      | x :: s' => scan_go r (Some x) s' skip'
      end
  | O =>
      match exec_at r prev s with
      | Some m =>
          Matched m ::
          match s with
          | [] => []
          | x :: s' =>
              match m_text m with
              | [] => Kept x :: scan_go r (Some x) s' 0
              | _ :: t => scan_go r (Some x) s' (length t)
              end
          end
      | None =>
          match s with
          | [] => []
          | x :: s' => Kept x :: scan_go r (Some x) s' 0
          end
      end
  end.

Definition scan (r : regex) (s : jsstring) : list piece := scan_go r None s 0.

(** The text a piece stands for. *)
Definition original (p : piece) : jsstring :=
  match p with
  | Kept c => [c]
  | Matched m => m_text m
  end.

(** [s.replace(re, f)] for a pattern with the [g] flag and a function [f]
    of the match and its captures. *)
Definition replaced (f : jsstring -> captures -> jsstring) (p : piece) : jsstring :=
  match p with
  | Kept c => [c]
  | Matched m => f (m_text m) (m_caps m)
  end.

Definition replace (r : regex) (f : jsstring -> captures -> jsstring)
           (s : jsstring) : jsstring :=
  flat_map (replaced f) (scan r s).

(** The matches of a global pattern in [s], from left to right: what a
    replacer that pushes each match onto an array collects. *)
Fixpoint matched (ps : list piece) : list match_result :=
  match ps with
  | [] => []
  | Kept _ :: ps' => matched ps'
  | Matched m :: ps' => m :: matched ps'
  end.

Definition matches (r : regex) (s : jsstring) : list jsstring :=
  map m_text (matched (scan r s)).

(** [s.replace(re, f)] where the replacer also depends on the number of
    matches replaced so far. *)
Fixpoint replaced_indexed (f : nat -> jsstring -> captures -> jsstring)
         (i : nat) (ps : list piece) : jsstring :=
  match ps with
  | [] => []
  | Kept c :: ps' => c :: replaced_indexed f i ps'
  | Matched m :: ps' => f i (m_text m) (m_caps m) ++ replaced_indexed f (S i) ps'
  end.

Definition replace_indexed (r : regex) (f : nat -> jsstring -> captures -> jsstring)
           (s : jsstring) : jsstring :=
  replaced_indexed f 0 (scan r s).

(** [s.replace(re, f)] for a pattern without the [g] flag: the leftmost
    match only; the replacer also receives what precedes and what follows. *)
Fixpoint search (r : regex) (prev : option N) (before : jsstring) (s : jsstring)
  : option (jsstring * match_result) :=
  match exec_at r prev s with
  | Some m => Some (rev before, m)
  | None =>
      match s with
      | [] => None
      | x :: s' => search r (Some x) (x :: before) s'
      end
  end.

(** *** Pattern combinators, named after the syntax they stand for *)

Definition lit (c : N) : regex := RChar (N.eqb c).
Definition ilit (c : N) : regex := RChar (fun x => N.eqb (upper x) (upper c)).

Fixpoint seq (rs : list regex) : regex :=
  match rs with
  | [] => REmpty
  | [r] => r
  | r :: rs' => RSeq r (seq rs')
  end.

Fixpoint alt (rs : list regex) : regex :=
  match rs with
  | [] => RChar (fun _ => false)
  | [r] => r
  | r :: rs' => RAlt r (alt rs')
  end.

(** [str "abc"] is the pattern [abc]; [istr] is the same under the [i] flag. *)
Definition str (s : string) : regex := seq (map lit (js s)).
Definition istr (s : string) : regex := seq (map ilit (js s)).

(** [[...]] and [[^...]] *)
Definition oneof (cs : jsstring) : regex :=
  RChar (fun x => existsb (N.eqb x) cs).
Definition noneof (cs : jsstring) : regex :=
  RChar (fun x => negb (existsb (N.eqb x) cs)).

Definition any : regex := RChar (fun _ => true).         (* [\s\S] *)
Definition space : regex := RChar is_space.              (* \s *)
Definition digit : regex := RChar is_digit.              (* \d *)

Definition star (r : regex) : regex := RStar true r.             (* r*  *)
Definition plus (r : regex) : regex := RSeq r (RStar true r).    (* r+  *)
Definition opt (r : regex) : regex := RAlt r REmpty.             (* r?  *)
Definition star_lazy (r : regex) : regex := RStar false r.       (* r*? *)
Definition plus_lazy (r : regex) : regex := RSeq r (RStar false r). (* r+? *)

(** *** What a pattern can match *)

(** [derives r prev s c prev' s' c']: the pattern [r] can match the prefix of
    [s] that ends where [s'] starts. *)
Inductive derives : regex -> option N -> jsstring -> captures ->
                    option N -> jsstring -> captures -> Prop :=
| DEmpty prev s c : derives REmpty prev s c prev s c
| DChar (p : N -> bool) prev x s c :
    p x = true -> derives (RChar p) prev (x :: s) c (Some x) s c
| DSeq r1 r2 prev s c p1 s1 c1 p2 s2 c2 :
    derives r1 prev s c p1 s1 c1 -> derives r2 p1 s1 c1 p2 s2 c2 ->
    derives (RSeq r1 r2) prev s c p2 s2 c2
| DAltL r1 r2 prev s c p1 s1 c1 :
    derives r1 prev s c p1 s1 c1 -> derives (RAlt r1 r2) prev s c p1 s1 c1
| DAltR r1 r2 prev s c p1 s1 c1 :
    derives r2 prev s c p1 s1 c1 -> derives (RAlt r1 r2) prev s c p1 s1 c1
| DStarStop g r prev s c : derives (RStar g r) prev s c prev s c
| DStarStep g r prev s c p1 s1 c1 p2 s2 c2 :
    derives r prev s c p1 s1 c1 -> length s1 < length s ->
    derives (RStar g r) p1 s1 c1 p2 s2 c2 ->
    derives (RStar g r) prev s c p2 s2 c2
| DGroup n r prev s c p1 s1 c1 :
    derives r prev s c p1 s1 c1 ->
    derives (RGroup n r) prev s c p1 s1
            ((n, firstn (length s - length s1) s) :: c1)
| DBackrefNone n prev s c :
    get_cap n c = None -> derives (RBackref n) prev s c prev s c
| DBackrefSome n t prev s c :
    get_cap n c = Some t -> startsWith s t = true ->
    derives (RBackref n) prev s c (last_unit prev t) (skipn (length t) s) c
| DWordB prev s c :
    xorb (word_at prev) (word_at (hd_error s)) = true ->
    derives RWordB prev s c prev s c.

(** [rejects x r]: no character class of [r] accepts [x], and [r] has no
    back-reference. *)
Fixpoint rejects (x : N) (r : regex) : bool :=
  match r with
  | REmpty | RWordB => true
  | RChar p => negb (p x)
  | RSeq r1 r2 | RAlt r1 r2 => rejects x r1 && rejects x r2
  | RStar _ r1 | RGroup _ r1 => rejects x r1
  | RBackref _ => false
  end.

(** [needs P r]: every match of [r] reads a character that satisfies [P]. *)
Fixpoint needs (P : N -> Prop) (r : regex) : Prop :=
  match r with
  | RChar p => forall x, p x = true -> P x
  | RSeq r1 r2 => needs P r1 \/ needs P r2
  | RAlt r1 r2 => needs P r1 /\ needs P r2
  | RGroup _ r1 => needs P r1
  | REmpty | RStar _ _ | RBackref _ | RWordB => False
  end.

(** [leads P r]: every match of [r] starts by reading a character that
    satisfies [P]. *)
Fixpoint leads (P : N -> Prop) (r : regex) : Prop :=
  match r with
  | RChar p => forall x, p x = true -> P x
  | RSeq r1 _ => leads P r1
  | RAlt r1 r2 => leads P r1 /\ leads P r2
  | RGroup _ r1 => leads P r1
  | REmpty | RStar _ _ | RBackref _ | RWordB => False
  end.

(** [groupless r]: [r] has no capture group. *)
Fixpoint groupless (r : regex) : bool :=
  match r with
  | RGroup _ _ => false
  | RSeq r1 r2 | RAlt r1 r2 => groupless r1 && groupless r2
  | RStar _ r1 => groupless r1
  | REmpty | RChar _ | RBackref _ | RWordB => true
  end.

End Regex.
Import Regex.

(* ===================================================================== *)
(** ** The Tracker Stripper *)
(* ===================================================================== *)

Module Stripper.

Definition ch (a : ascii) : N := N_of_ascii a.

(** An optional quote of either kind, as after [=] in the first pattern. *)
Definition any_quote_opt : regex := opt (oneof [DQUOTE; SQUOTE]).

(** (?:width|height)\s*=\s*["']?1["']? *)
Definition re_dimension_one : regex :=
  seq [ alt [istr "width"; istr "height"];
        star space; lit (ch "="); star space;
        any_quote_opt; lit (ch "1"); any_quote_opt ].

(** /<img[^>]+(?:width|height)\s*=\s*["']?1["']?[^>]+(?:width|height)\s*=\s*["']?1["']?[^>]*\/?>/gi *)
Definition re_tracking_pixel : regex :=
  seq [ istr "<img"; plus (noneof (js ">"));
        re_dimension_one;
        plus (noneof (js ">"));
        re_dimension_one;
        star (noneof (js ">")); opt (lit (ch "/")); lit (ch ">") ].

(** /<script[^>]*>[^<]*(?:google-analytics|googletagmanager|gtag|fbq|_gaq|ga\s*\(|analytics\.js|adsbygoogle|googlesyndication|doubleclick|hotjar|clarity|mixpanel|segment|amplitude|heap)[^<]*<\/script>/gi *)
Definition re_tracking_script : regex :=
  seq [ istr "<script"; star (noneof (js ">")); lit (ch ">");
        star (noneof (js "<"));
        alt [ istr "google-analytics"; istr "googletagmanager"; istr "gtag";
              istr "fbq"; istr "_gaq";
              seq [istr "ga"; star space; lit (ch "(")];
              istr "analytics.js"; istr "adsbygoogle"; istr "googlesyndication";
              istr "doubleclick"; istr "hotjar"; istr "clarity";
              istr "mixpanel"; istr "segment"; istr "amplitude"; istr "heap" ];
        star (noneof (js "<"));
        istr "</script>" ].

(** /<noscript[^>]*>\s*<img[^>]+(?:facebook\.com\/tr|google-analytics|googletagmanager|bat\.bing|analytics)[^>]*\/?>\s*<\/noscript>/gi *)
Definition re_tracking_noscript : regex :=
  seq [ istr "<noscript"; star (noneof (js ">")); lit (ch ">");
        star space;
        istr "<img"; plus (noneof (js ">"));
        alt [ istr "facebook.com/tr"; istr "google-analytics";
              istr "googletagmanager"; istr "bat.bing"; istr "analytics" ];
        star (noneof (js ">")); opt (lit (ch "/")); lit (ch ">");
        star space;
        istr "</noscript>" ].

(** [function stripTrackingElements(html)] *)
Definition stripTrackingElements (html : jsstring) : jsstring :=
  let html := replace re_tracking_pixel (fun _ _ => []) html in
  let html := replace re_tracking_script (fun _ _ => []) html in
  let html := replace re_tracking_noscript (fun _ _ => []) html in
  html.

(** *** The shape of the first pattern *)

Definition GT : N := ch ">".

(** [width=Q1] or [height=Q1], Q a double quote: the start of an attribute
    whose value begins with the digit 1. *)
Definition dimension_one (height : bool) : jsstring :=
  (if height then js "height" else js "width") ++ js "=" ++ [DQUOTE] ++ js "1".

(** An [<img>] tag with two such attributes: [a], [b] and [c] are what
    stands before, between and after them. *)
Definition img_tag (h1 h2 : bool) (a b c : jsstring) : jsstring :=
  js "<img" ++ a ++ dimension_one h1 ++ b ++ dimension_one h2 ++ c ++ [GT].

(** The pattern without its closing [>]. *)
Definition pixel_front : list regex :=
  [ istr "<img"; plus (noneof (js ">")); re_dimension_one;
    plus (noneof (js ">")); re_dimension_one;
    star (noneof (js ">")); opt (lit (ch "/")) ].

(** *** The words of the second pattern *)

(** The words of the second pattern, [ga\s*\(] apart: a script is removed
    for holding one of them. *)
Definition tracking_words : list string :=
  [ "google-analytics"; "googletagmanager"; "gtag"; "fbq"; "_gaq";
    "analytics.js"; "adsbygoogle"; "googlesyndication"; "doubleclick";
    "hotjar"; "clarity"; "mixpanel"; "segment"; "amplitude"; "heap" ]%string.

(** The text holds one of the words, in any case. *)
Definition mentions_tracker (body : jsstring) : bool :=
  existsb (fun w => includes (map lower body) (js w)) tracking_words.

(** The alternatives of the second pattern. *)
Definition tracking_alternatives : list regex :=
  [ istr "google-analytics"; istr "googletagmanager"; istr "gtag";
    istr "fbq"; istr "_gaq";
    seq [istr "ga"; star space; lit (ch "(")];
    istr "analytics.js"; istr "adsbygoogle"; istr "googlesyndication";
    istr "doubleclick"; istr "hotjar"; istr "clarity";
    istr "mixpanel"; istr "segment"; istr "amplitude"; istr "heap" ].

(** The text holds none of them, nor [ga]. *)
Definition tracker_free (body : jsstring) : bool :=
  negb (mentions_tracker body) && negb (includes (map lower body) (js "ga")).

End Stripper.
Import Stripper.


(* ===================================================================== *)
(** ** [encodeURIComponent] and [decodeURIComponent] *)
(* ===================================================================== *)

Module URI.

(** The unreserved set of [encodeURIComponent]: the ASCII letters and
    digits and the marks [- _ . ! ~ * ' ( )]. *)
Definition unreserved (c : N) : bool :=
  is_alpha c || is_digit c || existsb (N.eqb c) (js "-_.!~*'()").

Definition hex_digit (d : N) : N :=
  if (d <? 10)%N then (48 + d)%N else (55 + d)%N.

Definition hex_value (c : N) : option N :=
  if is_digit c then Some (c - 48)%N
  else if (65 <=? c)%N && (c <=? 70)%N then Some (c - 55)%N
  else if (97 <=? c)%N && (c <=? 102)%N then Some (c - 87)%N
  else None.

Definition PERCENT : N := 37.

(** One octet as [%XX], the digits in upper case. *)
Definition escape_octet (b : N) : jsstring :=
  [PERCENT; hex_digit (b / 16); hex_digit (b mod 16)]%N.

(** The UTF-8 encoding of a code point. *)
Definition utf8_encode (cp : N) : list N :=
  if (cp <? 128)%N then [cp]
  else if (cp <? 2048)%N then
    [192 + cp / 64; 128 + cp mod 64]%N
  else if (cp <? 65536)%N then
    [224 + cp / 4096; 128 + (cp / 64) mod 64; 128 + cp mod 64]%N
  else
    [240 + cp / 262144; 128 + (cp / 4096) mod 64;
     128 + (cp / 64) mod 64; 128 + cp mod 64]%N.

Definition is_lead_surrogate (c : N) : bool := (55296 <=? c)%N && (c <=? 56319)%N.
Definition is_trail_surrogate (c : N) : bool := (56320 <=? c)%N && (c <=? 57343)%N.

(** [encodeURIComponent(s)]; [None] is the [URIError] thrown at an unpaired
    surrogate. *)
Fixpoint encodeURIComponent (s : jsstring) : option jsstring :=
  match s with
  | [] => Some []
  | c :: s' =>
      if unreserved c then option_map (cons c) (encodeURIComponent s')
      else if is_trail_surrogate c then None
      else if is_lead_surrogate c then
        match s' with
        | d :: s'' =>
            if is_trail_surrogate d then
              let cp := ((c - 55296) * 1024 + (d - 56320) + 65536)%N in
              option_map (app (flat_map escape_octet (utf8_encode cp)))
                         (encodeURIComponent s'')
            else None
        | [] => None
        end
      else
        option_map (app (flat_map escape_octet (utf8_encode c)))
                   (encodeURIComponent s')
  end.

(** The octet written [%h1h2]. *)
Definition octet_of (h1 h2 : N) : option N :=
  match hex_value h1, hex_value h2 with
  | Some a, Some b => Some (16 * a + b)%N
  | _, _ => None
  end.

(** A continuation octet [%h1h2] of a multi-octet sequence. *)
Definition continuation (p h1 h2 : N) : option N :=
  if N.eqb p PERCENT then
    match octet_of h1 h2 with
    | Some b => if (128 <=? b)%N && (b <? 192)%N then Some (b - 128)%N else None
    | None => None
    end
  else None.

(** The code point of a sequence of [n] octets with payload [v], when the
    sequence is the valid UTF-8 encoding of one: not over-long, no
    surrogate, at most 0x10FFFF. *)
Definition code_point (n : nat) (v : N) : option N :=
  let ok :=
    match n with
    | 2 => (128 <=? v)%N
    | 3 => (2048 <=? v)%N && negb ((55296 <=? v)%N && (v <=? 57343)%N)
    | 4 => (65536 <=? v)%N && (v <=? 1114111)%N
    | _ => false
    end in
  if ok then Some v else None.

(** A Unicode scalar value: a code point that is not a surrogate. *)
Definition scalar (cp : N) : Prop :=
  (cp < 1114112)%N /\ ~ (55296 <= cp <= 57343)%N.

(** UTF16EncodeCodePoint *)
Definition utf16_encode (cp : N) : jsstring :=
  if (cp <? 65536)%N then [cp]
  else [55296 + (cp - 65536) / 1024; 56320 + (cp - 65536) mod 1024]%N.

Definition decoded (n : nat) (v : N) (rest : option jsstring) : option jsstring :=
  match code_point n v, rest with
  | Some cp, Some r => Some (utf16_encode cp ++ r)
  | _, _ => None
  end.

(** [decodeURIComponent(s)]; [None] is the [URIError] thrown at a malformed
    escape sequence. *)
Fixpoint decodeURIComponent (s : jsstring) : option jsstring :=
  match s with
  | [] => Some []
  | c :: s1 =>
      if negb (N.eqb c PERCENT) then option_map (cons c) (decodeURIComponent s1)
      else
        match s1 with
        | h1 :: h2 :: s2 =>
            match octet_of h1 h2 with
            | None => None
            | Some b =>
                if (b <? 128)%N then
                  option_map (cons b) (decodeURIComponent s2)
                else if (b <? 192)%N then None
                else if (b <? 224)%N then
                  match s2 with
                  | p1 :: x1 :: y1 :: s3 =>
                      match continuation p1 x1 y1 with
                      | Some b1 =>
                          decoded 2 ((b - 192) * 64 + b1) (decodeURIComponent s3)
                      | None => None
                      end
                  | _ => None
                  end
                else if (b <? 240)%N then
                  match s2 with
                  | p1 :: x1 :: y1 :: p2 :: x2 :: y2 :: s3 =>
                      match continuation p1 x1 y1, continuation p2 x2 y2 with
                      | Some b1, Some b2 =>
                          decoded 3 ((b - 224) * 4096 + b1 * 64 + b2)
                                  (decodeURIComponent s3)
                      | _, _ => None
                      end
                  | _ => None
                  end
                else if (b <? 248)%N then
                  match s2 with
                  | p1 :: x1 :: y1 :: p2 :: x2 :: y2 :: p3 :: x3 :: y3 :: s3 =>
                      match continuation p1 x1 y1, continuation p2 x2 y2,
                            continuation p3 x3 y3 with
                      | Some b1, Some b2, Some b3 =>
                          decoded 4 ((b - 240) * 262144 + b1 * 4096 + b2 * 64 + b3)
                                  (decodeURIComponent s3)
                      | _, _, _ => None
                      end
                  | _ => None
                  end
                else None
            end
        | _ => None
        end
  end.

End URI.
Import URI.

(* ===================================================================== *)
(** ** What the server takes from its platform *)
(* ===================================================================== *)

(** The [URL] class of Node (the WHATWG URL Standard).  [URL_new input base]
    is [new URL(input, base)], [None] when the constructor throws;
    [searchParams_append u k v] is [u] after [u.searchParams.append(k, v)]. *)
Class URLClass : Type := {
  url : Set;
  URL_new : jsstring -> option jsstring -> option url;
  url_href : url -> jsstring;
  url_protocol : url -> jsstring;
  url_hostname : url -> jsstring;
  searchParams_append : url -> jsstring -> jsstring -> url
}.

(** [new URL(input, base).href] *)
Definition resolve_href `{URLClass} (input base : jsstring) : option jsstring :=
  option_map url_href (URL_new input (Some base)).

(* ===================================================================== *)
(** ** The Rewrite Engine *)
(* ===================================================================== *)

Module Rewrite.

Definition PROXY_PREFIX : jsstring := js "/proxy/".

(** The chain of [replace] calls that opens [toProxyUrl]:
    [&amp;], [&lt;], [&gt;], [&quot;], [&#39;] in this order. *)
Definition decodeEntities (raw : jsstring) : jsstring :=
  let raw := replace (str "&amp;") (fun _ _ => js "&") raw in
  let raw := replace (str "&lt;") (fun _ _ => js "<") raw in
  let raw := replace (str "&gt;") (fun _ _ => js ">") raw in
  let raw := replace (str "&quot;") (fun _ _ => [DQUOTE]) raw in
  let raw := replace (str "&#39;") (fun _ _ => [SQUOTE]) raw in
  raw.

Definition AMP : N := ch "&".

(** ['/proxy/' + encodeURIComponent(new URL(path, base).href)], [None] when
    either call throws. *)
Definition proxied `{URLClass} (path base : jsstring) : option jsstring :=
  match resolve_href path base with
  | Some resolved =>
      match encodeURIComponent resolved with
      | Some e => Some (PROXY_PREFIX ++ e)
      | None => None
      end
  | None => None
  end.

Section RewriteUrls.

Context `{URLClass}.
Variable baseUrl : jsstring.

(** [function toProxyUrl(raw)], local to [rewriteUrls].  The assignment to
    [raw] precedes the call that may throw, so the [catch] branch returns the
    string with its entities decoded. *)
Definition toProxyUrl (raw : jsstring) : jsstring :=
  let raw := decodeEntities raw in
  match proxied raw baseUrl with
  | Some p => p
  | None => raw
  end.

(** The guard of the two attribute replacers. *)
Definition attr_exempt (u : jsstring) : bool :=
  startsWith u (js "data:") || startsWith u (js "javascript:")
  || startsWith u (js "#").

(** (href|src|action) *)
Definition re_attr_name : regex :=
  alt [istr "href"; istr "src"; istr "action"].

(** /(<[^>]+\s)(href|src|action)\s*=\s*Q([^Q]*?)Q/gi, where Q is the quote
    character [q]. *)
Definition re_attr (q : N) : regex :=
  seq [ RGroup 1 (seq [lit (ch "<"); plus (noneof (js ">")); space]);
        RGroup 2 re_attr_name;
        star space; lit (ch "="); star space;
        lit q; RGroup 3 (star_lazy (noneof [q])); lit q ].

(** (match, pre, attr, url) => ... *)
Definition attr_replace (q : N) (m pre attr u : jsstring) : jsstring :=
  if attr_exempt u then m
  else pre ++ attr ++ js "=" ++ [q] ++ toProxyUrl u ++ [q].

Definition attr_replacer (q : N) (m : jsstring) (c : captures) : jsstring :=
  attr_replace q m (cap 1 c) (cap 2 c) (cap 3 c).

(** [entry.trim()] *)
Fixpoint trimStart (s : jsstring) : jsstring :=
  match s with
  | x :: s' => if is_space x then trimStart s' else s
  | [] => []
  end.

Definition trim (s : jsstring) : jsstring :=
  rev (trimStart (rev (trimStart s))).

(** [s.split(/\s+/)] *)
Fixpoint split_spaces_go (in_space : bool) (s : jsstring) : list jsstring :=
  match s with
  | [] => [[]]
  | x :: s' =>
      if is_space x then
        if in_space then split_spaces_go true s'
        else [] :: split_spaces_go true s'
      else
        match split_spaces_go false s' with
        | p :: ps => (x :: p) :: ps
        | [] => [[x]]
        end
  end.

Definition split_spaces (s : jsstring) : list jsstring :=
  split_spaces_go false s.

(** entry => { parts = entry.trim().split(/\s+/); if (parts[0]) ...; join } *)
Definition srcset_entry (entry : jsstring) : jsstring :=
  match split_spaces (trim entry) with
  | [] => []
  | p0 :: ps =>
      let p0 := match p0 with [] => [] | _ => toProxyUrl p0 end in
      join (js " ") (p0 :: ps)
  end.

Definition re_srcset : regex :=
  seq [ istr "srcset"; star space; lit (ch "="); star space;
        lit DQUOTE; RGroup 1 (star (noneof [DQUOTE])); lit DQUOTE ].

Definition srcset_replacer (m : jsstring) (c : captures) : jsstring :=
  let value := cap 1 c in
  let rewritten := join (js ", ") (map srcset_entry (split_on (ch ",") value)) in
  js "srcset=" ++ dq rewritten.

(** /<script[\s\S]*?<\/script>/gi *)
Definition re_script_block : regex :=
  seq [ istr "<script"; star_lazy any; istr "</script>" ].

Definition decimal (n : nat) : jsstring :=
  js (DecimalString.NilZero.string_of_uint (Nat.to_uint n)).

Definition script_placeholder (i : nat) : jsstring :=
  js "<!--DS" ++ decimal i ++ js "-->".

(** The pattern of [url(...)], shared by the HTML and the CSS pipelines:
    url, an opening parenthesis, white space, an optional quote, group 1
    made of one or more characters other than a quote or a closing
    parenthesis (lazy), an optional quote, white space, a closing
    parenthesis; flags [gi]. *)
Definition re_css_url : regex :=
  seq [ istr "url("; star space; opt (oneof [SQUOTE; DQUOTE]);
        RGroup 1 (plus_lazy (noneof [SQUOTE; DQUOTE; ch ")"]));
        opt (oneof [SQUOTE; DQUOTE]); star space; lit (ch ")") ].

(** (match, url) => ... *)
Definition css_url_replace (m u : jsstring) : jsstring :=
  if startsWith u (js "data:") then m
  else js "url('" ++ toProxyUrl u ++ js "')".

Definition css_url_replacer (m : jsstring) (c : captures) : jsstring :=
  css_url_replace m (cap 1 c).

(** /<!--DS(\d+)-->/g *)
Definition re_placeholder : regex :=
  seq [ str "<!--DS"; RGroup 1 (plus digit); str "-->" ].

(** [scripts[i]] for a string [i] of digits: the property exists when [i]
    is the decimal form of an index of the array. *)
Fixpoint array_get (a : list jsstring) (n : nat) (key : jsstring)
  : option jsstring :=
  match a with
  | [] => None
  | x :: a' => if eqb (decimal n) key then Some x else array_get a' (S n) key
  end.

(** (_, i) => scripts[i]; [undefined] is converted to a string by [replace]. *)
Definition restore_replacer (scripts : list jsstring)
           (m : jsstring) (c : captures) : jsstring :=
  match array_get scripts 0 (cap 1 c) with
  | Some sc => sc
  | None => js "undefined"
  end.

(** [function rewriteUrls(html, baseUrl)]; [None] when [new URL(baseUrl)]
    throws. *)
Definition rewriteUrls (html : jsstring) : option jsstring :=
  match URL_new baseUrl None with
  | None => None
  | Some _ =>
      let html := replace (re_attr DQUOTE) (attr_replacer DQUOTE) html in
      let html := replace (re_attr SQUOTE) (attr_replacer SQUOTE) html in
      let html := replace re_srcset srcset_replacer html in
      let scripts := matches re_script_block html in
      let html :=
        replace_indexed re_script_block (fun i _ _ => script_placeholder i) html in
      let html := replace re_css_url css_url_replacer html in
      let html := replace re_placeholder (restore_replacer scripts) html in
      Some html
  end.

End RewriteUrls.

(** [req.params[0]] for the path of a request: Express matches the route
    [/proxy/*] against the path and hands the text after [/proxy/] over
    percent-decoded, by a [decodeURIComponent] of its own; [None] when the
    path is outside the route or holds a malformed escape sequence, which
    Express answers itself. *)
Definition express_param (path : jsstring) : option jsstring :=
  if startsWith path PROXY_PREFIX
  then decodeURIComponent (skipn (length PROXY_PREFIX) path)
  else None.

(** The target that the Dispatcher reads off a ProxyReference:
    [decodeURIComponent(req.params[0])], which decodes once more the
    parameter that Express has decoded already. *)
Definition target_of_reference (p : jsstring) : option jsstring :=
  match express_param p with
  | Some param => decodeURIComponent param
  | None => None
  end.

(** *** The shape of the references in a document *)

Definition LT : N := ch "<".
Definition EQUALS : N := ch "=".
Definition LPAREN : N := ch "(".
Definition RPAREN : N := ch ")".

(** The start of a tag up to one of its attributes: [<], the name of the
    tag and what follows it ([body]), a white space character, the name of
    the attribute, [=], and the value between two quotes [q]. *)
Definition attr_tag (body : jsstring) (sp : N) (attr : jsstring) (q : N)
           (value : jsstring) : jsstring :=
  LT :: body ++ sp :: attr ++ EQUALS :: q :: value ++ [q].

(** The attributes that [rewriteUrls] rewrites. *)
Definition attr_names : list jsstring := [js "href"; js "src"; js "action"].

(** Every [<] of the text is followed, somewhere in the text, by a [>]. *)
Fixpoint tags_closed (s : jsstring) : bool :=
  match s with
  | [] => true
  | x :: s' =>
      (if N.eqb x LT then existsb (N.eqb GT) s' else true) && tags_closed s'
  end.

(** A script element: [<script], the rest of the opening tag, [>], the
    body and the closing tag. *)
Definition script_element (a body : jsstring) : jsstring :=
  js "<script" ++ a ++ GT :: body ++ js "</script>".

(** A text in which the passes of [rewriteUrls] after the attributes have
    nothing to match: it contains neither [srcset], nor [<script], nor
    [url(], nor [<!--DS], in any case. *)
Definition quiet (s : jsstring) : bool :=
  let l := map lower s in
  negb (includes l (js "srcset")) && negb (includes l (js "<script"))
  && negb (includes l (js "url(")) && negb (includes l (js "<!--ds")).

(** A reference without a quote, a closing parenthesis or white space. *)
Definition bare (u : jsstring) : bool :=
  forallb (fun x => negb (existsb (N.eqb x) [SQUOTE; DQUOTE; RPAREN])
                    && negb (is_space x)) u.

(** Nothing, or one quote of either kind. *)
Definition quote_opt (q : jsstring) : Prop :=
  q = [] \/ q = [SQUOTE] \/ q = [DQUOTE].

(** [url(u)], with a quote or none on either side of [u]. *)
Definition css_url (q1 u q2 : jsstring) : jsstring :=
  js "url(" ++ q1 ++ u ++ q2 ++ [RPAREN].

(** *** The candidates of a [srcset] attribute *)

Definition COMMA : N := ch ",".
Definition SPACE : N := ch " ".

(** A token of a [srcset] value: not empty, without white space, comma or
    quote. *)
Definition token (t : jsstring) : bool :=
  match t with [] => false | _ => true end
  && forallb (fun c => negb (is_space c) && negb (N.eqb c COMMA)) t
  && no_quote t.

(** An image candidate, a URL followed by its descriptors, and a [srcset]
    value, a list of candidates. *)
Definition candidate (c : jsstring * list jsstring) : jsstring :=
  join [SPACE] (fst c :: snd c).

Definition well_formed (c : jsstring * list jsstring) : bool :=
  token (fst c) && forallb token (snd c).

Definition srcset_value (cs : list (jsstring * list jsstring)) : jsstring :=
  join [COMMA; SPACE] (map candidate cs).

(** A text in which the passes of [rewriteUrls] after [srcset] have nothing
    to do. *)
Definition calm (s : jsstring) : bool :=
  let l := map lower s in
  negb (includes l (js "<script")) && negb (includes l (js "url("))
  && negb (includes l (js "<!--ds")).

(** The candidate that the [srcset] pass makes of a candidate. *)
Definition proxied_candidate `{URLClass} (baseUrl : jsstring)
           (c : jsstring * list jsstring) : jsstring * list jsstring :=
  (toProxyUrl baseUrl (fst c), snd c).

(** A comment that reads as a placeholder: [<!--DS], digits, [-->]. *)
Definition ds_comment (d : jsstring) : jsstring := js "<!--DS" ++ d ++ js "-->".

End Rewrite.
Import Rewrite.

(* ===================================================================== *)
(** ** The CSS and the JS pipelines *)
(* ===================================================================== *)

(** Both are written inline in the fetch callback of the [/proxy/*] handler
    and close over its [finalUrl]. *)
Module Pipelines.

Section WithFinalUrl.

Context `{URLClass}.
Variable finalUrl : jsstring.

(** The replacer of the CSS branch: the [try] covers the resolution and the
    encoding, and the [catch] returns the match. *)
Definition css_replace (m u : jsstring) : jsstring :=
  if startsWith u (js "data:") then m
  else match proxied u finalUrl with
       | Some p => js "url('" ++ p ++ js "')"
       | None => m
       end.

Definition css_replacer (m : jsstring) (c : captures) : jsstring :=
  css_replace m (cap 1 c).

(** The CSS branch: [css.replace(/url\(...\)/gi, ...)]. *)
Definition rewriteCss (css : jsstring) : jsstring :=
  replace re_css_url css_replacer css.

(** [function resolveJsPath(relPath)] *)
Definition resolveJsPath (relPath : jsstring) : jsstring :=
  match proxied relPath finalUrl with
  | Some p => p
  | None => relPath
  end.

Definition re_quote : regex := oneof [DQUOTE; SQUOTE].
Definition re_not_quote : regex := noneof [DQUOTE; SQUOTE].

(** A path that starts with [./] or [../] and runs up to the next quote. *)
Definition re_relative_path : regex :=
  seq [ lit (ch "."); opt (lit (ch ".")); lit (ch "/"); plus re_not_quote ].

(** The static and the side-effect imports: group 1 is a word boundary, the
    keyword [kw] and white space; group 2 a quote; group 3 a relative path;
    then the quote of group 2 again; flag [g]. *)
Definition re_import (kw : string) : regex :=
  seq [ RGroup 1 (seq [RWordB; str kw; star space]);
        RGroup 2 re_quote; RGroup 3 re_relative_path; RBackref 2 ].

(** (match, prefix, quote, path) => ... *)
Definition import_replace (m prefix q p : jsstring) : jsstring :=
  prefix ++ q ++ resolveJsPath p ++ q.

Definition import_replacer (m : jsstring) (c : captures) : jsstring :=
  import_replace m (cap 1 c) (cap 2 c) (cap 3 c).

(** The dynamic import: as above with an opening parenthesis in group 1 and
    the closing one, after white space, in group 4; flag [g]. *)
Definition re_dynamic_import : regex :=
  seq [ RGroup 1 (seq [RWordB; str "import"; star space; lit (ch "("); star space]);
        RGroup 2 re_quote; RGroup 3 re_relative_path; RBackref 2;
        RGroup 4 (seq [star space; lit (ch ")")]) ].

Definition dynamic_import_replacer (m : jsstring) (c : captures) : jsstring :=
  cap 1 c ++ cap 2 c ++ resolveJsPath (cap 3 c) ++ cap 2 c ++ cap 4 c.

(** A double-quoted string that starts with [assets/]. *)
Definition re_asset_string (group : bool) : regex :=
  let body := seq [str "assets/"; plus (noneof [DQUOTE])] in
  seq [ lit DQUOTE; (if group then RGroup 1 body else body); lit DQUOTE ].

(** An array literal of such strings, as bundlers emit them. *)
Definition re_asset_array : regex :=
  RGroup 1
    (seq [ lit (ch "[");
           plus (seq [ star space; re_asset_string false;
                       opt (seq [star space; lit (ch ",")]) ]);
           star space; lit (ch "]") ]).

Definition asset_string_replacer (m : jsstring) (c : captures) : jsstring :=
  match proxied (js "/" ++ cap 1 c) finalUrl with
  | Some p => dq p
  | None => m
  end.

Definition asset_array_replacer (m : jsstring) (c : captures) : jsstring :=
  replace (re_asset_string true) asset_string_replacer m.

(** The [url(...)] pattern of the JS branch: group 1 starts with [./] or
    [../]; flags [gi]. *)
Definition re_js_url : regex :=
  seq [ istr "url("; star space; opt (oneof [SQUOTE; DQUOTE]);
        RGroup 1 (seq [ lit (ch "."); opt (lit (ch ".")); lit (ch "/");
                        plus_lazy (noneof [SQUOTE; DQUOTE; ch ")"]) ]);
        opt (oneof [SQUOTE; DQUOTE]); star space; lit (ch ")") ].

Definition js_url_replace (m u : jsstring) : jsstring :=
  if startsWith u (js "data:") then m
  else js "url('" ++ resolveJsPath u ++ js "')".

Definition js_url_replacer (m : jsstring) (c : captures) : jsstring :=
  js_url_replace m (cap 1 c).

(** [new URL(Q path Q, import.meta.url)] with white space allowed around the
    arguments: group 1 is the quote, group 2 the path; flag [g]. *)
Definition re_new_url : regex :=
  seq [ str "new"; plus space; str "URL("; star space;
        RGroup 1 re_quote; RGroup 2 (plus re_not_quote); RBackref 1;
        star space; lit (ch ","); star space; str "import.meta.url";
        star space; lit (ch ")") ].

Definition new_url_exempt (p : jsstring) : bool :=
  startsWith p (js "data:") || startsWith p (js "http:")
  || startsWith p (js "https:") || startsWith p PROXY_PREFIX.

(** (match, quote, path) => ... *)
Definition new_url_replace (m q p : jsstring) : jsstring :=
  if new_url_exempt p then m
  else js "new URL(" ++ q ++ resolveJsPath p ++ q ++ js ", import.meta.url)".

Definition new_url_replacer (m : jsstring) (c : captures) : jsstring :=
  new_url_replace m (cap 1 c) (cap 2 c).

(** (?:woff2?|ttf|otf|eot|png|jpe?g|gif|svg|webp|avif|ico|mp[34]|webm|ogg|wav|json) *)
Definition re_asset_extension : regex :=
  alt [ seq [istr "woff"; opt (lit (ch "2"))]; istr "ttf"; istr "otf";
        istr "eot"; istr "png";
        seq [istr "jp"; opt (ilit (ch "e")); istr "g"];
        istr "gif"; istr "svg"; istr "webp"; istr "avif"; istr "ico";
        seq [istr "mp"; oneof (js "34")];
        istr "webm"; istr "ogg"; istr "wav"; istr "json" ].

(** A quoted root-relative path that ends in one of these extensions. *)
Definition re_asset_path : regex :=
  seq [ RGroup 1 re_quote;
        RGroup 2 (seq [ lit (ch "/"); star re_not_quote; lit (ch ".");
                        re_asset_extension ]);
        RBackref 1 ].

Definition asset_path_replace (m q p : jsstring) : jsstring :=
  if startsWith p PROXY_PREFIX then m
  else match proxied p finalUrl with
       | Some r => q ++ r ++ q
       | None => m
       end.

Definition asset_path_replacer (m : jsstring) (c : captures) : jsstring :=
  asset_path_replace m (cap 1 c) (cap 2 c).

(** The JS branch, pass after pass. *)
Definition rewriteJs (code : jsstring) : jsstring :=
  let code := replace (re_import "from") import_replacer code in
  let code := replace (re_import "import") import_replacer code in
  let code := replace re_dynamic_import dynamic_import_replacer code in
  let code := replace re_asset_array asset_array_replacer code in
  let code := replace re_js_url js_url_replacer code in
  let code := replace re_new_url new_url_replacer code in
  let code := replace re_asset_path asset_path_replacer code in
  code.

End WithFinalUrl.

(** *** The shape of an import *)

(** An import: the keyword, white space, and the specifier of the module
    between two quotes [q]. *)
Definition import_stmt (kw ws : jsstring) (q : N) (path : jsstring) : jsstring :=
  kw ++ ws ++ q :: path ++ [q].

(** A specifier that starts with [./] or [../] and does not end there. *)
Definition relative (path : jsstring) : bool :=
  (startsWith path (js "./") && (2 <? length path))
  || (startsWith path (js "../") && (3 <? length path)).

(** *** The shape of an asset path *)

(** The extensions of the last pattern that are one word. *)
Definition asset_extensions : list string :=
  [ "ttf"; "otf"; "eot"; "png"; "gif"; "svg"; "webp"; "avif"; "ico";
    "webm"; "ogg"; "wav"; "json" ]%string.

(** A root-relative path to an asset: [/], a stem, a dot and one of these
    extensions, in any case. *)
Definition asset_path (stem ext : jsstring) : jsstring :=
  ch "/" :: stem ++ ch "." :: ext.

Definition asset_extension (ext : jsstring) : bool :=
  existsb (fun w => eqb (map lower ext) (js w)) asset_extensions.

(** A string literal after an assignment or the like: the text before it
    ends with the character [l] and white space. *)
Definition literal_after (pre : jsstring) (l : N) (ws : jsstring) (q : N)
           (value : jsstring) : jsstring :=
  pre ++ l :: ws ++ q :: value ++ [q].

End Pipelines.
Import Pipelines.

(* ===================================================================== *)
(** ** The Redirect-Following Fetcher *)
(* ===================================================================== *)

Module Fetcher.

Definition MAX_REDIRECTS : nat := 10.

(** Response headers as Node delivers them: names in lower case. *)
Definition header_map := list (jsstring * jsstring).

Fixpoint header (name : jsstring) (h : header_map) : option jsstring :=
  match h with
  | [] => None
  | (k, v) :: h' => if eqb k name then Some v else header name h'
  end.

(** [x || d] for a string that may be [undefined]. *)
Definition or_default (x : option jsstring) (d : jsstring) : jsstring :=
  match x with
  | Some ((_ :: _) as v) => v
  | _ => d
  end.

(** What one [protocol.get] leads to, as far as the handlers that
    [fetchWithRedirects] installs can tell. *)
Inductive hop : Type :=
| HopThrows (message : jsstring)
    (* the call itself throws, as for a protocol the module does not serve *)
| HopResponse (statusCode : N) (headers : header_map) (body : list N)
    (* the response callback runs and, unless drained, the body ends; what a
       drained request may still report is the matter of [late_errors] *)
| HopError (message : jsstring)
    (* the request emits ['error'] *)
| HopTimeout (late_error : option jsstring).
    (* the 10 s timer fires; the request is destroyed and may emit ['error'] *)

Record fetch_response : Type := FetchResponse {
  statusCode : N;
  headers : header_map;
  body : list N;
  finalUrl : jsstring
}.

(** The two arguments of the callback: [(err, null)] or [(null, response)],
    an error being known by its [message]. *)
Inductive callback_args : Type :=
| CbError (message : jsstring)
| CbResponse (r : fetch_response).

(** What a logical fetch does, in order. *)
Inductive event : Type :=
| EvRequest (secure : bool) (targetUrl : jsstring) (accept : jsstring)
| EvCallback (a : callback_args)
| EvUncaught.   (* an exception leaves an event handler *)

Record fetch_options : Type := FetchOptions { accept : jsstring }.

Definition TOO_MANY_REDIRECTS : jsstring := js "Too many redirects".
Definition REQUEST_TIMED_OUT : jsstring := js "Request timed out".
Definition INVALID_URL : jsstring := js "Invalid URL".

Definition is_redirect (status : N) (h : header_map) : option jsstring :=
  if (300 <=? status)%N && (status <? 400)%N then
    match header (js "location") h with
    | Some ((_ :: _) as location) => Some location
    | _ => None
    end
  else None.

Section Fetch.

Context `{URLClass}.

(** The network: [http_get secure n targetUrl accept] is the fate of the
    request that the [n]-th hop of a logical fetch sends to [targetUrl]
    through the [https] module ([secure]) or the [http] module. *)
Variable http_get : bool -> nat -> jsstring -> jsstring -> hop.

(** [function fetchWithRedirects(targetUrl, redirectCount, callback, options)],
    as the trace of the requests it sends and of its calls of [callback]. *)
Equations? fetchWithRedirects (targetUrl : jsstring) (redirectCount : nat)
           (options : option fetch_options) : list event
  by wf (S MAX_REDIRECTS - redirectCount) lt :=
fetchWithRedirects targetUrl redirectCount options
  with gt_dec redirectCount MAX_REDIRECTS := {
  | left _ => [EvCallback (CbError TOO_MANY_REDIRECTS)]
  | right Hle =>
      match URL_new targetUrl None with
      | None => [EvCallback (CbError INVALID_URL)]
      | Some parsedUrl =>
          let secure := eqb (url_protocol parsedUrl) (js "https:") in
          let accept := or_default (option_map accept options) (js "*/*") in
          match http_get secure redirectCount targetUrl accept with
          | HopThrows message => [EvCallback (CbError message)]
          | HopResponse statusCode headers body =>
              EvRequest secure targetUrl accept ::
              match is_redirect statusCode headers with
              | Some location =>
                  match URL_new location (Some targetUrl) with
                  | Some redirectUrl =>
                      fetchWithRedirects (url_href redirectUrl)
                                         (redirectCount + 1) options
                  | None => [EvUncaught]
                  end
              | None =>
                  [EvCallback
                     (CbResponse (FetchResponse statusCode headers body targetUrl))]
              end
          | HopError message =>
              [EvRequest secure targetUrl accept; EvCallback (CbError message)]
          | HopTimeout late_error =>
              EvRequest secure targetUrl accept ::
              EvCallback (CbError REQUEST_TIMED_OUT) ::
              match late_error with
              | Some message => [EvCallback (CbError message)]
              | None => []
              end
          end
      end }.
Proof.
  clear fetchWithRedirects. unfold MAX_REDIRECTS in *.
  do 11 (destruct redirectCount as [|redirectCount]; [simpl; lia|]). lia.
Qed.

(** *** Redirect chains

    The vocabulary in which the bound on redirects is stated. *)

(** The value of the [Accept] header that [fetchWithRedirects] sends. *)
Definition accept_of (options : option fetch_options) : jsstring :=
  or_default (option_map accept options) (js "*/*").

(** Which module the request for [targetUrl] goes through. *)
Definition secure_of (targetUrl : jsstring) : bool :=
  match URL_new targetUrl None with
  | Some parsedUrl => eqb (url_protocol parsedUrl) (js "https:")
  | None => false
  end.

(** At hop [n] the request for [from] is answered by a redirection whose
    [Location] resolves to [to]. *)
Definition redirected (acc : jsstring) (n : nat) (from to : jsstring) : Prop :=
  exists parsedUrl statusCode headers body location redirectUrl,
    URL_new from None = Some parsedUrl
    /\ http_get (eqb (url_protocol parsedUrl) (js "https:")) n from acc
       = HopResponse statusCode headers body
    /\ is_redirect statusCode headers = Some location
    /\ URL_new location (Some from) = Some redirectUrl
    /\ url_href redirectUrl = to.

(** A chain of [hops] redirections through [u 0], [u 1], ..., [u hops]. *)
Definition redirect_chain (acc : jsstring) (u : nat -> jsstring) (hops : nat)
  : Prop :=
  forall i, i < hops -> redirected acc i (u i) (u (S i)).

(** At hop [n] the request for [target] is answered by the terminal
    response [r]. *)
Definition answered (acc : jsstring) (n : nat) (target : jsstring)
           (r : fetch_response) : Prop :=
  exists parsedUrl,
    URL_new target None = Some parsedUrl
    /\ http_get (eqb (url_protocol parsedUrl) (js "https:")) n target acc
       = HopResponse (statusCode r) (headers r) (body r)
    /\ is_redirect (statusCode r) (headers r) = None
    /\ finalUrl r = target.

(** The requests for [u first], ..., [u (first + count - 1)], in order. *)
Definition requests (acc : jsstring) (u : nat -> jsstring) (first count : nat)
  : list event :=
  map (fun i => EvRequest (secure_of (u i)) (u i) acc) (List.seq first count).

End Fetch.

(** The ways in which a logical fetch can end: an exception leaves the
    response handler, the callback is called once, or it is called with the
    timeout and then with the error of the destroyed request. *)
Definition fetch_end (tail : list event) : Prop :=
  tail = [EvUncaught]
  \/ (exists a, tail = [EvCallback a])
  \/ (exists message,
        tail = [EvCallback (CbError REQUEST_TIMED_OUT); EvCallback (CbError message)]).

(** *** The error of a redirected request

    The request that a redirection answers keeps its ['error'] listener:
    only its timeout is cancelled.  Should its socket fail while the
    response is drained, the callback is called with the error, at whatever
    point the fetch has reached by then.  [late_errors sent trace full]:
    [full] is [trace] with such calls put in at points that a request
    precedes, [sent] telling whether one precedes the start of [trace].  The
    points after a request that is not redirected are allowed as well, and
    any number of calls: every run of the code is among the [full] of its
    [trace]. *)
Definition is_request (e : event) : bool :=
  match e with
  | EvRequest _ _ _ => true
  | _ => false
  end.

Inductive late_errors : bool -> list event -> list event -> Prop :=
| LateEnd (sent : bool) : late_errors sent [] []
| LateStep (sent : bool) (e : event) (trace full : list event) :
    late_errors (sent || is_request e) trace full ->
    late_errors sent (e :: trace) (e :: full)
| LateError (message : jsstring) (trace full : list event) :
    late_errors true trace full ->
    late_errors true trace (EvCallback (CbError message) :: full).

End Fetcher.
Import Fetcher.

(* ===================================================================== *)
(** ** The Isolation Injector *)
(* ===================================================================== *)

Module Injector.

Definition DOLLAR : N := 36.

(** The expansion of a replacement string for a pattern without capture
    groups (GetSubstitution): [$$], [$&], [$`] and [$'] are special, any
    other [$] stands for itself. *)
Fixpoint substitution (template matched before after : jsstring) : jsstring :=
  match template with
  | [] => []
  | c :: t =>
      if N.eqb c DOLLAR then
        match t with
        | d :: t' =>
            if N.eqb d DOLLAR then DOLLAR :: substitution t' matched before after
            else if N.eqb d (ch "&") then matched ++ substitution t' matched before after
            else if N.eqb d (ch "`") then before ++ substitution t' matched before after
            else if N.eqb d SQUOTE then after ++ substitution t' matched before after
            else c :: substitution t matched before after
        | [] => [c]
        end
      else c :: substitution t matched before after
  end.

(** [s.replace(re, template)] for a pattern without the [g] flag. *)
Definition replace_first (r : regex) (template : jsstring) (s : jsstring)
  : jsstring :=
  match search r None [] s with
  | Some (before, m) =>
      before ++ substitution template (m_text m) before (m_rest m) ++ m_rest m
  | None => s
  end.

(** /<head[^>]*>/i *)
Definition re_head : regex :=
  seq [ istr "<head"; star (noneof (js ">")); lit (ch ">") ].

Definition privacyTags : jsstring :=
  js "<meta name=" ++ dq (js "referrer") ++ js " content=" ++ dq (js "no-referrer")
  ++ js "><meta http-equiv=" ++ dq (js "Cache-Control") ++ js " content="
  ++ dq (js "no-store") ++ js ">".

Section Inject.

(** The text of the template literal before and after its only
    substitution, [${escaped}]: the client-side script, which runs in the
    browser and which nothing below depends on. *)
Variables SCRIPT_BEFORE_BASE SCRIPT_AFTER_BASE : jsstring.

(** [function injectMetaScript(html, finalUrl)] *)
Definition injectMetaScript (html finalUrl : jsstring) : jsstring :=
  let escaped :=
    replace (lit (ch "'")) (fun _ _ => js "\'")
      (replace (lit (ch "\")) (fun _ _ => js "\\") finalUrl) in
  let script := SCRIPT_BEFORE_BASE ++ escaped ++ SCRIPT_AFTER_BASE in
  let injection := privacyTags ++ script in
  if test re_head html
  then replace_first re_head (js "$&" ++ injection) html
  else injection ++ html.

End Inject.

(** *** The literal that holds the base *)

Definition BACKSLASH : N := ch "\".

(** The two [replace] calls that make [escaped] from [finalUrl]: every
    backslash is doubled, then every quote gets a backslash. *)
Definition escaped (finalUrl : jsstring) : jsstring :=
  replace (lit (ch "'")) (fun _ _ => js "\'")
    (replace (lit (ch "\")) (fun _ _ => js "\\") finalUrl).

(** The value of the single-quoted string literal of text [s], for a text
    that holds no escape sequence other than a backslash followed by a
    backslash or by a quote; [None] when the text is not such a literal: a
    bare quote ends it, a line feed or a carriage return is not allowed in
    it. *)
Fixpoint literal_value (s : jsstring) : option jsstring :=
  match s with
  | [] => Some []
  | c :: t =>
      if N.eqb c BACKSLASH then
        match t with
        | d :: t' =>
            if N.eqb d BACKSLASH || N.eqb d SQUOTE
            then option_map (cons d) (literal_value t')
            else None
        | [] => None
        end
      else if N.eqb c SQUOTE || N.eqb c 10 || N.eqb c 13 then None
      else option_map (cons c) (literal_value t)
  end.

(** *** The head of the page *)

(** An opening tag whose name starts with [head], in any case: [h] is
    [<head] up to case, [a] is the rest of the tag. *)
Definition head_tag (h a : jsstring) : jsstring := h ++ a ++ [GT].

(** What [injectMetaScript] injects. *)
Definition injection (SCRIPT_BEFORE_BASE SCRIPT_AFTER_BASE finalUrl : jsstring)
  : jsstring :=
  privacyTags ++ SCRIPT_BEFORE_BASE ++ escaped finalUrl ++ SCRIPT_AFTER_BASE.

(** *** The references that the injected script rewrites *)

(** [function needsProxy(u)] of the injected script, by which the browser
    decides whether a reference that a script of the page sets or adds is
    to go through the proxy. *)
Definition needsProxy (u : jsstring) : bool :=
  match u with
  | [] => false
  | _ =>
      if includes u (js "/proxy/") then false
      else if startsWith u (js "data:") || startsWith u (js "blob:")
              || startsWith u (js "javascript:") || startsWith u (js "#")
              || startsWith u (js "about:")
      then false
      else true
  end.

End Injector.
Import Injector.

(* ===================================================================== *)
(** ** The Dispatcher *)
(* ===================================================================== *)

Module Dispatcher.

(** [let blockedCount = 0; let adBlockEnabled = true;]  The counter only
    ever holds a natural number, which a JavaScript number represents
    exactly below 2^53. *)
Record ProxyState : Type := {
  blockedCount : N;
  adBlockEnabled : bool
}.

Definition initial_state : ProxyState :=
  {| blockedCount := 0; adBlockEnabled := true |}.

(** Parsed JSON, for [req.body]. *)
#[local] Unset Elimination Schemes.
Inductive jsval : Type :=
| VUndefined
| VNull
| VBool (b : bool)
| VNumber (n : Z)
| VString (s : jsstring)
| VArray (items : list jsval)
| VObject (fields : list (jsstring * jsval)).
#[local] Set Elimination Schemes.

(** [obj[key]] *)
Fixpoint get_field (key : jsstring) (fields : list (jsstring * jsval)) : jsval :=
  match fields with
  | [] => VUndefined
  | (k, v) :: fields' => if eqb k key then v else get_field key fields'
  end.

(** [v !== false] *)
Definition strict_ne_false (v : jsval) : bool :=
  match v with
  | VBool false => false
  | _ => true
  end.

(** What the handlers send. *)
Inductive payload : Type :=
| JsonError (message : jsstring)   (* res.json({ error: message }) *)
| JsonCount (count : N)            (* res.json({ count }) *)
| JsonEnabled (enabled : bool)     (* res.json({ enabled }) *)
| NoBody                           (* res.end() *)
| Text (s : jsstring)              (* res.send(string) *)
| Bytes (b : list N).              (* res.send(buffer) *)

(** A response: its status, the headers that the handler sets on it (those
    of the middleware that precedes the routes are set before the handler
    runs and only on paths outside [/proxy/]), and its body. *)
Record response : Type := Response {
  status : N;
  res_headers : header_map;
  res_body : payload
}.

(** [app.get('/blocked-count', ...)] *)
Definition get_blocked_count (st : ProxyState) : response :=
  Response 200 [] (JsonCount (blockedCount st)).

(** [app.post('/adblock', ...)], for a body that [express.json()] or
    [express.urlencoded()] has parsed into an object; a request without a
    body has the empty object. *)
Definition post_adblock (st : ProxyState) (body : list (jsstring * jsval))
  : ProxyState * response :=
  let enabled := strict_ne_false (get_field (js "enabled") body) in
  ({| blockedCount := blockedCount st; adBlockEnabled := enabled |},
   Response 200 [] (JsonEnabled enabled)).

(** What the [/proxy/*] handler reads of a request. *)
Record request : Type := {
  params0 : jsstring;                       (* req.params[0] *)
  query : list (jsstring * jsstring);       (* Object.entries(req.query) *)
  accept_header : option jsstring           (* req.headers.accept *)
}.

(** The headers that the success branch sets on every proxied response. *)
Definition proxied_headers (contentType : jsstring) : header_map :=
  [ (js "Content-Type", contentType);
    (js "Cache-Control", js "no-store, no-cache, must-revalidate, private");
    (js "Pragma", js "no-cache");
    (js "Expires", js "0");
    (js "Referrer-Policy", js "no-referrer");
    (js "X-Content-Type-Options", js "nosniff");
    (js "Content-Security-Policy",
     join (js "; ")
       [ js "default-src * 'unsafe-inline' 'unsafe-eval' data: blob:";
         js "img-src * data: blob:";
         js "media-src * data: blob:";
         js "font-src * data:";
         js "connect-src * data: blob:";
         js "object-src 'none'";
         js "base-uri 'self'" ]) ].

(** /charset=([^\s;]+)/i *)
Definition re_charset : regex :=
  seq [ istr "charset=";
        RGroup 1 (plus (RChar (fun c => negb (is_space c || N.eqb c (ch ";"))))) ].

Definition charset_of (contentType : jsstring) : jsstring :=
  match search re_charset None [] contentType with
  | Some (_, m) => or_default (get_cap 1 (m_caps m)) (js "utf-8")
  | None => js "utf-8"
  end.

(** The encoding in which the success branch reads the body, when it does:
    the charset that the Content-Type names for HTML, UTF-8 for style sheets
    and scripts; any other content is passed on as bytes. *)
Definition decoded_as (contentType : jsstring) : option jsstring :=
  if includes contentType (js "text/html") then Some (charset_of contentType)
  else if includes contentType (js "text/css") then Some (js "utf-8")
  else if includes contentType (js "javascript") then Some (js "utf-8")
  else None.

(** The state of one run of the handler's fetch callback: its [responded]
    flag and what has been sent to the client. *)
Record callback_state : Type := {
  responded : bool;
  sent : list response
}.

(** [let responded = false;] *)
Definition fresh : callback_state := {| responded := false; sent := [] |}.

Section Proxy.

Context `{URLClass}.

(** [isBlocked] of [./blocklist]. *)
Variable isBlocked : jsstring -> bool.

Variable http_get : bool -> nat -> jsstring -> jsstring -> hop.

(** [buffer.toString(charset)], [None] for an encoding Node does not know. *)
Variable Buffer_toString : list N -> jsstring -> option jsstring.

Variables SCRIPT_BEFORE_BASE SCRIPT_AFTER_BASE : jsstring.

(** The error branch of the callback. *)
Definition error_response (message : jsstring) : response :=
  if eqb message TOO_MANY_REDIRECTS then
    Response 508 [] (JsonError TOO_MANY_REDIRECTS)
  else if eqb message REQUEST_TIMED_OUT then
    Response 504 [] (JsonError REQUEST_TIMED_OUT)
  else Response 500 [] (JsonError (js "Failed to fetch: " ++ message)).

(** The success branch; [None] when a call in it throws, in which case
    nothing is sent. *)
Definition success_response (targetUrl : jsstring) (r : fetch_response)
  : option response :=
  let contentType := or_default (header (js "content-type") (headers r)) (js "text/html") in
  let hs := proxied_headers contentType in
  let finalUrl := or_default (Some (finalUrl r)) targetUrl in
  if includes contentType (js "text/html") then
    match Buffer_toString (body r) (charset_of contentType) with
    | None => None
    | Some html =>
        let html := stripTrackingElements html in
        match rewriteUrls finalUrl html with
        | None => None
        | Some html =>
            let html :=
              injectMetaScript SCRIPT_BEFORE_BASE SCRIPT_AFTER_BASE html finalUrl in
            Some (Response (statusCode r) hs (Text html))
        end
    end
  else if includes contentType (js "text/css") then
    match Buffer_toString (body r) (js "utf-8") with
    | None => None
    | Some css => Some (Response (statusCode r) hs (Text (rewriteCss finalUrl css)))
    end
  else if includes contentType (js "javascript") then
    match Buffer_toString (body r) (js "utf-8") with
    | None => None
    | Some code => Some (Response (statusCode r) hs (Text (rewriteJs finalUrl code)))
    end
  else Some (Response (statusCode r) hs (Bytes (body r))).

(** [(err, response) => { if (responded) return; responded = true; ... }] *)
Definition fetch_callback (targetUrl : jsstring) (cs : callback_state)
           (a : callback_args) : callback_state :=
  if responded cs then cs
  else
    match a with
    | CbError message =>
        {| responded := true; sent := sent cs ++ [error_response message] |}
    | CbResponse r =>
        match success_response targetUrl r with
        | Some resp => {| responded := true; sent := sent cs ++ [resp] |}
        | None => {| responded := true; sent := sent cs |}
        end
    end.

(** The callback run on the calls of a trace, in order. *)
Definition on_event (targetUrl : jsstring) (cs : callback_state) (e : event)
  : callback_state :=
  match e with
  | EvCallback a => fetch_callback targetUrl cs a
  | _ => cs
  end.

Definition run_callbacks (targetUrl : jsstring) (trace : list event)
  : callback_state :=
  fold_left (on_event targetUrl) trace fresh.

(** The calls of the callback that a trace contains, in order. *)
Fixpoint callbacks (trace : list event) : list callback_args :=
  match trace with
  | [] => []
  | EvCallback a :: trace' => a :: callbacks trace'
  | _ :: trace' => callbacks trace'
  end.

(** The responses that the calls of a trace deliver, in order. *)
Definition delivered (trace : list event) : list fetch_response :=
  flat_map (fun a => match a with
                     | CbResponse r => [r]
                     | CbError _ => []
                     end)
           (callbacks trace).

(** The requests that a trace contains, in order. *)
Fixpoint requested (trace : list event) : list jsstring :=
  match trace with
  | [] => []
  | EvRequest _ u _ :: trace' => u :: requested trace'
  | _ :: trace' => requested trace'
  end.

(** What one run of the handler amounts to. *)
Record handled : Type := Handled {
  h_state : ProxyState;              (* the state it leaves *)
  h_threw : bool;                    (* an exception reached Express *)
  h_fetch : option (list event);     (* the trace of fetchWithRedirects, if called *)
  h_sent : list response             (* what the handler itself sent *)
}.

(** The loop over [Object.entries(req.query)]. *)
Definition append_query (parsed : url) (q : list (jsstring * jsstring)) : url :=
  fold_left (fun u kv => searchParams_append u (fst kv) (snd kv)) q parsed.

(** The target that is fetched: the decoded one, with the query of the
    proxy request appended to its own. *)
Definition fetched (targetUrl : jsstring) (u : url)
           (q : list (jsstring * jsstring)) : jsstring :=
  match q with
  | [] => targetUrl
  | _ => url_href (append_query u q)
  end.

(** The gate: [Some hostname] when the request is to be suppressed. *)
Definition gate (st : ProxyState) (targetUrl : jsstring) : option jsstring :=
  if adBlockEnabled st then
    match URL_new targetUrl None with
    | Some u => if isBlocked (url_hostname u) then Some (url_hostname u) else None
    | None => None
    end
  else None.

(** [app.get('/proxy/*', (req, res) => { ... })] *)
Definition proxy_handler (st : ProxyState) (req : request) : handled :=
  match decodeURIComponent (params0 req) with
  | None => Handled st true None []
  | Some [] => Handled st false None [Response 400 [] (JsonError (js "Missing target URL"))]
  | Some targetUrl =>
      match gate st targetUrl with
      | Some _ =>
          Handled {| blockedCount := blockedCount st + 1;
                     adBlockEnabled := adBlockEnabled st |}
                  false None [Response 204 [] NoBody]
      | None =>
          let withQuery :=
            match query req with
            | [] => Some targetUrl
            | q => option_map (fun parsed => url_href (append_query parsed q))
                              (URL_new targetUrl None)
            end in
          match withQuery with
          | None => Handled st true None []
          | Some targetUrl =>
              let fetchOptions :=
                FetchOptions (or_default (accept_header req) (js "*/*")) in
              let trace := fetchWithRedirects http_get targetUrl 0 (Some fetchOptions) in
              Handled st false (Some trace) (sent (run_callbacks targetUrl trace))
          end
      end
  end.

End Proxy.

(** *** The routes

    The three routes that [server.js] registers on the application. *)
Inductive route : Type :=
| GetBlockedCount                                   (* GET /blocked-count *)
| PostAdblock (body : list (jsstring * jsval))      (* POST /adblock *)
| GetProxy (req : request).                         (* GET /proxy/* *)

Inductive served : Type :=
| Answered (r : response)
| Proxied (h : handled).

(** The request was answered by the gate: a 204 that the handler sent itself
    without calling the Fetcher. *)
Definition suppressed (s : served) : bool :=
  match s with
  | Proxied h =>
      match h_fetch h, h_sent h with
      | None, [Response 204 _ NoBody] => true
      | _, _ => false
      end
  | Answered _ => false
  end.

(** *** The process

    Node runs one handler at a time.  A request arrives and its handler
    runs to its return: the handlers of the admin routes and the early
    exits of the proxy handler have answered by then, and every change of
    the state has been made; a proxied request has started its fetch, which
    goes on while other requests arrive.  The fetch settles with the first
    call of its callback, which sends the response, or with an exception
    that leaves one of its event handlers.  Nothing catches such an
    exception: the process ends, its state is lost, and the requests whose
    fetch is still going on are left without an answer. *)

Definition is_uncaught (e : event) : bool :=
  match e with
  | EvUncaught => true
  | _ => false
  end.

(** Whether an exception leaves an event handler of the fetch that the
    handler has started: the response handler, at a [Location] that does
    not resolve, or the ['end'] handler, in the success branch of the
    callback, which is when the first call of the callback is the one with
    the response and nothing has been sent. *)
Definition fatal (h : handled) : bool :=
  match h_fetch h with
  | Some trace =>
      existsb is_uncaught trace
      || match callbacks trace, h_sent h with
         | CbResponse _ :: _, [] => true
         | _, _ => false
         end
  | None => false
  end.

Inductive server_event : Type :=
| Arrives (rq : route)   (* a request arrives and its handler runs *)
| Settles (i : nat).     (* the fetch of the request number [i] settles *)

Record process : Type := {
  p_state : ProxyState;
  p_served : list served;   (* the requests that have arrived, in order *)
  p_settled : list nat      (* the numbers of those whose fetch has settled *)
}.

Definition start (st : ProxyState) : process :=
  {| p_state := st; p_served := []; p_settled := [] |}.

Definition settled (p : process) (i : nat) : bool :=
  existsb (Nat.eqb i) (p_settled p).

(** The request number [i], when its fetch is going on. *)
Definition in_flight (p : process) (i : nat) : option handled :=
  match nth_error (p_served p) i with
  | Some (Proxied h) =>
      match h_fetch h with
      | Some _ => if settled p i then None else Some h
      | None => None
      end
  | _ => None
  end.

(** What the handlers have sent so far in answer to the request number
    [i]. *)
Definition answers (p : process) (i : nat) : list response :=
  match nth_error (p_served p) i with
  | Some (Answered r) => [r]
  | Some (Proxied h) =>
      match h_fetch h with
      | Some _ => if settled p i then h_sent h else []
      | None => h_sent h
      end
  | None => []
  end.

(** The requests that arrive, in order. *)
Fixpoint arrivals (evs : list server_event) : list route :=
  match evs with
  | [] => []
  | Arrives rq :: evs' => rq :: arrivals evs'
  | Settles _ :: evs' => arrivals evs'
  end.

Section Server.

Context `{URLClass}.
Variable isBlocked : jsstring -> bool.
Variable http_get : bool -> nat -> jsstring -> jsstring -> hop.
Variable Buffer_toString : list N -> jsstring -> option jsstring.
Variables SCRIPT_BEFORE_BASE SCRIPT_AFTER_BASE : jsstring.

(** The handler of one request, run in the state [st]: the state it leaves
    and what the request amounts to. *)
Definition serve (st : ProxyState) (rq : route) : ProxyState * served :=
  match rq with
  | GetBlockedCount => (st, Answered (get_blocked_count st))
  | PostAdblock body =>
      let (st', r) := post_adblock st body in (st', Answered r)
  | GetProxy req =>
      let h := proxy_handler isBlocked http_get Buffer_toString
                             SCRIPT_BEFORE_BASE SCRIPT_AFTER_BASE st req in
      (h_state h, Proxied h)
  end.

(** The handlers of the requests of a list, run in the order of arrival by
    a process that is up. *)
Fixpoint handle_all (st : ProxyState) (rqs : list route)
  : ProxyState * list served :=
  match rqs with
  | [] => (st, [])
  | rq :: rqs' =>
      let (st1, s) := serve st rq in
      let (st2, ss) := handle_all st1 rqs' in
      (st2, s :: ss)
  end.

(** One event; [None] when it ends the process. *)
Definition step (p : process) (e : server_event) : option process :=
  match e with
  | Arrives rq =>
      let (st', s) := serve (p_state p) rq in
      Some {| p_state := st';
              p_served := p_served p ++ [s];
              p_settled := p_settled p |}
  | Settles i =>
      match in_flight p i with
      | Some h =>
          if fatal h then None
          else Some {| p_state := p_state p;
                       p_served := p_served p;
                       p_settled := i :: p_settled p |}
      | None => Some p
      end
  end.

(** The events of a list, in order; [None] when one of them ends the
    process, whatever follows. *)
Fixpoint run (p : process) (evs : list server_event) : option process :=
  match evs with
  | [] => Some p
  | e :: evs' =>
      match step p e with
      | Some p' => run p' evs'
      | None => None
      end
  end.

(** What holds of a process that is up: the proxied requests are runs of
    the handler, the requests that have settled have arrived, and none of
    them was fatal. *)
Definition sound (p : process) : Prop :=
  (forall i, settled p i = true -> i < length (p_served p))
  /\ (forall i h, nth_error (p_served p) i = Some (Proxied h) ->
        (exists st req,
            h = proxy_handler isBlocked http_get Buffer_toString
                              SCRIPT_BEFORE_BASE SCRIPT_AFTER_BASE st req)
        /\ (settled p i = true -> h_fetch h <> None -> fatal h = false)).

End Server.

(** *** The charset parameter *)

(** A character of a charset name: neither white space nor a semicolon. *)
Definition charset_char (c : N) : bool := negb (is_space c || N.eqb c (ch ";")).

(** The parameter of a Content-Type that names the charset: [charset=], in
    any case, and the name. *)
Definition charset_param (name cs : jsstring) : jsstring := name ++ cs.

(** The text after the name ends it: it is empty or starts with white space
    or a semicolon. *)
Definition ends_name (rest : jsstring) : bool :=
  match rest with
  | [] => true
  | x :: _ => negb (charset_char x)
  end.

End Dispatcher.
Import Dispatcher.

(* ===================================================================== *)
(** ** A model of the [URL] class *)
(* ===================================================================== *)

(** The parser and the serializer of the WHATWG URL Standard on the part of
    their domain that proxied pages mostly use: references resolved against
    an [http], [https], [ftp], [ws] or [wss] base, absolute URLs of these
    schemes with an ASCII domain as host, and absolute URLs with an opaque
    path ([about:], [data:], [javascript:], [blob:], [mailto:]).  Outside
    of it (credentials, IPv4 and IPv6 hosts, hosts with a percent sign, a
    punycode label or a code unit above 127, the [file] scheme, other
    schemes with a hierarchical path) the model answers [None] as it does
    for the inputs on which the Standard reports failure.  It serves to run
    the server on concrete inputs; no general statement below depends on it. *)
Module WHATWG.

Inductive url_path : Set :=
| Opaque (p : jsstring)
| Segments (segs : list jsstring).

Record record : Set := Record_ {
  scheme : jsstring;
  host : option jsstring;
  port : option N;
  path : url_path;
  url_query : option jsstring;
  fragment : option jsstring
}.

Definition is_c0_or_space (c : N) : bool := (c <=? 32)%N.
Definition is_tab_or_newline (c : N) : bool :=
  N.eqb c 9 || N.eqb c 10 || N.eqb c 13.

Fixpoint drop_while (p : N -> bool) (s : jsstring) : jsstring :=
  match s with
  | x :: s' => if p x then drop_while p s' else s
  | [] => []
  end.

(** Leading and trailing C0 controls and spaces go, then tabs and newlines. *)
Definition preprocess (input : jsstring) : jsstring :=
  let s := rev (drop_while is_c0_or_space (rev (drop_while is_c0_or_space input))) in
  filter (fun c => negb (is_tab_or_newline c)) s.

(** [s] cut at the first [c]. *)
Fixpoint cut (c : N) (s : jsstring) : jsstring * option jsstring :=
  match s with
  | [] => ([], None)
  | x :: s' =>
      if N.eqb x c then ([], Some s')
      else let (a, b) := cut c s' in (x :: a, b)
  end.

(** The percent-encode sets, on code units below 128; above, every code
    point is encoded. *)
Definition c0_set (c : N) : bool := (c <? 32)%N || (126 <? c)%N.
Definition fragment_set (c : N) : bool :=
  c0_set c || existsb (N.eqb c) [32; 34; 60; 62; 96]%N.
Definition query_set (c : N) : bool :=
  c0_set c || existsb (N.eqb c) [32; 34; 35; 60; 62]%N.
Definition special_query_set (c : N) : bool := query_set c || N.eqb c 39.
Definition path_set (c : N) : bool :=
  query_set c || existsb (N.eqb c) [63; 94; 96; 123; 125]%N.

Definition escape_code_point (cp : N) : jsstring :=
  flat_map escape_octet (utf8_encode cp).

(** UTF-8 percent-encoding of the code points of [s] that are in the set;
    an unpaired surrogate is encoded as U+FFFD. *)
Fixpoint percent_encode (inset : N -> bool) (s : jsstring) : jsstring :=
  match s with
  | [] => []
  | c :: s' =>
      if is_lead_surrogate c then
        match s' with
        | d :: s'' =>
            if is_trail_surrogate d then
              escape_code_point ((c - 55296) * 1024 + (d - 56320) + 65536)%N
              ++ percent_encode inset s''
            else escape_code_point 65533 ++ percent_encode inset s'
        | [] => escape_code_point 65533
        end
      else if is_trail_surrogate c then
        escape_code_point 65533 ++ percent_encode inset s'
      else if inset c then escape_code_point c ++ percent_encode inset s'
      else c :: percent_encode inset s'
  end.

Definition is_special (sch : jsstring) : bool :=
  existsb (eqb sch) [js "http"; js "https"; js "ftp"; js "ws"; js "wss"].

Definition default_port (sch : jsstring) : option N :=
  if eqb sch (js "http") || eqb sch (js "ws") then Some 80%N
  else if eqb sch (js "https") || eqb sch (js "wss") then Some 443%N
  else if eqb sch (js "ftp") then Some 21%N
  else None.

(** The scheme of [s], in lower case, and what follows its colon. *)
Fixpoint scheme_rest (s : jsstring) : option (jsstring * jsstring) :=
  match s with
  | [] => None
  | c :: s' =>
      if N.eqb c (ch ":") then Some ([], s')
      else if is_alpha c || is_digit c || existsb (N.eqb c) (js "+-.") then
        match scheme_rest s' with
        | Some (sch, rest) => Some (lower c :: sch, rest)
        | None => None
        end
      else None
  end.

Definition split_scheme (s : jsstring) : option (jsstring * jsstring) :=
  match s with
  | c :: _ => if is_alpha c then scheme_rest s else None
  | [] => None
  end.

Definition is_slash (c : N) : bool := N.eqb c (ch "/") || N.eqb c (ch "\").

Definition is_single_dot (seg : jsstring) : bool :=
  existsb (eqb (map lower seg)) [js "."; js "%2e"].
Definition is_double_dot (seg : jsstring) : bool :=
  existsb (eqb (map lower seg)) [js ".."; js ".%2e"; js "%2e."; js "%2e%2e"].

Definition shorten (segs : list jsstring) : list jsstring := removelast segs.

(** The segments of [s], cut at every slash (a backslash counts as one in
    a special URL). *)
Fixpoint raw_segments (s : jsstring) : list jsstring :=
  match s with
  | [] => [[]]
  | x :: s' =>
      if is_slash x then [] :: raw_segments s'
      else match raw_segments s' with
           | g :: gs => (x :: g) :: gs
           | [] => [[x]]
           end
  end.

(** The path state, segment after segment; the last one ends at the end of
    the input, the others at a slash. *)
Fixpoint path_state (acc : list jsstring) (segs : list jsstring) : list jsstring :=
  match segs with
  | [] => acc
  | [g] =>
      let g := percent_encode path_set g in
      if is_double_dot g then shorten acc ++ [[]]
      else if is_single_dot g then acc ++ [[]]
      else acc ++ [g]
  | g :: gs =>
      let g := percent_encode path_set g in
      if is_double_dot g then path_state (shorten acc) gs
      else if is_single_dot g then path_state acc gs
      else path_state (acc ++ [g]) gs
  end.

Definition parse_path (acc : list jsstring) (s : jsstring) : list jsstring :=
  path_state acc (raw_segments s).

(** The path start state: one leading slash is consumed. *)
Definition path_start (s : jsstring) : list jsstring :=
  match s with
  | c :: s' => if is_slash c then parse_path [] s' else parse_path [] s
  | [] => parse_path [] []
  end.

Definition forbidden_domain (c : N) : bool :=
  (c <=? 32)%N || (127 <=? c)%N
  || existsb (N.eqb c) (js "#/:<>?@[\]^|%").

(** Whether the last label of a domain is a number, in which case the host
    is an IPv4 address. *)
Definition is_hex_digit (c : N) : bool :=
  match hex_value c with Some _ => true | None => false end.

Definition numeric_label (l : jsstring) : bool :=
  match l with
  | [] => false
  | a :: b :: t =>
      forallb is_digit l
      || (N.eqb a 48 && N.eqb (lower b) 120 && forallb is_hex_digit t)
  | _ => forallb is_digit l
  end.

Definition ends_in_number (h : jsstring) : bool :=
  match rev (split_on (ch ".") h) with
  | [] :: l :: _ => numeric_label l
  | l :: _ => numeric_label l
  | [] => false
  end.

Fixpoint has_punycode (h : jsstring) : bool :=
  startsWith (map lower h) (js "xn--") ||
  match h with
  | [] => false
  | _ :: h' => has_punycode h'
  end.

(** The host parser on ASCII domains. *)
Definition parse_host (h : jsstring) : option jsstring :=
  match h with
  | [] => None
  | _ =>
      if existsb forbidden_domain h then None
      else if ends_in_number h || has_punycode h then None
      else Some (map lower h)
  end.

Fixpoint digits_value (acc : N) (s : jsstring) : option N :=
  match s with
  | [] => Some acc
  | c :: s' => if is_digit c then digits_value (10 * acc + (c - 48))%N s' else None
  end.

(** The port state. *)
Definition parse_port (sch p : jsstring) : option (option N) :=
  match p with
  | [] => Some None
  | _ =>
      match digits_value 0 p with
      | Some n =>
          if (65535 <? n)%N then None
          else if match default_port sch with
                  | Some d => N.eqb d n
                  | None => false
                  end then Some None
          else Some (Some n)
      | None => None
      end
  end.

(** [s] cut before its first slash. *)
Fixpoint until_slash (s : jsstring) : jsstring * jsstring :=
  match s with
  | [] => ([], [])
  | x :: s' =>
      if is_slash x then ([], s)
      else let (a, b) := until_slash s' in (x :: a, b)
  end.

(** The authority, host, port and path states of a special URL, from the
    first code unit after the slashes. *)
Definition parse_authority (sch s : jsstring) (q f : option jsstring)
  : option record :=
  let (authority, rest) := until_slash s in
  let (h, p) := cut (ch ":") authority in
  match parse_host h with
  | None => None
  | Some hst =>
      match parse_port sch (match p with Some p => p | None => [] end) with
      | None => None
      | Some prt =>
          (* a colon with nothing after it is allowed and means no port *)
          Some (Record_ sch (Some hst) prt (Segments (path_start rest)) q f)
      end
  end.

Definition encode_query (sch : jsstring) (q : option jsstring) : option jsstring :=
  option_map (percent_encode (if is_special sch then special_query_set else query_set)) q.

Definition encode_fragment (f : option jsstring) : option jsstring :=
  option_map (percent_encode fragment_set) f.

(** The relative state and its successors, for a hierarchical base. *)
Definition parse_relative (base : record) (segs : list jsstring)
           (main : jsstring) (q f : option jsstring) : option record :=
  let sch := scheme base in
  match main with
  | [] =>
      Some (Record_ sch (host base) (port base) (Segments segs)
                    (match q with Some _ => q | None => url_query base end) f)
  | c :: main' =>
      if is_slash c then
        match main' with
        | d :: _ =>
            if is_slash d then parse_authority sch (drop_while is_slash main') q f
            else Some (Record_ sch (host base) (port base)
                               (Segments (parse_path [] main')) q f)
        | [] => Some (Record_ sch (host base) (port base)
                              (Segments (parse_path [] [])) q f)
        end
      else
        Some (Record_ sch (host base) (port base)
                      (Segments (parse_path (shorten segs) main)) q f)
  end.

(** The basic URL parser. *)
Definition parse (input : jsstring) (base : option record) : option record :=
  let s := preprocess input in
  let (s1, f) := cut (ch "#") s in
  let (main, q) := cut (ch "?") s1 in
  let f := encode_fragment f in
  match split_scheme main with
  | Some (sch, rest) =>
      let q := encode_query sch q in
      if eqb sch (js "file") then None
      else if is_special sch then
        match base with
        | Some (Record_ bsch _ _ (Segments segs) _ _ as b) =>
            if eqb bsch sch && negb (startsWith rest (js "//"))
            then parse_relative b segs rest q f
            else parse_authority sch (drop_while is_slash rest) q f
        | _ => parse_authority sch (drop_while is_slash rest) q f
        end
      else
        match rest with
        | c :: _ =>
            if N.eqb c (ch "/") then None
            else Some (Record_ sch None None (Opaque (percent_encode c0_set rest)) q f)
        | [] => Some (Record_ sch None None (Opaque []) q f)
        end
  | None =>
      match base with
      | None => None
      | Some b =>
          match path b with
          | Opaque _ =>
              match main, q, f with
              | [], None, Some _ =>
                  Some (Record_ (scheme b) (host b) (port b) (path b) (url_query b) f)
              | _, _, _ => None
              end
          | Segments segs =>
              if is_special (scheme b)
              then parse_relative b segs main (encode_query (scheme b) q) f
              else None
          end
      end
  end.

Definition decimal_N (n : N) : jsstring :=
  js (DecimalString.NilZero.string_of_uint (N.to_uint n)).

(** The URL serializer. *)
Definition serialize (u : record) : jsstring :=
  scheme u ++ js ":"
  ++ match host u with
     | Some h =>
         js "//" ++ h
         ++ match port u with Some p => js ":" ++ decimal_N p | None => [] end
     | None => []
     end
  ++ match path u with
     | Opaque p => p
     | Segments segs => flat_map (fun g => ch "/" :: g) segs
     end
  ++ match url_query u with Some q => js "?" ++ q | None => [] end
  ++ match fragment u with Some f => js "#" ++ f | None => [] end.

(** [application/x-www-form-urlencoded]: the percent-decoding of a
    sequence of bytes, the parser of a query into pairs of byte sequences,
    and the serializer.  A query is ASCII, so its code units are bytes. *)
Fixpoint percent_decode (s : list N) : list N :=
  match s with
  | [] => []
  | c :: s1 =>
      if N.eqb c PERCENT then
        match s1 with
        | h1 :: h2 :: s2 =>
            match octet_of h1 h2 with
            | Some b => b :: percent_decode s2
            | None => c :: percent_decode s1
            end
        | _ => c :: percent_decode s1
        end
      else c :: percent_decode s1
  end.

Definition plus_to_space (s : list N) : list N :=
  map (fun c => if N.eqb c (ch "+") then 32%N else c) s.

Definition form_parse (q : jsstring) : list (list N * list N) :=
  flat_map (fun piece =>
              match piece with
              | [] => []
              | _ =>
                  let (name, value) := cut (ch "=") piece in
                  [(percent_decode (plus_to_space name),
                    percent_decode
                      (plus_to_space (match value with Some v => v | None => [] end)))]
              end)
           (split_on (ch "&") q).

Definition form_keep (c : N) : bool :=
  is_alpha c || is_digit c || existsb (N.eqb c) (js "*-._").

Definition form_byte (b : N) : jsstring :=
  if form_keep b then [b]
  else if N.eqb b 32 then js "+"
  else escape_octet b.

(** The bytes of the UTF-8 encoding of a string, an unpaired surrogate
    being replaced by U+FFFD. *)
Fixpoint utf8_bytes (s : jsstring) : list N :=
  match s with
  | [] => []
  | c :: s' =>
      if is_lead_surrogate c then
        match s' with
        | d :: s'' =>
            if is_trail_surrogate d then
              utf8_encode ((c - 55296) * 1024 + (d - 56320) + 65536)%N
              ++ utf8_bytes s''
            else utf8_encode 65533 ++ utf8_bytes s'
        | [] => utf8_encode 65533
        end
      else if is_trail_surrogate c then utf8_encode 65533 ++ utf8_bytes s'
      else utf8_encode c ++ utf8_bytes s'
  end.

Definition form_serialize (pairs : list (list N * list N)) : jsstring :=
  join (js "&")
       (map (fun nv => flat_map form_byte (fst nv) ++ js "="
                       ++ flat_map form_byte (snd nv)) pairs).

(** [u.searchParams.append(k, v)]: the list of pairs of the query, with the
    new pair at its end, becomes the query.  Bytes that the parser decodes
    from the query are written back as they are, which is what decoding
    them as UTF-8 and encoding them again does to well-formed sequences. *)
Definition append_pair (u : record) (k v : jsstring) : record :=
  let pairs :=
    form_parse (match url_query u with Some q => q | None => [] end) in
  Record_ (scheme u) (host u) (port u) (path u)
          (Some (form_serialize (pairs ++ [(utf8_bytes k, utf8_bytes v)])))
          (fragment u).

(** [new URL(input, base)] *)
Definition construct (input : jsstring) (base : option jsstring) : option record :=
  match base with
  | None => parse input None
  | Some b =>
      match parse b None with
      | Some br => parse input (Some br)
      | None => None
      end
  end.

#[export] Instance NodeURL : URLClass := {
  url := record;
  URL_new := construct;
  url_href := serialize;
  url_protocol := fun u => scheme u ++ js ":";
  url_hostname := fun u => match host u with Some h => h | None => [] end;
  searchParams_append := append_pair
}.

End WHATWG.


(* ===================================================================== *)
(** ** Scenarios *)
(* ===================================================================== *)

(** Concrete pages, requests and networks on which the server is run
    below, with [NodeURL] for the [URL] class. *)
Module Scenario.

Import WHATWG.

Definition SITE : jsstring := js "https://site.test/".

(** <img width=Q1Q height=Q1Q src=Qhttps://t.test/p.gifQ>, Q a double quote *)
Definition pixel_1x1 : jsstring :=
  js "<img width=" ++ dq (js "1") ++ js " height=" ++ dq (js "1")
  ++ js " src=" ++ dq (js "https://t.test/p.gif") ++ js ">".

(** The same with the attributes in the other order. *)
Definition pixel_1x1_swapped : jsstring :=
  js "<img height=" ++ dq (js "1") ++ js " width=" ++ dq (js "1")
  ++ js " src=" ++ dq (js "https://t.test/p.gif") ++ js ">".

(** <img width=Q100Q height=Q100Q src=Qa.pngQ> *)
Definition image_100x100 : jsstring :=
  js "<img width=" ++ dq (js "100") ++ js " height=" ++ dq (js "100")
  ++ js " src=" ++ dq (js "a.png") ++ js ">".

(** <img width=Q2Q height=Q3Q src=Qa.pngQ> *)
Definition image_2x3 : jsstring :=
  js "<img width=" ++ dq (js "2") ++ js " height=" ++ dq (js "3")
  ++ js " src=" ++ dq (js "a.png") ++ js ">".

(** <a href=QuQ>x</a> *)
Definition anchor (u : string) : jsstring :=
  js "<a href=" ++ dq (js u) ++ js ">x</a>".

(** [new URL(input, base).href] as a string, when the constructor succeeds. *)
Definition href_of (input base : string) : option jsstring :=
  resolve_href (js input) (js base).

Definition run_rewriteUrls (html : jsstring) : option jsstring :=
  rewriteUrls SITE html.

(** [rewriteUrls] applied to its own output. *)
Definition rewrite_twice (html : jsstring) : option jsstring :=
  match run_rewriteUrls html with
  | Some once => run_rewriteUrls once
  | None => None
  end.

(** A style sheet whose only reference is a [data:] URL. *)
Definition css_data : jsstring :=
  js "a{background:url(data:image/gif;base64,R0lGOD)}".

(** A body that asks for the gate to be switched off: [{ enabled: false }]. *)
Definition body_disable : list (jsstring * jsval) := [(js "enabled", VBool false)].

(** A request that times out and whose destroyed socket then reports an
    error: the callback of [fetchWithRedirects] is called twice. *)
Definition net_timeout_then_error : bool -> nat -> jsstring -> jsstring -> hop :=
  fun _ _ _ _ => HopTimeout (Some (js "socket hang up")).

Definition no_decoder : list N -> jsstring -> option jsstring := fun _ _ => None.

(** Bodies that are ASCII text, whatever the charset asked for. *)
Definition ascii_decoder : list N -> jsstring -> option jsstring :=
  fun b _ => Some b.

(** A site whose page number [i] redirects to page [i + 1] for the first
    [hops] pages and answers on the next. *)
Definition page (i : nat) : jsstring := js "http://h.test/" ++ decimal i.

Definition net_redirecting (hops : nat) : bool -> nat -> jsstring -> jsstring -> hop :=
  fun _ i _ _ =>
    if Nat.ltb i hops
    then HopResponse 302 [(js "location", js "/" ++ decimal (S i))] []
    else HopResponse 200 [(js "content-type", js "text/plain")] (js "done").

Definition page_10_response : fetch_response :=
  FetchResponse 200 [(js "content-type", js "text/plain")] (js "done") (page 10).

(** A blocklist with one host, and an upstream that answers 204 itself. *)
Definition blocks_ads : jsstring -> bool := fun h => eqb h (js "ads.test").

Definition net_no_content : bool -> nat -> jsstring -> jsstring -> hop :=
  fun _ _ _ _ => HopResponse 204 [(js "content-type", js "image/gif")] [].

Definition state (count : N) (enabled : bool) : ProxyState :=
  {| blockedCount := count; adBlockEnabled := enabled |}.

(** [new URL('http://ads.test/banner.js')] *)
Definition ads_banner : record :=
  Record_ (js "http") (Some (js "ads.test")) None (Segments [js "banner.js"])
          None None.

(** [Buffer.toString] as far as the scenarios go: an empty body reads as the
    empty string; a body of ASCII bytes reads as itself in UTF-8, Latin-1
    and ASCII, under the names by which Node knows them; an encoding that
    Node does not know throws.  Bodies with other bytes are outside the
    scenarios. *)
Definition node_encodings : list jsstring :=
  [js "utf8"; js "utf-8"; js "latin1"; js "binary"; js "ascii"].

Definition node_decoder : list N -> jsstring -> option jsstring :=
  fun b charset =>
    match b with
    | [] => Some []
    | _ =>
        if existsb (eqb (map lower charset)) node_encodings
           && forallb (fun x => (x <? 128)%N) b
        then Some b
        else None
    end.

(** An upstream that answers every request with a style sheet. *)
Definition net_style : bool -> nat -> jsstring -> jsstring -> hop :=
  fun _ _ _ _ =>
    HopResponse 200 [(js "content-type", js "text/css")] (js "a{color:red}").

(** An upstream that answers every request with a page in a charset that
    Node does not know. *)
Definition net_latin2 : bool -> nat -> jsstring -> jsstring -> hop :=
  fun _ _ _ _ =>
    HopResponse 200 [(js "content-type", js "text/html; charset=iso-8859-2")]
                (js "<p>x</p>").

(** An upstream that redirects every request to a [Location] that does not
    resolve. *)
Definition net_bad_location : bool -> nat -> jsstring -> jsstring -> hop :=
  fun _ _ _ _ => HopResponse 302 [(js "location", js "http://?")] [].

Definition get (path : string) : request :=
  {| params0 := js path; query := []; accept_header := None |}.

Definition handle (isBlocked : jsstring -> bool)
           (net : bool -> nat -> jsstring -> jsstring -> hop)
           (st : ProxyState) (req : request) : handled :=
  proxy_handler isBlocked net ascii_decoder [] [] st req.

End Scenario.

(* ===================================================================== *)
(** * Properties *)
(* ===================================================================== *)

(** ** Strings *)

Lemma eqb_eq s t : eqb s t = true <-> s = t.
Proof.
  revert t; induction s as [|x s IH]; intros [|y t]; simpl; try easy.
  rewrite andb_true_iff, N.eqb_eq, IH. split.
  - intros [-> ->]; reflexivity.
  - intros [= -> ->]; auto.
Qed.

Lemma eqb_refl s : eqb s s = true.
Proof. now apply eqb_eq. Qed.

Lemma startsWith_app p s : startsWith (p ++ s) p = true.
Proof.
  induction p as [|y p IH]; simpl; [reflexivity|].
  now rewrite N.eqb_refl, IH.
Qed.

Lemma startsWith_spec s p :
  startsWith s p = true <-> exists t, s = p ++ t.
Proof.
  revert s; induction p as [|y p IH]; intros s; simpl.
  - split; [eauto | reflexivity].
  - destruct s as [|x s]; simpl.
    + split; [discriminate | intros [t Ht]; discriminate].
    + rewrite andb_true_iff, N.eqb_eq, IH. split.
      * intros [-> [t ->]]; eauto.
      * intros [t [= -> ->]]; eauto.
Qed.

(** ** Regular expressions *)

Section MatcherFacts.

Variable A : Type.

(** A continuation is only ever called on a suffix of the input. *)
Lemma reaches_app (k : cont A) (p s : jsstring) (a : A) :
  reaches k s a -> reaches k (p ++ s) a.
Proof.
  intros (prev' & s' & c' & q & -> & Hk).
  exists prev', s', c', (p ++ q). now rewrite app_assoc.
Qed.

Lemma rmatch_suffix (r : regex) :
  forall prev s c (k : cont A) a,
    rmatch r prev s c k = Some a -> reaches k s a.
Proof.
  induction r as [|p|r1 IH1 r2 IH2|r1 IH1 r2 IH2|g r1 IH1|n r1 IH1|n|];
    intros prev s c k a Hm; cbn [rmatch] in Hm.
  - exists prev, s, c, []. now split.
  - destruct s as [|x s]; [discriminate|].
    destruct (p x); [|discriminate].
    exists (Some x), s, c, [x]. now split.
  - apply IH1 in Hm. destruct Hm as (prev1 & s1 & c1 & p1 & -> & Hm).
    apply IH2 in Hm. now apply reaches_app.
  - destruct (rmatch r1 prev s c k) as [a'|] eqn:E.
    + injection Hm as <-. now apply IH1 in E.
    + now apply IH2 in Hm.
  - revert Hm. generalize (length s) at 1 as fuel. intros fuel.
    revert prev s c a. induction fuel as [|fuel IHf]; intros prev s c a Hm;
      cbn [star_loop] in Hm.
    + destruct g.
      * exists prev, s, c, []. now split.
      * destruct (k prev s c) eqn:E; [|discriminate].
        injection Hm as <-. exists prev, s, c, []. now split.
    + assert (Hiter : forall a',
                 rmatch r1 prev s c
                   (fun prev' s' c' =>
                      if Nat.ltb (length s') (length s)
                      then star_loop (rmatch (A:=A) r1) g k fuel prev' s' c'
                      else None) = Some a' ->
                 reaches k s a').
      { intros a' Hi. apply IH1 in Hi.
        destruct Hi as (prev1 & s1 & c1 & p1 & -> & Hi).
        destruct (Nat.ltb (length s1) (length (p1 ++ s1))); [|discriminate].
        apply IHf in Hi. now apply reaches_app. }
      destruct g.
      * match type of Hm with
        | match ?it with Some _ => _ | None => _ end = _ => destruct it as [a'|] eqn:E
        end.
        -- injection Hm as <-. now apply Hiter.
        -- exists prev, s, c, []. now split.
      * destruct (k prev s c) as [a'|] eqn:E.
        -- injection Hm as <-. exists prev, s, c, []. now split.
        -- now apply Hiter.
  - apply IH1 in Hm. destruct Hm as (prev1 & s1 & c1 & p1 & -> & Hm).
    exists prev1, s1, ((n, firstn (length (p1 ++ s1) - length s1) (p1 ++ s1)) :: c1), p1.
    now split.
  - destruct (get_cap n c) as [t|].
    + destruct (startsWith s t) eqn:E; [|discriminate].
      apply startsWith_spec in E. destruct E as [u ->].
      exists (last_unit prev t), (skipn (length t) (t ++ u)), c, t. split; [|exact Hm].
      now rewrite skipn_app, skipn_all, Nat.sub_diag.
    + exists prev, s, c, []. now split.
  - destruct (xorb _ _); [|discriminate]. exists prev, s, c, []. now split.
Qed.

End MatcherFacts.

(** A match is a prefix of the input it was found in. *)
Lemma exec_at_sound (r : regex) (prev : option N) (s : jsstring) (m : match_result) :
  exec_at r prev s = Some m -> s = m_text m ++ m_rest m.
Proof.
  unfold exec_at. intros Hm. apply rmatch_suffix in Hm.
  destruct Hm as (prev' & s' & c' & p & -> & Hm). injection Hm as <-. simpl.
  rewrite length_app, Nat.add_sub.
  now rewrite firstn_app, firstn_all, Nat.sub_diag, app_nil_r.
Qed.

(** The pieces of a scan put the string back together. *)
Lemma scan_go_original (r : regex) (s : jsstring) :
  forall prev skip, flat_map original (scan_go r prev s skip) = skipn skip s.
Proof.
  induction s as [|x s IH]; intros prev [|skip]; cbn [scan_go]; try reflexivity.
  - destruct (exec_at r prev []) as [m|] eqn:E; [|reflexivity].
    apply exec_at_sound in E. simpl. rewrite app_nil_r.
    symmetry in E. now apply app_eq_nil in E.
  - destruct (exec_at r prev (x :: s)) as [m|] eqn:E.
    + apply exec_at_sound in E. cbn [flat_map original].
      destruct (m_text m) as [|y t].
      * simpl. now rewrite IH.
      * rewrite IH. simpl in E. injection E as -> E. rewrite E.
        now rewrite skipn_app, skipn_all, Nat.sub_diag.
    + simpl. now rewrite IH.
  - simpl. apply IH.
Qed.

Lemma scan_original (r : regex) (s : jsstring) :
  flat_map original (scan r s) = s.
Proof. apply scan_go_original. Qed.

(** A replacer that gives back every match of the string leaves the string
    as it is. *)
Lemma replace_unchanged (r : regex) (f : jsstring -> captures -> jsstring)
      (s : jsstring) :
  Forall (fun m => f (m_text m) (m_caps m) = m_text m) (matched (scan r s)) ->
  replace r f s = s.
Proof.
  unfold replace. intros Hf. rewrite <- (scan_original r s) at 2.
  induction (scan r s) as [|[c|m] ps IH]; simpl in *; [reflexivity| |].
  - now rewrite IH.
  - inversion Hf as [|? ? Hm Hps]; subst. now rewrite Hm, IH.
Qed.

Section FuelFacts.

Variable A : Type.

Lemma agree_shorter (k1 k2 : cont A) (s t : jsstring) :
  length t <= length s -> agree k1 k2 s -> agree k1 k2 t.
Proof. intros Hl Ha prev' s' c' Hs. apply Ha. lia. Qed.

Lemma star_loop_ext (body : option N -> jsstring -> captures -> cont A -> option A)
      (g : bool) (k1 k2 : cont A) :
  (forall prev s c h1 h2, agree h1 h2 s -> body prev s c h1 = body prev s c h2) ->
  forall fuel prev s c,
    agree k1 k2 s ->
    star_loop body g k1 fuel prev s c = star_loop body g k2 fuel prev s c.
Proof.
  intros Hb. induction fuel as [|fuel IH]; intros prev s c Ha; cbn [star_loop].
  - now rewrite (Ha prev s c (le_n _)).
  - rewrite (Ha prev s c (le_n _)).
    rewrite (Hb prev s c _
               (fun prev' s' c' =>
                  if Nat.ltb (length s') (length s)
                  then star_loop body g k2 fuel prev' s' c' else None));
      [reflexivity|].
    intros prev' s' c' Hl. destruct (Nat.ltb_spec (length s') (length s)); [|reflexivity].
    apply IH. now apply agree_shorter with (s := s).
Qed.

Lemma rmatch_ext (r : regex) :
  forall prev s c (k1 k2 : cont A),
    agree k1 k2 s -> rmatch r prev s c k1 = rmatch r prev s c k2.
Proof.
  induction r as [|p|r1 IH1 r2 IH2|r1 IH1 r2 IH2|g r1 IH1|n r1 IH1|n|];
    intros prev s c k1 k2 Ha; cbn [rmatch].
  - apply Ha. lia.
  - destruct s as [|x s]; [reflexivity|].
    destruct (p x); [|reflexivity]. apply Ha. simpl. lia.
  - apply IH1. intros prev' s' c' Hl. apply IH2.
    now apply agree_shorter with (s := s).
  - rewrite (IH1 prev s c k1 k2 Ha), (IH2 prev s c k1 k2 Ha). reflexivity.
  - apply star_loop_ext; [|exact Ha]. intros. now apply IH1.
  - apply IH1. intros prev' s' c' Hl. now apply Ha.
  - destruct (get_cap n c) as [t|]; [|apply Ha; lia].
    destruct (startsWith s t); [|reflexivity].
    apply Ha. rewrite length_skipn. lia.
  - destruct (xorb _ _); [|reflexivity]. apply Ha. lia.
Qed.

Lemma rmatch_none (r : regex) (prev : option N) (s : jsstring) (c : captures) :
  rmatch (A := A) r prev s c (fun _ _ _ => None) = None.
Proof.
  destruct (rmatch r prev s c (fun _ _ _ => None)) as [a|] eqn:E; [|reflexivity].
  apply rmatch_suffix in E. destruct E as (? & ? & ? & ? & _ & E). discriminate.
Qed.

(** The fuel of a star never runs out: any amount that covers the input
    gives the same answer. *)
Lemma star_loop_fuel (r : regex) (g : bool) (k : cont A) :
  forall n s, length s <= n ->
  forall fuel1 fuel2 prev c,
    length s <= fuel1 -> length s <= fuel2 ->
    star_loop (rmatch r) g k fuel1 prev s c
    = star_loop (rmatch r) g k fuel2 prev s c.
Proof.
  induction n as [|n IH]; intros s Hn fuel1 fuel2 prev c H1 H2.
  - assert (E : length s = 0) by lia.
    assert (Z : forall fuel,
               star_loop (rmatch r) g k fuel prev s c
               = star_loop (rmatch r) g k 0 prev s c).
    { intros [|fuel]; [reflexivity|]. cbn [star_loop].
      rewrite (@rmatch_ext r prev s c _ (fun _ _ _ => None)).
      - now rewrite rmatch_none.
      - intros prev' s' c' Hl. rewrite E.
        now destruct (Nat.ltb_spec (length s') 0); [lia|]. }
    now rewrite (Z fuel1), (Z fuel2).
  - destruct fuel1 as [|fuel1], fuel2 as [|fuel2]; try reflexivity.
    + apply (IH s); lia.
    + apply (IH s); lia.
    + cbn [star_loop].
      rewrite (@rmatch_ext r prev s c
                 (fun prev' s' c' =>
                    if Nat.ltb (length s') (length s)
                    then star_loop (rmatch r) g k fuel1 prev' s' c' else None)
                 (fun prev' s' c' =>
                    if Nat.ltb (length s') (length s)
                    then star_loop (rmatch r) g k fuel2 prev' s' c' else None));
        [reflexivity|].
      intros prev' s' c' Hl.
      destruct (Nat.ltb_spec (length s') (length s)); [|reflexivity].
      apply (IH s'); lia.
Qed.

End FuelFacts.

(** *** The matcher and the patterns *)

(** A match consumes a prefix: what is left is not longer. *)
Lemma derives_shorter r prev s c p1 s1 c1 :
  derives r prev s c p1 s1 c1 -> length s1 <= length s.
Proof.
  induction 1; simpl in *; try lia.
  rewrite length_skipn. lia.
Qed.

Section Completeness.

Variable A : Type.

(** Whenever a derivation leads to a success of the continuation, the
    matcher finds a success (not necessarily that one: it answers with the
    first in its order). *)
Lemma rmatch_complete r prev s c p1 s1 c1 :
  derives r prev s c p1 s1 c1 ->
  forall (k : cont A) a, k p1 s1 c1 = Some a ->
  exists a', rmatch r prev s c k = Some a'.
Proof.
  induction 1 as
    [prev s c|p prev x s c Hp|r1 r2 prev s c p1 s1 c1 p2 s2 c2 D1 IH1 D2 IH2
    |r1 r2 prev s c p1 s1 c1 D IH|r1 r2 prev s c p1 s1 c1 D IH
    |g r prev s c|g r prev s c p1 s1 c1 p2 s2 c2 D1 IH1 Hl D2 IH2
    |n r prev s c p1 s1 c1 D IH|n prev s c Hg|n t prev s c Hg Hs|prev s c Hx];
    intros k a Hk; cbn [rmatch].
  - eauto.
  - rewrite Hp. eauto.
  - destruct (IH2 k a Hk) as [a2 H2].
    exact (IH1 (fun prev' s' c' => rmatch r2 prev' s' c' k) a2 H2).
  - destruct (IH k a Hk) as [a' ->]. eauto.
  - destruct (rmatch r1 prev s c k); eauto.
  - destruct (length s) as [|fuel]; cbn [star_loop].
    + destruct g; rewrite Hk; eauto.
    + destruct g.
      * match goal with
        | |- exists _, match ?it with Some _ => _ | None => _ end = _ =>
            destruct it; eauto
        end.
      * rewrite Hk. eauto.
  - destruct (IH2 k a Hk) as [a2 H2]. cbn [rmatch] in H2.
    destruct (length s) as [|fuel] eqn:El; [lia|]. cbn [star_loop].
    assert (Hit : exists a',
               rmatch r prev s c
                 (fun prev' s' c' =>
                    if Nat.ltb (length s') (length s)
                    then star_loop (rmatch (A := A) r) g k fuel prev' s' c'
                    else None) = Some a').
    { apply IH1 with (a := a2).
      destruct (Nat.ltb_spec (length s1) (length s)); [|lia].
      rewrite (@star_loop_fuel A r g k (length s1) s1 (le_n _) fuel (length s1));
        [exact H2|lia|lia]. }
    destruct Hit as [a' Hit].
    destruct g.
    + rewrite Hit. eauto.
    + destruct (k prev s c); eauto.
  - exact (IH (fun prev' s' c' =>
                 k prev' s' ((n, firstn (length s - length s') s) :: c')) a Hk).
  - rewrite Hg. eauto.
  - rewrite Hg, Hs. eauto.
  - rewrite Hx. eauto.
Qed.

End Completeness.

(** Whenever the pattern can match at a position, [exec_at] finds a match
    there (the one the priorities select). *)
Lemma exec_at_complete r prev s p1 s1 c1 :
  derives r prev s [] p1 s1 c1 -> exists m, exec_at r prev s = Some m.
Proof.
  intros D. unfold exec_at.
  eapply rmatch_complete; [exact D|reflexivity].
Qed.

Section Soundness.

Variable A : Type.

(** Every answer of the matcher is an answer of the continuation at the end
    of a derivation. *)
Lemma rmatch_sound (r : regex) :
  forall prev s c (k : cont A) a,
    rmatch r prev s c k = Some a ->
    exists p1 s1 c1, derives r prev s c p1 s1 c1 /\ k p1 s1 c1 = Some a.
Proof.
  induction r as [|p|r1 IH1 r2 IH2|r1 IH1 r2 IH2|g r1 IH1|n r1 IH1|n|];
    intros prev s c k a Hm; cbn [rmatch] in Hm.
  - exists prev, s, c. split; [constructor|exact Hm].
  - destruct s as [|x s]; [discriminate|].
    destruct (p x) eqn:Hp; [|discriminate].
    exists (Some x), s, c. split; [now constructor|exact Hm].
  - apply IH1 in Hm. destruct Hm as (p1 & s1 & c1 & D1 & Hm).
    apply IH2 in Hm. destruct Hm as (p2 & s2 & c2 & D2 & Hm).
    exists p2, s2, c2. split; [econstructor; eassumption|exact Hm].
  - destruct (rmatch r1 prev s c k) as [a'|] eqn:E.
    + injection Hm as <-. apply IH1 in E. destruct E as (p1 & s1 & c1 & D & Hk).
      exists p1, s1, c1. split; [now apply DAltL|exact Hk].
    + apply IH2 in Hm. destruct Hm as (p1 & s1 & c1 & D & Hk).
      exists p1, s1, c1. split; [now apply DAltR|exact Hk].
  - revert Hm. generalize (length s) at 1 as fuel. intros fuel.
    revert prev s c a. induction fuel as [|fuel IHf]; intros prev s c a Hm;
      cbn [star_loop] in Hm.
    + exists prev, s, c. split; [constructor|].
      destruct g; [exact Hm|].
      destruct (k prev s c); [exact Hm|discriminate].
    + assert (Hiter : forall a',
                 rmatch r1 prev s c
                   (fun prev' s' c' =>
                      if Nat.ltb (length s') (length s)
                      then star_loop (rmatch (A:=A) r1) g k fuel prev' s' c'
                      else None) = Some a' ->
                 exists p1 s1 c1,
                   derives (RStar g r1) prev s c p1 s1 c1 /\ k p1 s1 c1 = Some a').
      { intros a' Hi. apply IH1 in Hi.
        destruct Hi as (p1 & s1 & c1 & D1 & Hi).
        destruct (Nat.ltb_spec (length s1) (length s)); [|discriminate].
        apply IHf in Hi. destruct Hi as (p2 & s2 & c2 & D2 & Hk).
        exists p2, s2, c2. split; [|exact Hk].
        eapply DStarStep; eassumption. }
      destruct g.
      * match type of Hm with
        | match ?it with Some _ => _ | None => _ end = _ => destruct it as [a'|] eqn:E
        end.
        -- injection Hm as <-. now apply Hiter.
        -- exists prev, s, c. split; [constructor|exact Hm].
      * destruct (k prev s c) as [a'|] eqn:E.
        -- injection Hm as <-. exists prev, s, c. split; [constructor|exact E].
        -- now apply Hiter.
  - apply IH1 in Hm. destruct Hm as (p1 & s1 & c1 & D & Hk).
    exists p1, s1, ((n, firstn (length s - length s1) s) :: c1).
    split; [now constructor|exact Hk].
  - destruct (get_cap n c) as [t|] eqn:Hg.
    + destruct (startsWith s t) eqn:E; [|discriminate].
      exists (last_unit prev t), (skipn (length t) s), c.
      split; [now apply DBackrefSome|exact Hm].
    + exists prev, s, c. split; [now apply DBackrefNone|exact Hm].
  - destruct (xorb _ _) eqn:Hx; [|discriminate].
    exists prev, s, c. split; [now constructor|exact Hm].
Qed.

End Soundness.

(** What a derivation consumes is a prefix of the input. *)
Lemma derives_suffix r prev s c p1 s1 c1 :
  derives r prev s c p1 s1 c1 -> exists p, s = p ++ s1.
Proof.
  induction 1; try (now exists []).
  - now exists [x].
  - destruct IHderives1 as [q1 ->], IHderives2 as [q2 ->].
    exists (q1 ++ q2). now rewrite app_assoc.
  - assumption.
  - assumption.
  - destruct IHderives1 as [q1 ->], IHderives2 as [q2 ->].
    exists (q1 ++ q2). now rewrite app_assoc.
  - assumption.
  - apply startsWith_spec in H0. destruct H0 as [u ->].
    exists t. now rewrite skipn_app, skipn_all, Nat.sub_diag.
Qed.

(** A pattern that rejects [x] consumes no [x]. *)
Lemma derives_rejects x r prev s c p1 s1 c1 :
  rejects x r = true ->
  derives r prev s c p1 s1 c1 -> exists p, s = p ++ s1 /\ ~ In x p.
Proof.
  intros Hr D.
  induction D as
    [prev s c|p prev y s c Hp|r1 r2 prev s c p1 s1 c1 p2 s2 c2 D1 IH1 D2 IH2
    |r1 r2 prev s c p1 s1 c1 D IH|r1 r2 prev s c p1 s1 c1 D IH
    |g r prev s c|g r prev s c p1 s1 c1 p2 s2 c2 D1 IH1 Hl D2 IH2
    |n r prev s c p1 s1 c1 D IH|n prev s c Hg|n t prev s c Hg Hs|prev s c Hx];
    simpl in Hr.
  - exists []. split; [reflexivity|intros []].
  - exists [y]. split; [reflexivity|]. intros [->|[]].
    rewrite Hp in Hr. discriminate.
  - apply andb_true_iff in Hr. destruct Hr as [H1 H2].
    destruct (IH1 H1) as (q1 & -> & N1), (IH2 H2) as (q2 & -> & N2).
    exists (q1 ++ q2). split; [now rewrite app_assoc|].
    rewrite in_app_iff. tauto.
  - apply andb_true_iff in Hr. apply IH, Hr.
  - apply andb_true_iff in Hr. apply IH, Hr.
  - exists []. split; [reflexivity|intros []].
  - destruct (IH1 Hr) as (q1 & -> & N1), (IH2 Hr) as (q2 & -> & N2).
    exists (q1 ++ q2). split; [now rewrite app_assoc|].
    rewrite in_app_iff. tauto.
  - apply IH, Hr.
  - discriminate.
  - discriminate.
  - exists []. split; [reflexivity|intros []].
Qed.

(** *** Sequences *)

Lemma derives_seq_cons r rs prev s c p1 s1 c1 p2 s2 c2 :
  derives r prev s c p1 s1 c1 ->
  derives (seq rs) p1 s1 c1 p2 s2 c2 ->
  derives (seq (r :: rs)) prev s c p2 s2 c2.
Proof.
  intros D1 D2. destruct rs as [|r' rs]; cbn [seq] in *.
  - inversion D2; subst. exact D1.
  - econstructor; eassumption.
Qed.

Lemma derives_seq_nil prev s c : derives (seq []) prev s c prev s c.
Proof. constructor. Qed.

(** A literal string matches itself, with or without the [i] flag. *)
Lemma derives_literal (f : N -> regex) (t : jsstring) :
  (forall x prev s c, derives (f x) prev (x :: s) c (Some x) s c) ->
  forall prev s c, exists p1, derives (seq (map f t)) prev (t ++ s) c p1 s c.
Proof.
  intros Hf. induction t as [|x t IH]; intros prev s c.
  - exists prev. constructor.
  - destruct (IH (Some x) s c) as [p1 D]. exists p1.
    cbn [map app]. eapply derives_seq_cons; [apply Hf|exact D].
Qed.

Lemma derives_str (t : string) prev s c :
  exists p1, derives (str t) prev (js t ++ s) c p1 s c.
Proof.
  apply derives_literal. intros. constructor. apply N.eqb_refl.
Qed.

Lemma derives_istr (t : string) prev s c :
  exists p1, derives (istr t) prev (js t ++ s) c p1 s c.
Proof.
  apply derives_literal. intros. constructor. apply N.eqb_refl.
Qed.

(** A star of a class matches any run of members of the class. *)
Lemma derives_star_class (g : bool) (p : N -> bool) (a : jsstring) :
  Forall (fun x => p x = true) a ->
  forall prev s c, exists p1, derives (RStar g (RChar p)) prev (a ++ s) c p1 s c.
Proof.
  induction 1 as [|x a Hx Ha IH]; intros prev s c.
  - exists prev. constructor.
  - destruct (IH (Some x) s c) as [p1 D]. exists p1.
    eapply DStarStep; [now constructor| |exact D]. exact (Nat.lt_succ_diag_r _).
Qed.

Lemma derives_plus_class (p : N -> bool) (a : jsstring) :
  a <> [] -> Forall (fun x => p x = true) a ->
  forall prev s c, exists p1, derives (plus (RChar p)) prev (a ++ s) c p1 s c.
Proof.
  intros Hn Ha prev s c. destruct a as [|x a]; [contradiction|].
  inversion Ha as [|? ? Hx Ha']; subst.
  destruct (@derives_star_class true p a Ha' (Some x) s c) as [p1 D].
  exists p1. econstructor; [now constructor|exact D].
Qed.

Lemma seq_cons_nonempty (r : regex) (rs : list regex) :
  rs <> [] -> seq (r :: rs) = RSeq r (seq rs).
Proof. destruct rs; [contradiction|reflexivity]. Qed.

(** A sequence that rejects [x] up to a final literal [x] stops at the first
    [x] of the input. *)
Lemma seq_snoc_rejects (x : N) (front : list regex) :
  Forall (fun r => rejects x r = true) front ->
  forall prev s c p1 s1 c1,
    derives (seq (front ++ [lit x])) prev s c p1 s1 c1 ->
    exists p, s = p ++ x :: s1 /\ ~ In x p.
Proof.
  induction 1 as [|r front Hr Hf IH]; intros prev s c p1 s1 c1 D.
  - cbn in D. inversion D as [|q ? y ? ? Hq| | | | | | | | |]; subst.
    apply N.eqb_eq in Hq. subst. exists []. split; [reflexivity|intros []].
  - cbn [app] in D. rewrite seq_cons_nonempty in D by (destruct front; discriminate).
    inversion D as [| |? ? ? ? ? pm sm cm ? ? ? D1 D2| | | | | | | |]; subst.
    destruct (@derives_rejects x _ _ _ _ _ _ _ Hr D1) as (q1 & -> & N1).
    destruct (IH _ _ _ _ _ _ D2) as (q2 & -> & N2).
    exists (q1 ++ q2). split; [now rewrite app_assoc|].
    rewrite in_app_iff. tauto.
Qed.

(** The first occurrence of a character cuts a string in one way only. *)
Lemma first_occurrence (x : N) (p q s t : jsstring) :
  ~ In x p -> ~ In x q -> p ++ x :: s = q ++ x :: t -> p = q /\ s = t.
Proof.
  revert q. induction p as [|y p IH]; intros [|z q] Hp Hq E; simpl in *.
  - injection E as ->. now split.
  - injection E as <- _. exfalso. apply Hq. now left.
  - injection E as -> _. exfalso. apply Hp. now left.
  - injection E as -> E. destruct (IH q) as [-> ->]; auto.
Qed.

(** A pattern that matches at no position of the strings in [P] cuts such a
    string into kept characters only. *)
Lemma scan_go_no_match (r : regex) (P : N -> Prop) :
  (forall prev t, Forall P t -> exec_at r prev t = None) ->
  forall s prev, Forall P s -> scan_go r prev s 0 = map Kept s.
Proof.
  intros Hr. induction s as [|x s IH]; intros prev Hs; cbn [scan_go].
  - now rewrite (Hr prev [] Hs).
  - rewrite (Hr prev (x :: s) Hs). inversion Hs; subst. cbn [map].
    f_equal. now apply IH.
Qed.

Lemma replace_no_match (r : regex) (P : N -> Prop)
      (f : jsstring -> captures -> jsstring) (s : jsstring) :
  (forall prev t, Forall P t -> exec_at r prev t = None) ->
  Forall P s -> replace r f s = s.
Proof.
  intros Hr Hs. unfold replace, scan. rewrite (@scan_go_no_match r P Hr s None Hs).
  clear Hs. induction s as [|x s IH]; simpl; [reflexivity|now rewrite IH].
Qed.

(** ** The Tracker Stripper *)

(** A tracking pixel is removed, whichever attribute comes first. *)
Lemma pixel_removed :
  stripTrackingElements (js "<p>" ++ Scenario.pixel_1x1 ++ js "</p>") = js "<p></p>"
  /\ stripTrackingElements (js "<p>" ++ Scenario.pixel_1x1_swapped ++ js "</p>")
     = js "<p></p>".
Proof. split; vm_compute; reflexivity. Qed.

(** An image whose dimensions do not start with the digit 1 is kept. *)
Lemma image_2x3_kept :
  stripTrackingElements (js "<p>" ++ Scenario.image_2x3 ++ js "</p>")
  = js "<p>" ++ Scenario.image_2x3 ++ js "</p>".
Proof. vm_compute; reflexivity. Qed.

(** C7: the Tracker Stripper is claimed to leave an [<img>] whose width and
    height are not both 1 untouched.  The pattern asks for the digit 1 after
    the equals sign and the optional quote but not for the end of the value
    after it, so the image of 100 by 100 of the specification's own example
    is removed from the page. *)
Theorem C7_image_100x100_is_removed :
  stripTrackingElements (js "<p>" ++ Scenario.image_100x100 ++ js "</p>")
  = js "<p></p>".
Proof. vm_compute; reflexivity. Qed.

(** *** Every dimension that starts with the digit 1 *)

Lemma re_tracking_pixel_front :
  re_tracking_pixel = seq (pixel_front ++ [lit GT]).
Proof. reflexivity. Qed.

Lemma not_gt (a : jsstring) :
  ~ In GT a -> Forall (fun x => negb (existsb (N.eqb x) (js ">")) = true) a.
Proof.
  intros Hn. apply Forall_forall. intros x Hx. simpl.
  destruct (N.eqb_spec x 62) as [->|]; [contradiction|reflexivity].
Qed.

Lemma derives_dimension_one (h : bool) prev s c :
  exists p1, derives re_dimension_one prev (dimension_one h ++ s) c p1 s c.
Proof.
  unfold dimension_one. rewrite <- !app_assoc.
  assert (Hname : exists p1,
             derives (alt [istr "width"; istr "height"]) prev
                     ((if h then js "height" else js "width")
                      ++ js "=" ++ [DQUOTE] ++ js "1" ++ s) c
                     p1 (js "=" ++ [DQUOTE] ++ js "1" ++ s) c).
  { destruct h.
    - destruct (derives_istr "height" prev (js "=" ++ [DQUOTE] ++ js "1" ++ s) c)
        as [p1 D].
      exists p1. now apply DAltR.
    - destruct (derives_istr "width" prev (js "=" ++ [DQUOTE] ++ js "1" ++ s) c)
        as [p1 D].
      exists p1. now apply DAltL. }
  destruct Hname as [p1 Dname]. eexists. unfold re_dimension_one.
  eapply derives_seq_cons; [exact Dname|].
  eapply derives_seq_cons; [apply DStarStop|].
  eapply derives_seq_cons; [apply DChar; reflexivity|].
  eapply derives_seq_cons; [apply DStarStop|].
  eapply derives_seq_cons; [apply DAltL; apply DChar; reflexivity|].
  eapply derives_seq_cons; [apply DChar; reflexivity|].
  eapply derives_seq_cons; [apply DAltR; apply DEmpty|].
  apply derives_seq_nil.
Qed.

(** The first pattern can match a whole [img_tag]. *)
Lemma derives_pixel (h1 h2 : bool) (a b c : jsstring) prev :
  a <> [] -> b <> [] -> ~ In GT a -> ~ In GT b -> ~ In GT c ->
  exists p1 c1, derives re_tracking_pixel prev (img_tag h1 h2 a b c) [] p1 [] c1.
Proof.
  intros Ha Hb Na Nb Nc. unfold img_tag, re_tracking_pixel.
  destruct (derives_istr "<img" prev
              (a ++ dimension_one h1 ++ b ++ dimension_one h2 ++ c ++ [GT]) [])
    as [p1 D1].
  destruct (@derives_plus_class _ a Ha (@not_gt a Na) p1
              (dimension_one h1 ++ b ++ dimension_one h2 ++ c ++ [GT]) [])
    as [p2 D2].
  destruct (derives_dimension_one h1 p2 (b ++ dimension_one h2 ++ c ++ [GT]) [])
    as [p3 D3].
  destruct (@derives_plus_class _ b Hb (@not_gt b Nb) p3
              (dimension_one h2 ++ c ++ [GT]) [])
    as [p4 D4].
  destruct (derives_dimension_one h2 p4 (c ++ [GT]) []) as [p5 D5].
  destruct (@derives_star_class true _ c (@not_gt c Nc) p5 [GT] []) as [p6 D6].
  exists (Some GT), [].
  eapply derives_seq_cons; [exact D1|].
  eapply derives_seq_cons; [exact D2|].
  eapply derives_seq_cons; [exact D3|].
  eapply derives_seq_cons; [exact D4|].
  eapply derives_seq_cons; [exact D5|].
  eapply derives_seq_cons; [exact D6|].
  eapply derives_seq_cons; [apply DAltR; apply DEmpty|].
  eapply derives_seq_cons; [apply DChar; reflexivity|].
  apply derives_seq_nil.
Qed.

Lemma img_tag_body (h1 h2 : bool) (a b c : jsstring) :
  ~ In GT a -> ~ In GT b -> ~ In GT c ->
  exists body, img_tag h1 h2 a b c = body ++ [GT] /\ ~ In GT body.
Proof.
  intros Na Nb Nc.
  exists (js "<img" ++ a ++ dimension_one h1 ++ b ++ dimension_one h2 ++ c).
  split; [unfold img_tag; now rewrite <- !app_assoc|].
  assert (Nd : forall h, ~ In GT (dimension_one h))
    by (intros [|]; vm_compute; intuition discriminate).
  rewrite !in_app_iff. intros [H|[H|[H|[H|[H|H]]]]];
    try contradiction; try (now apply (Nd h1)); try (now apply (Nd h2)).
  vm_compute in H. intuition discriminate.
Qed.

(** The pattern matches the whole tag and nothing less. *)
Lemma pixel_exec (h1 h2 : bool) (a b c : jsstring) prev :
  a <> [] -> b <> [] -> ~ In GT a -> ~ In GT b -> ~ In GT c ->
  exists m, exec_at re_tracking_pixel prev (img_tag h1 h2 a b c) = Some m
            /\ m_text m = img_tag h1 h2 a b c.
Proof.
  intros Ha Hb Na Nb Nc.
  destruct (@derives_pixel h1 h2 a b c prev Ha Hb Na Nb Nc) as (p1 & c1 & D).
  destruct (@exec_at_complete _ _ _ _ _ _ D) as [m Hm]. exists m. split; [exact Hm|].
  pose proof (@exec_at_sound _ _ _ _ Hm) as Hs.
  assert (Hr : m_rest m = []).
  { unfold exec_at in Hm. apply rmatch_sound in Hm.
    destruct Hm as (p2 & s2 & c2 & D2 & Hk). injection Hk as <-. cbn [m_rest].
    rewrite re_tracking_pixel_front in D2.
    assert (F : Forall (fun r => rejects GT r = true) pixel_front)
      by (repeat constructor).
    destruct (@seq_snoc_rejects GT pixel_front F _ _ _ _ _ _ D2) as (p & E & Np).
    destruct (@img_tag_body h1 h2 a b c Na Nb Nc) as (body & Eb & Nbody).
    rewrite Eb in E.
    now destruct (@first_occurrence GT body p [] s2 Nbody Np E) as [_ <-]. }
  rewrite Hr, app_nil_r in Hs. now symmetry.
Qed.

Lemma scan_go_past_end (r : regex) (s : jsstring) :
  forall prev, exists prev', scan_go r prev s (length s) = scan_go r prev' [] 0.
Proof.
  induction s as [|x s IH]; intros prev.
  - now exists prev.
  - simpl. apply IH.
Qed.

Lemma dropped_at_end (r : regex) prev :
  flat_map (replaced (fun _ _ => [])) (scan_go r prev [] 0) = [].
Proof.
  cbn [scan_go]. now destruct (exec_at r prev []).
Qed.

Lemma drop_nil (r : regex) : replace r (fun _ _ => []) [] = [].
Proof. apply dropped_at_end. Qed.

(** Every [<img>] tag that has two [width] or [height] attributes whose
    values begin with the digit 1 is removed, whatever follows the digit. *)
Theorem dimensions_starting_with_1 (h1 h2 : bool) (a b c : jsstring) :
  a <> [] -> b <> [] -> ~ In GT a -> ~ In GT b -> ~ In GT c ->
  stripTrackingElements (img_tag h1 h2 a b c) = [].
Proof.
  intros Ha Hb Na Nb Nc. unfold stripTrackingElements.
  assert (E : replace re_tracking_pixel (fun _ _ => []) (img_tag h1 h2 a b c) = []).
  { unfold replace, scan.
    destruct (@pixel_exec h1 h2 a b c None Ha Hb Na Nb Nc) as (m & Hm & Ht).
    remember (img_tag h1 h2 a b c) as tag eqn:Etag.
    destruct tag as [|x tag]; [discriminate|].
    cbn [scan_go]. rewrite Hm, Ht. cbn [flat_map replaced app].
    destruct (@scan_go_past_end re_tracking_pixel tag (Some x)) as [prev' ->].
    apply dropped_at_end. }
  rewrite E. now rewrite !drop_nil.
Qed.

(** The image of 100 by 100 is such a tag. *)
Example image_100x100_instance :
  Scenario.image_100x100
  = img_tag false true (js " ") (js "00" ++ [DQUOTE] ++ js " ")
      (js "00" ++ [DQUOTE] ++ js " src=" ++ dq (js "a.png")).
Proof. reflexivity. Qed.

(** ** Percent-encoding *)

Lemma octet_of_escape_table :
  forallb (fun n =>
             let b := N.of_nat n in
             match octet_of (hex_digit (b / 16)) (hex_digit (b mod 16)) with
             | Some x => N.eqb x b
             | None => false
             end) (List.seq 0 256) = true.
Proof. vm_compute; reflexivity. Qed.

(** The two digits that [escape_octet] writes read back as the octet. *)
Lemma octet_of_escape (b : N) :
  (b < 256)%N -> octet_of (hex_digit (b / 16)) (hex_digit (b mod 16)) = Some b.
Proof.
  intros Hb. pose proof octet_of_escape_table as T.
  rewrite forallb_forall in T. specialize (T (N.to_nat b)).
  rewrite N2Nat.id in T.
  assert (I : In (N.to_nat b) (List.seq 0 256)) by (apply in_seq; lia).
  specialize (T I). cbv zeta in T.
  destruct (octet_of _ _) as [x|]; [|discriminate].
  apply N.eqb_eq in T. now subst.
Qed.

Lemma unreserved_not_percent (c : N) : unreserved c = true -> c <> PERCENT.
Proof. intros U ->. vm_compute in U. discriminate. Qed.

Lemma ascii_not_surrogate (c : N) :
  (c < 128)%N -> is_trail_surrogate c = false /\ is_lead_surrogate c = false.
Proof.
  intros Hc. unfold is_trail_surrogate, is_lead_surrogate.
  destruct (N.leb_spec 56320 c); [lia|].
  destruct (N.leb_spec 55296 c); [lia|]. split; reflexivity.
Qed.

Lemma decode_plain (c : N) (rest : jsstring) :
  c <> PERCENT ->
  decodeURIComponent (c :: rest) = option_map (cons c) (decodeURIComponent rest).
Proof.
  intros Hc. simpl. destruct (N.eqb_spec c PERCENT); [contradiction|reflexivity].
Qed.

Lemma decode_escaped_ascii (b : N) (rest : jsstring) :
  (b < 128)%N ->
  decodeURIComponent (escape_octet b ++ rest)
  = option_map (cons b) (decodeURIComponent rest).
Proof.
  intros Hb. unfold escape_octet.
  change ([PERCENT; hex_digit (b / 16); hex_digit (b mod 16)] ++ rest)
    with (PERCENT :: hex_digit (b / 16) :: hex_digit (b mod 16) :: rest).
  cbn [decodeURIComponent]. rewrite N.eqb_refl. cbn [negb].
  rewrite octet_of_escape by lia.
  destruct (N.ltb_spec b 128); [reflexivity|lia].
Qed.

(** Decoding undoes encoding on ASCII strings, which is what the [href] of
    a URL always is. *)
Lemma decode_encode_ascii (s : jsstring) :
  is_ascii s = true ->
  exists e, encodeURIComponent s = Some e /\ decodeURIComponent e = Some s.
Proof.
  induction s as [|c s IH]; intros Hs.
  - exists []. split; reflexivity.
  - simpl in Hs. apply andb_true_iff in Hs. destruct Hs as [Hc Hs].
    apply N.ltb_lt in Hc. destruct (IH Hs) as [e [He Hd]].
    cbn [encodeURIComponent]. destruct (unreserved c) eqn:U.
    + rewrite He. exists (c :: e). split; [reflexivity|].
      rewrite decode_plain by (now apply unreserved_not_percent).
      now rewrite Hd.
    + destruct (ascii_not_surrogate Hc) as [-> ->]. rewrite He.
      unfold utf8_encode. destruct (N.ltb_spec c 128); [|lia].
      cbn [flat_map option_map]. rewrite app_nil_r.
      exists (escape_octet c ++ e). split; [reflexivity|].
      rewrite decode_escaped_ascii by exact Hc. now rewrite Hd.
Qed.

(** An ASCII string is a string of code units that can be encoded. *)
Lemma ascii_is_encodable (s : jsstring) :
  is_ascii s = true ->
  code_units s = true /\ encodeURIComponent s <> None.
Proof.
  intros Hs. split.
  - unfold is_ascii, code_units in *. rewrite forallb_forall in *.
    intros c Hc. specialize (Hs c Hc). apply N.ltb_lt in Hs. apply N.ltb_lt. lia.
  - destruct (decode_encode_ascii s Hs) as [e [-> _]]. discriminate.
Qed.

Section Utf8.

Local Open Scope N_scope.

Lemma split64 (n : N) : n = n / 64 * 64 + n mod 64 /\ n mod 64 < 64.
Proof.
  split; [rewrite N.mul_comm; apply N.div_mod'|apply N.mod_lt; discriminate].
Qed.

Lemma continuation_escape (b : N) :
  128 <= b < 192 ->
  continuation PERCENT (hex_digit (b / 16)) (hex_digit (b mod 16)) = Some (b - 128).
Proof.
  intros Hb. unfold continuation. rewrite N.eqb_refl, octet_of_escape by lia.
  destruct (N.leb_spec 128 b); [|lia]. destruct (N.ltb_spec b 192); [|lia].
  reflexivity.
Qed.

Ltac decide_ltb :=
  repeat match goal with
         | |- context [?a <? ?b] => destruct (N.ltb_spec a b); try lia
         end.

Lemma decode_escaped_2 (b0 b1 : N) (rest : jsstring) :
  192 <= b0 < 224 -> 128 <= b1 < 192 ->
  decodeURIComponent (escape_octet b0 ++ escape_octet b1 ++ rest)
  = decoded 2 ((b0 - 192) * 64 + (b1 - 128)) (decodeURIComponent rest).
Proof.
  intros H0 H1. unfold escape_octet at 1 2.
  cbn [app]. cbn [decodeURIComponent]. rewrite N.eqb_refl. cbn [negb].
  rewrite octet_of_escape by lia. decide_ltb.
  rewrite continuation_escape by lia. reflexivity.
Qed.

Lemma decode_escaped_3 (b0 b1 b2 : N) (rest : jsstring) :
  224 <= b0 < 240 -> 128 <= b1 < 192 -> 128 <= b2 < 192 ->
  decodeURIComponent (escape_octet b0 ++ escape_octet b1 ++ escape_octet b2 ++ rest)
  = decoded 3 ((b0 - 224) * 4096 + (b1 - 128) * 64 + (b2 - 128))
            (decodeURIComponent rest).
Proof.
  intros H0 H1 H2. unfold escape_octet at 1 2 3.
  cbn [app]. cbn [decodeURIComponent]. rewrite N.eqb_refl. cbn [negb].
  rewrite octet_of_escape by lia. decide_ltb.
  rewrite !continuation_escape by lia. reflexivity.
Qed.

Lemma decode_escaped_4 (b0 b1 b2 b3 : N) (rest : jsstring) :
  240 <= b0 < 248 -> 128 <= b1 < 192 -> 128 <= b2 < 192 -> 128 <= b3 < 192 ->
  decodeURIComponent
    (escape_octet b0 ++ escape_octet b1 ++ escape_octet b2 ++ escape_octet b3 ++ rest)
  = decoded 4 ((b0 - 240) * 262144 + (b1 - 128) * 4096 + (b2 - 128) * 64 + (b3 - 128))
            (decodeURIComponent rest).
Proof.
  intros H0 H1 H2 H3. unfold escape_octet at 1 2 3 4.
  cbn [app]. cbn [decodeURIComponent]. rewrite N.eqb_refl. cbn [negb].
  rewrite octet_of_escape by lia. decide_ltb.
  rewrite !continuation_escape by lia. reflexivity.
Qed.

Lemma code_point_ok (n : nat) (cp : N) :
  scalar cp ->
  (n = 2%nat /\ 128 <= cp) \/ (n = 3%nat /\ 2048 <= cp) \/ (n = 4%nat /\ 65536 <= cp) ->
  code_point n cp = Some cp.
Proof.
  intros [Hm Hs] [[-> H]|[[-> H]|[-> H]]]; unfold code_point.
  - destruct (N.leb_spec 128 cp); [reflexivity|lia].
  - destruct (N.leb_spec 2048 cp); [|lia].
    destruct (N.leb_spec 55296 cp); destruct (N.leb_spec cp 57343);
      simpl; try reflexivity; lia.
  - destruct (N.leb_spec 65536 cp); [|lia].
    destruct (N.leb_spec cp 1114111); [reflexivity|lia].
Qed.

Lemma decoded_some (n : nat) (cp : N) (rest : option jsstring) :
  code_point n cp = Some cp ->
  decoded n cp rest = option_map (app (utf16_encode cp)) rest.
Proof. intros E. unfold decoded. rewrite E. now destruct rest. Qed.

Lemma utf8_split (cp : N) :
  exists q1 r1 q2 r2 q3 r3,
    cp / 64 = q1 /\ cp mod 64 = r1 /\ (cp / 64) mod 64 = r2
    /\ cp / 4096 = q2 /\ (cp / 4096) mod 64 = r3 /\ cp / 262144 = q3
    /\ cp = q1 * 64 + r1 /\ q1 = q2 * 64 + r2 /\ q2 = q3 * 64 + r3
    /\ r1 < 64 /\ r2 < 64 /\ r3 < 64.
Proof.
  exists (cp / 64), (cp mod 64), (cp / 4096), ((cp / 64) mod 64),
    (cp / 262144), ((cp / 4096) mod 64).
  destruct (split64 cp) as [E1 R1].
  destruct (split64 (cp / 64)) as [E2 R2].
  destruct (split64 (cp / 4096)) as [E3 R3].
  rewrite N.Div0.div_div in E2, E3.
  repeat split; assumption.
Qed.

Lemma decode_code_point (cp : N) (rest : jsstring) :
  scalar cp ->
  decodeURIComponent (flat_map escape_octet (utf8_encode cp) ++ rest)
  = option_map (app (utf16_encode cp)) (decodeURIComponent rest).
Proof.
  intros Hs. pose proof Hs as [Hm Hn]. unfold utf8_encode.
  destruct (utf8_split cp)
    as (q1 & r1 & q2 & r2 & q3 & r3 & H1 & H2 & H3 & H4 & H5 & H6 &
        E1 & E2 & E3 & R1 & R2 & R3).
  rewrite H5, H3, H1, H2, H4, H6. clear H1 H2 H3 H4 H5 H6.
  destruct (N.ltb_spec cp 128) as [L1|L1].
  - cbn [flat_map]. rewrite app_nil_r, decode_escaped_ascii by exact L1.
    unfold utf16_encode. destruct (N.ltb_spec cp 65536); [|lia].
    now destruct (decodeURIComponent rest).
  - destruct (N.ltb_spec cp 2048) as [L2|L2].
    + cbn [flat_map]. rewrite app_nil_r, <- !app_assoc.
      rewrite decode_escaped_2 by lia.
      replace ((192 + q1 - 192) * 64 + (128 + r1 - 128)) with cp by lia.
      apply decoded_some, code_point_ok; [exact Hs|left; split; [reflexivity|lia]].
    + destruct (N.ltb_spec cp 65536) as [L3|L3].
      * cbn [flat_map]. rewrite app_nil_r, <- !app_assoc.
        rewrite decode_escaped_3 by lia.
        replace ((224 + q2 - 224) * 4096 + (128 + r2 - 128) * 64 + (128 + r1 - 128))
          with cp by lia.
        apply decoded_some, code_point_ok;
          [exact Hs|right; left; split; [reflexivity|lia]].
      * cbn [flat_map]. rewrite app_nil_r, <- !app_assoc.
        rewrite decode_escaped_4 by lia.
        replace ((240 + q3 - 240) * 262144 + (128 + r3 - 128) * 4096
                 + (128 + r2 - 128) * 64 + (128 + r1 - 128))
          with cp by lia.
        apply decoded_some, code_point_ok;
          [exact Hs|right; right; split; [reflexivity|lia]].
Qed.

Lemma surrogate_pair (c d : N) :
  is_lead_surrogate c = true -> is_trail_surrogate d = true ->
  let cp := (c - 55296) * 1024 + (d - 56320) + 65536 in
  scalar cp /\ utf16_encode cp = [c; d].
Proof.
  intros C D cp. unfold is_lead_surrogate, is_trail_surrogate in C, D.
  apply andb_true_iff in C, D. rewrite !N.leb_le in C, D.
  destruct C as [C1 C2], D as [D1 D2].
  assert (S : scalar cp) by (unfold scalar, cp; lia).
  split; [exact S|]. unfold utf16_encode.
  destruct (N.ltb_spec cp 65536); [unfold cp in *; lia|].
  assert (E : cp - 65536 = 1024 * (c - 55296) + (d - 56320)) by (unfold cp; lia).
  rewrite E.
  rewrite <- (N.div_unique _ 1024 (c - 55296) (d - 56320)) by lia.
  rewrite <- (N.mod_unique _ 1024 (c - 55296) (d - 56320)) by lia.
  f_equal; [lia|f_equal; lia].
Qed.

(** Decoding undoes encoding, on every string that can be encoded. *)
Theorem decode_encode (s e : jsstring) :
  code_units s = true ->
  encodeURIComponent s = Some e ->
  decodeURIComponent e = Some s.
Proof.
  remember (length s) as n eqn:Hn. revert s e Hn.
  induction n as [n IH] using lt_wf_ind. intros s e Hn Hu He.
  destruct s as [|c s].
  - injection He as <-. reflexivity.
  - simpl in Hu. apply andb_true_iff in Hu. destruct Hu as [Hc Hu].
    apply N.ltb_lt in Hc. cbn [encodeURIComponent] in He.
    destruct (unreserved c) eqn:U.
    + destruct (encodeURIComponent s) as [e'|] eqn:E; [|discriminate].
      injection He as <-.
      rewrite decode_plain by (now apply unreserved_not_percent).
      rewrite (IH (length s)) with (s := s) (e := e'); simpl in *; auto; lia.
    + destruct (is_trail_surrogate c) eqn:T; [discriminate|].
      destruct (is_lead_surrogate c) eqn:L.
      * destruct s as [|d s]; [discriminate|].
        destruct (is_trail_surrogate d) eqn:T'; [|discriminate].
        destruct (encodeURIComponent s) as [e'|] eqn:E; [|discriminate].
        injection He as <-.
        destruct (surrogate_pair c d L T') as [S P].
        rewrite decode_code_point by exact S. rewrite P.
        simpl in Hu. apply andb_true_iff in Hu. destruct Hu as [_ Hu].
        rewrite (IH (length s)) with (s := s) (e := e'); simpl in *; auto; lia.
      * destruct (encodeURIComponent s) as [e'|] eqn:E; [|discriminate].
        injection He as <-.
        assert (S : scalar c).
        { unfold is_trail_surrogate, is_lead_surrogate in *.
          apply andb_false_iff in T, L. unfold scalar.
          rewrite !N.leb_gt in *. lia. }
        rewrite decode_code_point by exact S.
        unfold utf16_encode. destruct (N.ltb_spec c 65536); [|lia].
        rewrite (IH (length s)) with (s := s) (e := e'); simpl in *; auto; lia.
Qed.

End Utf8.

(** ** The Rewrite Engine *)

Section RewriteFacts.

Context `{URLClass}.
Variable baseUrl : jsstring.

Lemma toProxyUrl_resolved (raw r e : jsstring) :
  resolve_href (decodeEntities raw) baseUrl = Some r ->
  encodeURIComponent r = Some e ->
  toProxyUrl baseUrl raw = PROXY_PREFIX ++ e.
Proof.
  intros Hr He. unfold toProxyUrl, proxied. now rewrite Hr, He.
Qed.

(** When the resolution fails the function returns its argument with the
    entities decoded, not the argument. *)
Lemma toProxyUrl_failed (raw : jsstring) :
  resolve_href (decodeEntities raw) baseUrl = None ->
  toProxyUrl baseUrl raw = decodeEntities raw.
Proof.
  intros Hr. unfold toProxyUrl, proxied. now rewrite Hr.
Qed.

End RewriteFacts.

(** *** Entities *)

(** A pattern that starts with an ampersand finds nothing in a string
    without one. *)
Lemma entity_no_match (rest : regex) prev (t : jsstring) :
  Forall (fun x => x <> AMP) t -> exec_at (RSeq (lit AMP) rest) prev t = None.
Proof.
  intros Ht. unfold exec_at. cbn [rmatch lit].
  destruct t as [|x t]; [reflexivity|].
  inversion Ht as [|? ? Hx _]; subst.
  destruct (N.eqb_spec AMP x) as [E|_]; [now symmetry in E|reflexivity].
Qed.

(** A string without an ampersand has no entity. *)
Lemma decodeEntities_without_ampersand (s : jsstring) :
  ~ In AMP s -> decodeEntities s = s.
Proof.
  intros Hn.
  assert (Hs : Forall (fun x => x <> AMP) s).
  { apply Forall_forall. intros x Hx ->. contradiction. }
  unfold decodeEntities.
  assert (R : forall (e : string) rest f,
             str e = RSeq (lit AMP) rest -> replace (str e) f s = s).
  { intros e rest f ->.
    apply (@replace_no_match _ (fun x => x <> AMP)); [|exact Hs].
    intros prev t. apply entity_no_match. }
  cbv zeta.
  rewrite (R "&amp;"%string _ _ eq_refl), (R "&lt;"%string _ _ eq_refl),
    (R "&gt;"%string _ _ eq_refl), (R "&quot;"%string _ _ eq_refl),
    (R "&#39;"%string _ _ eq_refl).
  reflexivity.
Qed.

Lemma escape_octet_no_ampersand (b : N) : ~ In AMP (escape_octet b).
Proof.
  assert (A : AMP = 38%N) by reflexivity.
  unfold escape_octet, hex_digit. cbn [In]. intros [H|[H|[H|[]]]].
  - rewrite A in H. discriminate.
  - rewrite A in H. clear A. generalize dependent (b / 16)%N. intros d.
    destruct (N.ltb_spec d 10); lia.
  - rewrite A in H. clear A. generalize dependent (b mod 16)%N. intros d.
    destruct (N.ltb_spec d 10); lia.
Qed.

Lemma escapes_no_ampersand (l : list N) : ~ In AMP (flat_map escape_octet l).
Proof.
  induction l as [|b l IH]; cbn [flat_map]; [intros []|].
  rewrite in_app_iff. intros [H|H]; [now apply escape_octet_no_ampersand in H|auto].
Qed.

(** The output of [encodeURIComponent] has no ampersand. *)
Lemma encoded_no_ampersand (s e : jsstring) :
  encodeURIComponent s = Some e -> ~ In AMP e.
Proof.
  remember (length s) as n eqn:Hn. revert s e Hn.
  induction n as [n IH] using lt_wf_ind. intros s e Hn He.
  destruct s as [|c s].
  - injection He as <-. tauto.
  - cbn [encodeURIComponent] in He. destruct (unreserved c) eqn:U.
    + destruct (encodeURIComponent s) as [e'|] eqn:E; [|discriminate].
      injection He as <-. intros [->|H]; [vm_compute in U; discriminate|].
      revert H. apply (IH (length s)) with (s := s); simpl in *; auto; lia.
    + destruct (is_trail_surrogate c); [discriminate|].
      destruct (is_lead_surrogate c).
      * destruct s as [|d s]; [discriminate|].
        destruct (is_trail_surrogate d); [|discriminate].
        destruct (encodeURIComponent s) as [e'|] eqn:E; [|discriminate].
        injection He as <-. rewrite in_app_iff.
        intros [H|H]; [now apply escapes_no_ampersand in H|].
        revert H. apply (IH (length s)) with (s := s); simpl in *; auto; lia.
      * destruct (encodeURIComponent s) as [e'|] eqn:E; [|discriminate].
        injection He as <-. rewrite in_app_iff.
        intros [H|H]; [now apply escapes_no_ampersand in H|].
        revert H. apply (IH (length s)) with (s := s); simpl in *; auto; lia.
Qed.

(** A ProxyReference has no entity to decode. *)
Lemma decodeEntities_reference (s e : jsstring) :
  encodeURIComponent s = Some e ->
  decodeEntities (PROXY_PREFIX ++ e) = PROXY_PREFIX ++ e.
Proof.
  intros He. apply decodeEntities_without_ampersand.
  rewrite in_app_iff. intros [H|H].
  - vm_compute in H. intuition discriminate.
  - now apply encoded_no_ampersand in He.
Qed.

(** *** Idempotence *)

Section Twice.

Context `{URLClass}.
Variable baseUrl : jsstring.

(** The function applied to its own output resolves the ProxyReference
    against the base and wraps what it gets: the output is a fixed point
    only when the [URL] class resolves the ProxyReference to the URL it was
    made for. *)
Lemma toProxyUrl_twice (raw r e r' e' : jsstring) :
  resolve_href (decodeEntities raw) baseUrl = Some r ->
  code_units r = true -> encodeURIComponent r = Some e ->
  resolve_href (PROXY_PREFIX ++ e) baseUrl = Some r' ->
  code_units r' = true -> encodeURIComponent r' = Some e' ->
  toProxyUrl baseUrl raw = PROXY_PREFIX ++ e
  /\ toProxyUrl baseUrl (toProxyUrl baseUrl raw) = PROXY_PREFIX ++ e'
  /\ (toProxyUrl baseUrl (toProxyUrl baseUrl raw) = toProxyUrl baseUrl raw
      <-> r' = r).
Proof.
  intros Hr Ur He Hr' Ur' He'.
  assert (E1 : toProxyUrl baseUrl raw = PROXY_PREFIX ++ e)
    by (now apply toProxyUrl_resolved with (r := r)).
  assert (E2 : toProxyUrl baseUrl (PROXY_PREFIX ++ e) = PROXY_PREFIX ++ e').
  { apply toProxyUrl_resolved with (r := r'); [|exact He'].
    now rewrite (@decodeEntities_reference r e He). }
  rewrite E1, E2. repeat split; try reflexivity.
  - intros E. apply app_inv_head in E. subst e'.
    pose proof (@decode_encode r e Ur He) as D.
    pose proof (@decode_encode r' e Ur' He') as D'. congruence.
  - intros ->. congruence.
Qed.

End Twice.

(** C1: the rewriting primitive is claimed to be idempotent, a string that
    is already a proxy-namespace reference being returned unchanged.
    [toProxyUrl] has no test for the [/proxy/] prefix, which the JS pipeline
    and the injected script do have: applied to its own output, it resolves
    the reference against the base like any other root-relative path and
    wraps the result again, and so does [rewriteUrls] on a page it has
    already rewritten. *)
Theorem C1_proxy_reference_is_wrapped_again :
  let once := js "/proxy/https%3A%2F%2Fsite.test%2Fa" in
  let twice :=
    js "/proxy/https%3A%2F%2Fsite.test%2Fproxy%2Fhttps%253A%252F%252Fsite.test%252Fa" in
  toProxyUrl (H := WHATWG.NodeURL) Scenario.SITE (js "/a") = once
  /\ toProxyUrl (H := WHATWG.NodeURL) Scenario.SITE once = twice
  /\ Scenario.run_rewriteUrls (Scenario.anchor "/a")
     = Some (js "<a href=" ++ dq once ++ js ">x</a>")
  /\ Scenario.rewrite_twice (Scenario.anchor "/a")
     = Some (js "<a href=" ++ dq twice ++ js ">x</a>")
  /\ Scenario.rewrite_twice (Scenario.anchor "/a")
     <> Scenario.run_rewriteUrls (Scenario.anchor "/a").
Proof. repeat split; try (vm_compute; reflexivity). vm_compute. discriminate. Qed.

(** *** Round trip *)

(** C2, as the claim states it, fails on an absolute URL that is not in
    serialized form: the reference made for [http://example.com] decodes to
    [http://example.com/]. *)
Lemma C2_counterexample :
  let U := js "http://example.com" in
  URL_new (URLClass := WHATWG.NodeURL) U None <> None
  /\ startsWith U PROXY_PREFIX = false
  /\ target_of_reference (toProxyUrl (H := WHATWG.NodeURL) Scenario.SITE U)
     = Some (js "http://example.com/")
  /\ target_of_reference (toProxyUrl (H := WHATWG.NodeURL) Scenario.SITE U)
     <> Some U.
Proof. repeat split; try (vm_compute; reflexivity); vm_compute; discriminate. Qed.

(** A string without a percent sign is its own decoding. *)
Lemma decode_without_percent (s : jsstring) :
  lacks PERCENT s = true -> decodeURIComponent s = Some s.
Proof.
  unfold lacks. induction s as [|c s IH]; [reflexivity|].
  cbn [existsb]. rewrite negb_orb. intros [Hc Hs]%andb_prop.
  rewrite decode_plain.
  - now rewrite (IH Hs).
  - intros ->. now rewrite N.eqb_refl in Hc.
Qed.

(** The Dispatcher decodes what Express has decoded: a percent sign of the
    resolved URL is read as the start of an escape sequence.  The reference
    made for [https://site.test/?x=1%262] is fetched as
    [https://site.test/?x=1&2], and the one made for
    [https://site.test/?x=100%] makes the handler throw. *)
Lemma reference_is_decoded_twice :
  let U := js "https://site.test/?x=1%262" in
  let V := js "https://site.test/?x=100%" in
  express_param (toProxyUrl (H := WHATWG.NodeURL) Scenario.SITE U) = Some U
  /\ target_of_reference (toProxyUrl (H := WHATWG.NodeURL) Scenario.SITE U)
     = Some (js "https://site.test/?x=1&2")
  /\ express_param (toProxyUrl (H := WHATWG.NodeURL) Scenario.SITE V) = Some V
  /\ target_of_reference (toProxyUrl (H := WHATWG.NodeURL) Scenario.SITE V) = None.
Proof. repeat split; vm_compute; reflexivity. Qed.

(** C2 (amended): for every reference [U] that resolves against the base,
    percent-decoding the path component of the ProxyReference made for [U],
    which Express does to hand [req.params[0]] over, yields exactly the
    resolved absolute URL, which is the [href] of [new URL(U, base)] after
    the HTML entities of [U] have been decoded; when that URL holds no
    percent sign, the [decodeURIComponent] of the Dispatcher yields it too,
    and it yields [U] itself when [U] is that [href] already.  The [href] is
    taken to be a string of 16-bit code units that [encodeURIComponent]
    accepts, as every ASCII string, hence every [href] of the URL Standard,
    is. *)
Theorem C2_reference_decodes_to_resolved_url `{URLClass}
    (baseUrl U resolved : jsstring) :
  resolve_href (decodeEntities U) baseUrl = Some resolved ->
  code_units resolved = true ->
  encodeURIComponent resolved <> None ->
  express_param (toProxyUrl baseUrl U) = Some resolved
  /\ (lacks PERCENT resolved = true ->
      target_of_reference (toProxyUrl baseUrl U) = Some resolved
      /\ (resolved = U -> target_of_reference (toProxyUrl baseUrl U) = Some U)).
Proof.
  intros Hr Hu He.
  destruct (encodeURIComponent resolved) as [e|] eqn:E; [|contradiction].
  assert (Hd := decode_encode resolved Hu E).
  assert (P : express_param (toProxyUrl baseUrl U) = Some resolved).
  { rewrite (toProxyUrl_resolved baseUrl U Hr E).
    unfold express_param. rewrite startsWith_app.
    rewrite skipn_app, skipn_all, Nat.sub_diag. simpl. exact Hd. }
  split; [exact P|]. intros Hp.
  assert (T : target_of_reference (toProxyUrl baseUrl U) = Some resolved).
  { unfold target_of_reference. rewrite P. now apply decode_without_percent. }
  split; [exact T|]. intros <-. exact T.
Qed.

Lemma C2_reference_decodes_to_resolved_url_witness :
  resolve_href (H := WHATWG.NodeURL)
    (decodeEntities (js "/a?x=1&amp;y=2")) Scenario.SITE
    = Some (js "https://site.test/a?x=1&y=2")
  /\ code_units (js "https://site.test/a?x=1&y=2") = true
  /\ encodeURIComponent (js "https://site.test/a?x=1&y=2") <> None
  /\ lacks PERCENT (js "https://site.test/a?x=1&y=2") = true
  /\ express_param
       (toProxyUrl (H := WHATWG.NodeURL) Scenario.SITE (js "/a?x=1&amp;y=2"))
     = Some (js "https://site.test/a?x=1&y=2")
  /\ target_of_reference
       (toProxyUrl (H := WHATWG.NodeURL) Scenario.SITE (js "/a?x=1&amp;y=2"))
     = Some (js "https://site.test/a?x=1&y=2").
Proof.
  split; [vm_compute; reflexivity|]. split; [vm_compute; reflexivity|].
  split; [vm_compute; discriminate|]. split; [vm_compute; reflexivity|].
  destruct (@C2_reference_decodes_to_resolved_url
              WHATWG.NodeURL Scenario.SITE (js "/a?x=1&amp;y=2")
              (js "https://site.test/a?x=1&y=2"))
    as [P T];
    [vm_compute; reflexivity | vm_compute; reflexivity | vm_compute; discriminate|].
  split; [exact P|]. apply T. vm_compute; reflexivity.
Defined.

(** *** Exempt references *)

(** C3: references of the schemes [data:], [javascript:], [blob:] and
    [about:] and fragments are claimed to come back unmodified from every
    rewriting pipeline.  [needsProxy] of the injected script exempts all
    five kinds; the guard of the attribute passes of [rewriteUrls] names
    [data:], [javascript:] and [#] only, and an [href] of [about:blank]
    comes back as a ProxyReference. *)
Theorem C3_about_reference_is_rewritten :
  startsWith (js "about:blank") (js "about:") = true
  /\ needsProxy (js "about:blank") = false
  /\ attr_exempt (js "about:blank") = false
  /\ Scenario.run_rewriteUrls (Scenario.anchor "about:blank")
     = Some (Scenario.anchor "/proxy/about%3Ablank")
  /\ Scenario.run_rewriteUrls (Scenario.anchor "about:blank")
     <> Some (Scenario.anchor "about:blank").
Proof. repeat split; try (vm_compute; reflexivity). vm_compute; discriminate. Qed.

(** The other references that [needsProxy] leaves alone and the pipelines
    rewrite: a [blob:] URL in an attribute, a fragment in [url(...)], a
    [data:] URL in a [srcset], a [blob:] URL in
    [new URL(..., import.meta.url)]. *)
Lemma unguarded_references :
  needsProxy (js "blob:https://site.test/1234") = false
  /\ needsProxy (js "#grad") = false
  /\ needsProxy (js "data:image/png;base64,AAAA") = false
  /\ Scenario.run_rewriteUrls (Scenario.anchor "blob:https://site.test/1234")
     = Some (Scenario.anchor "/proxy/blob%3Ahttps%3A%2F%2Fsite.test%2F1234")
  /\ rewriteCss (H := WHATWG.NodeURL) Scenario.SITE (js "a{fill:url(#grad)}")
     = js "a{fill:url('/proxy/https%3A%2F%2Fsite.test%2F%23grad')}"
  /\ Scenario.run_rewriteUrls
       (js "<img srcset=" ++ dq (js "data:image/png;base64,AAAA 1x") ++ js ">")
     = Some (js "<img srcset="
             ++ dq (js "/proxy/data%3Aimage%2Fpng%3Bbase64, /proxy/https%3A%2F%2Fsite.test%2FAAAA 1x")
             ++ js ">")
  /\ rewriteJs (H := WHATWG.NodeURL) Scenario.SITE
       (js "new URL('blob:x', import.meta.url)")
     = js "new URL('/proxy/blob%3Ax', import.meta.url)".
Proof. repeat split; vm_compute; reflexivity. Qed.

Lemma attr_exempt_spec (u : jsstring) :
  attr_exempt u = true <->
  startsWith u (js "data:") = true
  \/ startsWith u (js "javascript:") = true
  \/ startsWith u (js "#") = true.
Proof.
  unfold attr_exempt. rewrite !orb_true_iff. tauto.
Qed.

(** What the guards do keep: the attribute pass returns unchanged a document
    in which every value it matches starts with [data:], [javascript:] or
    [#], and the CSS pipeline a style sheet in which every [url(...)]
    reference starts with [data:]. *)
Lemma exempt_documents_are_kept `{URLClass}
    (baseUrl : jsstring) (quote : N) (html css : jsstring) :
  Forall (fun m => attr_exempt (cap 3 (m_caps m)) = true)
         (matched (scan (re_attr quote) html)) ->
  Forall (fun m => startsWith (cap 1 (m_caps m)) (js "data:") = true)
         (matched (scan re_css_url css)) ->
  replace (re_attr quote) (attr_replacer baseUrl quote) html = html
  /\ rewriteCss baseUrl css = css.
Proof.
  intros Hh Hc. split.
  - apply replace_unchanged. eapply Forall_impl; [|exact Hh].
    intros m Hm. unfold attr_replacer, attr_replace. now rewrite Hm.
  - unfold rewriteCss. apply replace_unchanged. eapply Forall_impl; [|exact Hc].
    intros m Hm. unfold css_replacer, css_replace. now rewrite Hm.
Qed.

(** On whole documents: the three guarded kinds of attribute value, and a
    [data:] URL in a style sheet. *)
Lemma guarded_references_in_documents :
  Scenario.run_rewriteUrls (Scenario.anchor "#top") = Some (Scenario.anchor "#top")
  /\ Scenario.run_rewriteUrls (Scenario.anchor "javascript:void(0)")
     = Some (Scenario.anchor "javascript:void(0)")
  /\ Scenario.run_rewriteUrls (Scenario.anchor "data:text/plain,hi")
     = Some (Scenario.anchor "data:text/plain,hi")
  /\ rewriteCss (H := WHATWG.NodeURL) Scenario.SITE
       Scenario.css_data
     = Scenario.css_data.
Proof. repeat split; vm_compute; reflexivity. Qed.

(** *** Failed resolutions *)

(** C8: a reference whose resolution fails is claimed to be left completely
    unmodified, its HTML entities included.  [toProxyUrl] assigns the
    decoded string to [raw] before the call that throws, and its [catch]
    returns [raw]: the reference comes back with its entities decoded.
    [http://?a=1&amp;b=2] has an empty host and does not parse. *)
Theorem C8_failed_reference_loses_its_entities :
  resolve_href (H := WHATWG.NodeURL) (js "http://?a=1&b=2") Scenario.SITE = None
  /\ toProxyUrl (H := WHATWG.NodeURL) Scenario.SITE (js "http://?a=1&amp;b=2")
     = js "http://?a=1&b=2"
  /\ Scenario.run_rewriteUrls (Scenario.anchor "http://?a=1&amp;b=2")
     = Some (Scenario.anchor "http://?a=1&b=2")
  /\ Scenario.run_rewriteUrls (Scenario.anchor "http://?a=1&amp;b=2")
     <> Some (Scenario.anchor "http://?a=1&amp;b=2").
Proof. repeat split; try (vm_compute; reflexivity). vm_compute; discriminate. Qed.

(** The sibling paths return what they were given: the [catch] of the CSS
    replacer returns the match, [resolveJsPath] its argument. *)
Lemma siblings_keep_failed_references `{URLClass} (finalUrl m u : jsstring) :
  resolve_href u finalUrl = None ->
  resolveJsPath finalUrl u = u
  /\ css_replace finalUrl m u = m.
Proof.
  intros Hr. unfold resolveJsPath, css_replace, proxied. rewrite Hr.
  split; [reflexivity|]. now destruct (startsWith u (js "data:")).
Qed.

(** ** The Dispatcher: the admin toggle *)

(** The field of an object that holds it once. *)
Lemma get_field_unique (key : jsstring) (v : jsval)
      (before after : list (jsstring * jsval)) :
  Forall (fun kv => fst kv <> key) before ->
  get_field key (before ++ (key, v) :: after) = v.
Proof.
  induction 1 as [|[k w] before Hk _ IH]; cbn [app get_field].
  - now rewrite eqb_refl.
  - destruct (eqb k key) eqn:E; [|exact IH].
    apply eqb_eq in E. now contradiction Hk.
Qed.

(** The field of an object that does not hold it. *)
Lemma get_field_absent (key : jsstring) (fields : list (jsstring * jsval)) :
  Forall (fun kv => fst kv <> key) fields ->
  get_field key fields = VUndefined.
Proof.
  induction 1 as [|[k w] fields Hk _ IH]; cbn [get_field]; [reflexivity|].
  destruct (eqb k key) eqn:E; [|exact IH].
  apply eqb_eq in E. now contradiction Hk.
Qed.

(** C9: [POST /adblock] sets [adBlockEnabled] to false exactly when the
    [enabled] field of the parsed body is the boolean [false]: for a body
    whose [enabled] field is [v], whatever its other fields, the flag is
    false if and only if [v] is the boolean [false], and for a body without
    that field, the empty body among them, the flag is true; so a body
    where the field is true or not a boolean sets it to true.  The response
    reports the resulting value as [{ enabled }], and the counter is left
    alone. *)
Theorem C9_adblock_toggle (st : ProxyState) (body : list (jsstring * jsval)) :
  let (st', resp) := post_adblock st body in
  (forall before v after,
      body = before ++ (js "enabled", v) :: after ->
      Forall (fun kv => fst kv <> js "enabled") (before ++ after) ->
      (adBlockEnabled st' = false <-> v = VBool false)
      /\ (adBlockEnabled st' = true <-> v <> VBool false))
  /\ (Forall (fun kv => fst kv <> js "enabled") body -> adBlockEnabled st' = true)
  /\ resp = Response 200 [] (JsonEnabled (adBlockEnabled st'))
  /\ blockedCount st' = blockedCount st.
Proof.
  unfold post_adblock. cbn [adBlockEnabled blockedCount].
  split; [|split; [|split; reflexivity]].
  - intros before v after -> Hf. apply Forall_app in Hf. destruct Hf as [Hb _].
    rewrite (get_field_unique v after Hb).
    destruct v as [| |[|]| | | |]; cbn [strict_ne_false];
      repeat split; try congruence; try discriminate; auto.
  - intros Hf. now rewrite (get_field_absent Hf).
Qed.

(** The bodies [{ enabled: false, verbose: true }], [{ enabled: "false" }],
    as the URL-encoded parser reads [enabled=false], and [{ verbose: true }]. *)
Lemma C9_adblock_toggle_witness :
  let off := [(js "enabled", VBool false); (js "verbose", VBool true)] in
  let text := [(js "enabled", VString (js "false"))] in
  let other := [(js "verbose", VBool true)] in
  adBlockEnabled (fst (post_adblock Dispatcher.initial_state off)) = false
  /\ adBlockEnabled (fst (post_adblock Dispatcher.initial_state text)) = true
  /\ adBlockEnabled (fst (post_adblock Dispatcher.initial_state other)) = true.
Proof.
  cbv zeta. split; [|split].
  - pose proof (C9_adblock_toggle Dispatcher.initial_state
                  [(js "enabled", VBool false); (js "verbose", VBool true)]) as T.
    destruct (post_adblock _ _) as [st' resp]. destruct T as (T & _).
    apply (T [] (VBool false) [(js "verbose", VBool true)] eq_refl);
      [repeat constructor; discriminate|reflexivity].
  - pose proof (C9_adblock_toggle Dispatcher.initial_state
                  [(js "enabled", VString (js "false"))]) as T.
    destruct (post_adblock _ _) as [st' resp]. destruct T as (T & _).
    apply (T [] (VString (js "false")) [] eq_refl);
      [constructor|discriminate].
  - pose proof (C9_adblock_toggle Dispatcher.initial_state
                  [(js "verbose", VBool true)]) as T.
    destruct (post_adblock _ _) as [st' resp]. destruct T as (_ & T & _).
    apply T. repeat constructor; discriminate.
Defined.

(** The cases that the claim lists. *)
Lemma adblock_cases (st : ProxyState) :
  adBlockEnabled (fst (post_adblock st Scenario.body_disable)) = false
  /\ adBlockEnabled (fst (post_adblock st [(js "enabled", VBool true)])) = true
  /\ adBlockEnabled (fst (post_adblock st [])) = true
  /\ adBlockEnabled (fst (post_adblock st [(js "enabled", VString (js "false"))])) = true
  /\ adBlockEnabled (fst (post_adblock st [(js "enabled", VNumber 0)])) = true
  /\ adBlockEnabled (fst (post_adblock st [(js "enabled", VNull)])) = true.
Proof. repeat split. Qed.

(** ** The Dispatcher: the fetch callback *)

Section CallbackFacts.

Context `{URLClass}.
Variable Buffer_toString : list N -> jsstring -> option jsstring.
Variables SCRIPT_BEFORE_BASE SCRIPT_AFTER_BASE : jsstring.
Variable targetUrl : jsstring.

Let callback := fetch_callback Buffer_toString SCRIPT_BEFORE_BASE SCRIPT_AFTER_BASE targetUrl.
Let step := on_event Buffer_toString SCRIPT_BEFORE_BASE SCRIPT_AFTER_BASE targetUrl.

Lemma callback_after_responded cs a :
  responded cs = true -> callback cs a = cs.
Proof. unfold callback, fetch_callback. now intros ->. Qed.

Lemma callback_responds cs a : responded (callback cs a) = true.
Proof.
  unfold callback, fetch_callback.
  destruct (responded cs) eqn:E; [exact E|].
  destruct a as [m|r]; [reflexivity|].
  now destruct (success_response _ _ _ _ r).
Qed.

Lemma callback_sends_at_most_one a : length (sent (callback fresh a)) <= 1.
Proof.
  unfold callback, fetch_callback; simpl.
  destruct a as [m|r]; simpl; [lia|].
  destruct (success_response _ _ _ _ r); simpl; lia.
Qed.

Lemma fold_after_responded trace cs :
  responded cs = true -> fold_left step trace cs = cs.
Proof.
  revert cs; induction trace as [|e trace IH]; intros cs Hr; simpl; [reflexivity|].
  destruct e as [sec u acc|a|]; simpl; try (now apply IH).
  fold callback. rewrite callback_after_responded by exact Hr. now apply IH.
Qed.

Lemma fold_first_callback trace cs :
  responded cs = false ->
  fold_left step trace cs =
  match callbacks trace with
  | [] => cs
  | a :: _ => callback cs a
  end.
Proof.
  revert cs; induction trace as [|e trace IH]; intros cs Hr; simpl; [reflexivity|].
  destruct e as [sec u acc|a|]; simpl; try (now apply IH).
  fold callback. apply fold_after_responded, callback_responds.
Qed.

End CallbackFacts.

(** The run of the callback over a trace is its first call. *)
Lemma run_callbacks_first `{URLClass}
    (Buffer_toString : list N -> jsstring -> option jsstring)
    (SCRIPT_BEFORE_BASE SCRIPT_AFTER_BASE : jsstring)
    (targetUrl : jsstring) (trace : list event) :
  run_callbacks Buffer_toString SCRIPT_BEFORE_BASE SCRIPT_AFTER_BASE targetUrl trace
  = match callbacks trace with
    | [] => fresh
    | first :: _ =>
        fetch_callback Buffer_toString SCRIPT_BEFORE_BASE SCRIPT_AFTER_BASE
                       targetUrl fresh first
    end.
Proof.
  unfold run_callbacks. now rewrite fold_first_callback.
Qed.

Lemma run_callbacks_at_most_one `{URLClass}
    (Buffer_toString : list N -> jsstring -> option jsstring)
    (SCRIPT_BEFORE_BASE SCRIPT_AFTER_BASE : jsstring)
    (targetUrl : jsstring) (trace : list event) :
  length (sent (run_callbacks Buffer_toString SCRIPT_BEFORE_BASE SCRIPT_AFTER_BASE
                  targetUrl trace)) <= 1.
Proof.
  rewrite run_callbacks_first.
  destruct (callbacks trace) as [|a rest]; [simpl; lia|].
  apply callback_sends_at_most_one.
Qed.

(** C10: at most one response is ever sent for a proxy request.  Whatever
    the calls of the fetch callback are, and however many, the responses
    sent are those of its first call alone, at most one; a timeout followed
    by the error of the destroyed request is one instance. *)
Theorem C10_single_response `{URLClass}
    (isBlocked : jsstring -> bool)
    (http_get : bool -> nat -> jsstring -> jsstring -> hop)
    (Buffer_toString : list N -> jsstring -> option jsstring)
    (SCRIPT_BEFORE_BASE SCRIPT_AFTER_BASE : jsstring) :
  (forall (targetUrl : jsstring) (trace : list event),
      let run := run_callbacks Buffer_toString SCRIPT_BEFORE_BASE SCRIPT_AFTER_BASE in
      run targetUrl trace =
        match callbacks trace with
        | [] => fresh
        | first :: _ =>
            fetch_callback Buffer_toString SCRIPT_BEFORE_BASE SCRIPT_AFTER_BASE
                           targetUrl fresh first
        end
      /\ length (sent (run targetUrl trace)) <= 1)
  /\ (forall (st : ProxyState) (req : request),
         length (h_sent (proxy_handler isBlocked http_get Buffer_toString
                           SCRIPT_BEFORE_BASE SCRIPT_AFTER_BASE st req)) <= 1).
Proof.
  split.
  - intros targetUrl trace. cbv zeta. split.
    + apply run_callbacks_first.
    + apply run_callbacks_at_most_one.
  - intros st req. unfold proxy_handler.
    destruct (decodeURIComponent (params0 req)) as [[|c t]|]; simpl; try lia.
    destruct (gate isBlocked st (c :: t)); simpl; try lia.
    destruct (query req) as [|kv q]; simpl.
    + apply run_callbacks_at_most_one.
    + destruct (URL_new (c :: t) None); simpl;
        [apply run_callbacks_at_most_one | lia].
Qed.

(** The instance that the claim mentions: the callback is called with the
    timeout and then with the error of the destroyed request; the client
    receives the 504 and nothing else. *)
Lemma timeout_then_error_sends_once :
  let trace :=
    fetchWithRedirects (H := WHATWG.NodeURL) Scenario.net_timeout_then_error
                       (js "http://slow.test/") 0 None in
  callbacks trace = [CbError REQUEST_TIMED_OUT; CbError (js "socket hang up")]
  /\ sent (run_callbacks (H := WHATWG.NodeURL) Scenario.no_decoder [] []
             (js "http://slow.test/") trace)
     = [Response 504 [] (JsonError REQUEST_TIMED_OUT)].
Proof. split; vm_compute; reflexivity. Qed.

(** ** The Redirect-Following Fetcher *)

Section FetchFacts.

Context `{URLClass}.
Variable http_get : bool -> nat -> jsstring -> jsstring -> hop.
Variable options : option fetch_options.

Let fetch := fun targetUrl n => fetchWithRedirects http_get targetUrl n options.
Let acc := accept_of options.

(** The test on the counter comes first and sends nothing. *)
Lemma fetch_beyond_bound (targetUrl : jsstring) (n : nat) :
  n > MAX_REDIRECTS ->
  fetch targetUrl n = [EvCallback (CbError TOO_MANY_REDIRECTS)].
Proof.
  intros Hn. unfold fetch. rewrite fetchWithRedirects_equation_1.
  destruct (gt_dec n MAX_REDIRECTS) as [G|G]; [reflexivity|contradiction].
Qed.

Lemma fetch_redirected (n : nat) (from to : jsstring) :
  n <= MAX_REDIRECTS ->
  redirected http_get acc n from to ->
  fetch from n = EvRequest (secure_of from) from acc :: fetch to (n + 1).
Proof.
  intros Hn (p & st & hd & bd & loc & r & Hp & Hg & Hr & Hl & Ht).
  unfold fetch. rewrite fetchWithRedirects_equation_1.
  destruct (gt_dec n MAX_REDIRECTS) as [G|G]; [lia|].
  rewrite fetchWithRedirects_clause_1_equation_2.
  unfold secure_of. rewrite Hp. cbv zeta. fold (accept_of options). fold acc.
  rewrite Hg, Hr, Hl, Ht. reflexivity.
Qed.

Lemma fetch_answered (n : nat) (target : jsstring) (r : fetch_response) :
  n <= MAX_REDIRECTS ->
  answered http_get acc n target r ->
  fetch target n
  = [EvRequest (secure_of target) target acc; EvCallback (CbResponse r)].
Proof.
  intros Hn (p & Hp & Hg & Hr & Hf).
  unfold fetch. rewrite fetchWithRedirects_equation_1.
  destruct (gt_dec n MAX_REDIRECTS) as [G|G]; [lia|].
  rewrite fetchWithRedirects_clause_1_equation_2.
  unfold secure_of. rewrite Hp. cbv zeta. fold (accept_of options). fold acc.
  rewrite Hg, Hr. destruct r as [s h b f]; simpl in *. now subst.
Qed.

(** Following [k] redirections from hop [n] on. *)
Lemma fetch_follows (u : nat -> jsstring) (k n : nat) :
  n + k <= S MAX_REDIRECTS ->
  (forall i, n <= i < n + k -> redirected http_get acc i (u i) (u (S i))) ->
  fetch (u n) n = requests acc u n k ++ fetch (u (n + k)) (n + k).
Proof.
  revert n; induction k as [|k IH]; intros n Hb Hc.
  - rewrite Nat.add_0_r. reflexivity.
  - rewrite (@fetch_redirected n (u n) (u (S n))); [|lia|apply Hc; lia].
    replace (n + 1) with (S n) by lia.
    rewrite IH; [|lia|intros i Hi; apply Hc; lia].
    replace (S n + k) with (n + S k) by lia. reflexivity.
Qed.

Lemma requested_requests (u : nat -> jsstring) (n k : nat) (rest : list event) :
  requested (requests acc u n k ++ rest) = map u (List.seq n k) ++ requested rest.
Proof.
  unfold requests. revert n; induction k as [|k IH]; intros n; simpl; [reflexivity|].
  now rewrite IH.
Qed.

End FetchFacts.

(** C4: a chain of exactly 10 redirections is followed to its end and the
    URL reached after the last one is reported as [finalUrl]; in a chain of
    11, the eleven requests for [v 0], ..., [v 10] are sent, the call for
    [v 11] finds the counter above the bound and calls back with
    [Too many redirects] without sending anything, which the Dispatcher
    answers with status 508; the test on the counter is the first thing a
    call of [fetchWithRedirects] does. *)
Theorem C4_redirect_bound `{URLClass}
    (net10 net11 : bool -> nat -> jsstring -> jsstring -> hop)
    (options : option fetch_options)
    (u v : nat -> jsstring) (r : fetch_response)
    (Buffer_toString : list N -> jsstring -> option jsstring)
    (SCRIPT_BEFORE_BASE SCRIPT_AFTER_BASE : jsstring) :
  redirect_chain net10 (accept_of options) u 10 ->
  answered net10 (accept_of options) 10 (u 10) r ->
  redirect_chain net11 (accept_of options) v 11 ->
  (fetchWithRedirects net10 (u 0) 0 options
   = requests (accept_of options) u 0 11 ++ [EvCallback (CbResponse r)]
   /\ finalUrl r = u 10)
  /\ (let trace := fetchWithRedirects net11 (v 0) 0 options in
      trace = requests (accept_of options) v 0 11
              ++ [EvCallback (CbError TOO_MANY_REDIRECTS)]
      /\ requested trace = map v (List.seq 0 11)
      /\ sent (run_callbacks Buffer_toString SCRIPT_BEFORE_BASE SCRIPT_AFTER_BASE
                 (v 0) trace)
         = [Response 508 [] (JsonError TOO_MANY_REDIRECTS)])
  /\ (forall net targetUrl n,
         n > MAX_REDIRECTS ->
         fetchWithRedirects net targetUrl n options
         = [EvCallback (CbError TOO_MANY_REDIRECTS)]).
Proof.
  intros Hu Ha Hv. split; [|split].
  - split; [|destruct Ha as (p & _ & _ & _ & Hf); exact Hf].
    rewrite (@fetch_follows _ net10 options u 10 0);
      [|unfold MAX_REDIRECTS; lia|intros i Hi; apply Hu; lia].
    simpl Nat.add.
    rewrite (@fetch_answered _ net10 options 10 (u 10) r);
      [|unfold MAX_REDIRECTS; lia|exact Ha].
    unfold requests. reflexivity.
  - assert (E : fetchWithRedirects net11 (v 0) 0 options
                = requests (accept_of options) v 0 11
                  ++ [EvCallback (CbError TOO_MANY_REDIRECTS)]).
    { rewrite (@fetch_follows _ net11 options v 11 0);
        [|unfold MAX_REDIRECTS; lia|intros i Hi; apply Hv; lia].
      simpl Nat.add.
      rewrite fetch_beyond_bound by (unfold MAX_REDIRECTS; lia). reflexivity. }
    cbv zeta. rewrite E. split; [reflexivity|]. split.
    + rewrite requested_requests. simpl requested. now rewrite app_nil_r.
    + rewrite run_callbacks_first.
      assert (C : forall n k rest,
                 callbacks (requests (accept_of options) v n k ++ rest)
                 = callbacks rest).
      { intros n k rest. unfold requests. revert n.
        induction k as [|k IH]; intros n; simpl; [reflexivity|apply IH]. }
      rewrite C. reflexivity.
  - intros net targetUrl n Hn. now apply fetch_beyond_bound.
Qed.

Lemma C4_redirect_bound_witness :
  redirect_chain (H := WHATWG.NodeURL) (Scenario.net_redirecting 10)
    (accept_of None) Scenario.page 10
  /\ answered (H := WHATWG.NodeURL) (Scenario.net_redirecting 10)
       (accept_of None) 10 (Scenario.page 10) Scenario.page_10_response
  /\ redirect_chain (H := WHATWG.NodeURL) (Scenario.net_redirecting 11)
       (accept_of None) Scenario.page 11
  /\ fetchWithRedirects (H := WHATWG.NodeURL) (Scenario.net_redirecting 10)
       (Scenario.page 0) 0 None
     = requests (H := WHATWG.NodeURL) (accept_of None) Scenario.page 0 11
       ++ [EvCallback (CbResponse Scenario.page_10_response)]
  /\ requested (fetchWithRedirects (H := WHATWG.NodeURL)
                  (Scenario.net_redirecting 11) (Scenario.page 0) 0 None)
     = map Scenario.page (List.seq 0 11).
Proof.
  assert (C10 : redirect_chain (H := WHATWG.NodeURL) (Scenario.net_redirecting 10)
                  (accept_of None) Scenario.page 10).
  { intros i Hi.
    do 10 (destruct i as [|i];
           [do 6 eexists; repeat split; vm_compute; reflexivity|]).
    lia. }
  assert (A : answered (H := WHATWG.NodeURL) (Scenario.net_redirecting 10)
                (accept_of None) 10 (Scenario.page 10) Scenario.page_10_response).
  { eexists; repeat split; vm_compute; reflexivity. }
  assert (C11 : redirect_chain (H := WHATWG.NodeURL) (Scenario.net_redirecting 11)
                  (accept_of None) Scenario.page 11).
  { intros i Hi.
    do 11 (destruct i as [|i];
           [do 6 eexists; repeat split; vm_compute; reflexivity|]).
    lia. }
  destruct (@C4_redirect_bound WHATWG.NodeURL
              (Scenario.net_redirecting 10) (Scenario.net_redirecting 11)
              None Scenario.page Scenario.page Scenario.page_10_response
              Scenario.no_decoder [] [] C10 A C11)
    as [[E10 _] [[_ [E11 _]] _]].
  repeat split; assumption.
Defined.

(** ** The Dispatcher: the [/proxy/*] handler *)

Section HandlerFacts.

Context `{URLClass}.
Variable isBlocked : jsstring -> bool.
Variable http_get : bool -> nat -> jsstring -> jsstring -> hop.
Variable Buffer_toString : list N -> jsstring -> option jsstring.
Variables SCRIPT_BEFORE_BASE SCRIPT_AFTER_BASE : jsstring.

Let handler := proxy_handler isBlocked http_get Buffer_toString
                             SCRIPT_BEFORE_BASE SCRIPT_AFTER_BASE.
Let run := run_callbacks Buffer_toString SCRIPT_BEFORE_BASE SCRIPT_AFTER_BASE.
Let success := success_response Buffer_toString SCRIPT_BEFORE_BASE SCRIPT_AFTER_BASE.

Lemma success_response_status (targetUrl : jsstring) (r : fetch_response)
      (resp : response) :
  success targetUrl r = Some resp -> status resp = statusCode r.
Proof.
  unfold success, success_response.
  repeat match goal with
         | |- context [if ?b then _ else _] => destruct b
         | |- context [match ?x with Some _ => _ | None => _ end] => destruct x
         end; intros [= <-]; reflexivity.
Qed.

Lemma error_response_status (message : jsstring) :
  status (error_response message) = 508%N
  \/ status (error_response message) = 504%N
  \/ status (error_response message) = 500%N.
Proof.
  unfold error_response.
  destruct (eqb message TOO_MANY_REDIRECTS); [now left|].
  destruct (eqb message REQUEST_TIMED_OUT); [right; now left|right; now right].
Qed.

Lemma callbacks_in (a : callback_args) (trace : list event) :
  In a (callbacks trace) -> In (EvCallback a) trace.
Proof.
  induction trace as [|e trace IH]; simpl; [tauto|].
  destruct e as [s u c|b|]; simpl; intros Hi.
  - right; auto.
  - destruct Hi as [->|Hi]; [now left|right; auto].
  - right; auto.
Qed.

(** Where a response sent by the callback comes from. *)
Lemma sent_origin (targetUrl : jsstring) (trace : list event) (resp : response) :
  In resp (sent (run targetUrl trace)) ->
  (exists message,
      In (EvCallback (CbError message)) trace /\ resp = error_response message)
  \/ (exists r,
         In (EvCallback (CbResponse r)) trace /\ success targetUrl r = Some resp).
Proof.
  unfold run. rewrite run_callbacks_first.
  destruct (callbacks trace) as [|a rest] eqn:E; [intros []|].
  assert (I : In (EvCallback a) trace)
    by (apply callbacks_in; rewrite E; now left).
  unfold fetch_callback; simpl. destruct a as [m|r]; simpl.
  - intros [<-|[]]. left. eauto.
  - fold (success targetUrl r). destruct (success targetUrl r) as [x|] eqn:S; simpl.
    + intros [<-|[]]. right. eauto.
    + intros [].
Qed.

Lemma handler_missing (st : ProxyState) (req : request) :
  decodeURIComponent (params0 req) = Some [] ->
  handler st req
  = Handled st false None [Response 400 [] (JsonError (js "Missing target URL"))].
Proof. unfold handler, proxy_handler. now intros ->. Qed.

Lemma handler_blocked (st : ProxyState) (req : request)
      (targetUrl : jsstring) (u : url) :
  decodeURIComponent (params0 req) = Some targetUrl ->
  targetUrl <> [] ->
  URL_new targetUrl None = Some u ->
  isBlocked (url_hostname u) = true ->
  adBlockEnabled st = true ->
  handler st req
  = Handled {| blockedCount := blockedCount st + 1; adBlockEnabled := true |}
            false None [Response 204 [] NoBody].
Proof.
  intros Hd Hn Hu Hb He. unfold handler, proxy_handler. rewrite Hd.
  destruct targetUrl as [|c t]; [contradiction|].
  unfold gate. rewrite He, Hu, Hb. reflexivity.
Qed.

Lemma handler_fetches (st : ProxyState) (req : request)
      (targetUrl : jsstring) (u : url) :
  decodeURIComponent (params0 req) = Some targetUrl ->
  targetUrl <> [] ->
  URL_new targetUrl None = Some u ->
  gate isBlocked st targetUrl = None ->
  let target := fetched targetUrl u (query req) in
  let trace :=
    fetchWithRedirects http_get target 0
      (Some (FetchOptions (or_default (accept_header req) (js "*/*")))) in
  handler st req = Handled st false (Some trace) (sent (run target trace)).
Proof.
  intros Hd Hn Hu Hg. unfold handler, proxy_handler. rewrite Hd.
  destruct targetUrl as [|c t]; [contradiction|].
  rewrite Hg. unfold fetched. destruct (query req) as [|kv q]; [reflexivity|].
  rewrite Hu. reflexivity.
Qed.

Lemma handler_unparseable (st : ProxyState) (req : request)
      (targetUrl : jsstring) :
  decodeURIComponent (params0 req) = Some targetUrl ->
  targetUrl <> [] ->
  URL_new targetUrl None = None ->
  query req = [] ->
  handler st req
  = Handled st false (Some [EvCallback (CbError INVALID_URL)])
            [Response 500 [] (JsonError (js "Failed to fetch: " ++ INVALID_URL))].
Proof.
  intros Hd Hn Hu Hq. unfold handler, proxy_handler. rewrite Hd.
  destruct targetUrl as [|c t]; [contradiction|].
  unfold gate. rewrite Hu, Hq.
  destruct (adBlockEnabled st); cbv zeta;
    rewrite fetchWithRedirects_equation_1;
    (destruct (gt_dec 0 MAX_REDIRECTS) as [G|G]; [unfold MAX_REDIRECTS in G; lia|]);
    rewrite fetchWithRedirects_clause_1_equation_2, Hu; reflexivity.
Qed.

End HandlerFacts.

(** *** The gate *)

(** C5, as the claim states it, fails when the gate is off and the upstream
    itself answers 204: the status of the terminal response is mirrored and
    a 204 is returned. *)
Lemma C5_counterexample :
  let st := Scenario.state 7 false in
  let h := Scenario.handle Scenario.blocks_ads Scenario.net_no_content st
             (Scenario.get "http://ads.test/banner.js") in
  URL_new (URLClass := WHATWG.NodeURL) (js "http://ads.test/banner.js") None
    = Some Scenario.ads_banner
  /\ Scenario.blocks_ads (url_hostname (URLClass := WHATWG.NodeURL) Scenario.ads_banner)
     = true
  /\ adBlockEnabled st = false
  /\ h_fetch h <> None
  /\ h_state h = st
  /\ map status (h_sent h) = [204%N].
Proof. repeat split; try (vm_compute; reflexivity). vm_compute; discriminate. Qed.

(** C5 (amended): for a request to a gate-blocked hostname, when
    [adBlockEnabled] is true the Dispatcher answers 204 with an empty body,
    adds exactly 1 to [blockedCount] and does not call the Fetcher; when it
    is false the Fetcher is called, [blockedCount] is unchanged and what is
    sent is what the fetch callback sends, a 204 only when the upstream
    terminal response itself has status 204. *)
Theorem C5_gate `{URLClass}
    (isBlocked : jsstring -> bool)
    (http_get : bool -> nat -> jsstring -> jsstring -> hop)
    (Buffer_toString : list N -> jsstring -> option jsstring)
    (SCRIPT_BEFORE_BASE SCRIPT_AFTER_BASE : jsstring)
    (st : ProxyState) (req : request) (targetUrl : jsstring) (u : url) :
  decodeURIComponent (params0 req) = Some targetUrl ->
  targetUrl <> [] ->
  URL_new targetUrl None = Some u ->
  isBlocked (url_hostname u) = true ->
  let h := proxy_handler isBlocked http_get Buffer_toString
                         SCRIPT_BEFORE_BASE SCRIPT_AFTER_BASE st req in
  (adBlockEnabled st = true ->
   h = Handled {| blockedCount := blockedCount st + 1; adBlockEnabled := true |}
               false None [Response 204 [] NoBody])
  /\ (adBlockEnabled st = false ->
      let target := fetched targetUrl u (query req) in
      let trace :=
        fetchWithRedirects http_get target 0
          (Some (FetchOptions (or_default (accept_header req) (js "*/*")))) in
      h = Handled st false (Some trace)
            (sent (run_callbacks Buffer_toString SCRIPT_BEFORE_BASE
                     SCRIPT_AFTER_BASE target trace))
      /\ forall resp,
           In resp (h_sent h) -> status resp = 204%N ->
           exists r, In (EvCallback (CbResponse r)) trace /\ statusCode r = 204%N).
Proof.
  intros Hd Hn Hu Hb h. split.
  - intros He. unfold h. now apply handler_blocked with (targetUrl := targetUrl) (u := u).
  - intros He target trace.
    assert (G : gate isBlocked st targetUrl = None)
      by (unfold gate; now rewrite He).
    assert (E := handler_fetches isBlocked http_get Buffer_toString
                   SCRIPT_BEFORE_BASE SCRIPT_AFTER_BASE st req Hd Hn Hu G).
    cbv zeta in E. fold target in E. fold trace in E. fold h in E.
    split; [exact E|].
    intros resp Hi Hs. rewrite E in Hi. simpl in Hi.
    apply sent_origin in Hi. destruct Hi as [(m & _ & ->)|(r & Hr & Hsucc)].
    + destruct (error_response_status m) as [X|[X|X]]; rewrite X in Hs; discriminate.
    + exists r. split; [exact Hr|].
      apply success_response_status in Hsucc. congruence.
Qed.

Lemma C5_gate_witness :
  let st := Scenario.state 7 true in
  let req := Scenario.get "http://ads.test/banner.js" in
  decodeURIComponent (params0 req) = Some (js "http://ads.test/banner.js")
  /\ URL_new (URLClass := WHATWG.NodeURL) (js "http://ads.test/banner.js") None
     = Some Scenario.ads_banner
  /\ Scenario.blocks_ads (url_hostname (URLClass := WHATWG.NodeURL) Scenario.ads_banner)
     = true
  /\ Scenario.handle Scenario.blocks_ads Scenario.net_no_content st req
     = Handled (Scenario.state 8 true) false None [Response 204 [] NoBody].
Proof.
  cbv zeta.
  split; [vm_compute; reflexivity|]. split; [vm_compute; reflexivity|].
  split; [vm_compute; reflexivity|].
  refine (proj1 (@C5_gate WHATWG.NodeURL Scenario.blocks_ads Scenario.net_no_content
                   Scenario.ascii_decoder [] [] (Scenario.state 7 true)
                   (Scenario.get "http://ads.test/banner.js")
                   (js "http://ads.test/banner.js") Scenario.ads_banner
                   _ _ _ _) _);
    try (vm_compute; reflexivity).
  vm_compute; discriminate.
Defined.

(** *** Input errors *)

(** C6, as the claim states it, fails for a target that is present but does
    not parse: the request reaches [fetchWithRedirects], whose [catch] hands
    the error to the callback, and the answer is a 500. *)
Lemma C6_counterexample :
  let st := Scenario.state 0 true in
  let h := Scenario.handle (fun _ => false) Scenario.net_no_content st
             (Scenario.get "not a url") in
  decodeURIComponent (js "not a url") = Some (js "not a url")
  /\ URL_new (URLClass := WHATWG.NodeURL) (js "not a url") None = None
  /\ h = Handled st false (Some [EvCallback (CbError INVALID_URL)])
           [Response 500 [] (JsonError (js "Failed to fetch: Invalid URL"))]
  /\ map status (h_sent h) <> [400%N]
  /\ h_fetch h <> None.
Proof.
  repeat split; try (vm_compute; reflexivity); vm_compute; discriminate.
Qed.

(** C6 (amended): when the decoded target is missing the Dispatcher answers
    400 with [{ error: 'Missing target URL' }] and does not call the
    Fetcher.  When the target is present but does not parse as a URL, and
    the proxy request has no query parameters, [fetchWithRedirects] is
    called; it sends no request and calls back with the error of the
    parser, and the Dispatcher answers 500 with
    [{ error: 'Failed to fetch: Invalid URL' }]. *)
Theorem C6_input_errors `{URLClass}
    (isBlocked : jsstring -> bool)
    (http_get : bool -> nat -> jsstring -> jsstring -> hop)
    (Buffer_toString : list N -> jsstring -> option jsstring)
    (SCRIPT_BEFORE_BASE SCRIPT_AFTER_BASE : jsstring)
    (st : ProxyState) (req : request) (targetUrl : jsstring) :
  decodeURIComponent (params0 req) = Some targetUrl ->
  let h := proxy_handler isBlocked http_get Buffer_toString
                         SCRIPT_BEFORE_BASE SCRIPT_AFTER_BASE st req in
  (targetUrl = [] ->
   h = Handled st false None [Response 400 [] (JsonError (js "Missing target URL"))])
  /\ (targetUrl <> [] -> URL_new targetUrl None = None -> query req = [] ->
      h = Handled st false (Some [EvCallback (CbError INVALID_URL)])
            [Response 500 [] (JsonError (js "Failed to fetch: Invalid URL"))]
      /\ forall trace, h_fetch h = Some trace -> requested trace = []).
Proof.
  intros Hd h. split.
  - intros ->. now apply handler_missing.
  - intros Hn Hu Hq.
    assert (E := handler_unparseable isBlocked http_get Buffer_toString
                   SCRIPT_BEFORE_BASE SCRIPT_AFTER_BASE st req Hd Hn Hu Hq).
    fold h in E. split; [exact E|].
    intros trace Ht. rewrite E in Ht. simpl in Ht. injection Ht as <-. reflexivity.
Qed.

Lemma C6_input_errors_witness :
  decodeURIComponent (params0 (Scenario.get "")) = Some []
  /\ Scenario.handle (fun _ => false) Scenario.net_no_content
       (Scenario.state 0 true) (Scenario.get "")
     = Handled (Scenario.state 0 true) false None
         [Response 400 [] (JsonError (js "Missing target URL"))].
Proof.
  split; [reflexivity|].
  refine (proj1 (@C6_input_errors WHATWG.NodeURL (fun _ => false)
                   Scenario.net_no_content Scenario.ascii_decoder [] []
                   (Scenario.state 0 true) (Scenario.get "") [] _) _);
    reflexivity.
Defined.

(** ** The model of the [URL] class *)

(** Resolutions that the URL Standard prescribes, as the model computes
    them. *)
Example url_resolutions :
  Scenario.href_of "/img/logo.png" "https://site.test/styles/app.css"
    = Some (js "https://site.test/img/logo.png")
  /\ Scenario.href_of "../a/./b/../c?x=1#f" "https://site.test/styles/app.css"
     = Some (js "https://site.test/a/c?x=1#f")
  /\ Scenario.href_of "HTTP://Example.COM:80" "https://site.test/"
     = Some (js "http://example.com/")
  /\ Scenario.href_of "//cdn.test/x.js" "https://site.test/a/"
     = Some (js "https://cdn.test/x.js")
  /\ Scenario.href_of "?q=1 2" "https://site.test/a/b?c#d"
     = Some (js "https://site.test/a/b?q=1%202")
  /\ Scenario.href_of "#top" "https://site.test/a?b"
     = Some (js "https://site.test/a?b#top")
  /\ Scenario.href_of "x y.png" "https://site.test/a/b"
     = Some (js "https://site.test/a/x%20y.png")
  /\ Scenario.href_of "about:blank" "https://site.test/"
     = Some (js "about:blank").
Proof. repeat split; vm_compute; reflexivity. Qed.

(** Inputs on which the constructor throws. *)
Example url_failures :
  Scenario.href_of "http://?a=1" "https://site.test/" = None
  /\ Scenario.href_of "http://a b/" "https://site.test/" = None
  /\ Scenario.href_of "https://h.test:99999/" "https://site.test/" = None
  /\ Scenario.href_of "/a" "not a url" = None
  /\ URL_new (URLClass := WHATWG.NodeURL) (js "/a") None = None.
Proof. repeat split; vm_compute; reflexivity. Qed.

(** ** The examples of the specification *)

(** The query of the proxy request is appended to the query of the target
    before the fetch. *)
Example query_is_appended :
  let req := {| params0 := js "http://example.com/a?x=1";
                query := [(js "y", js "2")];
                accept_header := None |} in
  option_map requested
    (h_fetch (Scenario.handle (fun _ => false) Scenario.net_no_content
                (Scenario.state 0 true) req))
  = Some [js "http://example.com/a?x=1&y=2"].
Proof. vm_compute; reflexivity. Qed.

(** A root-relative reference in a style sheet is resolved against the URL
    of the style sheet. *)
Example stylesheet_reference :
  rewriteCss (H := WHATWG.NodeURL) (js "https://site.test/styles/app.css")
    (js "body{background:url(/img/logo.png)}")
  = js "body{background:url('/proxy/https%3A%2F%2Fsite.test%2Fimg%2Flogo.png')}".
Proof. vm_compute; reflexivity. Qed.

(** The body of a script is put back as it was, while its [src] is
    rewritten like any other attribute. *)
Example script_body_is_protected :
  Scenario.run_rewriteUrls
    (js "<script src='/app.js'>var s = 'url(x.png)';</script><p style='background:url(y.png)'>")
  = Some (js "<script src='/proxy/https%3A%2F%2Fsite.test%2Fapp.js'>var s = 'url(x.png)';</script><p style='background:url('/proxy/https%3A%2F%2Fsite.test%2Fy.png')'>").
Proof. vm_compute; reflexivity. Qed.

(** What the Dispatcher decodes from a ProxyReference is what it fetches. *)
Example reference_is_fetched :
  let reference := toProxyUrl (H := WHATWG.NodeURL) Scenario.SITE (js "/a?x=1&amp;y=2") in
  reference = js "/proxy/https%3A%2F%2Fsite.test%2Fa%3Fx%3D1%26y%3D2"
  /\ option_map requested
       (h_fetch (Scenario.handle (fun _ => false) Scenario.net_no_content
                   (Scenario.state 0 true)
                   (Scenario.get "https%3A%2F%2Fsite.test%2Fa%3Fx%3D1%26y%3D2")))
     = Some [js "https://site.test/a?x=1&y=2"].
Proof. split; vm_compute; reflexivity. Qed.

(** The JS pipeline on a module: imports and asset paths are rewritten,
    absolute URLs and proxy paths are not. *)
Example module_is_rewritten :
  rewriteJs (H := WHATWG.NodeURL) (js "https://site.test/js/app.js")
    (js "import a from './a.js'; import('../b.js'); f('/font.woff2'); g('https://cdn.test/c.js'); h('/proxy/y.png')")
  = js "import a from '/proxy/https%3A%2F%2Fsite.test%2Fjs%2Fa.js'; import('/proxy/https%3A%2F%2Fsite.test%2Fb.js'); f('/proxy/https%3A%2F%2Fsite.test%2Ffont.woff2'); g('https://cdn.test/c.js'); h('/proxy/y.png')".
Proof. vm_compute; reflexivity. Qed.

(* ===================================================================== *)
(** * Further properties of the server *)
(* ===================================================================== *)

(** ** The Redirect-Following Fetcher: every network *)

Section FetchInvariants.

Context `{URLClass}.
Variable http_get : bool -> nat -> jsstring -> jsstring -> hop.
Variable options : option fetch_options.

(** One call of [fetchWithRedirects], the recursive call left folded. *)
Lemma fetch_unfold (targetUrl : jsstring) (n : nat) :
  fetchWithRedirects http_get targetUrl n options
  = if gt_dec n MAX_REDIRECTS then [EvCallback (CbError TOO_MANY_REDIRECTS)]
    else
      match URL_new targetUrl None with
      | None => [EvCallback (CbError INVALID_URL)]
      | Some parsedUrl =>
          let secure := eqb (url_protocol parsedUrl) (js "https:") in
          let acc := accept_of options in
          match http_get secure n targetUrl acc with
          | HopThrows message => [EvCallback (CbError message)]
          | HopResponse statusCode headers body =>
              EvRequest secure targetUrl acc ::
              match is_redirect statusCode headers with
              | Some location =>
                  match URL_new location (Some targetUrl) with
                  | Some redirectUrl =>
                      fetchWithRedirects http_get (url_href redirectUrl) (n + 1) options
                  | None => [EvUncaught]
                  end
              | None =>
                  [EvCallback
                     (CbResponse (FetchResponse statusCode headers body targetUrl))]
              end
          | HopError message =>
              [EvRequest secure targetUrl acc; EvCallback (CbError message)]
          | HopTimeout late_error =>
              EvRequest secure targetUrl acc ::
              EvCallback (CbError REQUEST_TIMED_OUT) ::
              match late_error with
              | Some message => [EvCallback (CbError message)]
              | None => []
              end
          end
      end.
Proof.
  rewrite fetchWithRedirects_equation_1.
  destruct (gt_dec n MAX_REDIRECTS) as [G|G]; [reflexivity|].
  rewrite fetchWithRedirects_clause_1_equation_2. reflexivity.
Qed.

(** Induction on the hops that are left. *)
Lemma fetch_ind (P : jsstring -> nat -> list event -> Prop) :
  (forall t n, n > MAX_REDIRECTS -> P t n [EvCallback (CbError TOO_MANY_REDIRECTS)]) ->
  (forall t n, n <= MAX_REDIRECTS -> URL_new t None = None ->
               P t n [EvCallback (CbError INVALID_URL)]) ->
  (forall t n u, n <= MAX_REDIRECTS -> URL_new t None = Some u ->
     let secure := eqb (url_protocol u) (js "https:") in
     let acc := accept_of options in
     match http_get secure n t acc with
     | HopThrows message => P t n [EvCallback (CbError message)]
     | HopResponse statusCode headers body =>
         match is_redirect statusCode headers with
         | Some location =>
             match URL_new location (Some t) with
             | Some redirectUrl =>
                 forall rest, P (url_href redirectUrl) (n + 1) rest ->
                              rest = fetchWithRedirects http_get (url_href redirectUrl)
                                                        (n + 1) options ->
                              P t n (EvRequest secure t acc :: rest)
             | None => P t n [EvRequest secure t acc; EvUncaught]
             end
         | None =>
             P t n [EvRequest secure t acc;
                    EvCallback (CbResponse (FetchResponse statusCode headers body t))]
         end
     | HopError message =>
         P t n [EvRequest secure t acc; EvCallback (CbError message)]
     | HopTimeout late_error =>
         P t n (EvRequest secure t acc ::
                EvCallback (CbError REQUEST_TIMED_OUT) ::
                match late_error with
                | Some message => [EvCallback (CbError message)]
                | None => []
                end)
     end) ->
  forall t n, P t n (fetchWithRedirects http_get t n options).
Proof.
  intros Hb Hi Hs t n.
  remember (S MAX_REDIRECTS - n) as m eqn:Hm. revert t n Hm.
  induction m as [|m IH]; intros t n Hm; rewrite fetch_unfold;
    destruct (gt_dec n MAX_REDIRECTS) as [G|G]; try (apply Hb; exact G); try lia.
  destruct (URL_new t None) as [u|] eqn:Hu; [|apply Hi; [lia|exact Hu]].
  specialize (Hs t n u ltac:(lia) Hu). cbv zeta in *.
  destruct (http_get _ n t _) as [msg|st hd bd|msg|late]; try exact Hs.
  destruct (is_redirect st hd) as [loc|]; [|exact Hs].
  destruct (URL_new loc (Some t)) as [r|]; [|exact Hs].
  apply Hs; [|reflexivity]. apply IH. lia.
Qed.

(** X1: whatever the network answers, a call of [fetchWithRedirects] at hop
    [n] sends at most [MAX_REDIRECTS + 1 - n] requests, so a logical fetch
    sends at most eleven. *)
Theorem fetch_request_bound (targetUrl : jsstring) (n : nat) :
  length (requested (fetchWithRedirects http_get targetUrl n options))
  <= S MAX_REDIRECTS - n
  /\ length (requested (fetchWithRedirects http_get targetUrl 0 options)) <= 11.
Proof.
  assert (B : forall t k,
             length (requested (fetchWithRedirects http_get t k options))
             <= S MAX_REDIRECTS - k).
  { apply (@fetch_ind (fun _ k trace => length (requested trace) <= S MAX_REDIRECTS - k)).
    - intros; cbn [requested length]; lia.
    - intros; cbn [requested length]; lia.
    - intros t k u Hk Hu. cbv zeta.
      destruct (http_get _ k t _) as [msg|st hd bd|msg|late].
      + cbn [requested length]; lia.
      + destruct (is_redirect st hd) as [loc|]; [|cbn [requested length]; lia].
        destruct (URL_new loc (Some t)) as [r|]; [|cbn [requested length]; lia].
        intros rest IH _. cbn [requested length]. lia.
      + cbn [requested length]; lia.
      + destruct late; cbn [requested length]; lia. }
  split; [apply B|]. specialize (B targetUrl 0). unfold MAX_REDIRECTS in B. lia.
Qed.

Lemma fetch_shape (targetUrl : jsstring) (n : nat) :
  let trace := fetchWithRedirects http_get targetUrl n options in
  exists tail,
    trace = map (fun u => EvRequest (secure_of u) u (accept_of options))
                (requested trace) ++ tail
    /\ fetch_end tail.
Proof.
  cbv zeta.
  apply (@fetch_ind (fun _ _ trace => exists tail,
    trace = map (fun u => EvRequest (secure_of u) u (accept_of options))
                (requested trace) ++ tail /\ fetch_end tail)).
  - intros. eexists; split; [reflexivity|]. right; left; eauto.
  - intros. eexists; split; [reflexivity|]. right; left; eauto.
  - intros t k u Hk Hu. cbv zeta.
    assert (S : secure_of t = eqb (url_protocol u) (js "https:"))
      by (unfold secure_of; now rewrite Hu).
    destruct (http_get _ k t _) as [msg|st hd bd|msg|late].
    + eexists; split; [reflexivity|]. right; left; eauto.
    + destruct (is_redirect st hd) as [loc|].
      * destruct (URL_new loc (Some t)) as [r|].
        -- intros rest (tail & E & T) _. exists tail. split; [|exact T].
           cbn [requested map app]. rewrite S. f_equal. exact E.
        -- exists [EvUncaught]. split; [|now left].
           cbn [requested map app]. now rewrite S.
      * eexists; split; [|right; left; eauto].
        cbn [requested map app]. now rewrite S.
    + eexists; split; [|right; left; eauto].
      cbn [requested map app]. now rewrite S.
    + destruct late as [msg|].
      * eexists; split; [|right; right; eauto].
        cbn [requested map app]. now rewrite S.
      * eexists; split; [|right; left; eauto].
        cbn [requested map app]. now rewrite S.
Qed.

(** A response that is delivered ends the trace. *)
Lemma fetch_response_last (targetUrl : jsstring) (n : nat) :
  forall tb r ta,
    fetchWithRedirects http_get targetUrl n options
    = tb ++ EvCallback (CbResponse r) :: ta ->
    ta = [].
Proof.
  assert (One : forall (x y : event) tb ta, [x] = tb ++ y :: ta -> ta = []).
  { intros x y [|z [|z' tb]] ta E; try discriminate. now injection E. }
  assert (Two : forall (x y : event) tb r ta,
             [x; y] = tb ++ EvCallback (CbResponse r) :: ta ->
             x <> EvCallback (CbResponse r) -> ta = []).
  { intros x y [|z [|z' [|z'' tb]]] r ta E Hx; try discriminate.
    - injection E as E _. now contradiction Hx.
    - now injection E. }
  apply (@fetch_ind (fun _ _ trace => forall tb r ta,
           trace = tb ++ EvCallback (CbResponse r) :: ta -> ta = [])).
  - intros t k _ tb r ta E. exact (One _ _ _ _ E).
  - intros t k _ _ tb r ta E. exact (One _ _ _ _ E).
  - intros t k u Hk Hu. cbv zeta.
    destruct (http_get _ k t _) as [msg|st hd bd|msg|late].
    + intros tb r ta E. exact (One _ _ _ _ E).
    + destruct (is_redirect st hd) as [loc|].
      * destruct (URL_new loc (Some t)) as [r'|].
        -- intros rest IH _ tb r ta E. destruct tb as [|x tb]; [discriminate|].
           injection E as _ E. exact (IH tb r ta E).
        -- intros tb r ta E. apply (Two _ _ _ _ _ E); discriminate.
      * intros tb r ta E. apply (Two _ _ _ _ _ E); discriminate.
    + intros tb r ta E. apply (Two _ _ _ _ _ E); discriminate.
    + destruct late as [msg|]; intros tb r ta E.
      * destruct tb as [|x [|y [|z [|w tb]]]]; discriminate.
      * apply (Two _ _ _ _ _ E); discriminate.
Qed.

(** A fetch that sends no request calls the callback once, with an error. *)
Lemma fetch_without_request (targetUrl : jsstring) (n : nat) :
  requested (fetchWithRedirects http_get targetUrl n options) = [] ->
  exists message,
    fetchWithRedirects http_get targetUrl n options = [EvCallback (CbError message)].
Proof.
  apply (@fetch_ind (fun _ _ trace =>
           requested trace = [] -> exists message, trace = [EvCallback (CbError message)])).
  - intros. eauto.
  - intros. eauto.
  - intros t k u Hk Hu. cbv zeta.
    destruct (http_get _ k t _) as [msg|st hd bd|msg|late]; try discriminate.
    + intros. eauto.
    + destruct (is_redirect st hd) as [loc|]; [|discriminate].
      destruct (URL_new loc (Some t)) as [r'|]; [|discriminate].
      intros rest _ _. discriminate.
Qed.

(** What the errors of redirected requests leave as it is. *)
Lemma late_errors_none (trace : list event) :
  forall sent, late_errors sent trace trace.
Proof. induction trace as [|e trace IH]; intros sent; constructor; apply IH. Qed.

Lemma late_requested (sent : bool) (trace full : list event) :
  late_errors sent trace full -> requested full = requested trace.
Proof.
  induction 1 as [sent|sent e trace full _ IH|message trace full _ IH];
    [reflexivity| |exact IH].
  destruct e; cbn [requested]; now rewrite IH.
Qed.

Lemma late_delivered (sent : bool) (trace full : list event) :
  late_errors sent trace full -> delivered full = delivered trace.
Proof.
  unfold delivered.
  induction 1 as [sent|sent e trace full _ IH|message trace full _ IH];
    [reflexivity| |exact IH].
  destruct e as [s u a|[m|r]|]; cbn [callbacks flat_map]; now rewrite IH.
Qed.

Lemma late_in (sent : bool) (trace full : list event) (e : event) :
  late_errors sent trace full -> In e full ->
  In e trace \/ exists message, e = EvCallback (CbError message).
Proof.
  induction 1 as [sent|sent e0 trace full _ IH|message trace full _ IH];
    intros I.
  - destruct I.
  - destruct I as [<-|I]; [left; now left|].
    destruct (IH I) as [J|J]; [left; now right|now right].
  - destruct I as [<-|I]; [right; eauto|exact (IH I)].
Qed.

Lemma late_without_request (sent : bool) (trace full : list event) :
  late_errors sent trace full -> sent = false -> requested trace = [] ->
  full = trace.
Proof.
  induction 1 as [sent|sent e trace full _ IH|message trace full _ IH];
    intros Hs Hr; [reflexivity| |discriminate].
  subst sent. destruct e as [s u a|c|]; [discriminate| |];
    cbn [requested] in Hr; f_equal; now apply IH.
Qed.

Lemma late_split (sent : bool) (trace full : list event) :
  late_errors sent trace full ->
  forall before r after,
    full = before ++ EvCallback (CbResponse r) :: after ->
    exists tb ta,
      trace = tb ++ EvCallback (CbResponse r) :: ta
      /\ requested after = requested ta.
Proof.
  induction 1 as [sent|sent e trace full L IH|message trace full _ IH];
    intros before r after E.
  - now destruct before.
  - destruct before as [|b before]; cbn [app] in E.
    + injection E as -> ->. exists [], trace. split; [reflexivity|].
      exact (late_requested L).
    + injection E as -> E. destruct (IH before r after E) as (tb & ta & -> & Er).
      exists (b :: tb), ta. now split.
  - destruct before as [|b before]; cbn [app] in E; [discriminate|].
    injection E as _ E. exact (IH before r after E).
Qed.

Lemma requests_are_tagged (targetUrl : jsstring) (n : nat) :
  Forall (fun e => match e with
                   | EvRequest secure u acc =>
                       secure = secure_of u /\ acc = accept_of options
                   | _ => True
                   end)
         (fetchWithRedirects http_get targetUrl n options).
Proof.
  destruct (fetch_shape targetUrl n) as (tail & E & T). rewrite E.
  apply Forall_app. split.
  - apply Forall_forall. intros e I. apply in_map_iff in I.
    destruct I as (u & <- & _). now split.
  - destruct T as [->|[[a ->]|[m ->]]]; repeat constructor.
Qed.

(** X2: the requests of a logical fetch are each sent with the [Accept]
    value of the options, through the module of the protocol of their URL.
    The error listener of a redirected request stays installed, so that
    calls of the callback with an error may come at any point after the
    first request; whatever they are, they change nothing in the requests
    that are sent.  A fetch that sends no request calls the callback once,
    with an error, and nothing is requested once a response has been
    delivered. *)
Theorem fetch_trace_shape (targetUrl : jsstring) (n : nat) (full : list event) :
  let trace := fetchWithRedirects http_get targetUrl n options in
  late_errors false trace full ->
  requested full = requested trace
  /\ Forall (fun e => match e with
                      | EvRequest secure u acc =>
                          secure = secure_of u /\ acc = accept_of options
                      | _ => True
                      end) full
  /\ (requested full = [] -> exists message, full = [EvCallback (CbError message)])
  /\ (forall before r after,
         full = before ++ EvCallback (CbResponse r) :: after ->
         requested after = []).
Proof.
  cbv zeta. intros L. pose proof (late_requested L) as R.
  split; [exact R|]. split; [|split].
  - apply Forall_forall. intros e I.
    destruct (late_in e L I) as [J|[m ->]]; [|exact Logic.I].
    pose proof (requests_are_tagged targetUrl n) as F.
    rewrite Forall_forall in F. exact (F e J).
  - intros E. rewrite R in E.
    rewrite (late_without_request L eq_refl E).
    now apply fetch_without_request.
  - intros before r after E.
    destruct (late_split L before r after E) as (tb & ta & Et & ->).
    now rewrite (fetch_response_last targetUrl n tb r ta Et).
Qed.

Lemma fetch_terminal (targetUrl : jsstring) (n : nat) (r : fetch_response) :
  let trace := fetchWithRedirects http_get targetUrl n options in
  In (EvCallback (CbResponse r)) trace ->
  is_redirect (statusCode r) (headers r) = None
  /\ last (requested trace) [] = finalUrl r
  /\ requested trace <> []
  /\ URL_new (finalUrl r) None <> None
  /\ callbacks trace = [CbResponse r].
Proof.
  cbv zeta. revert r.
  apply (@fetch_ind (fun _ _ trace => forall r,
    In (EvCallback (CbResponse r)) trace ->
    is_redirect (statusCode r) (headers r) = None
    /\ last (requested trace) [] = finalUrl r
    /\ requested trace <> []
    /\ URL_new (finalUrl r) None <> None
    /\ callbacks trace = [CbResponse r])).
  - intros t k _ r [E|[]]; discriminate.
  - intros t k _ _ r [E|[]]; discriminate.
  - intros t k u Hk Hu. cbv zeta.
    destruct (http_get _ k t _) as [msg|st hd bd|msg|late].
    + intros r [E|[]]; discriminate.
    + destruct (is_redirect st hd) as [loc|] eqn:R.
      * destruct (URL_new loc (Some t)) as [r'|].
        -- intros rest IH _ r [E|Hin]; [discriminate|].
           destruct (IH r Hin) as (A & B & C & D & E). repeat split; auto.
           ++ cbn [requested]. destruct (requested rest); [contradiction|exact B].
           ++ discriminate.
        -- intros r [E|[E|[]]]; discriminate.
      * intros r [E|[E|[]]]; [discriminate|]. injection E as <-. simpl.
        repeat split; auto; try discriminate. now rewrite Hu.
    + intros r [E|[E|[]]]; discriminate.
    + intros r [E|[E|Hin]]; try discriminate.
      destruct late; [destruct Hin as [E|[]]; discriminate|destruct Hin].
Qed.

(** X3: the response that a fetch delivers is never a redirection that it
    could have followed; its [finalUrl] is the URL of the last request sent,
    which the [URL] class parses; and it is the only response that the
    fetch delivers, whatever errors of redirected requests reach the
    callback before it or after it. *)
Theorem fetch_delivers_terminal (targetUrl : jsstring) (n : nat)
        (full : list event) (r : fetch_response) :
  let trace := fetchWithRedirects http_get targetUrl n options in
  late_errors false trace full ->
  In (EvCallback (CbResponse r)) full ->
  is_redirect (statusCode r) (headers r) = None
  /\ last (requested full) [] = finalUrl r
  /\ requested full <> []
  /\ URL_new (finalUrl r) None <> None
  /\ delivered full = [r].
Proof.
  cbv zeta. intros L I.
  destruct (late_in _ L I) as [J|[m E]]; [|discriminate].
  destruct (fetch_terminal targetUrl n r J) as (A & B & C & D & E).
  rewrite (late_requested L), (late_delivered L).
  repeat split; try assumption. unfold delivered. now rewrite E.
Qed.

End FetchInvariants.

(** Two redirections; the socket of the first request fails while the
    second is under way. *)
Lemma fetch_trace_shape_witness :
  let trace :=
    fetchWithRedirects (H := WHATWG.NodeURL) (Scenario.net_redirecting 2)
                       (Scenario.page 0) 0 None in
  let r :=
    FetchResponse 200 [(js "content-type", js "text/plain")] (js "done")
                  (Scenario.page 2) in
  let full :=
    [EvRequest false (Scenario.page 0) (js "*/*");
     EvRequest false (Scenario.page 1) (js "*/*");
     EvCallback (CbError (js "socket hang up"));
     EvRequest false (Scenario.page 2) (js "*/*");
     EvCallback (CbResponse r)] in
  late_errors false trace full
  /\ requested full = requested trace.
Proof.
  cbv zeta.
  assert (L : late_errors false
                (fetchWithRedirects (H := WHATWG.NodeURL) (Scenario.net_redirecting 2)
                                    (Scenario.page 0) 0 None)
                [EvRequest false (Scenario.page 0) (js "*/*");
                 EvRequest false (Scenario.page 1) (js "*/*");
                 EvCallback (CbError (js "socket hang up"));
                 EvRequest false (Scenario.page 2) (js "*/*");
                 EvCallback
                   (CbResponse
                      (FetchResponse 200 [(js "content-type", js "text/plain")]
                                     (js "done") (Scenario.page 2)))]).
  { assert (E : fetchWithRedirects (H := WHATWG.NodeURL) (Scenario.net_redirecting 2)
                                   (Scenario.page 0) 0 None
                = [EvRequest false (Scenario.page 0) (js "*/*");
                   EvRequest false (Scenario.page 1) (js "*/*");
                   EvRequest false (Scenario.page 2) (js "*/*");
                   EvCallback
                     (CbResponse
                        (FetchResponse 200 [(js "content-type", js "text/plain")]
                                       (js "done") (Scenario.page 2)))])
      by (vm_compute; reflexivity).
    rewrite E. repeat constructor. }
  split; [exact L|].
  exact (proj1 (@fetch_trace_shape WHATWG.NodeURL (Scenario.net_redirecting 2)
                  None (Scenario.page 0) 0 _ L)).
Defined.

(** The same fetch, the error reaching the callback before the response. *)
Lemma fetch_delivers_terminal_witness :
  let trace :=
    fetchWithRedirects (H := WHATWG.NodeURL) (Scenario.net_redirecting 2)
                       (Scenario.page 0) 0 None in
  let r :=
    FetchResponse 200 [(js "content-type", js "text/plain")] (js "done")
                  (Scenario.page 2) in
  let full :=
    [EvRequest false (Scenario.page 0) (js "*/*");
     EvCallback (CbError (js "socket hang up"));
     EvRequest false (Scenario.page 1) (js "*/*");
     EvRequest false (Scenario.page 2) (js "*/*");
     EvCallback (CbResponse r)] in
  late_errors false trace full
  /\ In (EvCallback (CbResponse r)) full
  /\ last (requested full) [] = Scenario.page 2
  /\ delivered full = [r].
Proof.
  cbv zeta.
  assert (L : late_errors false
                (fetchWithRedirects (H := WHATWG.NodeURL) (Scenario.net_redirecting 2)
                                    (Scenario.page 0) 0 None)
                [EvRequest false (Scenario.page 0) (js "*/*");
                 EvCallback (CbError (js "socket hang up"));
                 EvRequest false (Scenario.page 1) (js "*/*");
                 EvRequest false (Scenario.page 2) (js "*/*");
                 EvCallback
                   (CbResponse
                      (FetchResponse 200 [(js "content-type", js "text/plain")]
                                     (js "done") (Scenario.page 2)))]).
  { assert (E : fetchWithRedirects (H := WHATWG.NodeURL) (Scenario.net_redirecting 2)
                                   (Scenario.page 0) 0 None
                = [EvRequest false (Scenario.page 0) (js "*/*");
                   EvRequest false (Scenario.page 1) (js "*/*");
                   EvRequest false (Scenario.page 2) (js "*/*");
                   EvCallback
                     (CbResponse
                        (FetchResponse 200 [(js "content-type", js "text/plain")]
                                       (js "done") (Scenario.page 2)))])
      by (vm_compute; reflexivity).
    rewrite E. repeat constructor. }
  assert (Hin : In (EvCallback
                      (CbResponse
                         (FetchResponse 200 [(js "content-type", js "text/plain")]
                                        (js "done") (Scenario.page 2))))
                   [EvRequest false (Scenario.page 0) (js "*/*");
                    EvCallback (CbError (js "socket hang up"));
                    EvRequest false (Scenario.page 1) (js "*/*");
                    EvRequest false (Scenario.page 2) (js "*/*");
                    EvCallback
                      (CbResponse
                         (FetchResponse 200 [(js "content-type", js "text/plain")]
                                        (js "done") (Scenario.page 2)))])
    by (cbn [In]; tauto).
  destruct (@fetch_delivers_terminal WHATWG.NodeURL (Scenario.net_redirecting 2)
              None (Scenario.page 0) 0 _ _ L Hin) as (_ & La & _ & _ & D).
  repeat split; assumption.
Defined.

(** ** The Dispatcher: the routes *)

Section ServerFacts.

Context `{URLClass}.
Variable isBlocked : jsstring -> bool.
Variable http_get : bool -> nat -> jsstring -> jsstring -> hop.
Variable Buffer_toString : list N -> jsstring -> option jsstring.
Variables SCRIPT_BEFORE_BASE SCRIPT_AFTER_BASE : jsstring.

Let handler := proxy_handler isBlocked http_get Buffer_toString
                             SCRIPT_BEFORE_BASE SCRIPT_AFTER_BASE.
Let srv := serve isBlocked http_get Buffer_toString
                 SCRIPT_BEFORE_BASE SCRIPT_AFTER_BASE.
Let all := handle_all isBlocked http_get Buffer_toString
                      SCRIPT_BEFORE_BASE SCRIPT_AFTER_BASE.
Let go := run isBlocked http_get Buffer_toString
              SCRIPT_BEFORE_BASE SCRIPT_AFTER_BASE.
Let up := sound isBlocked http_get Buffer_toString
                SCRIPT_BEFORE_BASE SCRIPT_AFTER_BASE.

Lemma fetch_callbacks_nonempty_or (t : jsstring) (o : option fetch_options) trace :
  trace = fetchWithRedirects http_get t 0 o -> trace <> [].
Proof.
  intros ->. rewrite fetch_unfold.
  destruct (gt_dec 0 MAX_REDIRECTS); [discriminate|].
  destruct (URL_new t None); [|discriminate]. cbv zeta.
  destruct (http_get _ _ _ _); try discriminate.
Qed.

(** The handler counts a request exactly when the gate answers it. *)
Lemma handler_counts (st : ProxyState) (req : request) :
  blockedCount (h_state (handler st req))
  = (blockedCount st + if suppressed (Proxied (handler st req)) then 1 else 0)%N
  /\ adBlockEnabled (h_state (handler st req)) = adBlockEnabled st.
Proof.
  unfold handler, proxy_handler.
  destruct (decodeURIComponent (params0 req)) as [[|c t]|]; simpl;
    try (split; [lia|reflexivity]).
  destruct (gate isBlocked st (c :: t)); simpl; [split; [lia|reflexivity]|].
  destruct (query req) as [|kv q]; simpl; [split; [lia|reflexivity]|].
  destruct (URL_new (c :: t) None); simpl; split; try lia; reflexivity.
Qed.

Lemma serve_counts (st : ProxyState) (rq : route) :
  blockedCount (fst (srv st rq))
  = (blockedCount st + if suppressed (snd (srv st rq)) then 1 else 0)%N.
Proof.
  destruct rq as [|body|req]; simpl; try lia.
  apply handler_counts.
Qed.

(** [blockedCount] grows by the number of requests that the gate answers. *)
Lemma handle_all_counts (st : ProxyState) (rqs : list route) :
  blockedCount (fst (all st rqs))
  = (blockedCount st
     + N.of_nat (length (filter suppressed (snd (all st rqs)))))%N.
Proof.
  revert st. induction rqs as [|rq rqs IH]; intros st.
  - simpl. lia.
  - unfold all in *. cbn [handle_all].
    pose proof (serve_counts st rq) as C. unfold srv in C.
    destruct (serve _ _ _ _ _ st rq) as [st1 s] eqn:E1. cbn [fst snd] in C.
    specialize (IH st1).
    destruct (handle_all _ _ _ _ _ st1 rqs) as [st2 ss] eqn:E2. cbn [fst snd] in *.
    rewrite IH, C. cbn [filter].
    destruct (suppressed s); cbn [length]; rewrite ?Nnat.Nat2N.inj_succ; lia.
Qed.

(** A process that is up has run the handlers of the requests that have
    arrived, in the order of arrival: the fetches that settle do not touch
    the state. *)
Lemma run_handles (evs : list server_event) :
  forall p p',
    go p evs = Some p' ->
    p_state p' = fst (all (p_state p) (arrivals evs))
    /\ p_served p' = p_served p ++ snd (all (p_state p) (arrivals evs)).
Proof.
  unfold go, all.
  induction evs as [|e evs IH]; intros p p' Hr.
  - cbn in Hr. injection Hr as <-. cbn. now rewrite app_nil_r.
  - cbn [run] in Hr.
    destruct (step _ _ _ _ _ p e) as [p1|] eqn:Es; [|discriminate].
    destruct (IH p1 p' Hr) as [E1 E2].
    destruct e as [rq|i]; cbn [step arrivals handle_all] in *.
    + destruct (serve _ _ _ _ _ (p_state p) rq) as [st1 s].
      injection Es as <-. cbn [p_state p_served] in *.
      destruct (handle_all _ _ _ _ _ st1 (arrivals evs)) as [st2 ss].
      cbn [fst snd] in *. split; [exact E1|]. rewrite E2. now rewrite <- app_assoc.
    + destruct (in_flight p i) as [h|].
      * destruct (fatal h); [discriminate|]. injection Es as <-.
        cbn [p_state p_served] in *. now split.
      * injection Es as <-. now split.
Qed.

(** X4: in a process that the requests that have arrived and the fetches
    that have settled leave up, the handlers of these requests have run in
    the order of arrival, and [GET /blocked-count] reports the count at the
    start plus the number of these requests that the gate has answered with
    its 204 (from the initial state, that number): nothing else changes the
    counter, and no request is counted twice.  A process that an exception
    has ended reports nothing: its counter is lost. *)
Theorem blocked_count_reported (st : ProxyState) (evs : list server_event)
        (p : process) :
  go (start st) evs = Some p ->
  (p_state p, p_served p) = all st (arrivals evs)
  /\ snd (srv (p_state p) GetBlockedCount)
     = Answered (Response 200 []
                   (JsonCount (blockedCount st
                               + N.of_nat (length (filter suppressed (p_served p)))))).
Proof.
  intros Hr. destruct (@run_handles evs (start st) p Hr) as [E1 E2].
  cbn [start p_state p_served app] in E1, E2.
  pose proof (handle_all_counts st (arrivals evs)) as B.
  rewrite <- E1, <- E2 in B. split.
  - rewrite E1, E2. now destruct (all st (arrivals evs)).
  - simpl. unfold get_blocked_count. now rewrite B.
Qed.

(** A fetch that has sent a request had a target that parses. *)
Lemma fetch_requested_parses (t : jsstring) (n : nat) (o : option fetch_options) :
  requested (fetchWithRedirects http_get t n o) <> [] -> URL_new t None <> None.
Proof.
  rewrite fetch_unfold.
  destruct (gt_dec n MAX_REDIRECTS); [intros C; now contradiction C|].
  destruct (URL_new t None); [discriminate|intros C; now contradiction C].
Qed.

Lemma rewriteUrls_some (baseUrl html : jsstring) :
  URL_new baseUrl None <> None -> rewriteUrls baseUrl html <> None.
Proof.
  unfold rewriteUrls. destruct (URL_new baseUrl None); [discriminate|congruence].
Qed.

(** What the callback sends for the response that a fetch delivers. *)
Lemma delivered_response_sent (target : jsstring) (o : option fetch_options)
      (r : fetch_response) :
  In (EvCallback (CbResponse r)) (fetchWithRedirects http_get target 0 o) ->
  sent (run_callbacks Buffer_toString SCRIPT_BEFORE_BASE SCRIPT_AFTER_BASE target
          (fetchWithRedirects http_get target 0 o))
  = match success_response Buffer_toString SCRIPT_BEFORE_BASE SCRIPT_AFTER_BASE
                           target r with
    | Some resp => [resp]
    | None => []
    end
  /\ URL_new (or_default (Some (finalUrl r)) target) None <> None.
Proof.
  intros Hin.
  destruct (@fetch_terminal _ http_get o target 0 r Hin)
    as (_ & _ & Hreq & Hfin & Hcb).
  rewrite run_callbacks_first, Hcb. unfold fetch_callback. cbn [responded fresh sent].
  split.
  - now destruct (success_response _ _ _ target r).
  - destruct (finalUrl r) as [|x f] eqn:F; cbn [or_default].
    + now apply (@fetch_requested_parses target 0 o).
    + exact Hfin.
Qed.

(** The fetch that the handler has started, if any. *)
Lemma handler_fetch_inv (st : ProxyState) (req : request) (trace : list event) :
  h_fetch (handler st req) = Some trace ->
  exists target o,
    trace = fetchWithRedirects http_get target 0 o
    /\ handler st req
       = Handled st false (Some trace)
           (sent (run_callbacks Buffer_toString SCRIPT_BEFORE_BASE SCRIPT_AFTER_BASE
                    target trace)).
Proof.
  unfold handler, proxy_handler.
  destruct (decodeURIComponent (params0 req)) as [[|c t]|]; try discriminate.
  destruct (gate isBlocked st (c :: t)); try discriminate.
  destruct (query req) as [|kv q].
  - cbv zeta. cbn [h_fetch]. intros [= <-]. eauto.
  - destruct (URL_new (c :: t) None) as [u|]; [|discriminate].
    cbv zeta. cbn [option_map h_fetch]. intros [= <-]. eauto.
Qed.

(** The success branch sends a response when the base parses and the body
    can be read in the encoding that the branch asks for. *)
Lemma success_response_some (target : jsstring) (r : fetch_response) :
  let contentType :=
    or_default (header (js "content-type") (headers r)) (js "text/html") in
  URL_new (or_default (Some (finalUrl r)) target) None <> None ->
  (forall charset, decoded_as contentType = Some charset ->
                   Buffer_toString (body r) charset <> None) ->
  exists content,
    success_response Buffer_toString SCRIPT_BEFORE_BASE SCRIPT_AFTER_BASE target r
    = Some (Response (statusCode r) (proxied_headers contentType) content).
Proof.
  intros ct Hbase Hdec.
  unfold success_response. cbv zeta. fold ct.
  set (base := or_default (Some (finalUrl r)) target) in *.
  unfold decoded_as in Hdec.
  destruct (includes ct (js "text/html")).
  - destruct (Buffer_toString (body r) (charset_of ct)) as [html|] eqn:B;
      [|now contradiction (Hdec (charset_of ct) eq_refl)].
    destruct (rewriteUrls base (stripTrackingElements html)) as [html'|] eqn:R;
      [|now contradiction (@rewriteUrls_some base (stripTrackingElements html) Hbase)].
    eexists. reflexivity.
  - destruct (includes ct (js "text/css")).
    + destruct (Buffer_toString (body r) (js "utf-8")) as [css|] eqn:B;
        [|now contradiction (Hdec (js "utf-8") eq_refl)].
      eexists. reflexivity.
    + destruct (includes ct (js "javascript")).
      * destruct (Buffer_toString (body r) (js "utf-8")) as [code|] eqn:B;
          [|now contradiction (Hdec (js "utf-8") eq_refl)].
        eexists. reflexivity.
      * eexists. reflexivity.
Qed.



Lemma in_callbacks (a : callback_args) (trace : list event) :
  In a (callbacks trace) <-> In (EvCallback a) trace.
Proof.
  induction trace as [|e trace IH]; [reflexivity|].
  destruct e as [s u c|b|]; cbn [callbacks In]; rewrite IH.
  - split; [now right|]. intros [E|I]; [discriminate|exact I].
  - split; (intros [E|I]; [left; congruence|now right]).
  - split; [now right|]. intros [E|I]; [discriminate|exact I].
Qed.

Lemma callbacks_app (t1 t2 : list event) :
  callbacks (t1 ++ t2) = callbacks t1 ++ callbacks t2.
Proof.
  induction t1 as [|e t1 IH]; [reflexivity|].
  destruct e; cbn [app callbacks]; now rewrite IH.
Qed.

(** A fetch calls back unless an exception has left its response handler. *)
Lemma fetch_calls_back (target : jsstring) (n : nat) (o : option fetch_options) :
  In EvUncaught (fetchWithRedirects http_get target n o)
  \/ callbacks (fetchWithRedirects http_get target n o) <> [].
Proof.
  destruct (@fetch_shape _ http_get o target n) as (tail & E & T).
  rewrite E at 1 2. destruct T as [->|[[a ->]|[m ->]]].
  - left. apply in_or_app. right. now left.
  - right. rewrite callbacks_app. cbn [callbacks].
    intros C. now apply app_eq_nil in C.
  - right. rewrite callbacks_app. cbn [callbacks].
    intros C. now apply app_eq_nil in C.
Qed.

Lemma uncaught_spec (trace : list event) :
  existsb is_uncaught trace = true <-> In EvUncaught trace.
Proof.
  rewrite existsb_exists. split.
  - intros (e & I & U). now destruct e.
  - intros I. now exists EvUncaught.
Qed.

(** The handler sends at most one response. *)
Lemma handler_sends_at_most_one (st : ProxyState) (req : request) :
  length (h_sent (handler st req)) <= 1.
Proof.
  unfold handler, proxy_handler.
  destruct (decodeURIComponent (params0 req)) as [[|c t]|]; simpl; try lia.
  destruct (gate isBlocked st (c :: t)); simpl; try lia.
  destruct (query req) as [|kv q]; simpl.
  - apply run_callbacks_at_most_one.
  - destruct (URL_new (c :: t) None); simpl;
      [apply run_callbacks_at_most_one | lia].
Qed.

(** Without a fetch, the handler has sent one response unless it threw. *)
Lemma handler_answers_itself (st : ProxyState) (req : request) :
  h_fetch (handler st req) = None ->
  length (h_sent (handler st req)) = if h_threw (handler st req) then 0 else 1.
Proof.
  unfold handler, proxy_handler.
  destruct (decodeURIComponent (params0 req)) as [[|c t]|]; try reflexivity.
  destruct (gate isBlocked st (c :: t)); [reflexivity|].
  destruct (query req) as [|kv q]; [discriminate|].
  destruct (URL_new (c :: t) None); [discriminate|reflexivity].
Qed.

(** What [fatal] says of a run of the handler: its fetch has ended with an
    exception that left the response handler, or has delivered a response
    on which the success branch of the callback threw. *)
Lemma fatal_spec (st : ProxyState) (req : request) :
  fatal (handler st req) = true
  <-> exists target o trace,
        trace = fetchWithRedirects http_get target 0 o
        /\ handler st req
           = Handled st false (Some trace)
               (sent (run_callbacks Buffer_toString SCRIPT_BEFORE_BASE
                        SCRIPT_AFTER_BASE target trace))
        /\ (In EvUncaught trace
            \/ exists r,
                 In (EvCallback (CbResponse r)) trace
                 /\ success_response Buffer_toString SCRIPT_BEFORE_BASE
                                     SCRIPT_AFTER_BASE target r = None).
Proof.
  split.
  - unfold fatal. destruct (h_fetch (handler st req)) as [trace|] eqn:Hf;
      [|discriminate].
    destruct (handler_fetch_inv st req Hf) as (target & o & E & Hh).
    intros F. exists target, o, trace. split; [exact E|]. split; [exact Hh|].
    apply orb_true_iff in F. destruct F as [F|F]; [left; now apply uncaught_spec|].
    right. destruct (callbacks trace) as [|[m|r] rest] eqn:Cb; try discriminate.
    exists r. split; [apply in_callbacks; rewrite Cb; now left|].
    rewrite Hh in F. cbn [h_sent] in F.
    rewrite run_callbacks_first, Cb in F. unfold fetch_callback in F.
    cbn [responded fresh sent app] in F.
    now destruct (success_response _ _ _ target r).
  - intros (target & o & trace & E & Hh & F). rewrite Hh. unfold fatal.
    cbn [h_fetch h_sent]. apply orb_true_iff.
    destruct F as [F|(r & Hin & Hs)]; [left; now apply uncaught_spec|].
    right. subst trace.
    destruct (@fetch_terminal _ http_get o target 0 r Hin) as (_ & _ & _ & _ & Cb).
    rewrite run_callbacks_first, Cb. unfold fetch_callback.
    cbn [responded fresh sent app]. now rewrite Hs.
Qed.

(** A fetch that settles without ending the process has sent one
    response. *)
Lemma settled_fetch_sends_one (st : ProxyState) (req : request) :
  h_fetch (handler st req) <> None ->
  fatal (handler st req) = false ->
  length (h_sent (handler st req)) = 1.
Proof.
  intros Hf F.
  destruct (h_fetch (handler st req)) as [trace|] eqn:Ef; [|now contradiction Hf].
  destruct (handler_fetch_inv st req Ef) as (target & o & E & Hh).
  unfold fatal in F. rewrite Ef in F. apply orb_false_iff in F. destruct F as [U F].
  rewrite Hh in F |- *. cbn [h_sent] in *.
  destruct (fetch_calls_back target 0 o) as [I|C].
  - rewrite <- E in I. apply uncaught_spec in I. congruence.
  - rewrite <- E in C. rewrite run_callbacks_first in F |- *.
    destruct (callbacks trace) as [|[m|r] rest]; [now contradiction C|reflexivity|].
    unfold fetch_callback in F |- *. cbn [responded fresh sent app] in F |- *.
    now destruct (success_response _ _ _ target r).
Qed.

Lemma start_sound (st : ProxyState) : up (start st).
Proof.
  split.
  - intros i. discriminate.
  - intros [|i] h; discriminate.
Qed.

Lemma step_sound (p p' : process) (e : server_event) :
  up p ->
  step isBlocked http_get Buffer_toString SCRIPT_BEFORE_BASE SCRIPT_AFTER_BASE p e
  = Some p' ->
  up p'.
Proof.
  intros [S1 S2] Es. destruct e as [rq|i]; cbn [step] in Es.
  - destruct (serve _ _ _ _ _ (p_state p) rq) as [st1 s] eqn:Sv.
    injection Es as <-. split.
    + intros i Hi. cbn [p_served]. rewrite length_app. cbn [length].
      specialize (S1 i Hi). lia.
    + intros i h Hn. cbn [p_served] in Hn.
      destruct (Nat.lt_ge_cases i (length (p_served p))) as [L|L].
      * rewrite nth_error_app1 in Hn by exact L. exact (S2 i h Hn).
      * rewrite nth_error_app2 in Hn by exact L. split.
        -- destruct (i - length (p_served p)) as [|k]; [|now destruct k].
           injection Hn as ->. destruct rq as [|body|req]; cbn [serve] in Sv.
           ++ discriminate.
           ++ destruct (post_adblock (p_state p) body). discriminate.
           ++ injection Sv as _ <-. eauto.
        -- intros Hs. specialize (S1 i Hs). lia.
  - destruct (in_flight p i) as [h|] eqn:F.
    + destruct (fatal h) eqn:Fh; [discriminate|]. injection Es as <-.
      unfold in_flight in F.
      destruct (nth_error (p_served p) i) as [[r|h']|] eqn:Hn; try discriminate.
      destruct (h_fetch h'); [|discriminate].
      destruct (settled p i); [discriminate|]. injection F as ->.
      split.
      * intros j. unfold settled. cbn [p_settled p_served existsb].
        intros Hj. apply orb_true_iff in Hj. destruct Hj as [Hj|Hj].
        -- apply Nat.eqb_eq in Hj. subst j. apply nth_error_Some. congruence.
        -- exact (S1 j Hj).
      * intros j h0 Hj. cbn [p_served] in Hj.
        destruct (S2 j h0 Hj) as [Hh Hf]. split; [exact Hh|].
        unfold settled. cbn [p_settled existsb]. intros Hs.
        apply orb_true_iff in Hs. destruct Hs as [Hs|Hs]; [|exact (Hf Hs)].
        apply Nat.eqb_eq in Hs. subst j. intros _. congruence.
    + injection Es as <-. now split.
Qed.

Lemma run_sound (evs : list server_event) :
  forall p p', up p -> go p evs = Some p' -> up p'.
Proof.
  unfold go. induction evs as [|e evs IH]; intros p p' Sp Hr; cbn [run] in Hr.
  - now injection Hr as <-.
  - destruct (step _ _ _ _ _ p e) as [p1|] eqn:Es; [|discriminate].
    exact (IH p1 p' (@step_sound p p1 e Sp Es) Hr).
Qed.

(** A process ends at the fetch that settles with an exception. *)
Lemma run_ends (evs : list server_event) :
  forall p,
    go p evs = None ->
    exists before i after p1 h,
      evs = before ++ Settles i :: after
      /\ go p before = Some p1
      /\ in_flight p1 i = Some h
      /\ fatal h = true.
Proof.
  unfold go. induction evs as [|e evs IH]; intros p Hr; cbn [run] in Hr;
    [discriminate|].
  destruct (step _ _ _ _ _ p e) as [p1|] eqn:Es.
  - destruct (IH p1 Hr) as (before & i & after & p2 & h & -> & Hb & Hi & Hf).
    exists (e :: before), i, after, p2, h. cbn [app run]. rewrite Es. auto.
  - destruct e as [rq|i]; cbn [step] in Es.
    + destruct (serve _ _ _ _ _ (p_state p) rq). discriminate.
    + destruct (in_flight p i) as [h|] eqn:F; [|discriminate].
      destruct (fatal h) eqn:Fh; [|discriminate].
      exists [], i, evs, p, h. auto.
Qed.



End ServerFacts.



(** A request that the gate answers, a page that is fetched while the gate is
    switched off, and the counter. *)
Lemma blocked_count_reported_witness :
  let evs :=
    [Arrives (GetProxy (Scenario.get "http://ads.test/banner.js"));
     Arrives (GetProxy (Scenario.get "http://h.test/0"));
     Arrives (PostAdblock Scenario.body_disable);
     Settles 1;
     Arrives (GetProxy (Scenario.get "http://ads.test/banner.js"))] in
  match run (H := WHATWG.NodeURL) Scenario.blocks_ads (Scenario.net_redirecting 1)
            Scenario.node_decoder [] [] (start initial_state) evs with
  | Some p =>
      snd (serve (H := WHATWG.NodeURL) Scenario.blocks_ads
                 (Scenario.net_redirecting 1) Scenario.node_decoder [] []
                 (p_state p) GetBlockedCount)
      = Answered (Response 200 [] (JsonCount 1))
  | None => False
  end.
Proof.
  cbv zeta.
  destruct (run _ _ _ _ _ _ _) as [p|] eqn:Hr; [|vm_compute in Hr; discriminate].
  destruct (@blocked_count_reported WHATWG.NodeURL Scenario.blocks_ads
              (Scenario.net_redirecting 1) Scenario.node_decoder [] []
              initial_state _ p Hr) as [E ->].
  assert (Es : p_served p
               = snd (handle_all (H := WHATWG.NodeURL) Scenario.blocks_ads
                        (Scenario.net_redirecting 1) Scenario.node_decoder [] []
                        initial_state
                        [GetProxy (Scenario.get "http://ads.test/banner.js");
                         GetProxy (Scenario.get "http://h.test/0");
                         PostAdblock Scenario.body_disable;
                         GetProxy (Scenario.get "http://ads.test/banner.js")]))
    by (cbn [arrivals] in E; now rewrite <- E).
  rewrite Es. vm_compute. reflexivity.
Defined.

(** Two fetches are going on when the first settles with a page in a charset
    that Node does not know: the process ends, and neither request is
    answered.  The same with a [Location] that does not resolve. *)
Lemma uncaught_exception_ends_process :
  let first := Arrives (GetProxy (Scenario.get "http://h.test/0")) in
  let second := Arrives (GetProxy (Scenario.get "http://h.test/1")) in
  let latin2 :=
    run (H := WHATWG.NodeURL) (fun _ => false) Scenario.net_latin2
        Scenario.node_decoder [] [] (start initial_state) in
  let bad_location :=
    run (H := WHATWG.NodeURL) (fun _ => false) Scenario.net_bad_location
        Scenario.node_decoder [] [] (start initial_state) in
  latin2 [first; second; Settles 0] = None
  /\ option_map (fun p => (answers p 0, answers p 1)) (latin2 [first; second])
     = Some ([], [])
  /\ bad_location [first; second; Settles 0] = None
  /\ bad_location [first; second; Settles 0; Arrives GetBlockedCount] = None.
Proof. repeat split; vm_compute; reflexivity. Qed.

(** ** Regular expressions: what a pattern reads *)

Lemma derives_needs (P : N -> Prop) r prev s c p1 s1 c1 :
  needs P r -> derives r prev s c p1 s1 c1 ->
  exists q y, s = q ++ s1 /\ In y q /\ P y.
Proof.
  intros Hn D.
  induction D as
    [prev s c|p prev y s c Hp|r1 r2 prev s c p1 s1 c1 p2 s2 c2 D1 IH1 D2 IH2
    |r1 r2 prev s c p1 s1 c1 D IH|r1 r2 prev s c p1 s1 c1 D IH
    |g r prev s c|g r prev s c p1 s1 c1 p2 s2 c2 D1 IH1 Hl D2 IH2
    |n r prev s c p1 s1 c1 D IH|n prev s c Hg|n t prev s c Hg Hs|prev s c Hx];
    cbn [needs] in Hn; try contradiction.
  - exists [y], y. repeat split; [now left|auto].
  - destruct Hn as [Hn|Hn].
    + destruct (IH1 Hn) as (q & y & -> & Hy & Py).
      destruct (derives_suffix D2) as [q2 ->].
      exists (q ++ q2), y. rewrite app_assoc. repeat split; auto.
      apply in_or_app; now left.
    + destruct (IH2 Hn) as (q & y & -> & Hy & Py).
      destruct (derives_suffix D1) as [q1 ->].
      exists (q1 ++ q), y. rewrite app_assoc. repeat split; auto.
      apply in_or_app; now right.
  - apply IH, Hn.
  - apply IH, Hn.
  - apply IH, Hn.
Qed.

(** A pattern finds nothing in a string that lacks a character it needs. *)
Lemma exec_at_without (P : N -> Prop) (r : regex) :
  needs P r ->
  forall prev t, Forall (fun y => ~ P y) t -> exec_at r prev t = None.
Proof.
  intros Hn prev t Ht. destruct (exec_at r prev t) as [m|] eqn:E; [|reflexivity].
  exfalso. unfold exec_at in E. apply rmatch_sound in E.
  destruct E as (p1 & s1 & c1 & D & _).
  destruct (derives_needs P Hn D) as (q & y & -> & Hy & Py).
  rewrite Forall_forall in Ht. apply (Ht y); [|exact Py].
  apply in_or_app; now left.
Qed.

Lemma replace_without (P : N -> Prop) (r : regex)
      (f : jsstring -> captures -> jsstring) (s : jsstring) :
  needs P r -> Forall (fun y => ~ P y) s -> replace r f s = s.
Proof.
  intros Hn Hs. apply (@replace_no_match r (fun y => ~ P y)); [|exact Hs].
  apply exec_at_without, Hn.
Qed.

(** No match starts at a character that the pattern cannot start with, nor
    at the end of the input. *)
Lemma rmatch_leads (A : Type) (P : N -> Prop) (r : regex) :
  leads P r ->
  forall prev s c (k : cont A),
    match s with [] => True | x :: _ => ~ P x end ->
    rmatch r prev s c k = None.
Proof.
  induction r as [|p|r1 IH1 r2 IH2|r1 IH1 r2 IH2|g r1 IH1|n r1 IH1|n|];
    cbn [leads]; intros Hl prev s c k Hs; try contradiction; cbn [rmatch].
  - destruct s as [|x s]; [reflexivity|].
    destruct (p x) eqn:E; [|reflexivity]. now apply Hl in E.
  - now apply IH1.
  - destruct Hl as [H1 H2]. rewrite IH1 by assumption. now apply IH2.
  - now apply IH1.
Qed.

Lemma exec_at_leads (P : N -> Prop) (r : regex) prev (s : jsstring) :
  leads P r -> match s with [] => True | x :: _ => ~ P x end ->
  exec_at r prev s = None.
Proof. intros Hl Hs. unfold exec_at. now apply rmatch_leads with (P := P). Qed.

(** *** Inversion *)

Lemma derives_seq_inv r r' rs prev s c p2 s2 c2 :
  derives (seq (r :: r' :: rs)) prev s c p2 s2 c2 ->
  exists p1 s1 c1,
    derives r prev s c p1 s1 c1 /\ derives (seq (r' :: rs)) p1 s1 c1 p2 s2 c2.
Proof.
  change (seq (r :: r' :: rs)) with (RSeq r (seq (r' :: rs))).
  intros D. inversion D; subst. eauto.
Qed.

Lemma derives_char_inv (p : N -> bool) prev s c p1 s1 c1 :
  derives (RChar p) prev s c p1 s1 c1 ->
  exists x, s = x :: s1 /\ p x = true /\ p1 = Some x /\ c1 = c.
Proof. intros D. inversion D; subst. eauto. Qed.

Lemma derives_empty_inv prev s c p1 s1 c1 :
  derives REmpty prev s c p1 s1 c1 -> p1 = prev /\ s1 = s /\ c1 = c.
Proof. intros D. inversion D; subst. auto. Qed.

Lemma derives_group_inv n r prev s c p1 s1 c' :
  derives (RGroup n r) prev s c p1 s1 c' ->
  exists c1, derives r prev s c p1 s1 c1
             /\ c' = (n, firstn (length s - length s1) s) :: c1.
Proof. intros D. inversion D; subst. eauto. Qed.

Lemma derives_alt_inv r1 r2 prev s c p1 s1 c1 :
  derives (RAlt r1 r2) prev s c p1 s1 c1 ->
  derives r1 prev s c p1 s1 c1 \/ derives r2 prev s c p1 s1 c1.
Proof. intros D. inversion D; subst; auto. Qed.

(** A star of a class reads a run of members of the class. *)
Lemma derives_star_class_inv (g : bool) (p : N -> bool) prev s c p1 s1 c1 :
  derives (RStar g (RChar p)) prev s c p1 s1 c1 ->
  exists a, s = a ++ s1 /\ Forall (fun x => p x = true) a /\ c1 = c.
Proof.
  intros D. remember (RStar g (RChar p)) as r eqn:Er.
  induction D as
    [prev s c|q prev y s c Hp|r1 r2 prev s c p1 s1 c1 p2 s2 c2 D1 IH1 D2 IH2
    |r1 r2 prev s c p1 s1 c1 D IH|r1 r2 prev s c p1 s1 c1 D IH
    |g' r prev s c|g' r prev s c p1 s1 c1 p2 s2 c2 D1 IH1 Hl D2 IH2
    |n r prev s c p1 s1 c1 D IH|n prev s c Hg|n t prev s c Hg Hs|prev s c Hx];
    try discriminate.
  - exists []. repeat split. constructor.
  - injection Er as -> ->.
    apply derives_char_inv in D1. destruct D1 as (x & -> & Hx & -> & ->).
    destruct (IH2 eq_refl) as (a & -> & Ha & ->).
    exists (x :: a). repeat split. now constructor.
Qed.

Lemma derives_plus_class_inv (g : bool) (p : N -> bool) prev s c p1 s1 c1 :
  derives (RSeq (RChar p) (RStar g (RChar p))) prev s c p1 s1 c1 ->
  exists a, s = a ++ s1 /\ a <> [] /\ Forall (fun x => p x = true) a /\ c1 = c.
Proof.
  intros D. inversion D as [| |? ? ? ? ? pm sm cm ? ? ? D1 D2| | | | | | | |]; subst.
  apply derives_char_inv in D1. destruct D1 as (x & -> & Hx & -> & ->).
  apply derives_star_class_inv in D2. destruct D2 as (a & -> & Ha & ->).
  exists (x :: a). repeat split; [discriminate|now constructor].
Qed.

Lemma derives_opt_class_inv (p : N -> bool) prev s c p1 s1 c1 :
  derives (opt (RChar p)) prev s c p1 s1 c1 ->
  c1 = c /\ (s = s1 \/ exists x, s = x :: s1 /\ p x = true).
Proof.
  intros D. apply derives_alt_inv in D. destruct D as [D|D].
  - apply derives_char_inv in D. destruct D as (x & -> & Hx & -> & ->).
    split; [reflexivity|right; eauto].
  - apply derives_empty_inv in D. destruct D as (-> & -> & ->). auto.
Qed.

(** A sequence of classes reads as many characters, one of each class. *)
Lemma derives_classes_inv (ps : list (N -> bool)) :
  forall prev s c p1 s1 c1,
    derives (seq (map RChar ps)) prev s c p1 s1 c1 ->
    exists t, s = t ++ s1 /\ Forall2 (fun p x => p x = true) ps t /\ c1 = c.
Proof.
  induction ps as [|p ps IH]; intros prev s c p1 s1 c1 D.
  - apply derives_empty_inv in D. destruct D as (-> & -> & ->).
    exists []. repeat split. constructor.
  - destruct ps as [|p' ps].
    + apply derives_char_inv in D. destruct D as (x & -> & Hx & -> & ->).
      exists [x]. repeat split. repeat constructor. exact Hx.
    + cbn [map] in D. apply derives_seq_inv in D.
      destruct D as (pm & sm & cm & D1 & D2).
      apply derives_char_inv in D1. destruct D1 as (x & -> & Hx & -> & ->).
      destruct (IH _ _ _ _ _ _ D2) as (t & -> & Ht & ->).
      exists (x :: t). repeat split. now constructor.
Qed.

(** *** The match that [exec_at] selects *)

(** When every way of matching ends at the same place with the same
    captures, that is the answer. *)
Lemma exec_at_unique r prev s p1 s1 c1 :
  derives r prev s [] p1 s1 c1 ->
  (forall p s' c', derives r prev s [] p s' c' -> s' = s1 /\ c' = c1) ->
  exec_at r prev s = Some (MatchResult (firstn (length s - length s1) s) c1 s1).
Proof.
  intros D U. destruct (exec_at_complete D) as [m Hm]. rewrite Hm.
  unfold exec_at in Hm. apply rmatch_sound in Hm.
  destruct Hm as (p2 & s2 & c2 & D2 & Hk). injection Hk as <-.
  destruct (U _ _ _ D2) as [-> ->]. reflexivity.
Qed.

(** *** Scanning *)

Lemma scan_go_skip (r : regex) (a s : jsstring) :
  forall prev, scan_go r prev (a ++ s) (length a) = scan_go r (last_unit prev a) s 0.
Proof.
  induction a as [|x a IH]; intros prev.
  - reflexivity.
  - cbn [app length scan_go]. rewrite IH. f_equal.
    unfold last_unit. cbn [rev]. destruct (rev a) as [|y t] eqn:E; reflexivity.
Qed.

Lemma last_unit_cons prev x a : last_unit prev (x :: a) = last_unit (Some x) a.
Proof.
  unfold last_unit. cbn [rev]. destruct (rev a) as [|y t] eqn:E; reflexivity.
Qed.

Lemma last_unit_app prev a b : last_unit prev (a ++ b) = last_unit (last_unit prev a) b.
Proof.
  revert prev. induction a as [|x a IH]; intros prev; [reflexivity|].
  cbn [app]. now rewrite !last_unit_cons, IH.
Qed.

(** The part of the input before the first position where the pattern
    matches is kept. *)
Lemma scan_go_kept (r : regex) (pre rest : jsstring) :
  forall prev,
    (forall p1 x p2, pre = p1 ++ x :: p2 ->
                     exec_at r (last_unit prev p1) (x :: p2 ++ rest) = None) ->
    scan_go r prev (pre ++ rest) 0
    = map Kept pre ++ scan_go r (last_unit prev pre) rest 0.
Proof.
  induction pre as [|x pre IH]; intros prev Hn.
  - reflexivity.
  - cbn [app scan_go]. pose proof (Hn [] x pre eq_refl) as H0.
    change (last_unit prev []) with prev in H0. rewrite H0. cbn [map app]. f_equal.
    rewrite last_unit_cons. apply IH.
    intros p1 y p2 E. specialize (Hn (x :: p1) y p2).
    rewrite last_unit_cons in Hn. apply Hn. now rewrite E.
Qed.

(** A match that is not empty, and the scan resumed after it. *)
Lemma scan_go_matched (r : regex) (text rest : jsstring) (m : match_result) prev :
  exec_at r prev (text ++ rest) = Some m -> m_text m = text -> text <> [] ->
  scan_go r prev (text ++ rest) 0
  = Matched m :: scan_go r (last_unit prev text) rest 0.
Proof.
  intros Hm Ht Hn. destruct text as [|x text]; [contradiction|].
  cbn [app scan_go]. change (x :: text ++ rest) with ((x :: text) ++ rest).
  rewrite Hm, Ht. f_equal. rewrite scan_go_skip. now rewrite last_unit_cons.
Qed.

Lemma flat_map_kept (f : jsstring -> captures -> jsstring) (s : jsstring) :
  flat_map (replaced f) (map Kept s) = s.
Proof. induction s as [|x s IH]; [reflexivity|]. cbn. now rewrite IH. Qed.

(** One match in the string: before it and after it the pattern finds
    nothing. *)
Lemma replace_one (r : regex) (f : jsstring -> captures -> jsstring)
      (pre text post : jsstring) (m : match_result) :
  (forall p1 x p2, pre = p1 ++ x :: p2 ->
                   exec_at r (last_unit None p1) (x :: p2 ++ text ++ post) = None) ->
  exec_at r (last_unit None pre) (text ++ post) = Some m ->
  m_text m = text -> text <> [] ->
  (forall prev, scan_go r prev post 0 = map Kept post) ->
  replace r f (pre ++ text ++ post) = pre ++ f text (m_caps m) ++ post.
Proof.
  intros Hpre Hm Ht Hn Hpost. unfold replace, scan.
  rewrite scan_go_kept by exact Hpre.
  rewrite (@scan_go_matched r text post m _ Hm Ht Hn), Hpost.
  rewrite flat_map_app, flat_map_kept. cbn [flat_map replaced].
  now rewrite flat_map_kept, Ht.
Qed.

(** ** Strings without a character *)

Lemma lacks_spec (x : N) (s : jsstring) : lacks x s = true <-> ~ In x s.
Proof.
  unfold lacks. rewrite negb_true_iff. split.
  - intros E I. assert (T : existsb (N.eqb x) s = true).
    { apply existsb_exists. exists x. split; [exact I|apply N.eqb_refl]. }
    congruence.
  - intros Hn. destruct (existsb (N.eqb x) s) eqn:E; [|reflexivity].
    apply existsb_exists in E. destruct E as (y & Hy & Ey).
    apply N.eqb_eq in Ey. subst y. contradiction.
Qed.

Lemma no_quote_spec (s : jsstring) :
  no_quote s = true -> ~ In DQUOTE s /\ ~ In SQUOTE s.
Proof.
  unfold no_quote. intros E. apply andb_true_iff in E. destruct E as [E1 E2].
  split; now apply lacks_spec.
Qed.

(** ** The CSS pipeline: one reference *)

Lemma firstn_consumed (A : Type) (a b : list A) :
  firstn (length (a ++ b) - length b) (a ++ b) = a.
Proof.
  rewrite length_app, Nat.add_sub.
  now rewrite firstn_app, firstn_all, Nat.sub_diag, app_nil_r.
Qed.

Lemma upper_not_letter (x c : N) :
  is_alpha c = false -> N.eqb (upper x) (upper c) = true -> x = c.
Proof.
  unfold is_alpha, upper. intros Hc E. apply N.eqb_eq in E. revert Hc E.
  destruct (N.leb_spec 97 c), (N.leb_spec c 122), (N.leb_spec 65 c),
    (N.leb_spec c 90), (N.leb_spec 97 x), (N.leb_spec x 122);
    cbn [andb orb]; intros Hc E; try discriminate; lia.
Qed.

(** A star or an option of a class reads nothing at a character outside the
    class. *)
Lemma star_class_stop (g : bool) (p : N -> bool) prev x s c p1 s1 c1 :
  derives (RStar g (RChar p)) prev (x :: s) c p1 s1 c1 -> p x = false ->
  s1 = x :: s /\ c1 = c.
Proof.
  intros D Hx. apply derives_star_class_inv in D.
  destruct D as (a & E & Ha & ->). split; [|reflexivity].
  destruct a as [|y a]; [now rewrite E|].
  injection E as <- _. inversion Ha as [|? ? Hy _]; subst. congruence.
Qed.

Lemma opt_class_stop (p : N -> bool) prev x s c p1 s1 c1 :
  derives (opt (RChar p)) prev (x :: s) c p1 s1 c1 -> p x = false ->
  s1 = x :: s /\ c1 = c.
Proof.
  intros D Hx. apply derives_opt_class_inv in D.
  destruct D as (-> & [E|(y & E & Hy)]); [now rewrite E|].
  injection E as <- _. congruence.
Qed.

(** A run of a class that stops at a character outside it is determined by
    the input. *)
Lemma run_unique (p stop : N -> bool) (a b s1 s2 : jsstring) (x y : N) :
  a ++ x :: s1 = b ++ y :: s2 ->
  Forall (fun z => p z = true) a -> Forall (fun z => stop z = false) b ->
  stop x = true -> p y = false ->
  a = b /\ x = y /\ s1 = s2.
Proof.
  revert b. induction a as [|z a IH]; intros [|w b] E Ha Hb Hx Hy; cbn [app] in E.
  - injection E as -> ->. auto.
  - injection E as -> _. inversion Hb; subst. congruence.
  - injection E as -> _. inversion Ha; subst. congruence.
  - injection E as -> E. inversion Ha; subst. inversion Hb; subst.
    destruct (IH b E) as (-> & -> & ->); auto.
Qed.

(** A string under the [i] flag reads a string of the same length. *)
Lemma derives_istr_inv (t : string) prev s c p1 s1 c1 :
  derives (istr t) prev s c p1 s1 c1 ->
  exists w, s = w ++ s1 /\ length w = length (js t)
            /\ Forall2 (fun a x => N.eqb (upper x) (upper a) = true) (js t) w
            /\ c1 = c.
Proof.
  unfold istr. intros D.
  replace (map ilit (js t))
    with (map RChar (map (fun a x => N.eqb (upper x) (upper a)) (js t))) in D
    by (rewrite map_map; reflexivity).
  apply derives_classes_inv in D. destruct D as (w & -> & F & ->).
  exists w. repeat split.
  - apply Forall2_length in F. now rewrite length_map in F.
  - clear -F. revert w F. induction (js t) as [|a l IH]; intros w F;
      inversion F; subst; constructor; auto.
Qed.

Lemma app_same_length (A : Type) (a b s1 s2 : list A) :
  length a = length b -> a ++ s1 = b ++ s2 -> a = b /\ s1 = s2.
Proof.
  revert b. induction a as [|x a IH]; intros [|y b] L E; try discriminate.
  - auto.
  - injection L as L. injection E as -> E. destruct (IH b L E) as [-> ->]. auto.
Qed.

Section CssUrl.

Variables (q1 u q2 post : jsstring).
Hypothesis Hq1 : quote_opt q1.
Hypothesis Hq2 : quote_opt q2.
Hypothesis Hu : u <> [].
Hypothesis Hbare : bare u = true.

Let in_class := fun x => negb (existsb (N.eqb x) [SQUOTE; DQUOTE; ch ")"]).
Let is_quote := fun x => existsb (N.eqb x) [SQUOTE; DQUOTE].

Lemma bare_class : Forall (fun x => in_class x = true) u.
Proof.
  apply Forall_forall. intros x Hx. unfold bare in Hbare.
  rewrite forallb_forall in Hbare. specialize (Hbare x Hx).
  apply andb_true_iff in Hbare. exact (proj1 Hbare).
Qed.

Lemma bare_not_stop :
  Forall (fun x => (is_quote x || is_space x || N.eqb x RPAREN) = false) u.
Proof.
  apply Forall_forall. intros x Hx. unfold bare in Hbare.
  rewrite forallb_forall in Hbare. specialize (Hbare x Hx).
  apply andb_true_iff in Hbare. destruct Hbare as [H1 H2].
  apply negb_true_iff in H1, H2. unfold is_quote. cbn [existsb] in *.
  rewrite H2. destruct (N.eqb x SQUOTE), (N.eqb x DQUOTE), (N.eqb x RPAREN);
    try discriminate; reflexivity.
Qed.

(** The pattern can match [url(u)] in full. *)
Lemma derives_css_url prev :
  exists p1, derives re_css_url prev (css_url q1 u q2 ++ post) [] p1 post [(1, u)].
Proof.
  unfold css_url, re_css_url. rewrite <- !app_assoc.
  destruct (@derives_istr "url(" prev (q1 ++ u ++ q2 ++ [RPAREN] ++ post) [])
    as [pa Da].
  assert (Dq : forall q rest pv c, quote_opt q ->
             exists p', derives (opt (oneof [SQUOTE; DQUOTE])) pv (q ++ rest) c p' rest c).
  { intros q rest pv c [ -> | [ -> | -> ] ].
    - exists pv. apply DAltR. constructor.
    - eexists. apply DAltL. now constructor.
    - eexists. apply DAltL. now constructor. }
  destruct (Dq q1 (u ++ q2 ++ [RPAREN] ++ post) pa [] Hq1) as [pb Db].
  assert (Dg : exists pc, derives (plus_lazy (noneof [SQUOTE; DQUOTE; ch ")"]))
                            pb (u ++ q2 ++ [RPAREN] ++ post) [] pc
                            (q2 ++ [RPAREN] ++ post) []).
  { pose proof bare_class as B. pose proof Hu as Hne. clear Hbare.
    destruct u as [|x u']; [contradiction|].
    inversion B as [|? ? Hx Hu']; subst.
    destruct (@derives_star_class false _ u' Hu' (Some x)
                (q2 ++ [RPAREN] ++ post) []) as [pc Dc].
    exists pc. econstructor; [now constructor|exact Dc]. }
  destruct Dg as [pc Dg].
  destruct (Dq q2 ([RPAREN] ++ post) pc [(1, u)] Hq2) as [pd Dd].
  eexists.
  eapply derives_seq_cons; [exact Da|].
  eapply derives_seq_cons; [apply DStarStop|].
  eapply derives_seq_cons; [exact Db|].
  eapply derives_seq_cons.
  { pose proof (DGroup 1 Dg) as G.
    rewrite (@firstn_consumed _ u (q2 ++ [RPAREN] ++ post)) in G. exact G. }
  eapply derives_seq_cons; [exact Dd|].
  eapply derives_seq_cons; [apply DStarStop|].
  cbn [seq app]. constructor. apply N.eqb_refl.
Qed.

(** The string after the opening parenthesis starts with a character that
    is not white space. *)
Lemma css_url_unique prev p s' c' :
  derives re_css_url prev (css_url q1 u q2 ++ post) [] p s' c' ->
  s' = post /\ c' = [(1, u)].
Proof.
  pose proof bare_class as Bc. pose proof bare_not_stop as Bs.
  unfold css_url, re_css_url. rewrite <- !app_assoc. intros D.
  apply derives_seq_inv in D. destruct D as (pa & sa & ca & Da & D).
  apply derives_istr_inv in Da. destruct Da as (w & E & Lw & _ & ->).
  apply app_same_length in E; [|now rewrite Lw]. destruct E as [_ <-].
  apply derives_seq_inv in D. destruct D as (pb & sb & cb & Db & D).
  apply derives_seq_inv in D. destruct D as (pc & sc & cc & Dc & D).
  apply derives_seq_inv in D. destruct D as (pd & sd & cd & Dd & D).
  apply derives_seq_inv in D. destruct D as (pe & se & ce & De & D).
  apply derives_seq_inv in D. destruct D as (pf & sf & cf & Df & D).
  cbn [seq] in D. apply derives_char_inv in D.
  destruct D as (y & Ey & Hy & _ & ->). apply N.eqb_eq in Hy. subst y. subst sf.
  fold RPAREN in Df.
  apply derives_group_inv in Dd. destruct Dd as (cg & Dg & ->).
  apply derives_plus_class_inv in Dg. destruct Dg as (g & Eg & Hg & Fg & ->).
  (* the first character of the reference ends the white space and the
     optional quote *)
  assert (Hsc : sc = u ++ q2 ++ [RPAREN] ++ post /\ cc = []).
  { clear Hbare. destruct u as [|x u']; [contradiction|].
    apply Forall_inv in Bs, Bc.
    apply orb_false_iff in Bs. destruct Bs as [Sx _].
    apply orb_false_iff in Sx. destruct Sx as [Qx Wx].
    destruct Hq1 as [ -> | [ -> | -> ] ]; cbn [app] in Db.
    - apply star_class_stop in Db; [|exact Wx]. destruct Db as [-> ->].
      apply opt_class_stop in Dc; [|exact Qx]. exact Dc.
    - apply star_class_stop in Db; [|reflexivity]. destruct Db as [-> ->].
      apply derives_opt_class_inv in Dc. destruct Dc as (-> & [E|(z & E & _)]).
      + rewrite <- E in Eg. destruct g as [|z g]; [contradiction|].
        injection Eg as <- _. apply Forall_inv in Fg. discriminate.
      + injection E as _ <-. auto.
    - apply star_class_stop in Db; [|reflexivity]. destruct Db as [-> ->].
      apply derives_opt_class_inv in Dc. destruct Dc as (-> & [E|(z & E & _)]).
      + rewrite <- E in Eg. destruct g as [|z g]; [contradiction|].
        injection Eg as <- _. apply Forall_inv in Fg. discriminate.
      + injection E as _ <-. auto. }
  destruct Hsc as [-> ->].
  (* the group reads the whole reference *)
  apply derives_opt_class_inv in De. destruct De as (-> & De).
  apply derives_star_class_inv in Df. destruct Df as (ws & Ews & Fws & ->).
  assert (Hstop : exists x rest, sd = x :: rest
                   /\ (is_quote x || is_space x || N.eqb x RPAREN) = true).
  { destruct De as [E|(z & E & Hz)].
    - subst se. destruct ws as [|z ws].
      + exists RPAREN, s'. split; [now rewrite Ews|]. reflexivity.
      + inversion Fws as [|? ? Hz _]; subst. exists z, (ws ++ RPAREN :: s').
        split; [reflexivity|]. cbn in Hz. fold (is_space z) in Hz.
        rewrite Hz. now rewrite orb_true_r.
    - exists z, se. split; [exact E|]. unfold is_quote. cbn [existsb] in *.
      now rewrite Hz. }
  destruct Hstop as (x & rest & -> & Sx).
  assert (Hy : exists y tl, q2 ++ [RPAREN] ++ post = y :: tl /\ in_class y = false).
  { destruct Hq2 as [ -> | [ -> | -> ] ]; eexists; eexists; split;
      try reflexivity; reflexivity. }
  destruct Hy as (y & tl & Ey' & Cy). rewrite Ey' in Eg.
  destruct (@run_unique in_class (fun z => is_quote z || is_space z || N.eqb z RPAREN)
              g u rest tl x y (eq_sym Eg) Fg Bs Sx Cy) as (-> & -> & ->).
  rewrite Ey', (@firstn_consumed _ u (y :: tl)).
  split; [|reflexivity].
  (* what follows the reference *)
  assert (Hws : forall v, ws ++ RPAREN :: s' = RPAREN :: v -> s' = v).
  { intros v E. destruct ws as [|a ws]; [now injection E|].
    injection E as -> _. apply Forall_inv in Fws. discriminate. }
  destruct Hq2 as [ -> | [ -> | -> ] ]; cbn [app] in Ey'; injection Ey' as <- <-.
  - destruct De as [E|(z & E & Hz)].
    + subst se. now apply Hws.
    + injection E as <- _. discriminate.
  - destruct De as [E|(z & E & Hz)].
    + subst se. destruct ws as [|a ws]; [discriminate|].
      injection Ews as Ea _. subst a. apply Forall_inv in Fws. discriminate.
    + injection E as _ <-. now apply Hws.
  - destruct De as [E|(z & E & Hz)].
    + subst se. destruct ws as [|a ws]; [discriminate|].
      injection Ews as Ea _. subst a. apply Forall_inv in Fws. discriminate.
    + injection E as _ <-. now apply Hws.
Qed.

End CssUrl.

Lemma needs_css_url : needs (fun y => y = LPAREN) re_css_url.
Proof.
  unfold re_css_url. cbn [seq needs]. left. cbn. right. right. right.
  intros x Hx. apply (@upper_not_letter x LPAREN); [reflexivity|exact Hx].
Qed.

(** In a string without an opening parenthesis before it, [url(...)] is the
    first match of the pattern. *)
Lemma css_url_first (pre rest : jsstring) :
  ~ In LPAREN pre ->
  forall prev p1 x p2, pre = p1 ++ x :: p2 ->
    exec_at re_css_url prev (x :: p2 ++ js "url(" ++ rest) = None.
Proof.
  intros Hpre prev p1 x p2 E.
  destruct (exec_at re_css_url prev (x :: p2 ++ js "url(" ++ rest)) as [m|] eqn:Hm;
    [|reflexivity].
  exfalso. unfold exec_at in Hm. apply rmatch_sound in Hm.
  destruct Hm as (pe & se & ce & D & _).
  unfold re_css_url in D. apply derives_seq_inv in D.
  destruct D as (pa & sa & ca & Da & _).
  apply derives_istr_inv in Da. destruct Da as (w & Ew & Lw & Fw & _).
  destruct w as [|a [|b [|c [|d [|? ?]]]]]; try discriminate Lw.
  inversion Fw as [|? ? ? ? _ Fw1]; subst. inversion Fw1 as [|? ? ? ? _ Fw2]; subst.
  inversion Fw2 as [|? ? ? ? _ Fw3]; subst. inversion Fw3 as [|? ? ? ? Hd _]; subst.
  apply upper_not_letter in Hd; [|reflexivity]. subst d.
  assert (Hin : forall z, In z (x :: p2) -> z <> LPAREN).
  { intros z Hz ->. apply Hpre. apply in_or_app. now right. }
  destruct p2 as [|y [|z [|t p2]]]; cbn in Ew; injection Ew as -> Ew.
  - discriminate.
  - discriminate.
  - discriminate.
  - apply (Hin t); [cbn; tauto|assumption].
Qed.

Section CssPipeline.

Context `{URLClass}.
Variable finalUrl : jsstring.

(** The CSS pipeline on a style sheet with one reference. *)
Lemma rewriteCss_one (pre q1 u q2 post : jsstring) :
  ~ In LPAREN pre -> ~ In LPAREN post ->
  quote_opt q1 -> quote_opt q2 -> u <> [] -> bare u = true ->
  rewriteCss finalUrl (pre ++ css_url q1 u q2 ++ post)
  = pre ++ css_replace finalUrl (css_url q1 u q2) u ++ post.
Proof.
  intros Hpre Hpost Hq1 Hq2 Hu Hb. unfold rewriteCss.
  destruct (@derives_css_url q1 u q2 post Hq1 Hq2 Hu Hb
              (last_unit None pre)) as [p1 D].
  pose proof (exec_at_unique D
                (fun p s' c' => @css_url_unique q1 u q2 post Hq1 Hq2 Hu Hb _ p s' c'))
    as Hm.
  rewrite (@firstn_consumed _ (css_url q1 u q2) post) in Hm.
  assert (H1 : forall p1' x p2, pre = p1' ++ x :: p2 ->
             exec_at re_css_url (last_unit None p1')
                     (x :: p2 ++ css_url q1 u q2 ++ post) = None).
  { intros p1' x p2 E. unfold css_url. rewrite <- !app_assoc.
    now apply css_url_first with (pre := pre) (p1 := p1'). }
  assert (H2 : css_url q1 u q2 <> []) by (unfold css_url; discriminate).
  assert (H3 : forall prev, scan_go re_css_url prev post 0 = map Kept post).
  { intros prev. apply (@scan_go_no_match re_css_url (fun y => ~ (y = LPAREN))).
    - apply exec_at_without, needs_css_url.
    - apply Forall_forall. intros y Hy ->. contradiction. }
  now rewrite (@replace_one re_css_url (css_replacer finalUrl) pre (css_url q1 u q2)
                 post _ H1 Hm eq_refl H2 H3).
Qed.

(** X10: in a style sheet with one [url(...)] reference and no other
    opening parenthesis, the CSS pipeline replaces the reference by
    [url('...')] around the ProxyReference of the URL it resolves to
    against the final URL, whatever quotes it had, and leaves the style
    sheet as it is when the resolution fails.  The reference is not empty,
    holds no quote, closing parenthesis or white space, and does not start
    with [data:]. *)
Theorem css_reference_is_proxied (pre q1 u q2 post : jsstring) :
  lacks LPAREN pre = true -> lacks LPAREN post = true ->
  quote_opt q1 -> quote_opt q2 -> u <> [] -> bare u = true ->
  startsWith u (js "data:") = false ->
  (forall r e,
      resolve_href u finalUrl = Some r -> encodeURIComponent r = Some e ->
      rewriteCss finalUrl (pre ++ css_url q1 u q2 ++ post)
      = pre ++ (js "url('" ++ (PROXY_PREFIX ++ e) ++ js "')") ++ post)
  /\ (resolve_href u finalUrl = None ->
      rewriteCss finalUrl (pre ++ css_url q1 u q2 ++ post)
      = pre ++ css_url q1 u q2 ++ post).
Proof.
  intros Hpre Hpost Hq1 Hq2 Hu Hb Hd.
  apply lacks_spec in Hpre, Hpost.
  pose proof (@rewriteCss_one pre q1 u q2 post Hpre Hpost Hq1 Hq2 Hu Hb) as E.
  unfold css_replace in E. rewrite Hd in E. unfold proxied in E.
  split.
  - intros r e Hr He. now rewrite Hr, He in E.
  - intros Hr. now rewrite Hr in E.
Qed.

End CssPipeline.

Lemma css_reference_is_proxied_witness :
  rewriteCss (H := WHATWG.NodeURL) (js "https://site.test/css/app.css")
    (js "a{background:" ++ css_url [DQUOTE] (js "../img/bg.png") [DQUOTE] ++ js "}")
  = js "a{background:url('/proxy/https%3A%2F%2Fsite.test%2Fimg%2Fbg.png')}".
Proof.
  refine (proj1 (@css_reference_is_proxied WHATWG.NodeURL
                   (js "https://site.test/css/app.css")
                   (js "a{background:") [DQUOTE] (js "../img/bg.png") [DQUOTE] (js "}")
                   _ _ _ _ _ _ _)
                (js "https://site.test/img/bg.png")
                (js "https%3A%2F%2Fsite.test%2Fimg%2Fbg.png") _ _).
  - vm_compute; reflexivity.
  - vm_compute; reflexivity.
  - right; right; reflexivity.
  - right; right; reflexivity.
  - discriminate.
  - vm_compute; reflexivity.
  - vm_compute; reflexivity.
  - vm_compute; reflexivity.
  - vm_compute; reflexivity.
Defined.

(** ** Patterns that start with a word *)

(** *** Case *)

Lemma upper_lower (x a : N) :
  N.eqb (upper x) (upper a) = true -> lower x = lower a.
Proof.
  unfold upper, lower. intros E. apply N.eqb_eq in E. revert E.
  destruct (N.leb_spec 97 a), (N.leb_spec a 122), (N.leb_spec 65 a),
    (N.leb_spec a 90), (N.leb_spec 97 x), (N.leb_spec x 122),
    (N.leb_spec 65 x), (N.leb_spec x 90);
    cbn [andb orb]; intros E; lia.
Qed.

Lemma upper_alpha (x a : N) :
  N.eqb (upper x) (upper a) = true -> is_alpha a = true -> is_alpha x = true.
Proof.
  unfold upper, is_alpha. intros E. apply N.eqb_eq in E. revert E.
  destruct (N.leb_spec 97 a), (N.leb_spec a 122), (N.leb_spec 65 a),
    (N.leb_spec a 90), (N.leb_spec 97 x), (N.leb_spec x 122),
    (N.leb_spec 65 x), (N.leb_spec x 90);
    cbn [andb orb]; intros E; try reflexivity; try discriminate; lia.
Qed.

(** What a string under the [i] flag reads is the string, up to case. *)
Lemma derives_istr_lower (t : string) prev s c p1 s1 c1 :
  derives (istr t) prev s c p1 s1 c1 ->
  exists w, s = w ++ s1 /\ map lower w = map lower (js t) /\ c1 = c.
Proof.
  intros D. apply derives_istr_inv in D. destruct D as (w & -> & _ & F & ->).
  exists w. repeat split.
  induction F as [|a x l w' Hx F IH]; [reflexivity|].
  cbn [map]. now rewrite IH, (upper_lower _ _ Hx).
Qed.

Lemma derives_istr_alpha (t : string) prev s c p1 s1 c1 :
  derives (istr t) prev s c p1 s1 c1 ->
  forallb is_alpha (js t) = true -> js t <> [] ->
  exists w, s = w ++ s1 /\ forallb is_alpha w = true /\ w <> [] /\ c1 = c.
Proof.
  intros D Ht Hn. apply derives_istr_inv in D. destruct D as (w & -> & L & F & ->).
  exists w. repeat split.
  - clear L Hn. revert Ht. induction F as [|b x l' w' Hx F IH]; [reflexivity|].
    cbn [forallb]. intros Ht. apply andb_true_iff in Ht. destruct Ht as [Hb Hl].
    rewrite (upper_alpha _ _ Hx Hb). now apply IH.
  - destruct w; [|discriminate]. destruct (js t); [contradiction|discriminate].
Qed.

(** What a string reads is the string. *)
Lemma derives_str_inv (t : string) prev s c p1 s1 c1 :
  derives (str t) prev s c p1 s1 c1 -> s = js t ++ s1 /\ c1 = c.
Proof.
  unfold str. intros D.
  replace (map lit (js t)) with (map RChar (map N.eqb (js t))) in D
    by (rewrite map_map; reflexivity).
  apply derives_classes_inv in D. destruct D as (w & -> & F & ->).
  split; [|reflexivity]. f_equal.
  remember (map N.eqb (js t)) as ps eqn:E. revert E. generalize (js t).
  induction F as [|p x ps w' Hx F IH]; intros l E.
  - destruct l; [reflexivity|discriminate].
  - destruct l as [|a l]; [discriminate|]. injection E as -> E.
    apply N.eqb_eq in Hx. subst x. f_equal. now apply IH.
Qed.

(** *** Substrings *)

Lemma includes_suffix (s p : jsstring) :
  includes s p = false -> forall a t, s = a ++ t -> startsWith t p = false.
Proof.
  intros Hi a. revert s Hi. induction a as [|x a IH]; intros s Hi t ->.
  - destruct t; cbn [app includes] in Hi; apply orb_false_iff in Hi; apply Hi.
  - cbn [app includes] in Hi. apply orb_false_iff in Hi. destruct Hi as [_ Hi].
    now apply (IH (a ++ t)).
Qed.

Lemma startsWith_map_lower (w s p : jsstring) :
  map lower w = p -> startsWith (map lower (w ++ s)) p = true.
Proof. intros <-. rewrite map_app. apply startsWith_app. Qed.

(** *** Patterns that find nothing *)

Lemma scan_go_none (r : regex) (s : jsstring) :
  forall prev,
    (forall prev' a t, s = a ++ t -> exec_at r prev' t = None) ->
    scan_go r prev s 0 = map Kept s.
Proof.
  induction s as [|x s IH]; intros prev Hn; cbn [scan_go].
  - now rewrite (Hn prev [] [] eq_refl).
  - rewrite (Hn prev [] (x :: s) eq_refl). cbn [map]. f_equal.
    apply IH. intros prev' a t ->. apply (Hn prev' (x :: a) t). reflexivity.
Qed.

Lemma replaced_indexed_kept (f : nat -> jsstring -> captures -> jsstring)
      (i : nat) (s : jsstring) :
  replaced_indexed f i (map Kept s) = s.
Proof. induction s as [|x s IH]; [reflexivity|]. cbn. now rewrite IH. Qed.

Lemma matched_kept (s : jsstring) : matched (map Kept s) = [].
Proof. induction s as [|x s IH]; [reflexivity|exact IH]. Qed.

(** A pattern that begins with a string finds nothing in a text that does
    not contain the string, in any case. *)
Lemma exec_at_istr_absent (t : string) (rest : regex) prev (s : jsstring) :
  startsWith (map lower s) (map lower (js t)) = false ->
  exec_at (RSeq (istr t) rest) prev s = None.
Proof.
  intros Hs. destruct (exec_at _ prev s) as [m|] eqn:E; [|reflexivity].
  exfalso. unfold exec_at in E. apply rmatch_sound in E.
  destruct E as (p1 & s1 & c1 & D & _).
  inversion D as [| |? ? ? ? ? pm sm cm ? ? ? D1 D2| | | | | | | |]; subst.
  apply derives_istr_lower in D1. destruct D1 as (w & -> & Hw & _).
  rewrite <- app_assoc in Hs || idtac.
  destruct (derives_suffix D2) as [q ->].
  rewrite (startsWith_map_lower w (q ++ s1) Hw) in Hs. discriminate.
Qed.

Lemma exec_at_str_absent (t : string) (rest : regex) prev (s : jsstring) :
  startsWith s (js t) = false ->
  exec_at (RSeq (str t) rest) prev s = None.
Proof.
  intros Hs. destruct (exec_at _ prev s) as [m|] eqn:E; [|reflexivity].
  exfalso. unfold exec_at in E. apply rmatch_sound in E.
  destruct E as (p1 & s1 & c1 & D & _).
  inversion D as [| |? ? ? ? ? pm sm cm ? ? ? D1 D2| | | | | | | |]; subst.
  apply derives_str_inv in D1. destruct D1 as [-> _].
  rewrite startsWith_app in Hs. discriminate.
Qed.

(** ** The Rewrite Engine: one attribute *)

Ltac norm_list := repeat (progress (rewrite <- ?app_assoc; cbn [app])).
Ltac norm_list_in H :=
  repeat (progress (rewrite <- ?app_assoc in H; cbn [app] in H)).

Lemma snoc_class (p : N -> bool) (X ws B : jsstring) (e : N) :
  X ++ ws = B ++ [e] -> Forall (fun z => p z = true) ws -> p e = false ->
  ws = [] /\ X = B ++ [e].
Proof.
  intros E F He. destruct ws as [|w ws0]; [rewrite app_nil_r in E; auto|].
  exfalso. destruct (@exists_last _ (w :: ws0)) as (ws' & z & Ez); [discriminate|].
  rewrite Ez in E, F. rewrite app_assoc in E.
  apply app_inj_tail in E. destruct E as [_ ->].
  apply Forall_app in F. destruct F as [_ F]. apply Forall_inv in F. congruence.
Qed.

(** A run of a class at the end of a string, after a character outside the
    class, is determined by the string. *)
Lemma suffix_run_unique (p : N -> bool) (a b l1 l2 : jsstring) (x y : N) :
  a ++ x :: l1 = b ++ y :: l2 ->
  Forall (fun z => p z = true) l1 -> Forall (fun z => p z = true) l2 ->
  p x = false -> p y = false ->
  a = b /\ x = y /\ l1 = l2.
Proof.
  intros E F1 F2 Hx Hy. apply (f_equal (@rev N)) in E.
  rewrite !rev_app_distr in E. cbn [rev] in E. rewrite <- !app_assoc in E.
  cbn [app] in E.
  destruct (@run_unique p (fun z => negb (p z)) (rev l1) (rev l2) (rev a) (rev b) x y E)
    as (E1 & -> & E2).
  - apply Forall_rev, F1.
  - apply Forall_rev. revert F2. apply Forall_impl. intros z ->. reflexivity.
  - now rewrite Hx.
  - exact Hy.
  - apply (f_equal (@rev N)) in E1, E2. rewrite !rev_involutive in E1, E2. auto.
Qed.

Lemma count_occ_none (x : N) (l : jsstring) :
  ~ In x l -> count_occ N.eq_dec l x = 0.
Proof. apply count_occ_not_In. Qed.

(** A string with two occurrences of [q] is cut by them in one way only. *)
Lemma two_occurrences (q : N) (A U post Y V s' : jsstring) :
  ~ In q A -> ~ In q U -> ~ In q post -> ~ In q V ->
  A ++ q :: U ++ q :: post = Y ++ q :: V ++ q :: s' ->
  Y = A /\ V = U /\ s' = post.
Proof.
  intros HA HU Hp HV E.
  assert (HY : ~ In q Y).
  { apply (count_occ_not_In N.eq_dec).
    apply (f_equal (fun l => count_occ N.eq_dec l q)) in E.
    rewrite !count_occ_app, !count_occ_cons_eq, !count_occ_app,
      !count_occ_cons_eq in E by reflexivity.
    rewrite (@count_occ_none q A HA), (@count_occ_none q U HU),
      (@count_occ_none q post Hp), (@count_occ_none q V HV) in E. lia. }
  destruct (@first_occurrence q A Y _ _ HA HY E) as [<- E2].
  destruct (@first_occurrence q U V _ _ HU HV E2) as [<- <-]. auto.
Qed.

Lemma alpha_not_space (z : N) : is_alpha z = true -> is_space z = false.
Proof.
  unfold is_alpha, is_space. intros Ha.
  assert (R : (65 <= z <= 122)%N).
  { apply orb_true_iff in Ha. destruct Ha as [Ha|Ha];
      apply andb_true_iff in Ha; destruct Ha as [H1 H2];
      apply N.leb_le in H1, H2; lia. }
  cbn [existsb].
  repeat match goal with
         | |- context [N.eqb z ?k] =>
             destruct (N.eqb_spec z k); [lia|]
         end.
  cbn [orb]. destruct (N.leb_spec 8192 z); [lia|reflexivity].
Qed.

Lemma space_not_alpha (z : N) : is_space z = true -> is_alpha z = false.
Proof.
  intros Hs. destruct (is_alpha z) eqn:E; [|reflexivity].
  apply alpha_not_space in E. congruence.
Qed.

Lemma attr_tag_app (body : jsstring) (sp : N) (attr : jsstring) (q : N)
      (value post : jsstring) :
  attr_tag body sp attr q value ++ post
  = (LT :: body ++ [sp]) ++ attr ++ EQUALS :: q :: value ++ q :: post.
Proof.
  unfold attr_tag. cbn [app]. f_equal. rewrite <- !app_assoc. cbn [app].
  f_equal. f_equal. rewrite <- !app_assoc. cbn [app]. f_equal. f_equal.
  now rewrite <- app_assoc.
Qed.

Section AttrTag.

Variables (body : jsstring) (sp : N) (attr : jsstring) (q : N) (U post : jsstring).
Hypothesis Hq : q = DQUOTE \/ q = SQUOTE.
Hypothesis Hbody : body <> [].
Hypothesis Hgt : ~ In GT body.
Hypothesis Hbq : ~ In q body.
Hypothesis Hsp : is_space sp = true.
Hypothesis Hattr : In attr attr_names.
Hypothesis HUq : ~ In q U.
Hypothesis Hpq : ~ In q post.

Lemma attr_alpha : Forall (fun z => is_alpha z = true) attr /\ attr <> [].
Proof.
  destruct Hattr as [<-|[<-|[<-|[]]]]; split; try discriminate;
    repeat constructor.
Qed.

Lemma derives_attr_name prev s c :
  exists p1, derives re_attr_name prev (attr ++ s) c p1 s c.
Proof.
  unfold re_attr_name. cbn [alt].
  destruct Hattr as [<-|[<-|[<-|[]]]].
  - destruct (@derives_istr "href" prev s c) as [p1 D]. exists p1. now apply DAltL.
  - destruct (@derives_istr "src" prev s c) as [p1 D]. exists p1.
    apply DAltR. now apply DAltL.
  - destruct (@derives_istr "action" prev s c) as [p1 D]. exists p1.
    apply DAltR. now apply DAltR.
Qed.

Lemma not_in_forall (x : N) (l : jsstring) :
  ~ In x l -> Forall (fun z => negb (existsb (N.eqb z) [x]) = true) l.
Proof.
  intros Hn. apply Forall_forall. intros z Hz. cbn [existsb].
  rewrite orb_false_r. apply negb_true_iff, N.eqb_neq. intros ->. contradiction.
Qed.

(** The pattern can match the tag up to the closing quote. *)
Lemma derives_attr_tag prev :
  exists p1,
    derives (re_attr q) prev (attr_tag body sp attr q U ++ post) [] p1 post
            [(3, U); (2, attr); (1, LT :: body ++ [sp])].
Proof.
  rewrite attr_tag_app. unfold re_attr.
  set (s2 := attr ++ EQUALS :: q :: U ++ q :: post).
  (* group 1 *)
  assert (D1 : exists p1, derives (seq [lit (ch "<"); plus (noneof (js ">")); space])
                            prev ((LT :: body ++ [sp]) ++ s2) [] p1 s2 []).
  { destruct (@derives_plus_class _ body Hbody (@not_in_forall GT body Hgt) (Some LT)
                ([sp] ++ s2) []) as [pb Db].
    eexists. cbn [app]. rewrite <- app_assoc.
    eapply derives_seq_cons; [constructor; apply N.eqb_refl|].
    eapply derives_seq_cons; [exact Db|].
    cbn [seq app]. constructor. exact Hsp. }
  destruct D1 as [p1 D1]. apply (DGroup 1) in D1.
  rewrite (@firstn_consumed _ (LT :: body ++ [sp]) s2) in D1.
  (* group 2 *)
  destruct (@derives_attr_name p1 (EQUALS :: q :: U ++ q :: post)
              [(1, LT :: body ++ [sp])]) as [p2 D2].
  apply (DGroup 2) in D2.
  rewrite (@firstn_consumed _ attr (EQUALS :: q :: U ++ q :: post)) in D2.
  (* group 3 *)
  destruct (@derives_star_class false _ U (@not_in_forall q U HUq) (Some q)
              (q :: post) [(2, attr); (1, LT :: body ++ [sp])]) as [p3 D3].
  apply (DGroup 3) in D3.
  rewrite (@firstn_consumed _ U (q :: post)) in D3.
  eexists.
  eapply derives_seq_cons; [exact D1|].
  eapply derives_seq_cons; [exact D2|].
  eapply derives_seq_cons; [apply DStarStop|].
  eapply derives_seq_cons; [constructor; apply N.eqb_refl|].
  eapply derives_seq_cons; [apply DStarStop|].
  eapply derives_seq_cons; [constructor; apply N.eqb_refl|].
  eapply derives_seq_cons; [exact D3|].
  cbn [seq app]. constructor. apply N.eqb_refl.
Qed.

Lemma attr_last : exists attr' l, attr = attr' ++ [l] /\ is_space l = false.
Proof.
  destruct Hattr as [<-|[<-|[<-|[]]]].
  - exists (js "hre"), (ch "f"). now split.
  - exists (js "sr"), (ch "c"). now split.
  - exists (js "actio"), (ch "n"). now split.
Qed.

Lemma quote_facts :
  q <> LT /\ q <> EQUALS /\ is_space q = false /\ is_alpha q = false.
Proof. destruct Hq as [->| ->]; repeat split; discriminate. Qed.

Lemma derives_attr_name_inv prev s c p1 s1 c1 :
  derives re_attr_name prev s c p1 s1 c1 ->
  exists w, s = w ++ s1 /\ forallb is_alpha w = true /\ w <> [] /\ c1 = c.
Proof.
  unfold re_attr_name. cbn [alt]. intros D.
  apply derives_alt_inv in D. destruct D as [D|D];
    [|apply derives_alt_inv in D; destruct D as [D|D]];
    apply derives_istr_alpha in D; try reflexivity; try discriminate; exact D.
Qed.

(** Every way of matching the pattern from a point before the tag, with no
    quote in between, reads the tag up to its closing quote: group 1 starts
    at that point and holds no [>]. *)
Lemma attr_tag_inv (pj : jsstring) prev p s' c' :
  ~ In q pj ->
  derives (re_attr q) prev (pj ++ attr_tag body sp attr q U ++ post) [] p s' c' ->
  s' = post
  /\ (exists b1, pj ++ LT :: body = LT :: b1 /\ ~ In GT b1)
  /\ c' = [(3, U); (2, attr); (1, pj ++ LT :: body ++ [sp])].
Proof.
  intros Hpj.
  destruct quote_facts as (Q1 & Q2 & Q3 & Q4).
  destruct attr_alpha as [Aa An].
  rewrite attr_tag_app. unfold re_attr.
  remember (pj ++ (LT :: body ++ [sp]) ++ attr ++ EQUALS :: q :: U ++ q :: post)
    as s eqn:Es.
  intros D.
  apply derives_seq_inv in D. destruct D as (p1 & s1 & c1 & D1 & D).
  apply derives_seq_inv in D. destruct D as (p2 & s2 & c2 & D2 & D).
  apply derives_seq_inv in D. destruct D as (p3 & s3 & c3 & D3 & D).
  apply derives_seq_inv in D. destruct D as (p4 & s4 & c4 & D4 & D).
  apply derives_seq_inv in D. destruct D as (p5 & s5 & c5 & D5 & D).
  apply derives_seq_inv in D. destruct D as (p6 & s6 & c6 & D6 & D).
  apply derives_seq_inv in D. destruct D as (p7 & s7 & c7 & D7 & D8).
  cbn [seq] in D8.
  (* group 1 *)
  apply derives_group_inv in D1. destruct D1 as (cg1 & D1 & ->).
  apply derives_seq_inv in D1. destruct D1 as (pa & sa & ca & Da & D1).
  apply derives_char_inv in Da. destruct Da as (x & Ex & Hx & -> & ->).
  apply N.eqb_eq in Hx. subst x.
  cbn [seq] in D1.
  inversion D1 as [| |? ? ? ? ? pb sb cb ? ? ? Db Dc| | | | | | | |]; subst.
  apply derives_plus_class_inv in Db. destruct Db as (b1 & -> & Hb1 & Fb1 & ->).
  apply derives_char_inv in Dc. destruct Dc as (sp1 & -> & Hsp1 & -> & ->).
  (* group 2 *)
  apply derives_group_inv in D2. destruct D2 as (cg2 & D2 & ->).
  apply derives_attr_name_inv in D2. destruct D2 as (A2 & -> & FA2 & HA2 & ->).
  (* the equals sign and the white space around it *)
  apply derives_star_class_inv in D3. destruct D3 as (w1 & -> & Fw1 & ->).
  apply derives_char_inv in D4. destruct D4 as (x & -> & Hx & -> & ->).
  apply N.eqb_eq in Hx. subst x.
  apply derives_star_class_inv in D5. destruct D5 as (w2 & -> & Fw2 & ->).
  apply derives_char_inv in D6. destruct D6 as (x & -> & Hx & -> & ->).
  apply N.eqb_eq in Hx. subst x.
  (* group 3 *)
  apply derives_group_inv in D7. destruct D7 as (cg3 & D7 & ->).
  apply derives_star_class_inv in D7. destruct D7 as (V & -> & FV & ->).
  apply derives_char_inv in D8. destruct D8 as (x & -> & Hx & _ & ->).
  apply N.eqb_eq in Hx. subst x.
  (* the two quotes of the input are those of the match *)
  assert (E2 : ((pj ++ LT :: body ++ [sp]) ++ attr ++ [EQUALS]) ++ q :: U ++ q :: post
               = (LT :: b1 ++ sp1 :: A2 ++ w1 ++ EQUALS :: w2) ++ q :: V ++ q :: s').
  { norm_list. norm_list_in Ex. exact Ex. }
  assert (HA : ~ In q ((pj ++ LT :: body ++ [sp]) ++ attr ++ [EQUALS])).
  { intros I. rewrite !in_app_iff in I. cbn [In] in I. rewrite in_app_iff in I.
    destruct I as [[I|[E|[I|I]]]|[I|I]].
    - contradiction.
    - now apply Q1.
    - contradiction.
    - destruct I as [E|[]]. subst sp. congruence.
    - rewrite Forall_forall in Aa. apply Aa in I. congruence.
    - destruct I as [E|[]]. now apply Q2. }
  assert (HV : ~ In q V).
  { intros I. rewrite Forall_forall in FV. apply FV in I. cbn [existsb] in I.
    rewrite N.eqb_refl in I. discriminate. }
  destruct (@two_occurrences q _ U post _ V s' HA HUq Hpq HV E2) as (EY & -> & ->).
  split; [reflexivity|].
  (* the white space around the equals sign is empty *)
  destruct attr_last as (attr' & l & El & Sl).
  assert (EY' : ((LT :: b1 ++ sp1 :: A2 ++ w1) ++ [EQUALS]) ++ w2
                = (pj ++ LT :: body ++ sp :: attr) ++ [EQUALS]).
  { norm_list. norm_list_in EY. rewrite EY. reflexivity. }
  apply snoc_class with (p := is_space) in EY'; [|exact Fw2|reflexivity].
  destruct EY' as [-> EY']. apply app_inj_tail in EY'. destruct EY' as [EY' _].
  assert (EY2 : (LT :: b1 ++ sp1 :: A2) ++ w1
                = (pj ++ LT :: body ++ sp :: attr') ++ [l]).
  { rewrite El in EY'. norm_list. norm_list_in EY'. exact EY'. }
  apply snoc_class with (p := is_space) in EY2; [|exact Fw1|exact Sl].
  destruct EY2 as [-> EY2].
  (* the name of the attribute *)
  assert (EY3 : (LT :: b1) ++ sp1 :: A2 = (pj ++ LT :: body) ++ sp :: attr).
  { rewrite El. norm_list. norm_list_in EY2. exact EY2. }
  apply suffix_run_unique with (p := is_alpha) in EY3.
  - destruct EY3 as (Eb & -> & ->). split.
    + exists b1. split; [now rewrite Eb|].
      intros I. rewrite Forall_forall in Fb1. apply Fb1 in I. discriminate.
    + cbn [app]. unfold EQUALS. rewrite !firstn_consumed.
      replace (pj ++ LT :: (body ++ [sp]) ++ attr ++ ch "=" :: q :: U ++ q :: post)
        with ((pj ++ LT :: body ++ [sp]) ++ attr ++ ch "=" :: q :: U ++ q :: post)
        by (norm_list; reflexivity).
      now rewrite firstn_consumed.
  - apply Forall_forall. rewrite forallb_forall in FA2. exact FA2.
  - exact Aa.
  - now apply space_not_alpha.
  - now apply space_not_alpha.
Qed.

End AttrTag.

Lemma needs_attr (q : N) : needs (fun y => y = q) (re_attr q).
Proof.
  unfold re_attr. cbn [seq needs]. right. right. right. right. right. left.
  intros x Hx. apply N.eqb_eq in Hx. now symmetry.
Qed.

(** Every tag that is opened in the text is closed in it. *)
Lemma tags_closed_spec (pre : jsstring) :
  tags_closed pre = true -> forall p1 p2, pre = p1 ++ LT :: p2 -> In GT p2.
Proof.
  intros Hc p1. revert pre Hc. induction p1 as [|x p1 IH]; intros pre Hc p2 ->.
  - cbn [app tags_closed] in Hc. rewrite N.eqb_refl in Hc.
    apply andb_true_iff in Hc. destruct Hc as [Hc _].
    apply existsb_exists in Hc. destruct Hc as (y & Hy & Ey).
    apply N.eqb_eq in Ey. now subst y.
  - cbn [app tags_closed] in Hc. apply andb_true_iff in Hc.
    destruct Hc as [_ Hc]. now apply (IH (p1 ++ LT :: p2)).
Qed.

Section AttrPass.

Context `{URLClass}.
Variable baseUrl : jsstring.
Variables (q : N) (pre body : jsstring) (sp : N) (attr U post : jsstring).
Hypothesis Hq : q = DQUOTE \/ q = SQUOTE.
Hypothesis Hclosed : forall p1 p2, pre = p1 ++ LT :: p2 -> In GT p2.
Hypothesis Hpre : ~ In q pre.
Hypothesis Hbody : body <> [].
Hypothesis Hgt : ~ In GT body.
Hypothesis Hbq : ~ In q body.
Hypothesis Hsp : is_space sp = true.
Hypothesis Hattr : In attr attr_names.
Hypothesis HUq : ~ In q U.
Hypothesis Hpq : ~ In q post.

Lemma attr_exec prev :
  exec_at (re_attr q) prev (attr_tag body sp attr q U ++ post)
  = Some (MatchResult (attr_tag body sp attr q U)
                      [(3, U); (2, attr); (1, LT :: body ++ [sp])] post).
Proof.
  destruct (@derives_attr_tag body sp attr q U post Hbody Hgt Hsp Hattr HUq prev)
    as [p1 D].
  rewrite (exec_at_unique D).
  - now rewrite firstn_consumed.
  - intros p s' c' D'.
    destruct (@attr_tag_inv body sp attr q U post Hq Hbq Hsp Hattr HUq Hpq
                [] prev p s' c' (fun I => I) D') as (-> & _ & ->).
    auto.
Qed.

Lemma attr_not_before prev p1 x p2 :
  pre = p1 ++ x :: p2 ->
  exec_at (re_attr q) prev (x :: p2 ++ attr_tag body sp attr q U ++ post) = None.
Proof.
  intros E.
  destruct (exec_at (re_attr q) prev _) as [m|] eqn:Hm; [|reflexivity].
  exfalso. unfold exec_at in Hm. apply rmatch_sound in Hm.
  destruct Hm as (pe & se & ce & D & _).
  assert (Hpj : ~ In q (x :: p2)).
  { intros I. apply Hpre. rewrite E. apply in_or_app. now right. }
  change (x :: p2 ++ attr_tag body sp attr q U ++ post)
    with ((x :: p2) ++ attr_tag body sp attr q U ++ post) in D.
  destruct (@attr_tag_inv body sp attr q U post Hq Hbq Hsp Hattr HUq Hpq
              (x :: p2) prev pe se ce Hpj D) as (_ & (b1 & Eb & Nb) & _).
  cbn [app] in Eb. injection Eb as -> <-.
  apply Nb. apply in_or_app. left. apply (Hclosed p1 p2 E).
Qed.

(** The pass over the attributes quoted with [q] rewrites the attribute and
    nothing else. *)
Lemma attr_pass :
  replace (re_attr q) (attr_replacer baseUrl q)
          (pre ++ attr_tag body sp attr q U ++ post)
  = pre ++ attr_replace baseUrl q (attr_tag body sp attr q U)
                        (LT :: body ++ [sp]) attr U ++ post.
Proof.
  assert (H1 : forall p1 x p2, pre = p1 ++ x :: p2 ->
             exec_at (re_attr q) (last_unit None p1)
                     (x :: p2 ++ attr_tag body sp attr q U ++ post) = None)
    by (intros p1 x p2 E; now apply attr_not_before with (p1 := p1)).
  assert (H2 : attr_tag body sp attr q U <> []) by discriminate.
  assert (H3 : forall prev, scan_go (re_attr q) prev post 0 = map Kept post).
  { intros prev. apply (@scan_go_no_match (re_attr q) (fun y => ~ (y = q))).
    - apply exec_at_without, needs_attr.
    - apply Forall_forall. intros y Hy ->. contradiction. }
  now rewrite (@replace_one (re_attr q) (attr_replacer baseUrl q) pre
                 (attr_tag body sp attr q U) post _ H1
                 (attr_exec (last_unit None pre)) eq_refl H2 H3).
Qed.

End AttrPass.


Lemma startsWith_lower (t p : jsstring) :
  startsWith t p = true -> startsWith (map lower t) (map lower p) = true.
Proof.
  intros Hs. apply startsWith_spec in Hs. destruct Hs as [u ->].
  rewrite map_app. apply startsWith_app.
Qed.

Lemma absent_suffix (s l : jsstring) :
  includes (map lower s) l = false ->
  forall a t, s = a ++ t -> startsWith (map lower t) l = false.
Proof.
  intros Hi a t ->. rewrite map_app in Hi.
  exact (@includes_suffix _ l Hi (map lower a) (map lower t) eq_refl).
Qed.

Lemma scan_istr_absent (t : string) (rest : regex) (s : jsstring) :
  includes (map lower s) (map lower (js t)) = false ->
  scan (RSeq (istr t) rest) s = map Kept s.
Proof.
  intros Hi. apply scan_go_none. intros prev a u E.
  apply exec_at_istr_absent. exact (@absent_suffix s _ Hi a u E).
Qed.

Lemma scan_str_absent (t : string) (rest : regex) (s : jsstring) :
  includes (map lower s) (map lower (js t)) = false ->
  scan (RSeq (str t) rest) s = map Kept s.
Proof.
  intros Hi. apply scan_go_none. intros prev a u E.
  apply exec_at_str_absent.
  destruct (startsWith u (js t)) eqn:S; [|reflexivity].
  apply startsWith_lower in S. now rewrite (@absent_suffix s _ Hi a u E) in S.
Qed.

Section LaterPasses.

Context `{URLClass}.
Variable baseUrl : jsstring.

(** The passes of [rewriteUrls] after the attributes leave a quiet text as
    it is. *)
Lemma quiet_passes (s : jsstring) :
  quiet s = true ->
  let html := replace re_srcset (srcset_replacer baseUrl) s in
  let scripts := matches re_script_block html in
  let html :=
    replace_indexed re_script_block (fun i _ _ => script_placeholder i) html in
  let html := replace re_css_url (css_url_replacer baseUrl) html in
  replace re_placeholder (restore_replacer scripts) html = s.
Proof.
  unfold quiet. cbv zeta. intros Hq.
  apply andb_true_iff in Hq. destruct Hq as [Hq H4].
  apply andb_true_iff in Hq. destruct Hq as [Hq H3].
  apply andb_true_iff in Hq. destruct Hq as [H1 H2].
  apply negb_true_iff in H1, H2, H3, H4.
  assert (E1 : replace re_srcset (srcset_replacer baseUrl) s = s).
  { unfold replace, re_srcset. cbn [seq].
    rewrite (@scan_istr_absent "srcset" _ s H1). apply flat_map_kept. }
  rewrite E1.
  assert (E2 : scan re_script_block s = map Kept s).
  { unfold re_script_block. cbn [seq]. now apply (@scan_istr_absent "<script"). }
  unfold matches, replace_indexed. rewrite E2, matched_kept, replaced_indexed_kept.
  assert (E3 : replace re_css_url (css_url_replacer baseUrl) s = s).
  { unfold replace, re_css_url. cbn [seq].
    rewrite (@scan_istr_absent "url(" _ s H3). apply flat_map_kept. }
  rewrite E3.
  unfold replace, re_placeholder. cbn [seq].
  rewrite (@scan_str_absent "<!--DS" _ s H4). apply flat_map_kept.
Qed.

End LaterPasses.

(** ** Percent-encoding: the characters of a ProxyReference *)

Lemma hex_digit_low (d : N) : (48 <= hex_digit d)%N.
Proof. unfold hex_digit. destruct (N.ltb_spec d 10); lia. Qed.

(** A character below the digits, other than the percent sign, is in the
    output of [encodeURIComponent] only if it is unreserved and in the
    input. *)
Lemma encoded_low (x : N) (s e : jsstring) :
  (x < 48)%N -> x <> PERCENT ->
  encodeURIComponent s = Some e -> In x e -> In x s /\ unreserved x = true.
Proof.
  intros Hx Hp.
  assert (Esc : forall l, ~ In x (flat_map escape_octet l)).
  { induction l as [|b l IH]; cbn [flat_map]; [intros []|].
    rewrite in_app_iff. intros [I|I]; [|auto].
    unfold escape_octet in I. cbn [In] in I.
    pose proof (hex_digit_low (b / 16)). pose proof (hex_digit_low (b mod 16)).
    destruct I as [I|[I|[I|[]]]]; [congruence|lia|lia]. }
  remember (length s) as n eqn:Hn. revert s e Hn.
  induction n as [n IH] using lt_wf_ind. intros s e Hn He Hin.
  destruct s as [|c s].
  - injection He as <-. destruct Hin.
  - cbn [encodeURIComponent] in He. destruct (unreserved c) eqn:U.
    + destruct (encodeURIComponent s) as [e'|] eqn:E; [|discriminate].
      injection He as <-. destruct Hin as [->|Hin].
      * split; [now left|exact U].
      * destruct (IH (length s)) with (s := s) (e := e') as [I1 I2];
          cbn [length] in *; auto; try lia. split; [now right|exact I2].
    + destruct (is_trail_surrogate c); [discriminate|].
      destruct (is_lead_surrogate c).
      * destruct s as [|d s]; [discriminate|].
        destruct (is_trail_surrogate d); [|discriminate].
        destruct (encodeURIComponent s) as [e'|] eqn:E; [|discriminate].
        injection He as <-. rewrite in_app_iff in Hin.
        destruct Hin as [Hin|Hin]; [now apply Esc in Hin|].
        destruct (IH (length s)) with (s := s) (e := e') as [I1 I2];
          cbn [length] in *; auto; try lia. split; [right; now right|exact I2].
      * destruct (encodeURIComponent s) as [e'|] eqn:E; [|discriminate].
        injection He as <-. rewrite in_app_iff in Hin.
        destruct Hin as [Hin|Hin]; [now apply Esc in Hin|].
        destruct (IH (length s)) with (s := s) (e := e') as [I1 I2];
          cbn [length] in *; auto; try lia. split; [now right|exact I2].
Qed.

Lemma encoded_no_dquote (s e : jsstring) :
  encodeURIComponent s = Some e -> ~ In DQUOTE e.
Proof.
  intros He I.
  destruct (@encoded_low DQUOTE s e) as [_ U]; [reflexivity|discriminate|exact He|exact I|].
  discriminate.
Qed.

Lemma encoded_squote (s e : jsstring) :
  encodeURIComponent s = Some e -> ~ In SQUOTE s -> ~ In SQUOTE e.
Proof.
  intros He Hs I.
  destruct (@encoded_low SQUOTE s e) as [J _]; [reflexivity|discriminate|exact He|exact I|].
  contradiction.
Qed.

(** ** The Rewrite Engine: the whole function *)

Lemma attr_tag_parts (body : jsstring) (sp : N) (attr : jsstring) (q : N) (v : jsstring) :
  (LT :: body ++ [sp]) ++ attr ++ js "=" ++ [q] ++ v ++ [q]
  = attr_tag body sp attr q v.
Proof. unfold attr_tag. norm_list. reflexivity. Qed.

Lemma in_attr_tag (x : N) (body : jsstring) (sp : N) (attr : jsstring) (q : N)
      (v : jsstring) :
  In x (attr_tag body sp attr q v) ->
  x = LT \/ In x body \/ x = sp \/ In x attr \/ x = EQUALS \/ x = q \/ In x v.
Proof.
  unfold attr_tag. cbn [In]. rewrite in_app_iff. cbn [In]. rewrite in_app_iff.
  cbn [In]. rewrite in_app_iff. cbn [In]. intuition auto.
Qed.

Section Attribute.

Context `{URLClass}.
Variable baseUrl : jsstring.


End Attribute.


(** ** The Isolation Injector: the base *)

(** Replacing a character: the pattern of one literal character matches
    each of its occurrences and nothing else. *)
Lemma replace_lit (c : N) (t : jsstring) (s : jsstring) :
  replace (lit c) (fun _ _ => t) s
  = flat_map (fun x => if N.eqb c x then t else [x]) s.
Proof.
  unfold replace, scan. generalize (@None N).
  induction s as [|x s IH]; intros prev.
  - reflexivity.
  - cbn [scan_go]. unfold exec_at at 1. cbn [rmatch lit].
    destruct (N.eqb c x) eqn:E.
    + replace (length (x :: s) - length s) with 1 by (cbn [length]; lia).
      cbn [m_text firstn flat_map replaced length]. rewrite E. f_equal. apply IH.
    + cbn [flat_map replaced]. rewrite E. f_equal. apply IH.
Qed.

Lemma literal_value_escaped (s : jsstring) :
  ~ In 10%N s -> ~ In 13%N s ->
  literal_value (escaped s) = Some s.
Proof.
  intros H10 H13. unfold escaped. rewrite !replace_lit.
  induction s as [|x s IH]; [reflexivity|].
  assert (I10 : ~ In 10%N s) by (intros I; apply H10; now right).
  assert (I13 : ~ In 13%N s) by (intros I; apply H13; now right).
  specialize (IH I10 I13).
  cbn [flat_map]. destruct (N.eqb (ch "\") x) eqn:B.
  - apply N.eqb_eq in B. subst x. cbn [flat_map app js].
    change (literal_value (BACKSLASH :: BACKSLASH :: ?r))
      with (option_map (cons BACKSLASH) (literal_value r)).
    cbn. cbn in IH. now rewrite IH.
  - cbn [app flat_map]. destruct (N.eqb (ch "'") x) eqn:Q.
    + apply N.eqb_eq in Q. subst x. cbn. cbn in IH. now rewrite IH.
    + cbn [app literal_value].
      assert (E1 : N.eqb x BACKSLASH = false) by (now rewrite N.eqb_sym).
      assert (E2 : N.eqb x SQUOTE = false) by (now rewrite N.eqb_sym).
      assert (E3 : N.eqb x 10 = false)
        by (apply N.eqb_neq; intros ->; apply H10; now left).
      assert (E4 : N.eqb x 13 = false)
        by (apply N.eqb_neq; intros ->; apply H13; now left).
      rewrite E1, E2, E3, E4. cbn [orb]. now rewrite IH.
Qed.

(** ** Scanning a text with one match *)

Lemma scan_one (r : regex) (pre text post : jsstring) (m : match_result) :
  (forall p1 x p2, pre = p1 ++ x :: p2 ->
                   exec_at r (last_unit None p1) (x :: p2 ++ text ++ post) = None) ->
  exec_at r (last_unit None pre) (text ++ post) = Some m ->
  m_text m = text -> text <> [] ->
  (forall prev, scan_go r prev post 0 = map Kept post) ->
  scan r (pre ++ text ++ post) = map Kept pre ++ Matched m :: map Kept post.
Proof.
  intros Hpre Hm Ht Hn Hpost. unfold scan.
  rewrite scan_go_kept by exact Hpre.
  now rewrite (@scan_go_matched r text post m _ Hm Ht Hn), Hpost.
Qed.

Lemma matched_one (pre post : jsstring) (m : match_result) :
  matched (map Kept pre ++ Matched m :: map Kept post) = [m].
Proof.
  induction pre as [|x pre IH]; cbn [map app matched]; [|exact IH].
  now rewrite matched_kept.
Qed.

Lemma replaced_indexed_one (f : nat -> jsstring -> captures -> jsstring)
      (pre post : jsstring) (m : match_result) (i : nat) :
  replaced_indexed f i (map Kept pre ++ Matched m :: map Kept post)
  = pre ++ f i (m_text m) (m_caps m) ++ post.
Proof.
  induction pre as [|x pre IH]; cbn [map app replaced_indexed].
  - now rewrite replaced_indexed_kept.
  - now rewrite IH.
Qed.

(** ** Patterns that start with a given character *)

Lemma scan_go_leads (P : N -> Prop) (r : regex) (s rest : jsstring) :
  leads P r -> Forall (fun y => ~ P y) s ->
  forall prev,
    scan_go r prev (s ++ rest) 0 = map Kept s ++ scan_go r (last_unit prev s) rest 0.
Proof.
  intros Hl Hs prev. apply scan_go_kept. intros p1 x p2 E.
  apply exec_at_leads with (P := P); [exact Hl|].
  rewrite Forall_forall in Hs. apply Hs. rewrite E. apply in_or_app. right. now left.
Qed.

Lemma scan_go_leads_end (P : N -> Prop) (r : regex) (s : jsstring) :
  leads P r -> Forall (fun y => ~ P y) s ->
  forall prev, scan_go r prev s 0 = map Kept s.
Proof.
  intros Hl Hs prev. apply scan_go_none. intros prev' a t ->.
  apply exec_at_leads with (P := P); [exact Hl|].
  destruct t as [|x t]; [exact I|].
  rewrite Forall_forall in Hs. apply Hs. apply in_or_app. right. now left.
Qed.

Lemma scan_go_step (r : regex) (x : N) (s : jsstring) prev :
  exec_at r prev (x :: s) = None ->
  scan_go r prev (x :: s) 0 = Kept x :: scan_go r (Some x) s 0.
Proof. intros E. cbn [scan_go]. now rewrite E. Qed.

Lemma lacks_forall (x : N) (s : jsstring) :
  lacks x s = true -> Forall (fun y => ~ (y = x)) s.
Proof.
  intros Hl. apply lacks_spec in Hl. apply Forall_forall. intros y Hy ->.
  contradiction.
Qed.

(** A text with two occurrences of the character that the pattern starts
    with, at neither of which it matches. *)
Lemma scan_two_starts (x : N) (r : regex) (P0 P1 P2 : jsstring) :
  leads (fun y => y = x) r ->
  lacks x P0 = true -> lacks x P1 = true -> lacks x P2 = true ->
  (forall prev, exec_at r prev (x :: P1 ++ x :: P2) = None) ->
  (forall prev, exec_at r prev (x :: P2) = None) ->
  scan r (P0 ++ x :: P1 ++ x :: P2) = map Kept (P0 ++ x :: P1 ++ x :: P2).
Proof.
  intros Hl L0 L1 L2 H1 H2. unfold scan.
  rewrite (@scan_go_leads _ r P0 _ Hl (lacks_forall _ _ L0)).
  rewrite scan_go_step by apply H1.
  rewrite (@scan_go_leads _ r P1 _ Hl (lacks_forall _ _ L1)).
  rewrite scan_go_step by apply H2.
  rewrite (@scan_go_leads_end _ r P2 Hl (lacks_forall _ _ L2)).
  rewrite !map_app. cbn [map]. rewrite map_app. reflexivity.
Qed.

(** ** The Rewrite Engine: script blocks *)

Lemma one_occurrence (x : N) (A R X R' : jsstring) :
  ~ In x A -> ~ In x R -> A ++ x :: R = X ++ x :: R' -> X = A /\ R' = R.
Proof.
  intros HA HR E.
  assert (HX : ~ In x X).
  { apply (count_occ_not_In N.eq_dec).
    apply (f_equal (fun l => count_occ N.eq_dec l x)) in E.
    rewrite !count_occ_app, !count_occ_cons_eq in E by reflexivity.
    rewrite (@count_occ_none x A HA), (@count_occ_none x R HR) in E. lia. }
  destruct (@first_occurrence x A X _ _ HA HX E) as [<- <-]. auto.
Qed.

(** Whatever the attribute pattern matches has a quote before any [>]. *)
Lemma attr_reads_quote (q : N) prev s c p s' c' :
  derives (re_attr q) prev s c p s' c' ->
  exists Y rest, s = Y ++ q :: rest /\ ~ In GT Y.
Proof.
  unfold re_attr. intros D.
  apply derives_seq_inv in D. destruct D as (p1 & s1 & c1 & D1 & D).
  apply derives_seq_inv in D. destruct D as (p2 & s2 & c2 & D2 & D).
  apply derives_seq_inv in D. destruct D as (p3 & s3 & c3 & D3 & D).
  apply derives_seq_inv in D. destruct D as (p4 & s4 & c4 & D4 & D).
  apply derives_seq_inv in D. destruct D as (p5 & s5 & c5 & D5 & D).
  apply derives_seq_inv in D. destruct D as (p6 & s6 & c6 & D6 & _).
  apply derives_group_inv in D1. destruct D1 as (cg1 & D1 & ->).
  apply derives_seq_inv in D1. destruct D1 as (pa & sa & ca & Da & D1).
  apply derives_char_inv in Da. destruct Da as (x & -> & Hx & -> & ->).
  apply N.eqb_eq in Hx. subst x.
  cbn [seq] in D1.
  inversion D1 as [| |? ? ? ? ? pb sb cb ? ? ? Db Dc| | | | | | | |]; subst.
  apply derives_plus_class_inv in Db. destruct Db as (b1 & -> & Hb1 & Fb1 & ->).
  apply derives_char_inv in Dc. destruct Dc as (sp1 & -> & Hsp1 & -> & ->).
  apply derives_group_inv in D2. destruct D2 as (cg2 & D2 & ->).
  apply derives_attr_name_inv in D2. destruct D2 as (A2 & -> & FA2 & HA2 & ->).
  apply derives_star_class_inv in D3. destruct D3 as (w1 & -> & Fw1 & ->).
  apply derives_char_inv in D4. destruct D4 as (x & -> & Hx & -> & ->).
  apply N.eqb_eq in Hx. subst x.
  apply derives_star_class_inv in D5. destruct D5 as (w2 & -> & Fw2 & ->).
  apply derives_char_inv in D6. destruct D6 as (x & -> & Hx & -> & ->).
  apply N.eqb_eq in Hx. subst x.
  exists (ch "<" :: b1 ++ sp1 :: A2 ++ w1 ++ ch "=" :: w2), s6. split.
  - norm_list. reflexivity.
  - cbn [In]. rewrite in_app_iff. cbn [In]. rewrite !in_app_iff. cbn [In].
    assert (Sp : forall w, Forall (fun x => is_space x = true) w -> ~ In GT w).
    { intros w Fw I. rewrite Forall_forall in Fw. apply Fw in I. discriminate. }
    intros [E|[I|[E|[I|[I|[E|I]]]]]].
    + discriminate.
    + rewrite Forall_forall in Fb1. apply Fb1 in I. discriminate.
    + subst sp1. discriminate.
    + rewrite forallb_forall in FA2. apply FA2 in I. discriminate.
    + now apply (Sp w1).
    + discriminate.
    + now apply (Sp w2).
Qed.

(** The attribute pattern does not match at the start of a tag that is
    closed before any quote. *)
Lemma attr_not_at_tag (q : N) (h rest : jsstring) prev :
  q <> GT -> ~ In q h -> exec_at (re_attr q) prev (h ++ GT :: rest) = None.
Proof.
  intros Hq Hh. destruct (exec_at _ prev _) as [m|] eqn:E; [|reflexivity].
  exfalso. unfold exec_at in E. apply rmatch_sound in E.
  destruct E as (p1 & s1 & c1 & D & _).
  apply attr_reads_quote in D. destruct D as (Y & rest' & E & NY).
  clear -Hq Hh E NY. revert Y E NY.
  induction h as [|x h IH]; intros [|y Y] E NY; cbn [app] in E.
  - injection E as E _. now apply Hq.
  - injection E as <- _. apply NY. now left.
  - injection E as -> _. apply Hh. now left.
  - injection E as -> E. apply (IH (fun I => Hh (or_intror I)) Y E).
    intros I. apply NY. now right.
Qed.

Lemma leads_script_block : leads (fun y => y = LT) re_script_block.
Proof.
  unfold re_script_block, istr.
  cbn [seq leads ilit map js list_ascii_of_string].
  intros x Hx. apply (@upper_not_letter x LT); [reflexivity|exact Hx].
Qed.

Lemma leads_attr (q : N) : leads (fun y => y = LT) (re_attr q).
Proof.
  unfold re_attr. cbn [seq leads lit].
  intros x Hx. apply N.eqb_eq in Hx. now symmetry.
Qed.

Lemma leads_placeholder : leads (fun y => y = LT) re_placeholder.
Proof.
  unfold re_placeholder, str. cbn [seq leads lit map js list_ascii_of_string].
  intros x Hx. apply N.eqb_eq in Hx. now symmetry.
Qed.

Section ScriptBlock.

Variables (a body post : jsstring).
Hypothesis Ha : lacks LT a = true.
Hypothesis Hbody : lacks LT body = true.
Hypothesis Hpost : lacks LT post = true.

Lemma script_element_app :
  script_element a body ++ post
  = js "<script" ++ (a ++ GT :: body) ++ LT :: js "/script>" ++ post.
Proof. unfold script_element. norm_list. reflexivity. Qed.

Lemma derives_script_block prev :
  exists p1, derives re_script_block prev (script_element a body ++ post) []
                     p1 post [].
Proof.
  rewrite script_element_app. unfold re_script_block.
  destruct (@derives_istr "<script" prev
              ((a ++ GT :: body) ++ LT :: js "/script>" ++ post) []) as [p1 D1].
  assert (F : Forall (fun x => (fun _ : N => true) x = true) (a ++ GT :: body))
    by (apply Forall_forall; reflexivity).
  destruct (@derives_star_class false _ (a ++ GT :: body) F p1
              (LT :: js "/script>" ++ post) []) as [p2 D2].
  destruct (@derives_istr "</script>" p2 post []) as [p3 D3].
  exists p3.
  eapply derives_seq_cons; [exact D1|].
  eapply derives_seq_cons; [exact D2|].
  cbn [seq]. exact D3.
Qed.

Lemma script_block_unique prev p s' c' :
  derives re_script_block prev (script_element a body ++ post) [] p s' c' ->
  s' = post /\ c' = [].
Proof.
  rewrite script_element_app. unfold re_script_block. intros D.
  apply derives_seq_inv in D. destruct D as (p1 & s1 & c1 & D1 & D).
  apply derives_seq_inv in D. destruct D as (p2 & s2 & c2 & D2 & D3).
  cbn [seq] in D3.
  apply derives_istr_inv in D1. destruct D1 as (w7 & E7 & L7 & _ & ->).
  apply app_same_length in E7; [|now rewrite L7]. destruct E7 as [_ <-].
  apply derives_star_class_inv in D2. destruct D2 as (X & EX & _ & ->).
  apply derives_istr_inv in D3. destruct D3 as (w9 & -> & L9 & F9 & ->).
  split; [|reflexivity].
  destruct w9 as [|x w9]; [discriminate|].
  inversion F9 as [|? ? ? ? Hx _]; subst.
  apply upper_not_letter in Hx; [|reflexivity]. subst x.
  assert (N1 : ~ In LT (a ++ GT :: body)).
  { apply lacks_spec in Ha, Hbody. rewrite in_app_iff. cbn [In].
    intros [I|[E|I]]; try contradiction. discriminate. }
  assert (N2 : ~ In LT (js "/script>" ++ post)).
  { apply lacks_spec in Hpost. rewrite in_app_iff.
    intros [I|I]; [|contradiction]. cbn in I. intuition discriminate. }
  cbn [app] in EX.
  destruct (@one_occurrence LT _ _ X (w9 ++ s') N1 N2 EX) as [_ E].
  apply app_same_length in E; [now destruct E|].
  cbn [length] in L9. injection L9 as L9. now rewrite L9.
Qed.

Lemma script_exec prev :
  exec_at re_script_block prev (script_element a body ++ post)
  = Some (MatchResult (script_element a body) [] post).
Proof.
  destruct (derives_script_block prev) as [p1 D].
  rewrite (exec_at_unique D).
  - now rewrite firstn_consumed.
  - intros p s' c'. apply script_block_unique.
Qed.

End ScriptBlock.

(** The placeholder of the first script block, read back. *)
Lemma placeholder_exec (post : jsstring) prev :
  exec_at re_placeholder prev (script_placeholder 0 ++ post)
  = Some (MatchResult (script_placeholder 0) [(1, js "0")] post).
Proof.
  assert (D : exists p1, derives re_placeholder prev (script_placeholder 0 ++ post) []
                           p1 post [(1, js "0")]).
  { unfold re_placeholder.
    destruct (@derives_str "<!--DS" prev (js "0" ++ js "-->" ++ post) []) as [p1 D1].
    assert (Dg : derives (plus digit) p1 (js "0" ++ js "-->" ++ post) [] (Some (ch "0"))
                         (js "-->" ++ post) []).
    { econstructor; [now constructor|apply DStarStop]. }
    apply (DGroup 1) in Dg.
    rewrite (@firstn_consumed _ (js "0") (js "-->" ++ post)) in Dg.
    destruct (@derives_str "-->" (Some (ch "0")) post [(1, js "0")]) as [p3 D3].
    exists p3.
    change (script_placeholder 0 ++ post) with (js "<!--DS" ++ js "0" ++ js "-->" ++ post).
    eapply derives_seq_cons; [exact D1|].
    eapply derives_seq_cons; [exact Dg|].
    cbn [seq]. exact D3. }
  destruct D as [p1 D]. rewrite (exec_at_unique D).
  - now rewrite firstn_consumed.
  - intros p s' c' D'. unfold re_placeholder in D'.
    change (script_placeholder 0 ++ post) with (js "<!--DS" ++ js "0" ++ js "-->" ++ post) in D'.
    apply derives_seq_inv in D'. destruct D' as (pa & sa & ca & Da & D').
    apply derives_seq_inv in D'. destruct D' as (pb & sb & cb & Db & Dc).
    cbn [seq] in Dc.
    apply derives_str_inv in Da. destruct Da as [Ea ->].
    apply app_inv_head in Ea. subst sa.
    apply derives_group_inv in Db. destruct Db as (cg & Db & ->).
    apply derives_plus_class_inv in Db. destruct Db as (d & Ed & Hd & Fd & ->).
    apply derives_str_inv in Dc. destruct Dc as [-> ->].
    destruct d as [|x d]; [contradiction|]. cbn [app] in Ed. injection Ed as <- Ed.
    destruct d as [|y d].
    + cbn [app] in Ed. injection Ed as <-. split; [reflexivity|].
      now rewrite (@firstn_consumed _ (js "0") (js "-->" ++ post)).
    + cbn [app] in Ed. injection Ed as <- _.
      inversion Fd as [|? ? _ Fd']; subst. apply Forall_inv in Fd'. discriminate.
Qed.

Lemma doc_two_starts (pre a body post : jsstring) :
  pre ++ script_element a body ++ post
  = pre ++ LT :: (js "script" ++ a ++ GT :: body) ++ LT :: (js "/script>" ++ post).
Proof. unfold script_element. norm_list. reflexivity. Qed.

Section ScriptProtection.

Context `{URLClass}.
Variable baseUrl : jsstring.

(** X12: a script block goes through [rewriteUrls] untouched, whatever its
    body holds ([url(...)], quotes, attributes in strings) as long as it has
    no [<]: the block is set aside before the [url(...)] pass and put back
    after it. *)
Theorem script_block_is_protected (pre a body post : jsstring) :
  URL_new baseUrl None <> None ->
  lacks LT pre = true -> lacks LT a = true -> lacks LT body = true ->
  lacks LT post = true ->
  no_quote a = true ->
  lacks LPAREN pre = true -> lacks LPAREN post = true ->
  includes (map lower (pre ++ script_element a body ++ post)) (js "srcset") = false ->
  rewriteUrls baseUrl (pre ++ script_element a body ++ post)
  = Some (pre ++ script_element a body ++ post).
Proof.
  intros Hbase Lp La Lb Lt Qa Pp Pt Hsrc.
  unfold rewriteUrls. destruct (URL_new baseUrl None) as [b|]; [|congruence].
  set (doc := pre ++ script_element a body ++ post) in *.
  apply no_quote_spec in Qa. destruct Qa as [Da Sa].
  (* the attributes *)
  assert (Hattr : forall q f, q = DQUOTE \/ q = SQUOTE -> ~ In q a ->
                    replace (re_attr q) f doc = doc).
  { intros q f Hq Hqa. unfold replace.
    assert (E : scan (re_attr q) doc = map Kept doc).
    { unfold doc. rewrite doc_two_starts. apply scan_two_starts.
      - apply leads_attr.
      - exact Lp.
      - apply lacks_spec. apply lacks_spec in La, Lb. rewrite !in_app_iff. cbn [In].
        intros [I|[I|[E|I]]]; try contradiction; try discriminate.
        cbn in I. intuition discriminate.
      - apply lacks_spec. apply lacks_spec in Lt. rewrite in_app_iff.
        intros [I|I]; [|contradiction]. cbn in I. intuition discriminate.
      - intros prev.
        replace (LT :: (js "script" ++ a ++ GT :: body) ++ LT :: js "/script>" ++ post)
          with ((js "<script" ++ a) ++ GT :: (body ++ LT :: js "/script>" ++ post))
          by (norm_list; reflexivity).
        apply attr_not_at_tag.
        + destruct Hq as [-> | ->]; discriminate.
        + rewrite in_app_iff. intros [I|I]; [|contradiction].
          destruct Hq as [-> | ->]; cbn in I; intuition discriminate.
      - intros prev.
        change (LT :: js "/script>" ++ post) with (js "</script" ++ GT :: post).
        apply attr_not_at_tag.
        + destruct Hq as [-> | ->]; discriminate.
        + destruct Hq as [-> | ->]; cbn; intuition discriminate. }
    rewrite E. apply flat_map_kept. }
  rewrite (Hattr DQUOTE _ (or_introl eq_refl) Da).
  rewrite (Hattr SQUOTE _ (or_intror eq_refl) Sa).
  (* srcset *)
  assert (E3 : replace re_srcset (srcset_replacer baseUrl) doc = doc).
  { unfold replace, re_srcset. cbn [seq].
    rewrite (@scan_istr_absent "srcset" _ doc Hsrc). apply flat_map_kept. }
  cbv zeta. rewrite E3.
  (* the block is set aside *)
  assert (E4 : scan re_script_block doc
               = map Kept pre
                 ++ Matched (MatchResult (script_element a body) [] post)
                 :: map Kept post).
  { unfold doc. apply scan_one.
    - intros p1 x p2 E. apply exec_at_leads with (P := fun y => y = LT);
        [apply leads_script_block|].
      apply lacks_spec in Lp. intros ->. apply Lp. rewrite E.
      apply in_or_app. right. now left.
    - now apply script_exec.
    - reflexivity.
    - unfold script_element. discriminate.
    - intros prev. apply scan_go_leads_end with (P := fun y => y = LT);
        [apply leads_script_block|now apply lacks_forall]. }
  unfold matches, replace_indexed. rewrite E4, matched_one, replaced_indexed_one.
  cbn [map m_text m_caps].
  (* url(...) *)
  assert (E5 : replace re_css_url (css_url_replacer baseUrl)
                 (pre ++ script_placeholder 0 ++ post)
               = pre ++ script_placeholder 0 ++ post).
  { apply (@replace_without (fun y => y = LPAREN)); [apply needs_css_url|].
    apply Forall_forall. intros y Hy ->. apply lacks_spec in Pp, Pt.
    rewrite !in_app_iff in Hy. destruct Hy as [I|[I|I]]; try contradiction.
    cbn in I. intuition discriminate. }
  rewrite E5.
  (* the block is put back *)
  f_equal. unfold replace.
  rewrite (@scan_one re_placeholder pre (script_placeholder 0) post
             (MatchResult (script_placeholder 0) [(1, js "0")] post)).
  - rewrite flat_map_app, flat_map_kept. cbn [flat_map replaced m_text m_caps].
    now rewrite flat_map_kept.
  - intros p1 x p2 E. apply exec_at_leads with (P := fun y => y = LT);
      [apply leads_placeholder|].
    apply lacks_spec in Lp. intros ->. apply Lp. rewrite E.
    apply in_or_app. right. now left.
  - apply placeholder_exec.
  - reflexivity.
  - discriminate.
  - intros prev. apply scan_go_leads_end with (P := fun y => y = LT);
      [apply leads_placeholder|now apply lacks_forall].
Qed.

End ScriptProtection.

Lemma script_block_is_protected_witness :
  let doc :=
    js "see " ++ script_element (js " type=module")
                   (js "el.style.background='url(img/a.png)';el.href=" ++ dq (js "b"))
    ++ js " here" in
  rewriteUrls (H := WHATWG.NodeURL) Scenario.SITE doc = Some doc.
Proof.
  cbv zeta.
  refine (@script_block_is_protected WHATWG.NodeURL Scenario.SITE (js "see ")
            (js " type=module")
            (js "el.style.background='url(img/a.png)';el.href=" ++ dq (js "b"))
            (js " here") _ _ _ _ _ _ _ _ _);
    try (vm_compute; reflexivity).
  vm_compute; discriminate.
Defined.

(** ** The Rewrite Engine: the candidates of an image *)

(** ** Splitting and joining *)

Lemma split_on_none (c : N) (a : jsstring) : ~ In c a -> split_on c a = [a].
Proof.
  induction a as [|x a IH]; intros Ha; [reflexivity|].
  cbn [split_on]. destruct (N.eqb_spec x c) as [->|_].
  - exfalso. apply Ha. now left.
  - rewrite IH; [reflexivity|]. intros I. apply Ha. now right.
Qed.

Lemma split_on_app (c : N) (a rest : jsstring) :
  ~ In c a -> split_on c (a ++ c :: rest) = a :: split_on c rest.
Proof.
  induction a as [|x a IH]; intros Ha; cbn [app split_on].
  - now rewrite N.eqb_refl.
  - destruct (N.eqb_spec x c) as [->|_].
    + exfalso. apply Ha. now left.
    + rewrite IH; [reflexivity|]. intros I. apply Ha. now right.
Qed.

Lemma join_cons (sep e : jsstring) (es : list jsstring) :
  join sep (e :: es) = e ++ match es with [] => [] | _ => sep ++ join sep es end.
Proof. destruct es; cbn [join]; [now rewrite app_nil_r|reflexivity]. Qed.

Lemma split_on_join (e : jsstring) (es : list jsstring) :
  Forall (fun e => ~ In COMMA e) (e :: es) ->
  split_on COMMA (join [COMMA; SPACE] (e :: es)) = e :: map (cons SPACE) es.
Proof.
  revert e. induction es as [|e' es IH]; intros e F.
  - cbn [join map]. apply split_on_none. now apply Forall_inv in F.
  - rewrite join_cons. cbn [app map].
    rewrite split_on_app by now apply Forall_inv in F.
    f_equal. apply Forall_inv_tail in F.
    cbn [split_on]. change (N.eqb SPACE COMMA) with false. cbv iota.
    now rewrite (IH e' F).
Qed.

(** ** White space *)

Lemma trim_space (x : N) (s : jsstring) :
  is_space x = true -> trim (x :: s) = trim s.
Proof. intros Hx. unfold trim. cbn [trimStart]. now rewrite Hx. Qed.

Lemma trim_id (x l : N) (s s' : jsstring) :
  is_space x = false -> is_space l = false -> x :: s = s' ++ [l] ->
  trim (x :: s) = x :: s.
Proof.
  intros Hx Hl E. unfold trim. cbn [trimStart]. rewrite Hx, E, rev_app_distr.
  cbn [rev app trimStart]. rewrite Hl.
  change (l :: rev s') with (rev [l] ++ rev s').
  now rewrite <- rev_app_distr, rev_involutive.
Qed.

Lemma split_spaces_token (t r : jsstring) (w : N) :
  Forall (fun c => is_space c = false) t -> is_space w = true ->
  split_spaces_go false (t ++ w :: r) = t :: split_spaces_go true r.
Proof.
  intros F Hw. induction t as [|x t IH]; cbn [app split_spaces_go].
  - now rewrite Hw.
  - inversion F as [|? ? Hx F']; subst. rewrite Hx, (IH F'). reflexivity.
Qed.

Lemma split_spaces_last (t : jsstring) :
  Forall (fun c => is_space c = false) t -> split_spaces_go false t = [t].
Proof.
  intros F. induction t as [|x t IH]; cbn [split_spaces_go]; [reflexivity|].
  inversion F as [|? ? Hx F']; subst. now rewrite Hx, (IH F').
Qed.

Lemma split_spaces_resume (x : N) (s : jsstring) :
  is_space x = false ->
  split_spaces_go true (x :: s) = split_spaces_go false (x :: s).
Proof. intros Hx. cbn [split_spaces_go]. now rewrite Hx. Qed.

(** ** Tokens *)

Lemma token_spec (t : jsstring) :
  token t = true ->
  t <> [] /\ Forall (fun c => is_space c = false) t /\ ~ In COMMA t
  /\ ~ In DQUOTE t /\ ~ In SQUOTE t.
Proof.
  unfold token. intros Ht.
  apply andb_true_iff in Ht. destruct Ht as [Ht Hq].
  apply andb_true_iff in Ht. destruct Ht as [Hn Hf].
  apply no_quote_spec in Hq. destruct Hq as [Hd Hs].
  rewrite forallb_forall in Hf.
  repeat split; try assumption.
  - intros ->. discriminate.
  - apply Forall_forall. intros c Hc. specialize (Hf c Hc).
    apply andb_true_iff in Hf. destruct Hf as [Hf _]. now apply negb_true_iff in Hf.
  - intros Hc. specialize (Hf _ Hc). apply andb_true_iff in Hf.
    destruct Hf as [_ Hf]. discriminate.
Qed.

Lemma tokens_spec (ts : list jsstring) :
  forallb token ts = true -> Forall (fun t => token t = true) ts.
Proof. intros F. rewrite forallb_forall in F. now apply Forall_forall. Qed.

Lemma split_spaces_join (u : jsstring) (ds : list jsstring) :
  Forall (fun t => token t = true) (u :: ds) ->
  split_spaces (join [SPACE] (u :: ds)) = u :: ds.
Proof.
  unfold split_spaces. revert u. induction ds as [|d ds IH]; intros u F.
  - cbn [join]. apply split_spaces_last.
    apply Forall_inv in F. now apply token_spec in F.
  - rewrite join_cons. cbn [app].
    inversion F as [|? ? Hu F']; subst.
    rewrite split_spaces_token; [|now apply token_spec in Hu|reflexivity].
    f_equal. pose proof (IH d F') as E. rewrite join_cons in E |- *.
    pose proof (Forall_inv F') as Hd. apply token_spec in Hd.
    destruct Hd as (Hn & Hs & _). destruct d as [|x d]; [contradiction|].
    cbn [app] in E |- *. rewrite split_spaces_resume; [exact E|].
    now apply Forall_inv in Hs.
Qed.

(** A candidate begins and ends with a character of a token. *)
Lemma candidate_ends (u : jsstring) (ds : list jsstring) :
  Forall (fun t => token t = true) (u :: ds) ->
  exists e l, join [SPACE] (u :: ds) = e ++ [l] /\ is_space l = false.
Proof.
  revert u. induction ds as [|d ds IH]; intros u F.
  - cbn [join]. apply Forall_inv in F. apply token_spec in F.
    destruct F as (Hn & Hs & _).
    destruct (@exists_last _ u Hn) as (e & l & ->). exists e, l. split; [reflexivity|].
    apply Forall_app in Hs. destruct Hs as [_ Hs]. now apply Forall_inv in Hs.
  - rewrite join_cons. destruct (IH d (Forall_inv_tail F)) as (e & l & E & Hl).
    rewrite E. exists (u ++ [SPACE] ++ e), l. split; [|exact Hl].
    now rewrite <- !app_assoc.
Qed.

Lemma candidate_no (x : N) (c : jsstring * list jsstring) :
  x <> SPACE -> ~ In x (fst c) -> Forall (fun t => ~ In x t) (snd c) ->
  ~ In x (candidate c).
Proof.
  destruct c as [u ds]. unfold candidate. cbn [fst snd]. intros Hx.
  revert u. induction ds as [|d ds IH]; intros u Hu F.
  - exact Hu.
  - rewrite join_cons. cbn [app]. rewrite in_app_iff. cbn [In].
    intros [I|[E|I]].
    + contradiction.
    + now apply Hx.
    + revert I. apply IH; [now apply Forall_inv in F|now apply Forall_inv_tail in F].
Qed.

Lemma join_no (x : N) (sep : jsstring) (es : list jsstring) :
  ~ In x sep -> Forall (fun e => ~ In x e) es -> ~ In x (join sep es).
Proof.
  intros Hs. induction es as [|e es IH]; intros F.
  - intros [].
  - rewrite join_cons. inversion F as [|? ? He F']; subst.
    destruct es as [|e' es]; [now rewrite app_nil_r|].
    rewrite !in_app_iff. intros [I|[I|I]]; try contradiction.
    now apply IH.
Qed.

(** ** A string found across two texts *)

Lemma startsWith_app_split (a b L : jsstring) :
  startsWith (a ++ b) L = true ->
  startsWith a L = true \/ (length a < length L /\ startsWith b (skipn (length a) L) = true).
Proof.
  revert L. induction a as [|x a IH]; intros L E.
  - destruct L as [|y L]; [now left|]. right. split; [cbn; lia|exact E].
  - destruct L as [|y L]; [now left|]. cbn [app startsWith] in E |- *.
    apply andb_true_iff in E. destruct E as [Ex E]. rewrite Ex. cbn [andb].
    destruct (IH L E) as [S|[Hl S]]; [now left|right].
    split; [cbn [length]; lia|exact S].
Qed.

(** A string that does not occur in [pre], and of which no proper end
    starts [text], does not start inside [pre]. *)
Lemma absent_before (L pre text : jsstring) :
  includes (map lower pre) L = false ->
  (forall k, 0 < k < length L -> startsWith (map lower text) (skipn k L) = false) ->
  forall p1 x p2, pre = p1 ++ x :: p2 ->
    startsWith (map lower (x :: p2 ++ text)) L = false.
Proof.
  intros Hi Hk p1 x p2 E.
  destruct (startsWith (map lower (x :: p2 ++ text)) L) eqn:S; [|reflexivity].
  exfalso. change (x :: p2 ++ text) with ((x :: p2) ++ text) in S.
  rewrite map_app in S. apply startsWith_app_split in S.
  destruct S as [S|[Hl S]].
  - rewrite (@absent_suffix pre L Hi p1 (x :: p2) E) in S. discriminate.
  - rewrite length_map in Hl, S. rewrite Hk in S; [discriminate|].
    cbn [length] in *. lia.
Qed.

(** ** The [srcset] pattern *)

Section SrcsetMatch.

Variables (v post : jsstring).
Hypothesis Hv : ~ In DQUOTE v.

Let not_dquote := fun x => negb (existsb (N.eqb x) [DQUOTE]).

Lemma srcset_text :
  js "srcset=" ++ dq v ++ post
  = js "srcset" ++ EQUALS :: DQUOTE :: v ++ DQUOTE :: post.
Proof. unfold dq. norm_list. reflexivity. Qed.

Lemma value_class : Forall (fun x => not_dquote x = true) v.
Proof.
  apply Forall_forall. intros x Hx. unfold not_dquote. cbn [existsb].
  rewrite orb_false_r. apply negb_true_iff. apply N.eqb_neq. intros ->.
  contradiction.
Qed.

Lemma derives_srcset prev :
  exists p1, derives re_srcset prev (js "srcset=" ++ dq v ++ post) [] p1 post [(1, v)].
Proof.
  rewrite srcset_text. unfold re_srcset.
  destruct (@derives_istr "srcset" prev (EQUALS :: DQUOTE :: v ++ DQUOTE :: post) [])
    as [pa Da].
  destruct (@derives_star_class true _ v value_class (Some DQUOTE)
              (DQUOTE :: post) []) as [pc Dc].
  eexists.
  eapply derives_seq_cons; [exact Da|].
  eapply derives_seq_cons; [apply DStarStop|].
  eapply derives_seq_cons; [constructor; reflexivity|].
  eapply derives_seq_cons; [apply DStarStop|].
  eapply derives_seq_cons; [constructor; reflexivity|].
  eapply derives_seq_cons.
  { pose proof (DGroup 1 Dc) as G.
    rewrite (@firstn_consumed _ v (DQUOTE :: post)) in G. exact G. }
  cbn [seq]. constructor. apply N.eqb_refl.
Qed.

Lemma srcset_unique prev p s' c' :
  derives re_srcset prev (js "srcset=" ++ dq v ++ post) [] p s' c' ->
  s' = post /\ c' = [(1, v)].
Proof.
  rewrite srcset_text. unfold re_srcset. intros D.
  apply derives_seq_inv in D. destruct D as (pa & sa & ca & Da & D).
  apply derives_istr_inv in Da. destruct Da as (w & E & Lw & _ & ->).
  apply app_same_length in E; [|now rewrite Lw]. destruct E as [_ <-].
  apply derives_seq_inv in D. destruct D as (pb & sb & cb & Db & D).
  apply star_class_stop in Db; [|reflexivity]. destruct Db as [-> ->].
  apply derives_seq_inv in D. destruct D as (pc & sc & cc & Dc & D).
  apply derives_char_inv in Dc. destruct Dc as (y1 & Ey1 & _ & _ & ->).
  injection Ey1 as _ <-.
  apply derives_seq_inv in D. destruct D as (pd & sd & cd & Dd & D).
  apply star_class_stop in Dd; [|reflexivity]. destruct Dd as [-> ->].
  apply derives_seq_inv in D. destruct D as (pe & se & ce & De & D).
  apply derives_char_inv in De. destruct De as (y2 & Ey2 & _ & _ & ->).
  injection Ey2 as _ <-.
  apply derives_seq_inv in D. destruct D as (pf & sf & cf & Df & D).
  cbn [seq] in D. apply derives_char_inv in D.
  destruct D as (y & Ey & Hy & _ & ->). apply N.eqb_eq in Hy. subst y. subst sf.
  apply derives_group_inv in Df. destruct Df as (cg & Dg & ->).
  apply derives_star_class_inv in Dg. destruct Dg as (g & Eg & Fg & ->).
  assert (Hg : ~ In DQUOTE g).
  { intros I. rewrite Forall_forall in Fg. apply Fg in I. discriminate. }
  destruct (@first_occurrence DQUOTE v g post s' Hv Hg Eg) as [<- <-].
  now rewrite (@firstn_consumed _ v (DQUOTE :: post)).
Qed.

Lemma srcset_exec prev :
  exec_at re_srcset prev (js "srcset=" ++ dq v ++ post)
  = Some (MatchResult (js "srcset=" ++ dq v) [(1, v)] post).
Proof.
  destruct (derives_srcset prev) as [p1 D].
  rewrite (exec_at_unique D (fun p s' c' => @srcset_unique prev p s' c')).
  replace (js "srcset=" ++ dq v ++ post) with ((js "srcset=" ++ dq v) ++ post)
    by now rewrite <- app_assoc.
  now rewrite firstn_consumed.
Qed.

End SrcsetMatch.

(** The pass over the [srcset] attributes, on a text with one of them. *)
Lemma srcset_pass (f : jsstring -> captures -> jsstring) (pre v post : jsstring) :
  includes (map lower pre) (js "srcset") = false ->
  includes (map lower post) (js "srcset") = false ->
  ~ In DQUOTE v ->
  replace re_srcset f (pre ++ (js "srcset=" ++ dq v) ++ post)
  = pre ++ f (js "srcset=" ++ dq v) [(1, v)] ++ post.
Proof.
  intros Hpre Hpost Hv.
  rewrite (@replace_one re_srcset f pre (js "srcset=" ++ dq v) post
             (MatchResult (js "srcset=" ++ dq v) [(1, v)] post)).
  - reflexivity.
  - intros p1 x p2 E. unfold re_srcset. cbn [seq].
    apply exec_at_istr_absent.
    apply (@absent_before (js "srcset") pre ((js "srcset=" ++ dq v) ++ post) Hpre)
      with (p1 := p1); [|exact E].
    intros k Hk. cbn [length js list_ascii_of_string map] in Hk.
    destruct k as [|[|[|[|[|[|k]]]]]]; try lia; reflexivity.
  - rewrite <- app_assoc. now apply srcset_exec.
  - reflexivity.
  - discriminate.
  - intros prev. apply scan_go_none. intros prev' a t E.
    unfold re_srcset. cbn [seq]. apply exec_at_istr_absent.
    exact (@absent_suffix post _ Hpost a t E).
Qed.

(** ** The value of a [srcset] attribute *)

Section SrcsetValue.

Context `{URLClass}.
Variable baseUrl : jsstring.

Lemma srcset_entry_candidate (c : jsstring * list jsstring) :
  well_formed c = true ->
  srcset_entry baseUrl (candidate c) = candidate (proxied_candidate baseUrl c).
Proof.
  destruct c as [u ds]. unfold well_formed, srcset_entry, candidate, proxied_candidate.
  cbn [fst snd]. intros W. apply andb_true_iff in W. destruct W as [Hu Hds].
  apply tokens_spec in Hds.
  assert (F : Forall (fun t => token t = true) (u :: ds)) by now constructor.
  destruct (candidate_ends F) as (e & l & E & Hl).
  pose proof (token_spec _ Hu) as (Hn & Hs & _).
  assert (T : trim (join [SPACE] (u :: ds)) = join [SPACE] (u :: ds)).
  { rewrite join_cons in E |- *. destruct u as [|x u]; [contradiction|].
    cbn [app] in E |- *.
    apply trim_id with (l := l) (s' := e); [now apply Forall_inv in Hs|exact Hl|exact E]. }
  rewrite T, (split_spaces_join F). destruct u; [contradiction|reflexivity].
Qed.

Lemma srcset_entry_space (e : jsstring) :
  srcset_entry baseUrl (SPACE :: e) = srcset_entry baseUrl e.
Proof. unfold srcset_entry. now rewrite trim_space. Qed.

Lemma well_formed_no (c : jsstring * list jsstring) :
  well_formed c = true ->
  ~ In COMMA (candidate c) /\ ~ In DQUOTE (candidate c) /\ ~ In SQUOTE (candidate c).
Proof.
  unfold well_formed. intros W. apply andb_true_iff in W. destruct W as [Hu Hds].
  apply tokens_spec in Hds. apply token_spec in Hu.
  destruct Hu as (_ & _ & Hc & Hd & Hs).
  repeat split; apply candidate_no; try discriminate; try assumption;
    (eapply Forall_impl; [|exact Hds]); intros t Ht; apply token_spec in Ht; tauto.
Qed.

(** The value that the replacer computes: each candidate with its URL made
    a ProxyReference, in the same order. *)
Lemma srcset_value_rewritten (cs : list (jsstring * list jsstring)) :
  forallb well_formed cs = true ->
  join (js ", ") (map (srcset_entry baseUrl) (split_on (ch ",") (srcset_value cs)))
  = srcset_value (map (proxied_candidate baseUrl) cs).
Proof.
  intros W. destruct cs as [|c cs]; [reflexivity|].
  unfold srcset_value. cbn [map].
  assert (F : Forall (fun c => well_formed c = true) (c :: cs)).
  { rewrite forallb_forall in W. now apply Forall_forall. }
  change (ch ",") with COMMA.
  rewrite split_on_join.
  - cbn [map]. change (js ", ") with [COMMA; SPACE]. f_equal. f_equal.
    + apply srcset_entry_candidate. now apply Forall_inv in F.
    + apply Forall_inv_tail in F. rewrite !map_map.
      apply map_ext_Forall. revert F. apply Forall_impl. intros a Ha.
      rewrite srcset_entry_space. now apply srcset_entry_candidate.
  - change (candidate c :: map candidate cs) with (map candidate (c :: cs)).
    apply Forall_map. revert F. apply Forall_impl. intros a Ha.
    now apply well_formed_no in Ha.
Qed.

Lemma srcset_value_no (x : N) (cs : list (jsstring * list jsstring)) :
  x <> COMMA -> x <> SPACE -> Forall (fun c => ~ In x (candidate c)) cs ->
  ~ In x (srcset_value cs).
Proof.
  intros Hc Hs F. unfold srcset_value. apply join_no.
  - cbn [In]. intros [E|[E|[]]]; now subst.
  - now apply Forall_map.
Qed.

End SrcsetValue.

(** ** The attribute pattern at a [srcset] attribute *)

Lemma attr_name_last prev s c p1 s1 c1 :
  derives re_attr_name prev s c p1 s1 c1 ->
  exists w l, s = w ++ l :: s1 /\ is_space l = false
              /\ N.eqb (upper l) (upper (ch "t")) = false.
Proof.
  assert (K : forall l a, N.eqb (upper l) (upper a) = true -> is_alpha a = true ->
                N.eqb (upper a) (upper (ch "t")) = false ->
                is_space l = false /\ N.eqb (upper l) (upper (ch "t")) = false).
  { intros l a E Ha Ht. split.
    - apply alpha_not_space. exact (upper_alpha _ _ E Ha).
    - apply N.eqb_eq in E. now rewrite E. }
  unfold re_attr_name. cbn [alt]. intros D.
  apply derives_alt_inv in D. destruct D as [D|D];
    [|apply derives_alt_inv in D; destruct D as [D|D]];
    apply derives_istr_inv in D; destruct D as (w & -> & L & F & _).
  - destruct w as [|a [|b [|d [|e [|? ?]]]]]; try discriminate L.
    inversion F as [|? ? ? ? _ F1]; subst. inversion F1 as [|? ? ? ? _ F2]; subst.
    inversion F2 as [|? ? ? ? _ F3]; subst. inversion F3 as [|? ? ? ? He _]; subst.
    exists [a; b; d], e. split; [reflexivity|]. now apply (K e _ He).
  - destruct w as [|a [|b [|d [|? ?]]]]; try discriminate L.
    inversion F as [|? ? ? ? _ F1]; subst. inversion F1 as [|? ? ? ? _ F2]; subst.
    inversion F2 as [|? ? ? ? He _]; subst.
    exists [a; b], d. split; [reflexivity|]. now apply (K d _ He).
  - destruct w as [|a [|b [|d [|e [|f [|g [|? ?]]]]]]]; try discriminate L.
    inversion F as [|? ? ? ? _ F1]; subst. inversion F1 as [|? ? ? ? _ F2]; subst.
    inversion F2 as [|? ? ? ? _ F3]; subst. inversion F3 as [|? ? ? ? _ F4]; subst.
    inversion F4 as [|? ? ? ? _ F5]; subst. inversion F5 as [|? ? ? ? Hg _]; subst.
    exists [a; b; d; e; f], g. split; [reflexivity|]. now apply (K g _ Hg).
Qed.

(** What the attribute pattern reads: a name that ends in a letter other
    than [t], white space, [=], white space, and a value between two quotes
    that holds no quote. *)
Lemma attr_shape (q : N) prev s c p s' c' :
  derives (re_attr q) prev s c p s' c' ->
  exists Y l w1 w2 U,
    s = Y ++ l :: w1 ++ EQUALS :: w2 ++ q :: U ++ q :: s'
    /\ is_space l = false /\ N.eqb (upper l) (upper (ch "t")) = false
    /\ Forall (fun x => is_space x = true) w1
    /\ Forall (fun x => is_space x = true) w2
    /\ ~ In q U.
Proof.
  unfold re_attr. intros D.
  apply derives_seq_inv in D. destruct D as (p1 & s1 & c1 & D1 & D).
  apply derives_seq_inv in D. destruct D as (p2 & s2 & c2 & D2 & D).
  apply derives_seq_inv in D. destruct D as (p3 & s3 & c3 & D3 & D).
  apply derives_seq_inv in D. destruct D as (p4 & s4 & c4 & D4 & D).
  apply derives_seq_inv in D. destruct D as (p5 & s5 & c5 & D5 & D).
  apply derives_seq_inv in D. destruct D as (p6 & s6 & c6 & D6 & D).
  apply derives_seq_inv in D. destruct D as (p7 & s7 & c7 & D7 & D).
  cbn [seq] in D. apply derives_char_inv in D.
  destruct D as (x8 & E8 & H8 & _ & _). apply N.eqb_eq in H8. subst x8.
  destruct (derives_suffix D1) as [Y ->].
  apply derives_group_inv in D2. destruct D2 as (cg2 & D2 & _).
  apply attr_name_last in D2. destruct D2 as (A & l & -> & Hl & Ht).
  apply derives_star_class_inv in D3. destruct D3 as (w1 & -> & Fw1 & _).
  apply derives_char_inv in D4. destruct D4 as (x4 & -> & H4 & _ & _).
  apply N.eqb_eq in H4. subst x4.
  apply derives_star_class_inv in D5. destruct D5 as (w2 & -> & Fw2 & _).
  apply derives_char_inv in D6. destruct D6 as (x6 & -> & H6 & _ & _).
  apply N.eqb_eq in H6. subst x6.
  apply derives_group_inv in D7. destruct D7 as (cg7 & D7 & _).
  apply derives_star_class_inv in D7. destruct D7 as (U & -> & FU & _).
  subst s7.
  exists (Y ++ A), l, w1, w2, U. repeat split; try assumption.
  - norm_list. reflexivity.
  - intros I. rewrite Forall_forall in FU. apply FU in I.
    cbn [existsb] in I. rewrite N.eqb_refl in I. discriminate.
Qed.

(** The attribute pattern finds nothing in a text whose only quotes are
    those of a [srcset] attribute. *)
Lemma attr_not_srcset (pre v post : jsstring) :
  ~ In DQUOTE pre -> ~ In DQUOTE v -> ~ In DQUOTE post ->
  scan (re_attr DQUOTE) (pre ++ (js "srcset=" ++ dq v) ++ post)
  = map Kept (pre ++ (js "srcset=" ++ dq v) ++ post).
Proof.
  intros Hpre Hv Hpost. apply scan_go_none. intros prev a t E.
  destruct (exec_at (re_attr DQUOTE) prev t) as [m|] eqn:Hm; [|reflexivity].
  exfalso. unfold exec_at in Hm. apply rmatch_sound in Hm.
  destruct Hm as (pe & se & ce & D & _).
  apply attr_shape in D.
  destruct D as (Y & l & w1 & w2 & U & -> & Hl & Ht & F1 & F2 & HU).
  assert (E' : (pre ++ js "srcset=") ++ DQUOTE :: v ++ DQUOTE :: post
               = (a ++ Y ++ l :: w1 ++ EQUALS :: w2) ++ DQUOTE :: U ++ DQUOTE :: se).
  { replace ((a ++ Y ++ l :: w1 ++ EQUALS :: w2) ++ DQUOTE :: U ++ DQUOTE :: se)
      with (a ++ Y ++ l :: w1 ++ EQUALS :: w2 ++ DQUOTE :: U ++ DQUOTE :: se)
      by (norm_list; reflexivity).
    rewrite <- E. unfold dq. norm_list. reflexivity. }
  apply two_occurrences in E'; try assumption.
  - destruct E' as (E1 & _ & _).
    change (js "srcset=") with (js "srcse" ++ [ch "t"; EQUALS]) in E1.
    replace (a ++ Y ++ l :: w1 ++ EQUALS :: w2)
      with ((a ++ Y ++ l :: w1) ++ EQUALS :: w2) in E1 by (norm_list; reflexivity).
    replace (pre ++ js "srcse" ++ [ch "t"; EQUALS])
      with ((pre ++ js "srcse" ++ [ch "t"]) ++ EQUALS :: []) in E1
      by (norm_list; reflexivity).
    apply (@suffix_run_unique is_space) in E1; try assumption;
      try reflexivity; try constructor.
    destruct E1 as (E1 & _ & _).
    replace (a ++ Y ++ l :: w1) with ((a ++ Y) ++ l :: w1) in E1
      by (norm_list; reflexivity).
    replace (pre ++ js "srcse" ++ [ch "t"])
      with ((pre ++ js "srcse") ++ ch "t" :: []) in E1 by (norm_list; reflexivity).
    apply (@suffix_run_unique is_space) in E1; try assumption;
      try reflexivity; try constructor.
    destruct E1 as (_ & -> & _). discriminate.
  - rewrite in_app_iff. intros [I|I]; [contradiction|].
    cbn in I. intuition discriminate.
Qed.

Section SrcsetPasses.

Context `{URLClass}.
Variable baseUrl : jsstring.

(** The passes of [rewriteUrls] after [srcset] leave a calm text as it
    is. *)
Lemma calm_passes (s : jsstring) :
  calm s = true ->
  let scripts := matches re_script_block s in
  let html :=
    replace_indexed re_script_block (fun i _ _ => script_placeholder i) s in
  let html := replace re_css_url (css_url_replacer baseUrl) html in
  replace re_placeholder (restore_replacer scripts) html = s.
Proof.
  unfold calm. cbv zeta. intros Hq.
  apply andb_true_iff in Hq. destruct Hq as [Hq H4].
  apply andb_true_iff in Hq. destruct Hq as [H2 H3].
  apply negb_true_iff in H2, H3, H4.
  assert (E2 : scan re_script_block s = map Kept s).
  { unfold re_script_block. cbn [seq]. now apply (@scan_istr_absent "<script"). }
  unfold matches, replace_indexed. rewrite E2, matched_kept, replaced_indexed_kept.
  assert (E3 : replace re_css_url (css_url_replacer baseUrl) s = s).
  { unfold replace, re_css_url. cbn [seq].
    rewrite (@scan_istr_absent "url(" _ s H3). apply flat_map_kept. }
  rewrite E3.
  unfold replace, re_placeholder. cbn [seq].
  rewrite (@scan_str_absent "<!--DS" _ s H4). apply flat_map_kept.
Qed.

(** X13: the candidates of a [srcset] attribute.  In a document with one
    double-quoted [srcset] attribute whose value is a list of candidates
    separated by a comma and a space, each a URL and its descriptors
    separated by a space, [rewriteUrls] replaces the URL of every candidate,
    and nothing else, by what [toProxyUrl] makes of it.  The document has no
    other quote and nothing that the later passes match. *)
Theorem srcset_candidates_are_proxied (pre post : jsstring)
        (cs : list (jsstring * list jsstring)) :
  URL_new baseUrl None <> None ->
  no_quote pre = true -> no_quote post = true ->
  forallb well_formed cs = true ->
  includes (map lower pre) (js "srcset") = false ->
  includes (map lower post) (js "srcset") = false ->
  calm (pre ++ (js "srcset=" ++ dq (srcset_value (map (proxied_candidate baseUrl) cs)))
        ++ post) = true ->
  rewriteUrls baseUrl (pre ++ (js "srcset=" ++ dq (srcset_value cs)) ++ post)
  = Some (pre ++ (js "srcset="
                  ++ dq (srcset_value (map (proxied_candidate baseUrl) cs)))
          ++ post).
Proof.
  intros Hbase Qpre Qpost W Ipre Ipost Hcalm.
  unfold rewriteUrls. destruct (URL_new baseUrl None) as [b|]; [|congruence].
  apply no_quote_spec in Qpre, Qpost.
  destruct Qpre as [Dpre Spre], Qpost as [Dpost Spost].
  assert (F : Forall (fun c => well_formed c = true) cs).
  { rewrite forallb_forall in W. now apply Forall_forall. }
  assert (Dv : ~ In DQUOTE (srcset_value cs)).
  { apply srcset_value_no; try discriminate.
    revert F. apply Forall_impl. intros a Ha. now apply well_formed_no in Ha. }
  assert (Sv : ~ In SQUOTE (srcset_value cs)).
  { apply srcset_value_no; try discriminate.
    revert F. apply Forall_impl. intros a Ha. now apply well_formed_no in Ha. }
  set (doc := pre ++ (js "srcset=" ++ dq (srcset_value cs)) ++ post).
  assert (E1 : replace (re_attr DQUOTE) (attr_replacer baseUrl DQUOTE) doc = doc).
  { unfold replace, doc. rewrite attr_not_srcset by assumption. apply flat_map_kept. }
  rewrite E1.
  assert (E2 : replace (re_attr SQUOTE) (attr_replacer baseUrl SQUOTE) doc = doc).
  { apply (@replace_without (fun y => y = SQUOTE)); [apply needs_attr|].
    apply Forall_forall. intros y Hy ->. unfold doc, dq in Hy.
    rewrite !in_app_iff in Hy. cbn [In] in Hy. rewrite in_app_iff in Hy. cbn [In] in Hy.
    destruct Hy as [I|[[I|[E|[I|[E|[]]]]]|I]]; try contradiction; try discriminate.
    cbn in I. intuition discriminate. }
  rewrite E2.
  assert (E3 : replace re_srcset (srcset_replacer baseUrl) doc
               = pre ++ (js "srcset="
                         ++ dq (srcset_value (map (proxied_candidate baseUrl) cs)))
                 ++ post).
  { unfold doc. rewrite srcset_pass by assumption.
    unfold srcset_replacer. cbn [cap get_cap]. 
    now rewrite (srcset_value_rewritten baseUrl cs W). }
  cbv zeta. rewrite E3. f_equal. now apply calm_passes.
Qed.

End SrcsetPasses.

(** An image with two candidates, one relative and one absolute. *)
Lemma srcset_candidates_are_proxied_witness :
  rewriteUrls (H := WHATWG.NodeURL) Scenario.SITE
    (js "<img " ++ (js "srcset=" ++ dq (js "a.png 1x, https://cdn.test/b.png 2x"))
     ++ js ">")
  = Some (js "<img "
          ++ (js "srcset="
              ++ dq (js "/proxy/https%3A%2F%2Fsite.test%2Fa.png 1x, /proxy/https%3A%2F%2Fcdn.test%2Fb.png 2x"))
          ++ js ">").
Proof.
  refine (@srcset_candidates_are_proxied WHATWG.NodeURL Scenario.SITE
            (js "<img ") (js ">")
            [(js "a.png", [js "1x"]); (js "https://cdn.test/b.png", [js "2x"])]
            _ _ _ _ _ _ _);
    try (vm_compute; reflexivity).
  vm_compute; discriminate.
Defined.

(** ** The Isolation Injector: the head *)

Lemma lower_upper (x a : N) :
  lower x = lower a -> N.eqb (upper x) (upper a) = true.
Proof.
  unfold upper, lower. intros E. apply N.eqb_eq. revert E.
  destruct (N.leb_spec 97 a), (N.leb_spec a 122), (N.leb_spec 65 a),
    (N.leb_spec a 90), (N.leb_spec 97 x), (N.leb_spec x 122),
    (N.leb_spec 65 x), (N.leb_spec x 90);
    cbn [andb orb]; intros E; lia.
Qed.

(** A string under the [i] flag matches the string in any case. *)
Lemma derives_istr_any_case (t : string) (h : jsstring) :
  map lower h = map lower (js t) ->
  forall prev s c, exists p1, derives (istr t) prev (h ++ s) c p1 s c.
Proof.
  unfold istr. generalize (js t). intros l. revert h.
  induction l as [|a l IH]; intros [|x h] E prev s c; try discriminate.
  - exists prev. constructor.
  - cbn [map] in E. injection E as Ex E.
    destruct (IH h E (Some x) s c) as [p1 D]. exists p1.
    cbn [map app]. eapply derives_seq_cons; [|exact D].
    constructor. now apply lower_upper.
Qed.

(** The first match of a pattern, and whether there is one. *)
Lemma search_first (r : regex) (pre rest : jsstring) (m : match_result) :
  forall prev before,
    (forall p1 x p2, pre = p1 ++ x :: p2 ->
                     exec_at r (last_unit prev p1) (x :: p2 ++ rest) = None) ->
    exec_at r (last_unit prev pre) rest = Some m ->
    search r prev before (pre ++ rest) = Some (rev before ++ pre, m).
Proof.
  induction pre as [|x pre IH]; intros prev before Hn Hm.
  - cbn [app]. destruct rest; cbn [search]; change (last_unit prev []) with prev in Hm;
      rewrite Hm; now rewrite app_nil_r.
  - cbn [app search]. pose proof (Hn [] x pre eq_refl) as H0.
    change (last_unit prev []) with prev in H0. rewrite H0.
    rewrite (IH (Some x) (x :: before)).
    + cbn [rev]. now rewrite <- app_assoc.
    + intros p1 y p2 E. specialize (Hn (x :: p1) y p2).
      rewrite last_unit_cons in Hn. apply Hn. now rewrite E.
    + now rewrite last_unit_cons in Hm.
Qed.

Lemma test_first (r : regex) (pre rest : jsstring) (m : match_result) :
  forall prev,
    exec_at r (last_unit prev pre) rest = Some m ->
    test_from r prev (pre ++ rest) = true.
Proof.
  induction pre as [|x pre IH]; intros prev Hm.
  - cbn [app]. change (last_unit prev []) with prev in Hm.
    destruct rest; cbn [test_from]; now rewrite Hm.
  - cbn [app test_from]. destruct (exec_at r prev (x :: pre ++ rest)); [reflexivity|].
    apply IH. now rewrite last_unit_cons in Hm.
Qed.

(** A replacement string without [$] stands for itself. *)
Lemma substitution_plain (t m b a : jsstring) :
  ~ In DOLLAR t -> substitution t m b a = t.
Proof.
  induction t as [|c t IH]; intros Ht; [reflexivity|].
  cbn [substitution]. destruct (N.eqb c DOLLAR) eqn:E.
  - exfalso. apply N.eqb_eq in E. apply Ht. now left.
  - rewrite IH; [reflexivity|]. intros I. apply Ht. now right.
Qed.

Lemma escaped_no_dollar (s : jsstring) : ~ In DOLLAR s -> ~ In DOLLAR (escaped s).
Proof.
  intros Hs. unfold escaped. rewrite !replace_lit. intros I.
  apply in_flat_map in I. destruct I as (x & Hx & I).
  apply in_flat_map in Hx. destruct Hx as (y & Hy & Hx).
  destruct (N.eqb (ch "\") y).
  - cbn in Hx. destruct Hx as [<-|[<-|[]]]; cbn in I; intuition discriminate.
  - cbn [In] in Hx. destruct Hx as [<-|[]].
    destruct (N.eqb (ch "'") y).
    + cbn in I. intuition discriminate.
    + cbn [In] in I. destruct I as [E|[]]. subst y. contradiction.
Qed.

Section HeadTag.

Variables (h a post : jsstring).
Hypothesis Hh : map lower h = js "<head".
Hypothesis Ha : ~ In GT a.

Lemma head_class :
  Forall (fun x => negb (existsb (N.eqb x) (js ">")) = true) a.
Proof.
  apply Forall_forall. intros x Hx. cbn [existsb js map list_ascii_of_string].
  rewrite orb_false_r. apply negb_true_iff. apply N.eqb_neq. intros ->.
  contradiction.
Qed.

Lemma derives_head prev :
  exists p1, derives re_head prev (head_tag h a ++ post) [] p1 post [].
Proof.
  unfold head_tag, re_head. rewrite <- !app_assoc.
  destruct (@derives_istr_any_case "<head" h Hh prev (a ++ [GT] ++ post) [])
    as [pa Da].
  destruct (@derives_star_class true _ a head_class pa ([GT] ++ post) [])
    as [pb Db].
  eexists.
  eapply derives_seq_cons; [exact Da|].
  eapply derives_seq_cons; [exact Db|].
  cbn [seq app]. constructor. apply N.eqb_refl.
Qed.

Lemma head_unique prev p s' c' :
  derives re_head prev (head_tag h a ++ post) [] p s' c' ->
  s' = post /\ c' = [].
Proof.
  unfold head_tag, re_head. rewrite <- !app_assoc. intros D.
  apply derives_seq_inv in D. destruct D as (pa & sa & ca & Da & D).
  apply derives_istr_inv in Da. destruct Da as (w & E & Lw & _ & ->).
  apply app_same_length in E.
  2:{ rewrite Lw. apply (f_equal (@length N)) in Hh. now rewrite length_map in Hh. }
  destruct E as [_ <-].
  apply derives_seq_inv in D. destruct D as (pb & sb & cb & Db & D).
  apply derives_star_class_inv in Db. destruct Db as (g & Eg & Fg & ->).
  cbn [seq] in D. apply derives_char_inv in D.
  destruct D as (y & -> & Hy & _ & ->). apply N.eqb_eq in Hy. subst y.
  assert (Hg : ~ In GT g).
  { intros I. rewrite Forall_forall in Fg. apply Fg in I. discriminate. }
  cbn [app] in Eg.
  destruct (@first_occurrence GT a g post s' Ha Hg Eg) as [_ <-]. auto.
Qed.

Lemma head_exec prev :
  exec_at re_head prev (head_tag h a ++ post)
  = Some (MatchResult (head_tag h a) [] post).
Proof.
  destruct (derives_head prev) as [p1 D].
  rewrite (exec_at_unique D (fun p s' c' => @head_unique prev p s' c')).
  now rewrite firstn_consumed.
Qed.

Lemma head_not_before (pre : jsstring) prev p1 x p2 :
  includes (map lower pre) (js "<head") = false ->
  pre = p1 ++ x :: p2 ->
  exec_at re_head prev (x :: p2 ++ head_tag h a ++ post) = None.
Proof.
  intros Hi E. unfold re_head. cbn [seq]. apply exec_at_istr_absent.
  apply (@absent_before (js "<head") pre (head_tag h a ++ post) Hi) with (p1 := p1);
    [|exact E].
  intros k Hk. unfold head_tag. rewrite <- app_assoc, map_app, Hh.
  cbn [length js list_ascii_of_string map] in Hk.
  destruct k as [|[|[|[|[|k]]]]]; try lia; reflexivity.
Qed.

End HeadTag.

Section HeadInjection.

Variables SCRIPT_BEFORE_BASE SCRIPT_AFTER_BASE : jsstring.

(** X14: on a page with a head tag the injection is put right after the
    first opening tag whose name starts with [head], in any case, and the
    page is otherwise unchanged.  The injection goes through the expansion
    of [$] patterns of [String.prototype.replace]; it is injected as it is
    when the script and the final URL hold no [$]. *)
Theorem injection_follows_head (pre h a post finalUrl : jsstring) :
  includes (map lower pre) (js "<head") = false ->
  map lower h = js "<head" -> lacks GT a = true ->
  let inj := injection SCRIPT_BEFORE_BASE SCRIPT_AFTER_BASE finalUrl in
  injectMetaScript SCRIPT_BEFORE_BASE SCRIPT_AFTER_BASE
    (pre ++ head_tag h a ++ post) finalUrl
  = pre ++ head_tag h a ++ substitution inj (head_tag h a) pre post ++ post
  /\ (lacks DOLLAR (SCRIPT_BEFORE_BASE ++ finalUrl ++ SCRIPT_AFTER_BASE) = true ->
      substitution inj (head_tag h a) pre post = inj).
Proof.
  intros Hpre Hh Ha. apply lacks_spec in Ha. cbv zeta. split.
  - unfold injectMetaScript. cbv zeta. fold (escaped finalUrl).
    pose proof (@head_exec h a post Hh Ha (last_unit None pre)) as Hm.
    unfold test. rewrite (@test_first re_head pre (head_tag h a ++ post)
               (MatchResult (head_tag h a) [] post) None Hm).
    unfold replace_first.
    rewrite (@search_first re_head pre (head_tag h a ++ post)
               (MatchResult (head_tag h a) [] post) None []).
    + cbn [rev app m_text m_rest]. f_equal.
      change (js "$&" ++ ?t) with (DOLLAR :: ch "&" :: t).
      cbn [substitution]. change (N.eqb DOLLAR DOLLAR) with true.
      change (N.eqb (ch "&") DOLLAR) with false.
      change (N.eqb (ch "&") (ch "&")) with true. cbv iota.
      unfold injection. now rewrite <- !app_assoc.
    + intros p1 x p2 E. now apply head_not_before with (pre := pre) (p1 := p1).
    + exact Hm.
  - intros Hd. apply lacks_spec in Hd. apply substitution_plain.
    unfold injection. rewrite !in_app_iff in *.
    intros [I|[I|[I|I]]].
    + revert I. vm_compute. intuition discriminate.
    + tauto.
    + apply escaped_no_dollar in I; tauto.
    + tauto.
Qed.

End HeadInjection.

(** A page whose head tag is in capitals and whose body has a [header]. *)
Lemma injection_follows_head_witness :
  let B := js "<script>var BASE='" in
  let A := js "';</script>" in
  let u := js "https://site.test/a" in
  injectMetaScript B A
    (js "<!DOCTYPE html><html>" ++ head_tag (js "<HEAD") [] ++
     js "<title>t</title></HEAD><body><header>x</header></body></html>") u
  = js "<!DOCTYPE html><html>" ++ head_tag (js "<HEAD") [] ++ injection B A u ++
    js "<title>t</title></HEAD><body><header>x</header></body></html>".
Proof.
  cbv zeta.
  refine (match @injection_follows_head (js "<script>var BASE='") (js "';</script>")
                  (js "<!DOCTYPE html><html>") (js "<HEAD") []
                  (js "<title>t</title></HEAD><body><header>x</header></body></html>")
                  (js "https://site.test/a") _ _ _
          with conj E Sub => _ end).
  1-3: vm_compute; reflexivity.
  rewrite E, Sub; reflexivity.
Defined.

(** ** The Isolation Injector: the literal in the page *)

(** The leftmost match, for an input that [test] accepts. *)
Lemma search_of_test (r : regex) (s : jsstring) :
  forall prev before,
    test_from r prev s = true ->
    exists pre m,
      search r prev before s = Some (rev before ++ pre, m)
      /\ s = pre ++ m_text m ++ m_rest m.
Proof.
  induction s as [|x s IH]; intros prev before Ht.
  - cbn [test_from search] in *.
    destruct (exec_at r prev []) as [m|] eqn:E; [|discriminate].
    exists [], m. rewrite app_nil_r. split; [reflexivity|]. exact (@exec_at_sound _ _ _ _ E).
  - cbn [test_from search] in *.
    destruct (exec_at r prev (x :: s)) as [m|] eqn:E.
    + exists [], m. rewrite app_nil_r. split; [reflexivity|]. exact (@exec_at_sound _ _ _ _ E).
    + destruct (IH (Some x) (x :: before) Ht) as (pre & m & Es & Ed).
      exists (x :: pre), m. split.
      * rewrite Es. cbn [rev]. now rewrite <- app_assoc.
      * cbn [app]. now f_equal.
Qed.



(** On a page with a head tag the injection is a replacement string: a [$&]
    in the final URL is replaced by the head tag, and the literal no longer
    holds the URL; on a page without one the URL is written as it is. *)
Lemma dollar_in_final_url_is_expanded :
  let B := js "<script>var BASE='" in
  let A := js "';</script>" in
  let u := js "https://site.test/?a=$&" in
  lacks 10 u = true /\ lacks 13 u = true
  /\ injectMetaScript B A (js "<head>") u
     = js "<head>" ++ privacyTags ++ B ++ js "https://site.test/?a=<head>" ++ A
  /\ injectMetaScript B A (js "<body>") u
     = privacyTags ++ B ++ u ++ A ++ js "<body>".
Proof. repeat split; vm_compute; reflexivity. Qed.

(** ** Patterns without groups, alternatives, substrings *)

Lemma derives_groupless r prev s c p1 s1 c1 :
  groupless r = true -> derives r prev s c p1 s1 c1 -> c1 = c.
Proof.
  intros Hg D.
  induction D as
    [prev s c|p prev y s c Hp|r1 r2 prev s c p1 s1 c1 p2 s2 c2 D1 IH1 D2 IH2
    |r1 r2 prev s c p1 s1 c1 D IH|r1 r2 prev s c p1 s1 c1 D IH
    |g r prev s c|g r prev s c p1 s1 c1 p2 s2 c2 D1 IH1 Hl D2 IH2
    |n r prev s c p1 s1 c1 D IH|n prev s c Hg'|n t prev s c Hg' Hs|prev s c Hx];
    cbn [groupless] in Hg; try reflexivity; try discriminate.
  - apply andb_true_iff in Hg. destruct Hg as [H1 H2].
    now rewrite (IH2 H2), (IH1 H1).
  - apply andb_true_iff in Hg. destruct Hg as [H1 _]. now apply IH.
  - apply andb_true_iff in Hg. destruct Hg as [_ H2]. now apply IH.
  - rewrite (IH2 Hg). now apply IH1.
Qed.

Lemma derives_leads (P : N -> Prop) r prev s c p1 s1 c1 :
  leads P r -> derives r prev s c p1 s1 c1 -> exists x t, s = x :: t /\ P x.
Proof.
  intros Hl D.
  induction D as
    [prev s c|p prev y s c Hp|r1 r2 prev s c p1 s1 c1 p2 s2 c2 D1 IH1 D2 IH2
    |r1 r2 prev s c p1 s1 c1 D IH|r1 r2 prev s c p1 s1 c1 D IH
    |g r prev s c|g r prev s c p1 s1 c1 p2 s2 c2 D1 IH1 Hl' D2 IH2
    |n r prev s c p1 s1 c1 D IH|n prev s c Hg'|n t prev s c Hg' Hs|prev s c Hx];
    cbn [leads] in Hl; try contradiction.
  - exists y, s. auto.
  - now apply IH1.
  - apply IH, Hl.
  - apply IH, Hl.
  - now apply IH.
Qed.

Lemma derives_alt_in (r : regex) (rs : list regex) prev s c p1 s1 c1 :
  In r rs -> derives r prev s c p1 s1 c1 -> derives (alt rs) prev s c p1 s1 c1.
Proof.
  intros Hin D. induction rs as [|r' rs IH]; [contradiction|].
  destruct rs as [|r'' rs].
  - destruct Hin as [->|[]]. exact D.
  - change (alt (r' :: r'' :: rs)) with (RAlt r' (alt (r'' :: rs))).
    destruct Hin as [->|Hin]; [now apply DAltL|apply DAltR; now apply IH].
Qed.

Lemma derives_alt_list_inv (rs : list regex) prev s c p1 s1 c1 :
  derives (alt rs) prev s c p1 s1 c1 ->
  exists r, In r rs /\ derives r prev s c p1 s1 c1.
Proof.
  induction rs as [|r' rs IH]; intros D.
  - cbn [alt] in D. apply derives_char_inv in D. destruct D as (x & _ & Hx & _).
    discriminate.
  - destruct rs as [|r'' rs].
    + exists r'. split; [now left|exact D].
    + change (alt (r' :: r'' :: rs)) with (RAlt r' (alt (r'' :: rs))) in D.
      apply derives_alt_inv in D. destruct D as [D|D].
      * exists r'. split; [now left|exact D].
      * destruct (IH D) as (r & Hr & Dr). exists r. split; [now right|exact Dr].
Qed.

Lemma includes_app (a p b : jsstring) : includes (a ++ p ++ b) p = true.
Proof.
  induction a as [|x a IH].
  - cbn [app]. destruct (p ++ b) eqn:E; cbn [includes]; rewrite <- E;
      now rewrite startsWith_app.
  - cbn [app includes]. rewrite IH. apply orb_true_r.
Qed.

Lemma includes_split (s p : jsstring) :
  includes s p = true -> exists a b, s = a ++ p ++ b.
Proof.
  induction s as [|x s IH]; cbn [includes]; intros Hi.
  - rewrite orb_false_r in Hi. apply startsWith_spec in Hi. destruct Hi as [t E].
    exists [], t. exact E.
  - apply orb_true_iff in Hi. destruct Hi as [Hi|Hi].
    + apply startsWith_spec in Hi. destruct Hi as [t E]. exists [], t. exact E.
    + destruct (IH Hi) as (a & b & ->). exists (x :: a), b. reflexivity.
Qed.

(** A word in a text, in any case. *)
Lemma mention_split (body : jsstring) (w : jsstring) :
  includes (map lower body) w = true ->
  exists b1 k b2, body = b1 ++ k ++ b2 /\ map lower k = w.
Proof.
  intros Hi. apply includes_split in Hi. destruct Hi as (a & b & E).
  apply map_eq_app in E. destruct E as (b1 & r & -> & _ & E).
  apply map_eq_app in E. destruct E as (k & b2 & -> & Hk & _).
  exists b1, k, b2. auto.
Qed.

Lemma mention_intro (b1 k b2 : jsstring) (w : jsstring) :
  map lower k = w -> includes (map lower (b1 ++ k ++ b2)) w = true.
Proof. intros <-. rewrite !map_app. apply includes_app. Qed.

(** ** The Tracker Stripper: scripts *)

Lemma tracking_script_shape :
  re_tracking_script
  = seq [ istr "<script"; star (noneof (js ">")); lit (ch ">");
          star (noneof (js "<")); alt tracking_alternatives;
          star (noneof (js "<")); istr "</script>" ].
Proof. reflexivity. Qed.

Lemma tracking_word_alternative (w : string) :
  In w tracking_words -> In (istr w) tracking_alternatives.
Proof.
  intros Hw. unfold tracking_words in Hw. cbn [In] in Hw.
  unfold tracking_alternatives. cbn [In].
  repeat (destruct Hw as [<-|Hw]; [repeat first [left; reflexivity|right]|]).
  contradiction.
Qed.

(** What an alternative reads holds a tracking word or [ga]. *)
Lemma alternative_mentions (r : regex) prev s c p1 s1 c1 :
  In r tracking_alternatives -> derives r prev s c p1 s1 c1 ->
  exists k, s = k ++ s1
            /\ (mentions_tracker k = true \/ includes (map lower k) (js "ga") = true).
Proof.
  assert (W : forall w, In w tracking_words ->
                derives (istr w) prev s c p1 s1 c1 ->
                exists k, s = k ++ s1
                          /\ (mentions_tracker k = true
                              \/ includes (map lower k) (js "ga") = true)).
  { intros w Hw D. apply derives_istr_lower in D. destruct D as (k & -> & Hk & _).
    exists k. split; [reflexivity|]. left. unfold mentions_tracker.
    apply existsb_exists. exists w. split; [exact Hw|].
    assert (E : map lower (js w) = js w).
    { clear -Hw. unfold tracking_words in Hw. cbn [In] in Hw.
      repeat (destruct Hw as [<-|Hw]; [reflexivity|]). contradiction. }
    rewrite E in Hk. rewrite <- (app_nil_r k), <- (app_nil_l (k ++ [])).
    now apply mention_intro. }
  intros Hr D. unfold tracking_alternatives in Hr. cbn [In] in Hr.
  repeat (destruct Hr as [<-|Hr];
          [first [ solve [refine (W _ _ D); unfold tracking_words; cbn [In];
                          repeat first [left; reflexivity|right]]
                 | idtac ]|]); [|contradiction].
  apply derives_seq_inv in D. destruct D as (pa & sa & ca & Da & D).
  apply derives_istr_lower in Da. destruct Da as (k & -> & Hk & _).
  destruct (derives_suffix D) as [t ->].
  exists (k ++ t). split; [now rewrite app_assoc|]. right.
  rewrite <- (app_nil_l (k ++ t)). now apply mention_intro.
Qed.

Section TrackingScript.

Variables (a body post : jsstring).
Hypothesis Ha : ~ In GT a.
Hypothesis Hbody : ~ In LT body.

(** Every way of matching the pattern at a script element reads the
    element, and finds an alternative in its body. *)
Lemma tracking_script_inv prev p s' c' :
  derives re_tracking_script prev (script_element a body ++ post) [] p s' c' ->
  s' = post /\ c' = []
  /\ exists g1 k g2, body = g1 ++ k ++ g2
       /\ (mentions_tracker k = true \/ includes (map lower k) (js "ga") = true).
Proof.
  rewrite tracking_script_shape. unfold script_element. norm_list. intros D.
  apply derives_seq_inv in D. destruct D as (p1 & s1 & c1 & D1 & D).
  apply derives_istr_inv in D1. destruct D1 as (w & E & Lw & _ & ->).
  apply app_same_length in E; [|now rewrite Lw]. destruct E as [_ <-].
  apply derives_seq_inv in D. destruct D as (p2 & s2 & c2 & D2 & D).
  apply derives_star_class_inv in D2. destruct D2 as (g0 & E0 & F0 & ->).
  apply derives_seq_inv in D. destruct D as (p3 & s3 & c3 & D3 & D).
  apply derives_char_inv in D3. destruct D3 as (x3 & -> & H3 & _ & ->).
  apply N.eqb_eq in H3. subst x3.
  assert (H0 : ~ In GT g0).
  { intros I. rewrite Forall_forall in F0. apply F0 in I. discriminate. }
  destruct (@first_occurrence GT a g0 _ _ Ha H0 E0) as [_ <-].
  apply derives_seq_inv in D. destruct D as (p4 & s4 & c4 & D4 & D).
  apply derives_star_class_inv in D4. destruct D4 as (g1 & E1 & F1 & ->).
  apply derives_seq_inv in D. destruct D as (p5 & s5 & c5 & D5 & D).
  assert (G : groupless (alt tracking_alternatives) = true) by reflexivity.
  assert (R : rejects LT (alt tracking_alternatives) = true) by reflexivity.
  pose proof (derives_groupless G D5) as ->.
  destruct (derives_rejects _ R D5) as (k & Ek & Nk).
  apply derives_alt_list_inv in D5. destruct D5 as (r & Hr & D5).
  apply (alternative_mentions Hr) in D5. destruct D5 as (k' & Ek' & Mk).
  rewrite Ek in Ek'. apply app_inv_tail in Ek'. subst k'. subst s4.
  apply derives_seq_inv in D. destruct D as (p6 & s6 & c6 & D6 & D).
  apply derives_star_class_inv in D6. destruct D6 as (g2 & -> & F2 & ->).
  cbn [seq] in D. apply derives_istr_inv in D.
  destruct D as (w9 & -> & L9 & F9 & ->).
  destruct w9 as [|x9 w9]; [discriminate|].
  inversion F9 as [|? ? ? ? Hx9 _]; subst.
  apply upper_not_letter in Hx9; [|reflexivity]. subst x9.
  assert (N1 : ~ In LT (g1 ++ k ++ g2)).
  { assert (S : forall g, Forall (fun x => negb (existsb (N.eqb x) (js "<")) = true) g ->
                  ~ In LT g).
    { intros g Fg I. rewrite Forall_forall in Fg. apply Fg in I. discriminate. }
    rewrite !in_app_iff. intros [I|[I|I]]; [now apply (S g1)|contradiction|now apply (S g2)]. }
  assert (E : body ++ LT :: js "/script>" ++ post
              = (g1 ++ k ++ g2) ++ LT :: w9 ++ s').
  { change (LT :: js "/script>" ++ post) with (js "</script>" ++ post).
    rewrite E1. norm_list. reflexivity. }
  destruct (@first_occurrence LT body (g1 ++ k ++ g2) _ _ Hbody N1 E) as [Eb E'].
  apply app_same_length in E'; [|cbn in L9 |- *; lia].
  destruct E' as [_ <-].
  repeat split. exists g1, k, g2. auto.
Qed.

Lemma derives_tracking_script (w : string) (b1 k b2 : jsstring) prev :
  In w tracking_words -> body = b1 ++ k ++ b2 -> map lower k = map lower (js w) ->
  exists p1, derives re_tracking_script prev (script_element a body ++ post) [] p1 post [].
Proof.
  intros Hw Eb Hk. rewrite tracking_script_shape. unfold script_element.
  norm_list.
  assert (Hb : ~ In LT b1 /\ ~ In LT b2).
  { rewrite Eb in Hbody. rewrite !in_app_iff in Hbody. tauto. }
  assert (C : forall x g, ~ In x g ->
                Forall (fun y => negb (existsb (N.eqb y) [x]) = true) g).
  { intros x g Hg. apply Forall_forall. intros y Hy. cbn [existsb].
    rewrite orb_false_r. apply negb_true_iff, N.eqb_neq. intros ->. contradiction. }
  rewrite Eb. norm_list.
  set (tail := js "</script>" ++ post).
  destruct (@derives_istr "<script" prev (a ++ GT :: b1 ++ k ++ b2 ++ tail) [])
    as [p1 D1].
  destruct (@derives_star_class true _ a (C GT a Ha) p1
              (GT :: b1 ++ k ++ b2 ++ tail) []) as [p2 D2].
  destruct (@derives_star_class true _ b1 (C LT b1 (proj1 Hb)) (Some GT)
              (k ++ b2 ++ tail) []) as [p4 D4].
  destruct (@derives_istr_any_case w k Hk p4 (b2 ++ tail) []) as [p5 D5].
  destruct (@derives_star_class true _ b2 (C LT b2 (proj2 Hb)) p5 tail [])
    as [p6 D6].
  destruct (@derives_istr "</script>" p6 post []) as [p7 D7].
  exists p7.
  eapply derives_seq_cons; [exact D1|].
  eapply derives_seq_cons; [exact D2|].
  eapply derives_seq_cons; [constructor; reflexivity|].
  eapply derives_seq_cons; [exact D4|].
  eapply derives_seq_cons.
  { apply (@derives_alt_in (istr w)); [now apply tracking_word_alternative|exact D5]. }
  eapply derives_seq_cons; [exact D6|].
  exact D7.
Qed.

End TrackingScript.

Lemma includes_inside (g1 k g2 w : jsstring) :
  includes (map lower k) w = true -> includes (map lower (g1 ++ k ++ g2)) w = true.
Proof.
  intros Hi. apply mention_split in Hi. destruct Hi as (x & k' & y & -> & Hk).
  replace (g1 ++ (x ++ k' ++ y) ++ g2) with ((g1 ++ x) ++ k' ++ (y ++ g2))
    by (norm_list; reflexivity).
  now apply mention_intro.
Qed.

Lemma tracker_inside (g1 k g2 : jsstring) :
  mentions_tracker k = true \/ includes (map lower k) (js "ga") = true ->
  tracker_free (g1 ++ k ++ g2) = false.
Proof.
  unfold tracker_free, mentions_tracker. intros [M|M].
  - apply existsb_exists in M. destruct M as (w & Hw & M).
    apply andb_false_iff. left. apply negb_false_iff.
    apply existsb_exists. exists w. split; [exact Hw|now apply includes_inside].
  - apply andb_false_iff. right. apply negb_false_iff. now apply includes_inside.
Qed.

Lemma leads_istr_lt (t : string) (rest : regex) :
  hd_error (js t) = Some LT -> leads (fun y => y = LT) (RSeq (istr t) rest).
Proof.
  unfold istr. cbn [leads]. destruct (js t) as [|x l]; [discriminate|].
  intros E. injection E as ->.
  destruct l as [|y l]; cbn [map seq leads ilit];
    intros x Hx; now apply (@upper_not_letter x LT).
Qed.

(** A pattern that starts with the name of another tag finds nothing in a
    text whose only [<] are those of a script element. *)
Lemma scan_other_tag (t : string) (rest : regex) (pre a body post : jsstring) :
  hd_error (js t) = Some LT ->
  (forall r1, startsWith (map lower (js "<script" ++ r1)) (map lower (js t)) = false) ->
  (forall r2, startsWith (map lower (js "</script" ++ r2)) (map lower (js t)) = false) ->
  lacks LT pre = true -> lacks LT a = true -> lacks LT body = true ->
  lacks LT post = true ->
  scan (RSeq (istr t) rest) (pre ++ script_element a body ++ post)
  = map Kept (pre ++ script_element a body ++ post).
Proof.
  intros Ht H1 H2 Lp La Lb Lt. rewrite doc_two_starts. apply scan_two_starts.
  - now apply leads_istr_lt.
  - exact Lp.
  - apply lacks_spec. apply lacks_spec in La, Lb. rewrite !in_app_iff. cbn [In].
    intros [I|[I|[E|I]]]; try contradiction; try discriminate.
    cbn in I. intuition discriminate.
  - apply lacks_spec. apply lacks_spec in Lt. rewrite in_app_iff.
    intros [I|I]; [|contradiction]. cbn in I. intuition discriminate.
  - intros prev. apply exec_at_istr_absent.
    exact (H1 (a ++ GT :: body ++ LT :: js "/script>" ++ post)) || 
    (replace (LT :: (js "script" ++ a ++ GT :: body) ++ LT :: js "/script>" ++ post)
       with (js "<script" ++ (a ++ GT :: body ++ LT :: js "/script>" ++ post))
       by (norm_list; reflexivity); apply H1).
  - intros prev. apply exec_at_istr_absent.
    change (LT :: js "/script>" ++ post) with (js "</script" ++ GT :: post).
    apply H2.
Qed.

Section StripScripts.

Variables (pre a body post : jsstring).
Hypothesis Lpre : lacks LT pre = true.
Hypothesis La : lacks LT a = true.
Hypothesis Ga : lacks GT a = true.
Hypothesis Lbody : lacks LT body = true.
Hypothesis Lpost : lacks LT post = true.

Lemma strip_pixel_pass (f : jsstring -> captures -> jsstring) :
  replace re_tracking_pixel f (pre ++ script_element a body ++ post)
  = pre ++ script_element a body ++ post.
Proof.
  unfold replace, re_tracking_pixel. cbn [seq].
  rewrite (@scan_other_tag "<img"); try assumption; try reflexivity.
  apply flat_map_kept.
Qed.

Lemma strip_noscript_pass (f : jsstring -> captures -> jsstring) :
  replace re_tracking_noscript f (pre ++ script_element a body ++ post)
  = pre ++ script_element a body ++ post.
Proof.
  unfold replace, re_tracking_noscript. cbn [seq].
  rewrite (@scan_other_tag "<noscript"); try assumption; try reflexivity.
  apply flat_map_kept.
Qed.

Lemma leads_tracking_script : leads (fun y => y = LT) re_tracking_script.
Proof. unfold re_tracking_script. cbn [seq]. now apply leads_istr_lt. Qed.

Lemma leads_tracking_noscript : leads (fun y => y = LT) re_tracking_noscript.
Proof. unfold re_tracking_noscript. cbn [seq]. now apply leads_istr_lt. Qed.

(** X15: an inline script that mentions a tracker is removed.  A script
    element whose body holds one of the words of the second pattern, in any
    case and anywhere in it, is taken out of the page whole, and the rest of
    the page is as it was. *)
Theorem inline_tracker_is_removed :
  mentions_tracker body = true ->
  stripTrackingElements (pre ++ script_element a body ++ post) = pre ++ post.
Proof.
  intros M. unfold stripTrackingElements. cbv zeta.
  rewrite strip_pixel_pass.
  pose proof Ga as Ha. pose proof Lbody as Hb. apply lacks_spec in Ha, Hb.
  unfold mentions_tracker in M. apply existsb_exists in M.
  destruct M as (w & Hw & M). apply mention_split in M.
  destruct M as (b1 & k & b2 & Eb & Hk).
  assert (Hk' : map lower k = map lower (js w)).
  { rewrite Hk. clear -Hw. unfold tracking_words in Hw. cbn [In] in Hw.
    repeat (destruct Hw as [<-|Hw]; [reflexivity|]). contradiction. }
  assert (Hm : forall prev,
             exec_at re_tracking_script prev (script_element a body ++ post)
             = Some (MatchResult (script_element a body) [] post)).
  { intros prev.
    destruct (@derives_tracking_script a body post Ha Hb w b1 k b2 prev Hw Eb Hk')
      as [p1 D].
    rewrite (exec_at_unique D).
    - now rewrite firstn_consumed.
    - intros p s' c' D'.
      destruct (@tracking_script_inv a body post Ha Hb prev p s' c' D')
        as (-> & -> & _). auto. }
  rewrite (@replace_one re_tracking_script (fun _ _ => []) pre
             (script_element a body) post
             (MatchResult (script_element a body) [] post)).
  - cbn [app]. unfold replace, scan.
    rewrite (@scan_go_leads_end (fun y => y = LT) re_tracking_noscript (pre ++ post)
               leads_tracking_noscript); [apply flat_map_kept|].
    apply Forall_forall. intros y Hy ->.
    pose proof Lpre as L1. pose proof Lpost as L2. apply lacks_spec in L1, L2.
    rewrite in_app_iff in Hy. tauto.
  - intros p1 x p2 E. apply exec_at_leads with (P := fun y => y = LT);
      [apply leads_tracking_script|].
    apply lacks_spec in Lpre. intros ->. apply Lpre. rewrite E.
    apply in_or_app. right. now left.
  - apply Hm.
  - reflexivity.
  - unfold script_element. discriminate.
  - intros prev. apply scan_go_leads_end with (P := fun y => y = LT);
      [apply leads_tracking_script|now apply lacks_forall].
Qed.

(** X16: a script that mentions no tracker is kept.  A script element whose
    body holds none of the words of the second pattern, nor [ga], stays in
    the page, whatever its opening tag holds: a script that is loaded from a
    tracker by its [src] attribute has an empty body and is not removed. *)
Theorem script_without_tracker_is_kept :
  tracker_free body = true ->
  stripTrackingElements (pre ++ script_element a body ++ post)
  = pre ++ script_element a body ++ post.
Proof.
  intros F. unfold stripTrackingElements. cbv zeta.
  rewrite strip_pixel_pass.
  pose proof Ga as Ha. pose proof Lbody as Hb. apply lacks_spec in Ha, Hb.
  assert (E2 : replace re_tracking_script (fun _ _ => [])
                 (pre ++ script_element a body ++ post)
               = pre ++ script_element a body ++ post).
  { unfold replace. rewrite doc_two_starts. rewrite scan_two_starts.
    - apply flat_map_kept.
    - apply leads_tracking_script.
    - exact Lpre.
    - apply lacks_spec. pose proof La as La'. apply lacks_spec in La'.
      rewrite !in_app_iff. cbn [In].
      intros [I|[I|[E|I]]]; try contradiction; try discriminate.
      cbn in I. intuition discriminate.
    - apply lacks_spec. pose proof Lpost as Lt. apply lacks_spec in Lt.
      rewrite in_app_iff. intros [I|I]; [|contradiction].
      cbn in I. intuition discriminate.
    - intros prev.
      destruct (exec_at re_tracking_script prev _) as [m|] eqn:Hm; [|reflexivity].
      exfalso. unfold exec_at in Hm. apply rmatch_sound in Hm.
      destruct Hm as (pe & se & ce & D & _).
      replace (LT :: (js "script" ++ a ++ GT :: body) ++ LT :: js "/script>" ++ post)
        with (script_element a body ++ post) in D
        by (unfold script_element; norm_list; reflexivity).
      destruct (@tracking_script_inv a body post Ha Hb prev pe se ce D)
        as (_ & _ & g1 & k & g2 & Eb & Mk).
      apply (@tracker_inside g1 k g2) in Mk. rewrite <- Eb in Mk. congruence.
    - intros prev. unfold re_tracking_script. cbn [seq].
      apply exec_at_istr_absent. reflexivity. }
  rewrite E2. apply strip_noscript_pass.
Qed.

End StripScripts.

(** An inline snippet of Google Analytics between two paragraphs. *)
Lemma inline_tracker_is_removed_witness :
  stripTrackingElements
    (js "text " ++ script_element (js " async")
                     (js "window.GTAG=function(){dataLayer.push(arguments)}")
     ++ js " more")
  = js "text " ++ js " more".
Proof.
  refine (@inline_tracker_is_removed (js "text ") (js " async")
            (js "window.GTAG=function(){dataLayer.push(arguments)}") (js " more")
            _ _ _ _ _ _); vm_compute; reflexivity.
Defined.

(** A script loaded from a tracker. *)
Lemma script_without_tracker_is_kept_witness :
  let doc :=
    js "text " ++ script_element
                    (js " src=" ++ dq (js "https://www.google-analytics.com/analytics.js"))
                    [] ++ js " more" in
  stripTrackingElements doc = doc.
Proof.
  cbv zeta.
  refine (@script_without_tracker_is_kept (js "text ")
            (js " src=" ++ dq (js "https://www.google-analytics.com/analytics.js"))
            [] (js " more") _ _ _ _ _ _); vm_compute; reflexivity.
Defined.

(** ** Two characters of a class *)

Lemma filter_none (f : N -> bool) (l : jsstring) :
  Forall (fun x => f x = false) l -> filter f l = [].
Proof.
  induction 1 as [|x l Hx _ IH]; [reflexivity|]. cbn [filter]. now rewrite Hx.
Qed.

Lemma filter_nil_forall (f : N -> bool) (l : jsstring) :
  filter f l = [] -> Forall (fun x => f x = false) l.
Proof.
  induction l as [|x l IH]; [constructor|]. cbn [filter].
  destruct (f x) eqn:E; [discriminate|]. intros Hl. constructor; auto.
Qed.

(** A string with two characters of a class is cut by them in one way
    only. *)
Lemma two_in_class (cls : N -> bool) (A U P X V S : jsstring) (q q1 q2 : N) :
  Forall (fun x => cls x = false) A -> Forall (fun x => cls x = false) U ->
  Forall (fun x => cls x = false) P -> Forall (fun x => cls x = false) V ->
  cls q = true -> cls q1 = true -> cls q2 = true ->
  A ++ q :: U ++ q :: P = X ++ q1 :: V ++ q2 :: S ->
  X = A /\ q1 = q /\ V = U /\ q2 = q /\ S = P.
Proof.
  intros HA HU HP HV Hq H1 H2 E.
  assert (HX : Forall (fun x => cls x = false) X).
  { apply filter_nil_forall.
    apply (f_equal (fun l => length (filter cls l))) in E.
    rewrite !filter_app in E. cbn [filter] in E. rewrite !filter_app in E.
    cbn [filter] in E. rewrite Hq, H1, H2 in E.
    rewrite (@filter_none cls A HA), (@filter_none cls U HU),
      (@filter_none cls P HP), (@filter_none cls V HV) in E.
    cbn [app length] in E. rewrite !length_app in E. cbn [length] in E.
    destruct (filter cls X); [reflexivity|cbn [length] in E; lia]. }
  assert (R : forall a b s1 s2 x y,
             Forall (fun z => cls z = false) a -> Forall (fun z => cls z = false) b ->
             cls x = true -> cls y = true ->
             a ++ x :: s1 = b ++ y :: s2 -> a = b /\ x = y /\ s1 = s2).
  { intros a b s1 s2 x y Ha Hb Hx Hy E'.
    apply (@run_unique (fun z => negb (cls z)) cls a b s1 s2 x y E'); auto.
    - revert Ha. apply Forall_impl. intros z ->. reflexivity.
    - now rewrite Hy. }
  destruct (R A X _ _ q q1 HA HX Hq H1 E) as (<- & <- & E').
  destruct (R U V _ _ q q2 HU HV Hq H2 E') as (<- & <- & <-). auto.
Qed.

Lemma derives_backref_inv n prev s c p1 s1 c1 :
  derives (RBackref n) prev s c p1 s1 c1 ->
  c1 = c /\ ((get_cap n c = None /\ s1 = s)
             \/ exists t, get_cap n c = Some t /\ s = t ++ s1).
Proof.
  intros D. inversion D as [| | | | | | | |? ? ? ? Hg|? t ? ? ? Hg Hs|]; subst.
  - auto.
  - split; [reflexivity|]. right. exists t. split; [exact Hg|].
    apply startsWith_spec in Hs. destruct Hs as [u ->].
    now rewrite skipn_app, skipn_all, Nat.sub_diag.
Qed.

Lemma derives_wordb_inv prev s c p1 s1 c1 :
  derives RWordB prev s c p1 s1 c1 ->
  p1 = prev /\ s1 = s /\ c1 = c /\ xorb (word_at prev) (word_at (hd_error s)) = true.
Proof. intros D. inversion D; subst. auto. Qed.

Lemma space_not_quote (x : N) :
  is_space x = true -> existsb (N.eqb x) [DQUOTE; SQUOTE] = false.
Proof.
  intros Hx. cbn [existsb]. rewrite orb_false_r.
  destruct (N.eqb_spec x DQUOTE) as [->|_]; [discriminate|].
  destruct (N.eqb_spec x SQUOTE) as [->|_]; [discriminate|]. reflexivity.
Qed.

Lemma no_quote_class (s : jsstring) :
  no_quote s = true -> Forall (fun x => existsb (N.eqb x) [DQUOTE; SQUOTE] = false) s.
Proof.
  intros Hs. apply no_quote_spec in Hs. destruct Hs as [Hd Hs].
  apply Forall_forall. intros x Hx. cbn [existsb]. rewrite orb_false_r.
  destruct (N.eqb_spec x DQUOTE) as [->|_]; [contradiction|].
  destruct (N.eqb_spec x SQUOTE) as [->|_]; [contradiction|]. reflexivity.
Qed.

Lemma class_no_quote (s : jsstring) :
  Forall (fun x => existsb (N.eqb x) [DQUOTE; SQUOTE] = false) s ->
  ~ In DQUOTE s /\ ~ In SQUOTE s.
Proof.
  intros F. rewrite Forall_forall in F. split; intros I; apply F in I; discriminate.
Qed.

(** ** The import patterns *)

Lemma relative_path_inv prev s c p1 s1 c1 :
  derives re_relative_path prev s c p1 s1 c1 ->
  exists rel, s = ch "." :: rel ++ s1 /\ c1 = c
              /\ Forall (fun x => quote_char x = false) (ch "." :: rel).
Proof.
  intros D.
  assert (G : groupless re_relative_path = true) by reflexivity.
  pose proof (derives_groupless G D) as ->.
  unfold re_relative_path in D. apply derives_seq_inv in D.
  destruct D as (pa & sa & ca & Da & D).
  apply derives_char_inv in Da. destruct Da as (x & -> & Hx & _ & _).
  apply N.eqb_eq in Hx. subst x.
  assert (R1 : rejects DQUOTE (seq [opt (lit (ch ".")); lit (ch "/"); plus re_not_quote])
               = true) by reflexivity.
  assert (R2 : rejects SQUOTE (seq [opt (lit (ch ".")); lit (ch "/"); plus re_not_quote])
               = true) by reflexivity.
  destruct (derives_rejects _ R1 D) as (r1 & E1 & N1).
  destruct (derives_rejects _ R2 D) as (r2 & E2 & N2).
  assert (r2 = r1) by (rewrite E1 in E2; now apply app_inv_tail in E2). subst r2.
  exists r1. repeat split; [now rewrite E1|].
  constructor; [reflexivity|].
  apply Forall_forall. intros z Hz. unfold quote_char. cbn [existsb].
  rewrite orb_false_r.
  destruct (N.eqb_spec z DQUOTE) as [->|_]; [contradiction|].
  destruct (N.eqb_spec z SQUOTE) as [->|_]; [contradiction|]. reflexivity.
Qed.

(** What an import pattern reads: the keyword after a word boundary, white
    space, a quote, a path without a quote that starts with a dot, and the
    same quote. *)
Lemma import_shape (kw : string) prev t p s' c' :
  derives (re_import kw) prev t [] p s' c' ->
  exists ws q rel,
    t = js kw ++ ws ++ q :: rel ++ q :: s'
    /\ Forall (fun x => is_space x = true) ws
    /\ quote_char q = true
    /\ Forall (fun x => quote_char x = false) rel
    /\ (exists r0, rel = ch "." :: r0)
    /\ c' = [(3, rel); (2, [q]); (1, js kw ++ ws)].
Proof.
  unfold re_import. intros D.
  apply derives_seq_inv in D. destruct D as (p1 & s1 & c1 & D1 & D).
  apply derives_seq_inv in D. destruct D as (p2 & s2 & c2 & D2 & D).
  apply derives_seq_inv in D. destruct D as (p3 & s3 & c3 & D3 & D).
  cbn [seq] in D.
  apply derives_group_inv in D1. destruct D1 as (cg1 & D1 & ->).
  apply derives_seq_inv in D1. destruct D1 as (pa & sa & ca & Da & D1).
  apply derives_wordb_inv in Da. destruct Da as (-> & -> & -> & _).
  apply derives_seq_inv in D1. destruct D1 as (pb & sb & cb & Db & D1).
  apply derives_str_inv in Db. destruct Db as [-> ->].
  cbn [seq] in D1. apply derives_star_class_inv in D1.
  destruct D1 as (ws & -> & Fws & ->).
  replace (js kw ++ ws ++ s1) with ((js kw ++ ws) ++ s1) in D2 |- *
    by now rewrite <- app_assoc.
  rewrite (@firstn_consumed _ (js kw ++ ws) s1) in D2.
  apply derives_group_inv in D2. destruct D2 as (cg2 & D2 & ->).
  apply derives_char_inv in D2. destruct D2 as (q & -> & Hq & -> & ->).
  change (q :: s2) with ([q] ++ s2) in D3.
  rewrite (@firstn_consumed _ [q] s2) in D3.
  apply derives_group_inv in D3. destruct D3 as (cg3 & D3 & ->).
  apply relative_path_inv in D3. destruct D3 as (rel & -> & -> & Frel).
  change (ch "." :: rel ++ s3) with ((ch "." :: rel) ++ s3) in D.
  rewrite (@firstn_consumed _ (ch "." :: rel) s3) in D.
  apply derives_backref_inv in D. destruct D as (-> & [[Hg _]|(u & Hg & ->)]);
    cbn in Hg; [discriminate|]. injection Hg as <-.
  exists ws, q, (ch "." :: rel). repeat split; try assumption.
  - norm_list. reflexivity.
  - eauto.
Qed.

Lemma replace_none (r : regex) (f : jsstring -> captures -> jsstring) (s : jsstring) :
  (forall prev a t, s = a ++ t -> exec_at r prev t = None) ->
  replace r f s = s.
Proof.
  intros Hn. unfold replace, scan. rewrite scan_go_none; [apply flat_map_kept|].
  intros prev a t E. now apply (Hn prev a t).
Qed.

(** The matches that a scan finds are matches of the pattern at a position
    of the text. *)
Lemma matched_scan (r : regex) (s : jsstring) :
  forall prev skip m,
    In m (matched (scan_go r prev s skip)) ->
    exists prev' a t, s = a ++ t /\ exec_at r prev' t = Some m.
Proof.
  induction s as [|x s IH]; intros prev skip m Hm.
  - destruct skip; cbn [scan_go] in Hm; [|contradiction].
    destruct (exec_at r prev []) as [m'|] eqn:E; [|contradiction].
    cbn [matched] in Hm. destruct Hm as [<-|[]]. exists prev, [], []. auto.
  - destruct skip as [|skip]; cbn [scan_go] in Hm.
    + destruct (exec_at r prev (x :: s)) as [m'|] eqn:E.
      * cbn [matched] in Hm. destruct Hm as [<-|Hm].
        -- exists prev, [], (x :: s). auto.
        -- destruct (m_text m') as [|y u]; [cbn [matched] in Hm|];
             apply IH in Hm; destruct Hm as (prev' & a & t & -> & Ht);
             exists prev', (x :: a), t; auto.
      * cbn [matched] in Hm. apply IH in Hm.
        destruct Hm as (prev' & a & t & -> & Ht). exists prev', (x :: a), t. auto.
    + apply IH in Hm. destruct Hm as (prev' & a & t & -> & Ht).
      exists prev', (x :: a), t. auto.
Qed.

(** ** What the other patterns of the JS pipeline read *)

(** The dynamic import: an opening parenthesis and white space before the
    quote. *)
Lemma dynamic_import_shape prev t p s' c' :
  derives re_dynamic_import prev t [] p s' c' ->
  exists Y0 w q1 V S,
    t = Y0 ++ ch "(" :: w ++ q1 :: V ++ q1 :: S
    /\ Forall (fun x => is_space x = true) w
    /\ quote_char q1 = true
    /\ Forall (fun x => quote_char x = false) V.
Proof.
  unfold re_dynamic_import. intros D.
  apply derives_seq_inv in D. destruct D as (p1 & s1 & c1 & D1 & D).
  apply derives_seq_inv in D. destruct D as (p2 & s2 & c2 & D2 & D).
  apply derives_seq_inv in D. destruct D as (p3 & s3 & c3 & D3 & D).
  apply derives_seq_inv in D. destruct D as (p4 & s4 & c4 & D4 & D).
  destruct (derives_suffix D) as [u4 ->].
  apply derives_group_inv in D1. destruct D1 as (cg1 & D1 & ->).
  apply derives_seq_inv in D1. destruct D1 as (pa & sa & ca & Da & D1).
  apply derives_wordb_inv in Da. destruct Da as (-> & -> & -> & _).
  apply derives_seq_inv in D1. destruct D1 as (pb & sb & cb & Db & D1).
  apply derives_str_inv in Db. destruct Db as [-> ->].
  apply derives_seq_inv in D1. destruct D1 as (pc & sc & cc & Dc & D1).
  apply derives_star_class_inv in Dc. destruct Dc as (w1 & -> & _ & ->).
  apply derives_seq_inv in D1. destruct D1 as (pd & sd & cd & Dd & D1).
  apply derives_char_inv in Dd. destruct Dd as (x & -> & Hx & -> & ->).
  apply N.eqb_eq in Hx. subst x.
  cbn [seq] in D1. apply derives_star_class_inv in D1.
  destruct D1 as (w & -> & Fw & ->).
  apply derives_group_inv in D2. destruct D2 as (cg2 & D2 & ->).
  apply derives_char_inv in D2. destruct D2 as (q1 & -> & Hq & -> & ->).
  change (q1 :: s2) with ([q1] ++ s2) in D3.
  rewrite (@firstn_consumed _ [q1] s2) in D3.
  apply derives_group_inv in D3. destruct D3 as (cg3 & D3 & ->).
  apply relative_path_inv in D3. destruct D3 as (rel & -> & -> & Frel).
  apply derives_backref_inv in D4. destruct D4 as (-> & [[Hg _]|(u & Hg & ->)]);
    cbn in Hg; [discriminate|]. injection Hg as <-.
  exists (js "import" ++ w1), w, q1, (ch "." :: rel), (u4 ++ s').
  repeat split; try assumption; try (norm_list; reflexivity).
Qed.

(** [new URL(]: the same. *)
Lemma new_url_shape prev t p s' c' :
  derives re_new_url prev t [] p s' c' ->
  exists Y0 w q1 V S,
    t = Y0 ++ ch "(" :: w ++ q1 :: V ++ q1 :: S
    /\ Forall (fun x => is_space x = true) w
    /\ quote_char q1 = true
    /\ Forall (fun x => quote_char x = false) V.
Proof.
  unfold re_new_url. intros D.
  apply derives_seq_inv in D. destruct D as (p1 & s1 & c1 & D1 & D).
  apply derives_str_inv in D1. destruct D1 as [-> ->].
  apply derives_seq_inv in D. destruct D as (p2 & s2 & c2 & D2 & D).
  apply derives_plus_class_inv in D2. destruct D2 as (sp & -> & _ & _ & ->).
  apply derives_seq_inv in D. destruct D as (p3 & s3 & c3 & D3 & D).
  apply derives_str_inv in D3. destruct D3 as [-> ->].
  apply derives_seq_inv in D. destruct D as (p4 & s4 & c4 & D4 & D).
  apply derives_star_class_inv in D4. destruct D4 as (w & -> & Fw & ->).
  apply derives_seq_inv in D. destruct D as (p5 & s5 & c5 & D5 & D).
  apply derives_group_inv in D5. destruct D5 as (cg5 & D5 & ->).
  apply derives_char_inv in D5. destruct D5 as (q1 & -> & Hq & -> & ->).
  change (q1 :: s5) with ([q1] ++ s5) in D.
  rewrite (@firstn_consumed _ [q1] s5) in D.
  apply derives_seq_inv in D. destruct D as (p6 & s6 & c6 & D6 & D).
  apply derives_group_inv in D6. destruct D6 as (cg6 & D6 & ->).
  apply derives_plus_class_inv in D6. destruct D6 as (V & -> & _ & FV & ->).
  apply derives_seq_inv in D. destruct D as (p7 & s7 & c7 & D7 & D).
  destruct (derives_suffix D) as [u7 ->].
  apply derives_backref_inv in D7. destruct D7 as (-> & [[Hg _]|(u & Hg & E7)]);
    cbn in Hg; [discriminate|]. injection Hg as <-. rewrite E7.
  exists (js "new" ++ sp ++ js "URL"), w, q1, V, (u7 ++ s').
  split; [change (js "URL(") with (js "URL" ++ [ch "("]); norm_list; reflexivity|].
  split; [exact Fw|]. split; [exact Hq|].
  revert FV. apply Forall_impl. intros x Hx. now apply negb_true_iff in Hx.
Qed.

Lemma derives_rseq_inv r1 r2 prev s c p2 s2 c2 :
  derives (RSeq r1 r2) prev s c p2 s2 c2 ->
  exists p1 s1 c1, derives r1 prev s c p1 s1 c1 /\ derives r2 p1 s1 c1 p2 s2 c2.
Proof. intros D. inversion D; subst. eauto. Qed.

(** The array of assets: an opening bracket and white space before the
    quote. *)
Lemma asset_array_shape prev t p s' c' :
  derives re_asset_array prev t [] p s' c' ->
  exists w V S,
    t = ch "[" :: w ++ DQUOTE :: V ++ DQUOTE :: S
    /\ Forall (fun x => is_space x = true) w
    /\ Forall (fun x => N.eqb x DQUOTE = false) V.
Proof.
  unfold re_asset_array. intros D.
  apply derives_group_inv in D. destruct D as (cg & D & _).
  apply derives_seq_inv in D. destruct D as (p1 & s1 & c1 & D1 & D).
  apply derives_char_inv in D1. destruct D1 as (x & -> & Hx & -> & ->).
  apply N.eqb_eq in Hx. subst x.
  apply derives_seq_inv in D. destruct D as (p2 & s2 & c2 & D2 & D).
  destruct (derives_suffix D) as [u2 ->].
  apply derives_rseq_inv in D2. destruct D2 as (pm & sm & cm & Dx & Dr).
  destruct (derives_suffix Dr) as [ur ->].
  apply derives_rseq_inv in Dx. destruct Dx as (pa & sa & ca & Da & Dx).
  apply derives_star_class_inv in Da. destruct Da as (w & -> & Fw & ->).
  apply derives_rseq_inv in Dx. destruct Dx as (pb & sb & cb & Db & Dx).
  destruct (derives_suffix Dx) as [ux ->].
  unfold re_asset_string in Db. cbv zeta in Db.
  apply derives_seq_inv in Db. destruct Db as (pc & sc & cc & Dc & Db).
  apply derives_char_inv in Dc. destruct Dc as (x & -> & Hx & -> & ->).
  apply N.eqb_eq in Hx. subst x.
  apply derives_seq_inv in Db. destruct Db as (pd & sd & cd & Dd & Db).
  cbn [seq] in Db. apply derives_char_inv in Db.
  destruct Db as (x & -> & Hx & _ & _). apply N.eqb_eq in Hx. subst x.
  assert (R : rejects DQUOTE (seq [str "assets/"; plus (noneof [DQUOTE])]) = true)
    by reflexivity.
  destruct (derives_rejects _ R Dd) as (V & -> & NV).
  exists w, V, (ux ++ ur ++ u2 ++ s').
  split; [norm_list; reflexivity|]. split; [exact Fw|].
  apply Forall_forall. intros x Hx. apply N.eqb_neq. intros ->. contradiction.
Qed.

(** The asset path: a quote, a path that starts with a slash, the same
    quote. *)
Lemma asset_path_shape prev t p s' c' :
  derives re_asset_path prev t [] p s' c' ->
  exists q1 V,
    t = q1 :: (ch "/" :: V) ++ q1 :: s'
    /\ quote_char q1 = true
    /\ Forall (fun x => quote_char x = false) (ch "/" :: V)
    /\ c' = [(2, ch "/" :: V); (1, [q1])].
Proof.
  unfold re_asset_path. intros D.
  apply derives_seq_inv in D. destruct D as (p1 & s1 & c1 & D1 & D).
  apply derives_group_inv in D1. destruct D1 as (cg1 & D1 & ->).
  apply derives_char_inv in D1. destruct D1 as (q1 & -> & Hq & -> & ->).
  change (q1 :: s1) with ([q1] ++ s1) in D.
  rewrite (@firstn_consumed _ [q1] s1) in D.
  apply derives_seq_inv in D. destruct D as (p2 & s2 & c2 & D2 & D).
  apply derives_group_inv in D2. destruct D2 as (cg2 & D2 & ->).
  set (inner := seq [lit (ch "/"); star re_not_quote; lit (ch "."); re_asset_extension]) in *.
  assert (G : groupless inner = true) by reflexivity.
  assert (R1 : rejects DQUOTE inner = true) by reflexivity.
  assert (R2 : rejects SQUOTE inner = true) by reflexivity.
  pose proof (derives_groupless G D2) as ->.
  destruct (derives_rejects _ R1 D2) as (r1 & E1 & N1).
  destruct (derives_rejects _ R2 D2) as (r2 & E2 & N2).
  assert (r2 = r1) by (rewrite E1 in E2; now apply app_inv_tail in E2). subst r2.
  assert (L : leads (fun y => y = ch "/") inner).
  { unfold inner. cbn [seq leads lit]. intros x Hx. apply N.eqb_eq in Hx. now symmetry. }
  destruct (derives_leads _ L D2) as (x & t0 & Ex & ->).
  destruct r1 as [|y V].
  - exfalso. cbn [app] in E1. subst s1.
    unfold inner in D2. apply derives_seq_inv in D2.
    destruct D2 as (pa & sa & ca & Da & D2).
    apply derives_char_inv in Da. destruct Da as (z & Ez & _).
    destruct (derives_suffix D2) as [u Eu]. rewrite Eu in Ez.
    apply (f_equal (@length N)) in Ez. cbn [length] in Ez.
    rewrite length_app in Ez. lia.
  - rewrite E1 in Ex. cbn [app] in Ex. injection Ex as -> _.
    subst s1. rewrite (@firstn_consumed _ _ s2) in D.
    cbn [seq] in D.
    apply derives_backref_inv in D. destruct D as (-> & [[Hg _]|(u & Hg & ->)]);
      cbn in Hg; [discriminate|]. injection Hg as <-.
    exists q1, V. split; [reflexivity|]. split; [exact Hq|].
    split; [|reflexivity].
    apply Forall_forall. intros z Hz. unfold quote_char. cbn [existsb].
    rewrite orb_false_r.
    destruct (N.eqb_spec z DQUOTE) as [->|_]; [contradiction|].
    destruct (N.eqb_spec z SQUOTE) as [->|_]; [contradiction|]. reflexivity.
Qed.

Section ImportDoc.

Context `{URLClass}.
Variable finalUrl : jsstring.
Variables (pre kwf : jsstring) (l : N) (ws : jsstring) (q : N) (v post : jsstring).
Hypothesis Hpre : Forall (fun x => quote_char x = false) pre.
Hypothesis Hkwf : Forall (fun x => quote_char x = false) kwf.
Hypothesis Hl : quote_char l = false.
Hypothesis Hls : is_space l = false.
Hypothesis Hws : Forall (fun x => is_space x = true) ws.
Hypothesis Hq : quote_char q = true.
Hypothesis Hv : Forall (fun x => quote_char x = false) v.
Hypothesis Hpost : Forall (fun x => quote_char x = false) post.

Let doc := pre ++ import_stmt (kwf ++ [l]) ws q v ++ post.

Lemma doc_quotes : doc = (pre ++ kwf ++ l :: ws) ++ q :: v ++ q :: post.
Proof. unfold doc, import_stmt. norm_list. reflexivity. Qed.

Lemma before_quote (cls : N -> bool) :
  (forall x, cls x = true -> quote_char x = true) ->
  Forall (fun x => cls x = false) (pre ++ kwf ++ l :: ws)
  /\ Forall (fun x => cls x = false) v /\ Forall (fun x => cls x = false) post.
Proof.
  intros Hc.
  assert (K : forall s, Forall (fun x => quote_char x = false) s ->
                Forall (fun x => cls x = false) s).
  { intros s. apply Forall_impl. intros x Hx. destruct (cls x) eqn:E; [|reflexivity].
    apply Hc in E. congruence. }
  repeat split; try now apply K.
  apply K. repeat (apply Forall_app; split); try assumption.
  constructor; [exact Hl|].
  revert Hws. apply Forall_impl. intros x Hx. now apply space_not_quote.
Qed.

(** A match that reads two characters of a class of quotes reads the two
    quotes of the import, and what it reads before the first one ends as the
    keyword does. *)
Lemma ending_unique (cls : N -> bool) (a Y0 : jsstring) (e : N) (w : jsstring)
      (q1 : N) (V : jsstring) (q2 : N) (S : jsstring) :
  (forall x, cls x = true -> quote_char x = true) ->
  cls q = true -> cls q1 = true -> cls q2 = true ->
  Forall (fun x => cls x = false) V ->
  is_space e = false -> Forall (fun x => is_space x = true) w ->
  doc = a ++ Y0 ++ e :: w ++ q1 :: V ++ q2 :: S ->
  a ++ Y0 = pre ++ kwf /\ e = l /\ w = ws /\ q1 = q /\ V = v /\ q2 = q /\ S = post.
Proof.
  intros Hc Cq C1 C2 CV He Hw E. rewrite doc_quotes in E.
  destruct (before_quote cls Hc) as (FA & Fv & Fp).
  replace (a ++ Y0 ++ e :: w ++ q1 :: V ++ q2 :: S)
    with ((a ++ Y0 ++ e :: w) ++ q1 :: V ++ q2 :: S) in E by (norm_list; reflexivity).
  destruct (@two_in_class cls _ _ _ _ _ _ q q1 q2 FA Fv Fp CV Cq C1 C2 E)
    as (EX & -> & -> & -> & ->).
  replace (a ++ Y0 ++ e :: w) with ((a ++ Y0) ++ e :: w) in EX
    by (norm_list; reflexivity).
  replace (pre ++ kwf ++ l :: ws) with ((pre ++ kwf) ++ l :: ws) in EX
    by (norm_list; reflexivity).
  apply (@suffix_run_unique is_space) in EX; try assumption.
  destruct EX as (-> & -> & ->). repeat split.
Qed.

(** The import pattern of a keyword that ends otherwise finds nothing. *)
Lemma import_other (kw' : string) (kwf' : jsstring) (e' : N) :
  js kw' = kwf' ++ [e'] -> is_space e' = false -> e' <> l ->
  forall prev a t, doc = a ++ t -> exec_at (re_import kw') prev t = None.
Proof.
  intros Ek He Hne prev a t E.
  destruct (exec_at (re_import kw') prev t) as [m|] eqn:Hm; [|reflexivity].
  exfalso. unfold exec_at in Hm. apply rmatch_sound in Hm.
  destruct Hm as (pe & se & ce & D & _).
  apply import_shape in D.
  destruct D as (ws' & q1 & rel & -> & Fws' & Hq1 & Frel & _ & _).
  rewrite Ek in E.
  replace ((kwf' ++ [e']) ++ ws' ++ q1 :: rel ++ q1 :: se)
    with (kwf' ++ e' :: ws' ++ q1 :: rel ++ q1 :: se) in E by (norm_list; reflexivity).
  apply (@ending_unique quote_char) in E; auto.
  destruct E as (_ & El & _). contradiction.
Qed.


Lemma dynamic_import_none :
  l <> ch "(" ->
  forall prev a t, doc = a ++ t -> exec_at re_dynamic_import prev t = None.
Proof.
  intros Hne prev a t E.
  destruct (exec_at re_dynamic_import prev t) as [m|] eqn:Hm; [|reflexivity].
  exfalso. unfold exec_at in Hm. apply rmatch_sound in Hm.
  destruct Hm as (pe & se & ce & D & _).
  apply dynamic_import_shape in D.
  destruct D as (Y0 & w & q1 & V & S & -> & Fw & Hq1 & FV).
  apply (@ending_unique quote_char) in E; auto.
  destruct E as (_ & El & _). now apply Hne.
Qed.

Lemma new_url_none :
  l <> ch "(" ->
  forall prev a t, doc = a ++ t -> exec_at re_new_url prev t = None.
Proof.
  intros Hne prev a t E.
  destruct (exec_at re_new_url prev t) as [m|] eqn:Hm; [|reflexivity].
  exfalso. unfold exec_at in Hm. apply rmatch_sound in Hm.
  destruct Hm as (pe & se & ce & D & _).
  apply new_url_shape in D.
  destruct D as (Y0 & w & q1 & V & S & -> & Fw & Hq1 & FV).
  apply (@ending_unique quote_char) in E; auto.
  destruct E as (_ & El & _). now apply Hne.
Qed.

Lemma quote_cases : q = DQUOTE \/ q = SQUOTE.
Proof.
  unfold quote_char in Hq. cbn [existsb] in Hq. rewrite orb_false_r in Hq.
  apply orb_true_iff in Hq. destruct Hq as [E|E]; apply N.eqb_eq in E; auto.
Qed.

Lemma asset_array_none :
  l <> ch "[" ->
  forall prev a t, doc = a ++ t -> exec_at re_asset_array prev t = None.
Proof.
  intros Hne prev a t E.
  destruct (exec_at re_asset_array prev t) as [m|] eqn:Hm; [|reflexivity].
  exfalso. unfold exec_at in Hm. apply rmatch_sound in Hm.
  destruct Hm as (pe & se & ce & D & _).
  apply asset_array_shape in D. destruct D as (w & V & S & -> & Fw & FV).
  destruct quote_cases as [Eq|Eq].
  - change (a ++ ch "[" :: w ++ DQUOTE :: V ++ DQUOTE :: S)
      with (a ++ [] ++ ch "[" :: w ++ DQUOTE :: V ++ DQUOTE :: S) in E.
    assert (Hc : forall x, N.eqb x DQUOTE = true -> quote_char x = true)
      by (intros x Hx; apply N.eqb_eq in Hx; now subst x).
    assert (Cq : N.eqb q DQUOTE = true) by now rewrite Eq.
    destruct (@ending_unique _ a [] (ch "[") w DQUOTE V DQUOTE S Hc Cq
                eq_refl eq_refl FV eq_refl Fw E) as (_ & El & _).
    now apply Hne.
  - assert (I : In DQUOTE doc).
    { rewrite E. apply in_or_app. right. right. apply in_or_app. right. now left. }
    rewrite doc_quotes in I.
    destruct (before_quote quote_char (fun x Hx => Hx)) as (FA & Fv & Fp).
    rewrite Forall_forall in FA, Fv, Fp.
    apply in_app_or in I. destruct I as [I|I]; [apply FA in I; discriminate|].
    destruct I as [I|I]; [rewrite Eq in I; discriminate|].
    apply in_app_or in I. destruct I as [I|I]; [apply Fv in I; discriminate|].
    destruct I as [I|I]; [rewrite Eq in I; discriminate|].
    apply Fp in I. discriminate.
Qed.

(** The last pass gives back what it matches: the path of the import, when
    it was made a ProxyReference, starts with [/proxy/]. *)
Lemma asset_path_unchanged :
  startsWith v PROXY_PREFIX = true \/ (exists v', v = ch "." :: v') ->
  replace re_asset_path (asset_path_replacer finalUrl) doc = doc.
Proof.
  intros Hv'. apply replace_unchanged. apply Forall_forall. intros m Hm.
  apply matched_scan in Hm. destruct Hm as (prev' & a & t & E & Hx).
  unfold exec_at in Hx. apply rmatch_sound in Hx.
  destruct Hx as (pe & se & ce & D & Hk). injection Hk as <-.
  cbn [m_text m_caps].
  apply asset_path_shape in D. destruct D as (q1 & V & -> & Hq1 & FV & ->).
  rewrite doc_quotes in E.
  destruct (before_quote quote_char (fun x Hx => Hx)) as (FA & Fv & Fp).
  destruct (@two_in_class quote_char _ _ _ _ _ _ q q1 q1 FA Fv Fp FV Hq Hq1 Hq1 E)
    as (_ & _ & EV & _ & _).
  unfold asset_path_replacer, asset_path_replace. cbn [cap get_cap Nat.eqb].
  rewrite EV. destruct Hv' as [Hp|(v' & Ev)].
  - now rewrite Hp.
  - rewrite Ev in EV. discriminate.
Qed.

(** *** The pass of the keyword *)

Variable kw : string.
Hypothesis Hkw : js kw = kwf ++ [l].
Hypothesis Hword : word_at (hd_error (js kw)) = true.
Hypothesis Hboundary : word_at (last_unit None pre) = false.
Hypothesis Hrel : relative v = true.

Lemma derives_relative prev rest c :
  exists p1, derives re_relative_path prev (v ++ rest) c p1 rest c.
Proof.
  assert (C : forall r, Forall (fun x => quote_char x = false) r ->
                Forall (fun x => negb (existsb (N.eqb x) [DQUOTE; SQUOTE]) = true) r).
  { intros r. apply Forall_impl. intros x Hx. unfold quote_char in Hx. now rewrite Hx. }
  assert (P : forall r pv, r <> [] -> Forall (fun x => quote_char x = false) r ->
                exists p1, derives (plus re_not_quote) pv (r ++ rest) c p1 rest c).
  { intros r pv Hr Fr. now apply derives_plus_class; [|apply C]. }
  unfold relative in Hrel. apply orb_true_iff in Hrel.
  destruct Hrel as [R|R]; apply andb_true_iff in R; destruct R as [S L];
    apply startsWith_spec in S; destruct S as [r Er]; apply Nat.ltb_lt in L;
    rewrite Er in L, Hv |- *; rewrite length_app in L;
    assert (Hr : r <> []) by (intros ->; cbn in L; lia).
  - cbn [js list_ascii_of_string map app] in Hv |- *.
    apply Forall_inv_tail, Forall_inv_tail in Hv.
    destruct (P r (Some (ch "/")) Hr Hv) as [p1 D]. exists p1.
    unfold re_relative_path.
    eapply derives_seq_cons; [constructor; reflexivity|].
    eapply derives_seq_cons; [apply DAltR; constructor|].
    eapply derives_seq_cons; [constructor; reflexivity|].
    exact D.
  - cbn [js list_ascii_of_string map app] in Hv |- *.
    apply Forall_inv_tail, Forall_inv_tail, Forall_inv_tail in Hv.
    destruct (P r (Some (ch "/")) Hr Hv) as [p1 D]. exists p1.
    unfold re_relative_path.
    eapply derives_seq_cons; [constructor; reflexivity|].
    eapply derives_seq_cons; [apply DAltL; constructor; reflexivity|].
    eapply derives_seq_cons; [constructor; reflexivity|].
    exact D.
Qed.

Lemma derives_import :
  exists p1,
    derives (re_import kw) (last_unit None pre)
            (import_stmt (js kw) ws q v ++ post) [] p1 post
            [(3, v); (2, [q]); (1, js kw ++ ws)].
Proof.
  unfold import_stmt, re_import.
  replace ((js kw ++ ws ++ q :: v ++ [q]) ++ post)
    with ((js kw ++ ws) ++ q :: v ++ q :: post) by (norm_list; reflexivity).
  set (rest1 := q :: v ++ q :: post).
  assert (D1 : exists p1, derives (seq [RWordB; str kw; star space]) (last_unit None pre)
                            ((js kw ++ ws) ++ rest1) [] p1 rest1 []).
  { rewrite <- app_assoc.
    destruct (@derives_str kw (last_unit None pre) (ws ++ rest1) []) as [pa Da].
    destruct (@derives_star_class true is_space ws Hws pa rest1 []) as [pb Db].
    exists pb.
    eapply derives_seq_cons.
    { constructor. rewrite Hboundary.
      assert (E : hd_error (js kw ++ ws ++ rest1) = hd_error (js kw)).
      { destruct (js kw); [discriminate Hword|reflexivity]. }
      rewrite E, Hword. reflexivity. }
    eapply derives_seq_cons; [exact Da|]. exact Db. }
  destruct D1 as [p1 D1].
  pose proof (DGroup 1 D1) as G1. rewrite firstn_consumed in G1.
  destruct (derives_relative (Some q) (q :: post) [(2, [q]); (1, js kw ++ ws)])
    as [p3 D3].
  pose proof (DGroup 3 D3) as G3. rewrite firstn_consumed in G3.
  eexists.
  eapply derives_seq_cons; [exact G1|].
  eapply derives_seq_cons.
  { unfold rest1.
    pose proof (@DGroup 2 re_quote p1 (q :: v ++ q :: post) [(1, js kw ++ ws)]
                  (Some q) (v ++ q :: post) [(1, js kw ++ ws)]
                  (DChar _ p1 q (v ++ q :: post) [(1, js kw ++ ws)] Hq)) as G2.
    change (q :: v ++ q :: post) with ([q] ++ v ++ q :: post) in G2 at 2 3.
    rewrite firstn_consumed in G2. exact G2. }
  eapply derives_seq_cons; [exact G3|].
  cbn [seq].
  pose proof (@DBackrefSome 2 [q] p3 (q :: post)
                [(3, v); (2, [q]); (1, js kw ++ ws)] eq_refl) as B.
  cbn [startsWith skipn length] in B. rewrite N.eqb_refl in B.
  exact (B eq_refl).
Qed.

Lemma import_matches prev a t p s' c' :
  doc = a ++ t -> derives (re_import kw) prev t [] p s' c' ->
  a = pre /\ s' = post /\ c' = [(3, v); (2, [q]); (1, js kw ++ ws)].
Proof.
  intros E D. apply import_shape in D.
  destruct D as (ws' & q1 & rel & -> & Fws' & Hq1 & Frel & _ & ->).
  rewrite Hkw in E.
  replace (a ++ (kwf ++ [l]) ++ ws' ++ q1 :: rel ++ q1 :: s')
    with (a ++ kwf ++ l :: ws' ++ q1 :: rel ++ q1 :: s') in E
    by (norm_list; reflexivity).
  destruct (@ending_unique quote_char a kwf l ws' q1 rel q1 s' (fun x Hx => Hx)
              Hq Hq1 Hq1 Frel Hls Fws' E) as (Ea & _ & -> & -> & -> & _ & ->).
  apply app_inv_tail in Ea. auto.
Qed.

Lemma import_exec :
  exec_at (re_import kw) (last_unit None pre) (import_stmt (js kw) ws q v ++ post)
  = Some (MatchResult (import_stmt (js kw) ws q v)
                      [(3, v); (2, [q]); (1, js kw ++ ws)] post).
Proof.
  destruct derives_import as [p1 D]. rewrite (exec_at_unique D).
  - now rewrite firstn_consumed.
  - intros p s' c' D'.
    assert (E : doc = pre ++ import_stmt (js kw) ws q v ++ post)
      by (unfold doc; now rewrite Hkw).
    destruct (@import_matches _ pre _ p s' c' E D') as (_ & -> & ->). auto.
Qed.

Lemma import_before p1 x p2 :
  pre = p1 ++ x :: p2 ->
  exec_at (re_import kw) (last_unit None p1)
          (x :: p2 ++ import_stmt (js kw) ws q v ++ post) = None.
Proof.
  intros Ep.
  destruct (exec_at (re_import kw) _ _) as [m|] eqn:Hm; [|reflexivity].
  exfalso. unfold exec_at in Hm. apply rmatch_sound in Hm.
  destruct Hm as (pe & se & ce & D & _).
  assert (E : doc = p1 ++ x :: p2 ++ import_stmt (js kw) ws q v ++ post).
  { unfold doc. rewrite Hkw, Ep. norm_list. reflexivity. }
  destruct (@import_matches _ p1 _ pe se ce E D) as (Ea & _). rewrite Ep in Ea.
  apply (f_equal (@length N)) in Ea. rewrite length_app in Ea.
  cbn [length] in Ea. lia.
Qed.

Lemma needs_import_quote : needs (fun y => quote_char y = true) (re_import kw).
Proof.
  unfold re_import. cbn [seq needs]. right. left. intros x Hx. exact Hx.
Qed.

(** The pass of the keyword rewrites the path of the import and nothing
    else. *)
Lemma import_pass :
  replace (re_import kw) (import_replacer finalUrl) doc
  = pre ++ import_stmt (js kw) ws q (resolveJsPath finalUrl v) ++ post.
Proof.
  assert (E : doc = pre ++ import_stmt (js kw) ws q v ++ post)
    by (unfold doc; now rewrite Hkw).
  rewrite E.
  rewrite (@replace_one (re_import kw) (import_replacer finalUrl) pre
             (import_stmt (js kw) ws q v) post _
             import_before import_exec eq_refl).
  - cbn [m_caps]. unfold import_replacer, import_replace.
    cbn [cap get_cap Nat.eqb]. unfold import_stmt. f_equal. norm_list. reflexivity.
  - unfold import_stmt. destruct (js kw); discriminate.
  - intros prev. apply (@scan_go_no_match (re_import kw) (fun y => ~ quote_char y = true)).
    + apply exec_at_without, needs_import_quote.
    + revert Hpost. apply Forall_impl. intros y Hy. congruence.
Qed.

End ImportDoc.

(** ** The JS pipeline: the imports of a module *)

Section StaticImport.

Context `{URLClass}.
Variable finalUrl : jsstring.

Lemma resolveJsPath_shape (path : jsstring) :
  relative path = true ->
  startsWith (resolveJsPath finalUrl path) PROXY_PREFIX = true
  \/ (exists v', resolveJsPath finalUrl path = ch "." :: v').
Proof.
  intros Hrel. unfold resolveJsPath, proxied.
  assert (Hp : exists v', path = ch "." :: v').
  { unfold relative in Hrel. apply orb_true_iff in Hrel.
    destruct Hrel as [R|R]; apply andb_true_iff in R; destruct R as [S _];
      apply startsWith_spec in S; destruct S as [r ->]; eexists; reflexivity. }
  destruct (resolve_href path finalUrl) as [r|]; [|now right].
  destruct (encodeURIComponent r) as [e|]; [|now right].
  left. apply startsWith_app.
Qed.

(** The passes after the imports, on a module with one import whose path has
    been rewritten. *)
Lemma later_passes (pre kwf : jsstring) (l : N) (ws : jsstring) (q : N)
      (v post : jsstring) :
  Forall (fun x => quote_char x = false) pre ->
  Forall (fun x => quote_char x = false) kwf ->
  quote_char l = false -> is_space l = false ->
  Forall (fun x => is_space x = true) ws ->
  quote_char q = true ->
  Forall (fun x => quote_char x = false) v ->
  Forall (fun x => quote_char x = false) post ->
  l <> ch "(" -> l <> ch "[" ->
  startsWith v PROXY_PREFIX = true \/ (exists v', v = ch "." :: v') ->
  let doc := pre ++ import_stmt (kwf ++ [l]) ws q v ++ post in
  includes (map lower doc) (js "url(") = false ->
  let code := replace re_dynamic_import (dynamic_import_replacer finalUrl) doc in
  let code := replace re_asset_array (asset_array_replacer finalUrl) code in
  let code := replace re_js_url (js_url_replacer finalUrl) code in
  let code := replace re_new_url (new_url_replacer finalUrl) code in
  replace re_asset_path (asset_path_replacer finalUrl) code = doc.
Proof.
  intros Hpre Hkwf Hl Hls Hws Hq Hv Hpost N1 N2 Hshape doc Hurl. cbv zeta.
  rewrite (@replace_none re_dynamic_import _ doc)
    by (now apply dynamic_import_none).
  rewrite (@replace_none re_asset_array _ doc) by (now apply asset_array_none).
  assert (E5 : replace re_js_url (js_url_replacer finalUrl) doc = doc).
  { unfold replace, re_js_url. cbn [seq].
    rewrite (@scan_istr_absent "url(" _ doc Hurl). apply flat_map_kept. }
  rewrite E5.
  rewrite (@replace_none re_new_url _ doc) by (now apply new_url_none).
  now apply asset_path_unchanged.
Qed.

(** X17: the import of a module.  In a module with one string literal, the
    specifier of a static import ([from]) or of a side-effect import
    ([import]) that starts with [./] or [../], the JS pipeline replaces the
    specifier by what [resolveJsPath] makes of it, the ProxyReference of the
    URL it resolves to against the final URL, and changes nothing else: the
    pass over the asset paths, which matches a ProxyReference that ends in
    [.json] or the like, gives it back. *)
Theorem import_is_rewritten (kw : string) (pre ws : jsstring) (q : N)
        (path post : jsstring) :
  kw = "from"%string \/ kw = "import"%string ->
  word_at (last_unit None pre) = false ->
  forallb is_space ws = true ->
  quote_char q = true ->
  relative path = true ->
  no_quote pre = true -> no_quote path = true -> no_quote post = true ->
  no_quote (resolveJsPath finalUrl path) = true ->
  includes (map lower (pre ++ import_stmt (js kw) ws q (resolveJsPath finalUrl path)
                       ++ post)) (js "url(") = false ->
  rewriteJs finalUrl (pre ++ import_stmt (js kw) ws q path ++ post)
  = pre ++ import_stmt (js kw) ws q (resolveJsPath finalUrl path) ++ post.
Proof.
  intros Hkw Hb Hws Hq Hrel Qpre Qpath Qpost QR Hurl.
  apply no_quote_class in Qpre, Qpath, Qpost, QR.
  assert (Fws : Forall (fun x => is_space x = true) ws).
  { rewrite forallb_forall in Hws. now apply Forall_forall. }
  pose proof (resolveJsPath_shape path Hrel) as Hshape.
  unfold rewriteJs. cbv zeta.
  destruct Hkw as [-> | ->].
  - change (js "from") with (js "fro" ++ [ch "m"]) in *.
    rewrite (@import_pass _ finalUrl pre (js "fro") (ch "m") ws q path post)
      with (kw := "from"%string); auto; try reflexivity.
    2:{ now apply no_quote_class. }
    change (js "from") with (js "fro" ++ [ch "m"]).
    rewrite (@replace_none (re_import "import") _
               (pre ++ import_stmt (js "fro" ++ [ch "m"]) ws q
                         (resolveJsPath finalUrl path) ++ post)).
    2:{ apply (@import_other pre (js "fro") (ch "m") ws q
                 (resolveJsPath finalUrl path) post) with (kwf' := js "impor")
          (e' := ch "t"); auto; try reflexivity; try discriminate.
        now apply no_quote_class. }
    apply later_passes; auto; try reflexivity; try discriminate.
    now apply no_quote_class.
  - change (js "import") with (js "impor" ++ [ch "t"]) in *.
    rewrite (@replace_none (re_import "from") _
               (pre ++ import_stmt (js "impor" ++ [ch "t"]) ws q path ++ post)).
    2:{ apply (@import_other pre (js "impor") (ch "t") ws q path post)
          with (kwf' := js "fro") (e' := ch "m");
          auto; try reflexivity; try discriminate.
        now apply no_quote_class. }
    rewrite (@import_pass _ finalUrl pre (js "impor") (ch "t") ws q path post)
      with (kw := "import"%string); auto; try reflexivity.
    2:{ now apply no_quote_class. }
    change (js "import") with (js "impor" ++ [ch "t"]).
    apply later_passes; auto; try reflexivity; try discriminate.
    now apply no_quote_class.
Qed.

End StaticImport.

(** A module that imports a table of data. *)
Lemma import_is_rewritten_witness :
  rewriteJs (H := WHATWG.NodeURL) (js "https://site.test/js/app.js")
    (js "import t " ++ import_stmt (js "from") (js " ") SQUOTE (js "./data.json")
     ++ js "; run(t);")
  = js "import t "
    ++ import_stmt (js "from") (js " ") SQUOTE
         (js "/proxy/https%3A%2F%2Fsite.test%2Fjs%2Fdata.json")
    ++ js "; run(t);".
Proof.
  refine (@import_is_rewritten WHATWG.NodeURL (js "https://site.test/js/app.js")
            "from"%string (js "import t ") (js " ") SQUOTE (js "./data.json")
            (js "; run(t);") _ _ _ _ _ _ _ _ _ _);
    try (vm_compute; reflexivity).
  left; reflexivity.
Defined.

(** ** The Rewrite Engine: a comment that reads as a placeholder *)

(** A text with one occurrence of the character that the pattern starts
    with, at which it does not match. *)
Lemma scan_one_start (x : N) (r : regex) (P0 P1 : jsstring) :
  leads (fun y => y = x) r ->
  lacks x P0 = true -> lacks x P1 = true ->
  (forall prev, exec_at r prev (x :: P1) = None) ->
  scan r (P0 ++ x :: P1) = map Kept (P0 ++ x :: P1).
Proof.
  intros Hl L0 L1 H1. unfold scan.
  rewrite (@scan_go_leads _ r P0 _ Hl (lacks_forall _ _ L0)).
  rewrite scan_go_step by apply H1.
  rewrite (@scan_go_leads_end _ r P1 Hl (lacks_forall _ _ L1)).
  rewrite map_app. reflexivity.
Qed.

Section DsComment.

Variables (d post : jsstring).
Hypothesis Hd : d <> [].
Hypothesis Fd : Forall (fun x => is_digit x = true) d.

Lemma derives_comment prev :
  exists p1, derives re_placeholder prev (ds_comment d ++ post) [] p1 post [(1, d)].
Proof.
  unfold re_placeholder, ds_comment. rewrite <- !app_assoc.
  destruct (@derives_str "<!--DS" prev (d ++ js "-->" ++ post) []) as [p1 D1].
  destruct (@derives_plus_class is_digit d Hd Fd p1 (js "-->" ++ post) []) as [p2 D2].
  apply (DGroup 1) in D2.
  rewrite (@firstn_consumed _ d (js "-->" ++ post)) in D2.
  destruct (@derives_str "-->" p2 post [(1, d)]) as [p3 D3].
  exists p3.
  eapply derives_seq_cons; [exact D1|].
  eapply derives_seq_cons; [exact D2|].
  cbn [seq]. exact D3.
Qed.

Lemma comment_unique prev p s' c' :
  derives re_placeholder prev (ds_comment d ++ post) [] p s' c' ->
  s' = post /\ c' = [(1, d)].
Proof.
  unfold re_placeholder, ds_comment. rewrite <- !app_assoc. intros D.
  apply derives_seq_inv in D. destruct D as (pa & sa & ca & Da & D).
  apply derives_seq_inv in D. destruct D as (pb & sb & cb & Db & Dc).
  cbn [seq] in Dc.
  apply derives_str_inv in Da. destruct Da as [Ea ->].
  apply app_inv_head in Ea. subst sa.
  apply derives_group_inv in Db. destruct Db as (cg & Db & ->).
  apply derives_plus_class_inv in Db. destruct Db as (g & Eg & Hg & Fg & ->).
  apply derives_str_inv in Dc. destruct Dc as [-> ->].
  change (js "-->" ++ ?t) with (ch "-" :: js "->" ++ t) in Eg.
  destruct (@run_unique is_digit (fun z => negb (is_digit z)) d g _ _ _ _ Eg Fd)
    as (<- & _ & E).
  - revert Fg. apply Forall_impl. intros z ->. reflexivity.
  - reflexivity.
  - reflexivity.
  - apply app_inv_head in E. subst s'.
    split; [reflexivity|].
    change (ch "-" :: js "->" ++ post) with (js "-->" ++ post).
    now rewrite (@firstn_consumed _ d (js "-->" ++ post)).
Qed.

Lemma comment_exec prev :
  exec_at re_placeholder prev (ds_comment d ++ post)
  = Some (MatchResult (ds_comment d) [(1, d)] post).
Proof.
  destruct (derives_comment prev) as [p1 D].
  rewrite (exec_at_unique D (fun p s' c' => @comment_unique prev p s' c')).
  now rewrite firstn_consumed.
Qed.

End DsComment.

Section Collision.

Context `{URLClass}.
Variable baseUrl : jsstring.

(** X18: a comment that reads as a placeholder is lost.  In a page without
    script blocks, a comment [<!--DS], digits, [-->] is what the last pass
    of [rewriteUrls] takes for a placeholder of its own: it looks the
    number up in the empty list of the blocks it has set aside and writes
    [undefined] in the place of the comment. *)
Theorem comment_becomes_undefined (pre d post : jsstring) :
  URL_new baseUrl None <> None ->
  d <> [] -> forallb is_digit d = true ->
  lacks LT pre = true -> lacks LT post = true ->
  lacks LPAREN pre = true -> lacks LPAREN post = true ->
  includes (map lower (pre ++ ds_comment d ++ post)) (js "srcset") = false ->
  rewriteUrls baseUrl (pre ++ ds_comment d ++ post)
  = Some (pre ++ js "undefined" ++ post).
Proof.
  intros Hbase Hd Fd Lp Lt Pp Pt Hsrc.
  unfold rewriteUrls. destruct (URL_new baseUrl None) as [b|]; [|congruence].
  assert (Fd' : Forall (fun x => is_digit x = true) d).
  { rewrite forallb_forall in Fd. now apply Forall_forall. }
  set (doc := pre ++ ds_comment d ++ post) in *.
  assert (Edoc : doc = pre ++ LT :: (js "!--DS" ++ d ++ js "--") ++ GT :: post).
  { unfold doc, ds_comment. norm_list.
    change (js "-->" ++ post) with (js "--" ++ GT :: post). norm_list. reflexivity. }
  assert (Nd : forall x, is_digit x = false -> ~ In x (js "!--DS") ->
                 ~ In x (js "!--DS" ++ d ++ js "--")).
  { intros x Hx Ix. rewrite !in_app_iff. intros [J|[J|J]].
    - contradiction.
    - rewrite Forall_forall in Fd'. apply Fd' in J. congruence.
    - apply Ix. cbn in J |- *. intuition. }
  assert (Ltail : lacks LT ((js "!--DS" ++ d ++ js "--") ++ GT :: post) = true).
  { apply lacks_spec. rewrite in_app_iff. intros [I|I].
    - revert I. apply Nd; [reflexivity|]. cbn. intuition discriminate.
    - destruct I as [I|I]; [discriminate|]. apply lacks_spec in Lt. contradiction. }
  (* the attributes *)
  assert (Hattr : forall q f, q = DQUOTE \/ q = SQUOTE ->
                    replace (re_attr q) f doc = doc).
  { intros q f Hq. unfold replace. rewrite Edoc.
    rewrite (@scan_one_start LT (re_attr q)); try assumption.
    - apply flat_map_kept.
    - apply leads_attr.
    - intros prev.
      change (LT :: (js "!--DS" ++ d ++ js "--") ++ GT :: post)
        with ((LT :: js "!--DS" ++ d ++ js "--") ++ GT :: post).
      apply attr_not_at_tag.
      + destruct Hq as [-> | ->]; discriminate.
      + intros [I|I]; [destruct Hq as [-> | ->]; discriminate|].
        revert I. apply Nd; destruct Hq as [-> | ->]; try reflexivity;
          cbn; intuition discriminate. }
  rewrite (Hattr DQUOTE _ (or_introl eq_refl)).
  rewrite (Hattr SQUOTE _ (or_intror eq_refl)).
  (* srcset *)
  assert (E3 : replace re_srcset (srcset_replacer baseUrl) doc = doc).
  { unfold replace, re_srcset. cbn [seq].
    rewrite (@scan_istr_absent "srcset" _ doc Hsrc). apply flat_map_kept. }
  cbv zeta. rewrite E3.
  (* no script block *)
  assert (E4 : scan re_script_block doc = map Kept doc).
  { rewrite Edoc. apply scan_one_start; try assumption.
    - apply leads_script_block.
    - intros prev. unfold re_script_block. cbn [seq].
      apply exec_at_istr_absent. reflexivity. }
  unfold matches, replace_indexed. rewrite E4, matched_kept, replaced_indexed_kept.
  cbn [map].
  (* url(...) *)
  assert (E5 : replace re_css_url (css_url_replacer baseUrl) doc = doc).
  { apply (@replace_without (fun y => y = LPAREN)); [apply needs_css_url|].
    apply Forall_forall. intros y Hy ->. apply lacks_spec in Pp, Pt.
    unfold doc, ds_comment in Hy.
    rewrite !in_app_iff in Hy. destruct Hy as [I|[[I|[I|I]]|I]]; try contradiction.
    - cbn in I. intuition discriminate.
    - rewrite Forall_forall in Fd'. apply Fd' in I. discriminate.
    - cbn in I. intuition discriminate. }
  rewrite E5.
  (* the comment is taken for a placeholder *)
  f_equal. unfold doc.
  rewrite (@replace_one re_placeholder (restore_replacer []) pre (ds_comment d) post
             (MatchResult (ds_comment d) [(1, d)] post)).
  - reflexivity.
  - intros p1 x p2 E. apply exec_at_leads with (P := fun y => y = LT);
      [apply leads_placeholder|].
    apply lacks_spec in Lp. intros ->. apply Lp. rewrite E.
    apply in_or_app. right. now left.
  - now apply comment_exec.
  - reflexivity.
  - unfold ds_comment. discriminate.
  - intros prev. apply scan_go_leads_end with (P := fun y => y = LT);
      [apply leads_placeholder|now apply lacks_forall].
Qed.

End Collision.

(** A comment of the page's own. *)
Lemma comment_becomes_undefined_witness :
  rewriteUrls (H := WHATWG.NodeURL) Scenario.SITE
    (js "Figure " ++ ds_comment (js "12") ++ js " follows.")
  = Some (js "Figure undefined follows.").
Proof.
  refine (@comment_becomes_undefined WHATWG.NodeURL Scenario.SITE
            (js "Figure ") (js "12") (js " follows.") _ _ _ _ _ _ _ _);
    try (vm_compute; reflexivity); try discriminate.
Defined.

(** ** The Rewrite Engine: a reference in a style *)

(** The pass over [url(...)], whatever the replacer, on a text with one
    reference. *)
Lemma css_url_pass (f : jsstring -> captures -> jsstring)
      (pre q1 u q2 post : jsstring) :
  ~ In LPAREN pre -> ~ In LPAREN post ->
  quote_opt q1 -> quote_opt q2 -> u <> [] -> bare u = true ->
  replace re_css_url f (pre ++ css_url q1 u q2 ++ post)
  = pre ++ f (css_url q1 u q2) [(1, u)] ++ post.
Proof.
  intros Hpre Hpost Hq1 Hq2 Hu Hb.
  destruct (@derives_css_url q1 u q2 post Hq1 Hq2 Hu Hb
              (last_unit None pre)) as [p1 D].
  pose proof (exec_at_unique D
                (fun p s' c' => @css_url_unique q1 u q2 post Hq1 Hq2 Hu Hb _ p s' c'))
    as Hm.
  rewrite (@firstn_consumed _ (css_url q1 u q2) post) in Hm.
  assert (H1 : forall p1' x p2, pre = p1' ++ x :: p2 ->
             exec_at re_css_url (last_unit None p1')
                     (x :: p2 ++ css_url q1 u q2 ++ post) = None).
  { intros p1' x p2 E. unfold css_url. rewrite <- !app_assoc.
    now apply css_url_first with (pre := pre) (p1 := p1'). }
  assert (H2 : css_url q1 u q2 <> []) by (unfold css_url; discriminate).
  assert (H3 : forall prev, scan_go re_css_url prev post 0 = map Kept post).
  { intros prev. apply (@scan_go_no_match re_css_url (fun y => ~ (y = LPAREN))).
    - apply exec_at_without, needs_css_url.
    - apply Forall_forall. intros y Hy ->. contradiction. }
  now rewrite (@replace_one re_css_url f pre (css_url q1 u q2) post _ H1 Hm eq_refl H2 H3).
Qed.

(** A pattern that starts with [<] finds nothing in a text without it. *)
Lemma replace_leads (r : regex) (f : jsstring -> captures -> jsstring) (s : jsstring) :
  leads (fun y => y = LT) r -> lacks LT s = true -> replace r f s = s.
Proof.
  intros Hl Hs. unfold replace, scan.
  rewrite (@scan_go_leads_end (fun y => y = LT) r s Hl (lacks_forall _ _ Hs)).
  apply flat_map_kept.
Qed.

Lemma lacks_app (x : N) (a b : jsstring) :
  lacks x (a ++ b) = lacks x a && lacks x b.
Proof. unfold lacks. now rewrite existsb_app, negb_orb. Qed.

Section StyleUrl.

Context `{URLClass}.
Variable baseUrl : jsstring.

(** X19: a reference in a style.  In a text without tags, as the text of a
    style sheet in the page is, [rewriteUrls] replaces a [url(...)]
    reference, whatever quotes it had, by [url('...')] around what
    [toProxyUrl] makes of the reference, and changes nothing else. *)
Theorem style_reference_is_proxied (pre q1 u q2 post : jsstring) :
  URL_new baseUrl None <> None ->
  lacks LT pre = true -> lacks LT u = true -> lacks LT post = true ->
  lacks LPAREN pre = true -> lacks LPAREN post = true ->
  quote_opt q1 -> quote_opt q2 -> u <> [] -> bare u = true ->
  startsWith u (js "data:") = false ->
  includes (map lower (pre ++ css_url q1 u q2 ++ post)) (js "srcset") = false ->
  lacks LT (toProxyUrl baseUrl u) = true ->
  rewriteUrls baseUrl (pre ++ css_url q1 u q2 ++ post)
  = Some (pre ++ (js "url('" ++ toProxyUrl baseUrl u ++ js "')") ++ post).
Proof.
  intros Hbase Lp Lu Lt Pp Pt Hq1 Hq2 Hu Hb Hdata Hsrc LR.
  unfold rewriteUrls. destruct (URL_new baseUrl None) as [b|]; [|congruence].
  set (doc := pre ++ css_url q1 u q2 ++ post) in *.
  assert (Ldoc : lacks LT doc = true).
  { unfold doc, css_url. rewrite !lacks_app, Lp, Lu, Lt.
    destruct Hq1 as [ -> | [ -> | -> ] ], Hq2 as [ -> | [ -> | -> ] ]; reflexivity. }
  rewrite (@replace_leads (re_attr DQUOTE) _ doc (leads_attr DQUOTE) Ldoc).
  rewrite (@replace_leads (re_attr SQUOTE) _ doc (leads_attr SQUOTE) Ldoc).
  assert (E3 : replace re_srcset (srcset_replacer baseUrl) doc = doc).
  { unfold replace, re_srcset. cbn [seq].
    rewrite (@scan_istr_absent "srcset" _ doc Hsrc). apply flat_map_kept. }
  cbv zeta. rewrite E3.
  assert (E4 : scan re_script_block doc = map Kept doc).
  { unfold scan. apply scan_go_leads_end with (P := fun y => y = LT);
      [apply leads_script_block|now apply lacks_forall]. }
  unfold matches, replace_indexed. rewrite E4, matched_kept, replaced_indexed_kept.
  cbn [map]. unfold doc.
  apply lacks_spec in Pp, Pt.
  rewrite (@css_url_pass _ pre q1 u q2 post Pp Pt Hq1 Hq2 Hu Hb).
  unfold css_url_replacer, css_url_replace. cbn [cap get_cap Nat.eqb].
  rewrite Hdata. f_equal.
  apply replace_leads; [apply leads_placeholder|].
  rewrite !lacks_app, Lp, LR, Lt. reflexivity.
Qed.

End StyleUrl.

(** A rule of a style sheet in the page. *)
Lemma style_reference_is_proxied_witness :
  rewriteUrls (H := WHATWG.NodeURL) Scenario.SITE
    (js "body{background:" ++ css_url [DQUOTE] (js "img/bg.png?a=1&amp;b=2") [DQUOTE]
     ++ js "}")
  = Some (js "body{background:"
          ++ (js "url('"
              ++ js "/proxy/https%3A%2F%2Fsite.test%2Fimg%2Fbg.png%3Fa%3D1%26b%3D2"
              ++ js "')")
          ++ js "}").
Proof.
  refine (@style_reference_is_proxied WHATWG.NodeURL Scenario.SITE
            (js "body{background:") [DQUOTE] (js "img/bg.png?a=1&amp;b=2") [DQUOTE]
            (js "}") _ _ _ _ _ _ _ _ _ _ _ _ _);
    try (vm_compute; reflexivity); try discriminate.
  - right; right; reflexivity.
  - right; right; reflexivity.
Defined.

(** ** The JS pipeline: the path of an asset *)

Lemma asset_extension_derives (ext : jsstring) prev rest c :
  asset_extension ext = true ->
  exists p1, derives re_asset_extension prev (ext ++ rest) c p1 rest c.
Proof.
  unfold asset_extension. intros He. apply existsb_exists in He.
  destruct He as (w & Hw & E). apply eqb_eq in E.
  assert (Hl : map lower ext = map lower (js w)).
  { rewrite E. clear -Hw. unfold asset_extensions in Hw. cbn [In] in Hw.
    repeat (destruct Hw as [<-|Hw]; [reflexivity|]). contradiction. }
  destruct (@derives_istr_any_case w ext Hl prev rest c) as [p1 D].
  exists p1. unfold re_asset_extension.
  apply (@derives_alt_in (istr w)); [|exact D].
  clear -Hw. unfold asset_extensions in Hw. cbn [In] in Hw. cbn [In].
  repeat (destruct Hw as [<-|Hw]; [repeat first [left; reflexivity|right]|]).
  contradiction.
Qed.

Lemma asset_extension_no_quote (ext : jsstring) :
  asset_extension ext = true -> Forall (fun x => quote_char x = false) ext.
Proof.
  unfold asset_extension. intros He. apply existsb_exists in He.
  destruct He as (w & Hw & E). apply eqb_eq in E.
  apply Forall_forall. intros x Hx.
  destruct (quote_char x) eqn:Q; [|reflexivity]. exfalso.
  assert (I : In (lower x) (js w)) by (rewrite <- E; now apply in_map).
  unfold quote_char in Q. cbn [existsb] in Q. rewrite orb_false_r in Q.
  apply orb_true_iff in Q.
  assert (Lx : lower x = DQUOTE \/ lower x = SQUOTE)
    by (destruct Q as [Q|Q]; apply N.eqb_eq in Q; subst x; auto).
  clear -Hw I Lx. unfold asset_extensions in Hw. cbn [In] in Hw.
  repeat (destruct Hw as [<-|Hw];
          [destruct Lx as [Lx|Lx]; rewrite Lx in I; cbn in I; intuition discriminate|]).
  contradiction.
Qed.

Lemma needs_asset_path_quote : needs (fun y => quote_char y = true) re_asset_path.
Proof. unfold re_asset_path. cbn [seq needs]. left. intros x Hx. exact Hx. Qed.

Section AssetPath.

Context `{URLClass}.
Variable finalUrl : jsstring.
Variables (pre : jsstring) (l : N) (ws : jsstring) (q : N) (stem ext post : jsstring).
Hypothesis Hpre : Forall (fun x => quote_char x = false) pre.
Hypothesis Hl : quote_char l = false.
Hypothesis Hls : is_space l = false.
Hypothesis Hws : Forall (fun x => is_space x = true) ws.
Hypothesis Hq : quote_char q = true.
Hypothesis Hstem : Forall (fun x => quote_char x = false) stem.
Hypothesis Hext : asset_extension ext = true.
Hypothesis Hpost : Forall (fun x => quote_char x = false) post.

Let path := asset_path stem ext.

Lemma asset_path_class : Forall (fun x => quote_char x = false) path.
Proof.
  unfold path, asset_path. constructor; [reflexivity|].
  apply Forall_app. split; [exact Hstem|].
  constructor; [reflexivity|]. now apply asset_extension_no_quote.
Qed.

Lemma literal_doc (v : jsstring) :
  literal_after pre l ws q v ++ post
  = [] ++ import_stmt (pre ++ [l]) ws q v ++ post.
Proof. unfold literal_after, import_stmt. norm_list. reflexivity. Qed.

Lemma derives_asset_path prev :
  exists p1, derives re_asset_path prev (q :: path ++ q :: post) [] p1 post
                     [(2, path); (1, [q])].
Proof.
  unfold re_asset_path.
  pose proof (@DGroup 1 re_quote prev (q :: path ++ q :: post) []
                (Some q) (path ++ q :: post) []
                (DChar _ prev q (path ++ q :: post) [] Hq)) as G1.
  change (q :: path ++ q :: post) with ([q] ++ path ++ q :: post) in G1 at 2 3.
  rewrite firstn_consumed in G1.
  assert (Dn : exists p2,
             derives (seq [lit (ch "/"); star re_not_quote; lit (ch ".");
                           re_asset_extension])
                     (Some q) (path ++ q :: post) [(1, [q])] p2 (q :: post)
                     [(1, [q])]).
  { unfold path, asset_path. rewrite <- app_comm_cons, <- app_assoc.
    rewrite <- app_comm_cons.
    assert (C : Forall (fun x => negb (existsb (N.eqb x) [DQUOTE; SQUOTE]) = true) stem).
    { revert Hstem. apply Forall_impl. intros x Hx. unfold quote_char in Hx.
      now rewrite Hx. }
    destruct (@derives_star_class true _ stem C (Some (ch "/"))
                (ch "." :: ext ++ q :: post) [(1, [q])]) as [pa Da].
    destruct (@asset_extension_derives ext (Some (ch ".")) (q :: post) [(1, [q])] Hext)
      as [pb Db].
    exists pb.
    eapply derives_seq_cons; [constructor; reflexivity|].
    eapply derives_seq_cons; [exact Da|].
    eapply derives_seq_cons; [constructor; reflexivity|].
    exact Db. }
  destruct Dn as [p2 Dn].
  pose proof (DGroup 2 Dn) as G2. rewrite firstn_consumed in G2.
  eexists.
  eapply derives_seq_cons; [exact G1|].
  eapply derives_seq_cons; [exact G2|].
  cbn [seq].
  pose proof (@DBackrefSome 1 [q] p2 (q :: post) [(2, path); (1, [q])] eq_refl) as B.
  cbn [startsWith skipn length] in B. rewrite N.eqb_refl in B.
  exact (B eq_refl).
Qed.

Lemma asset_path_exec prev :
  exec_at re_asset_path prev ((q :: path ++ [q]) ++ post)
  = Some (MatchResult (q :: path ++ [q]) [(2, path); (1, [q])] post).
Proof.
  replace ((q :: path ++ [q]) ++ post) with (q :: path ++ q :: post)
    by (norm_list; reflexivity).
  destruct (derives_asset_path prev) as [p1 D]. rewrite (exec_at_unique D).
  - replace (q :: path ++ q :: post) with ((q :: path ++ [q]) ++ post)
      by (norm_list; reflexivity).
    now rewrite firstn_consumed.
  - intros p s' c' D'. apply asset_path_shape in D'.
    destruct D' as (q1 & V & E & Hq1 & FV & ->).
    destruct (@two_in_class quote_char [] path post [] (ch "/" :: V) s' q q1 q1
                (Forall_nil _) asset_path_class Hpost FV Hq Hq1 Hq1 E)
      as (_ & -> & <- & _ & ->). auto.
Qed.

Lemma asset_path_before prev p1 x p2 :
  pre ++ l :: ws = p1 ++ x :: p2 ->
  exec_at re_asset_path prev (x :: p2 ++ (q :: path ++ [q]) ++ post) = None.
Proof.
  intros E.
  destruct (exec_at re_asset_path prev _) as [m|] eqn:Hm; [|reflexivity].
  exfalso. unfold exec_at in Hm. apply rmatch_sound in Hm.
  destruct Hm as (pe & se & ce & D & _).
  apply asset_path_shape in D. destruct D as (q1 & V & Et & Hq1 & _).
  injection Et as -> _.
  assert (I : In q1 (pre ++ l :: ws)) by (rewrite E; apply in_or_app; right; now left).
  apply in_app_or in I. destruct I as [I|[I|I]].
  - rewrite Forall_forall in Hpre. apply Hpre in I. congruence.
  - subst q1. congruence.
  - rewrite Forall_forall in Hws. apply Hws in I. apply space_not_quote in I.
    unfold quote_char in Hq1. congruence.
Qed.

End AssetPath.

Section AssetPathTheorem.

Context `{URLClass}.
Variable finalUrl : jsstring.

(** X20: the path of an asset.  A string literal that holds a root-relative
    path ending in the extension of an asset, after an assignment or the
    like, is replaced by the ProxyReference of the URL it resolves to
    against the final URL, between the same quotes, and the module is
    otherwise unchanged. *)
Theorem asset_path_is_proxied (pre : jsstring) (l : N) (ws : jsstring) (q : N)
        (stem ext post r : jsstring) :
  no_quote pre = true -> quote_char l = false -> is_space l = false ->
  existsb (N.eqb l) (js "mt([") = false ->
  forallb is_space ws = true -> quote_char q = true ->
  no_quote stem = true -> asset_extension ext = true -> no_quote post = true ->
  startsWith (asset_path stem ext) PROXY_PREFIX = false ->
  proxied (asset_path stem ext) finalUrl = Some r ->
  includes (map lower (literal_after pre l ws q (asset_path stem ext) ++ post))
           (js "url(") = false ->
  rewriteJs finalUrl (literal_after pre l ws q (asset_path stem ext) ++ post)
  = literal_after pre l ws q r ++ post.
Proof.
  intros Qpre Hl Hls Hne Hws Hq Qstem Hext Qpost Hguard Hr Hurl.
  apply no_quote_class in Qpre, Qstem, Qpost.
  assert (Fws : Forall (fun x => is_space x = true) ws).
  { rewrite forallb_forall in Hws. now apply Forall_forall. }
  assert (Fpath : Forall (fun x => quote_char x = false) (asset_path stem ext))
    by now apply asset_path_class.
  assert (Nl : l <> ch "m" /\ l <> ch "t" /\ l <> ch "(" /\ l <> ch "[").
  { cbn [existsb js list_ascii_of_string map] in Hne.
    repeat (apply orb_false_iff in Hne; destruct Hne as [?E Hne]).
    repeat split; intros ->; discriminate. }
  destruct Nl as (Nm & Nt & Np & Nb).
  set (doc := literal_after pre l ws q (asset_path stem ext) ++ post) in *.
  assert (Edoc : doc = [] ++ import_stmt (pre ++ [l]) ws q (asset_path stem ext) ++ post)
    by apply literal_doc.
  unfold rewriteJs. cbv zeta.
  rewrite (@replace_none (re_import "from") _ doc).
  2:{ rewrite Edoc.
      apply (@import_other [] pre l ws q (asset_path stem ext) post)
        with (kwf' := js "fro") (e' := ch "m"); auto; try reflexivity;
        try (intros E; now apply Nm). }
  rewrite (@replace_none (re_import "import") _ doc).
  2:{ rewrite Edoc.
      apply (@import_other [] pre l ws q (asset_path stem ext) post)
        with (kwf' := js "impor") (e' := ch "t"); auto; try reflexivity;
        try (intros E; now apply Nt). }
  rewrite (@replace_none re_dynamic_import _ doc)
    by (rewrite Edoc; now apply dynamic_import_none).
  rewrite (@replace_none re_asset_array _ doc)
    by (rewrite Edoc; now apply asset_array_none).
  assert (E5 : replace re_js_url (js_url_replacer finalUrl) doc = doc).
  { unfold replace, re_js_url. cbn [seq].
    rewrite (@scan_istr_absent "url(" _ doc Hurl). apply flat_map_kept. }
  rewrite E5.
  rewrite (@replace_none re_new_url _ doc)
    by (rewrite Edoc; now apply new_url_none).
  unfold doc, literal_after.
  replace ((pre ++ l :: ws ++ q :: asset_path stem ext ++ [q]) ++ post)
    with ((pre ++ l :: ws) ++ (q :: asset_path stem ext ++ [q]) ++ post)
    by (norm_list; reflexivity).
  rewrite (@replace_one re_asset_path (asset_path_replacer finalUrl) (pre ++ l :: ws)
             (q :: asset_path stem ext ++ [q]) post
             (MatchResult (q :: asset_path stem ext ++ [q])
                          [(2, asset_path stem ext); (1, [q])] post)).
  - cbn [m_caps]. unfold asset_path_replacer, asset_path_replace.
    cbn [cap get_cap Nat.eqb]. rewrite Hguard, Hr. norm_list. reflexivity.
  - intros p1 x p2 E. now apply asset_path_before with (l := l) (pre := pre) (ws := ws) (p1 := p1).
  - now apply asset_path_exec.
  - reflexivity.
  - discriminate.
  - intros prev.
    apply (@scan_go_no_match re_asset_path (fun y => ~ quote_char y = true)).
    + apply exec_at_without, needs_asset_path_quote.
    + revert Qpost. apply Forall_impl. intros y Hy. unfold quote_char. congruence.
Qed.

End AssetPathTheorem.

(** The font of a worker. *)
Lemma asset_path_is_proxied_witness :
  rewriteJs (H := WHATWG.NodeURL) (js "https://site.test/js/app.js")
    (literal_after (js "const font") (ch "=") (js " ") DQUOTE
       (asset_path (js "fonts/Rubik") (js "TTF")) ++ js ";")
  = literal_after (js "const font") (ch "=") (js " ") DQUOTE
      (js "/proxy/https%3A%2F%2Fsite.test%2Ffonts%2FRubik.TTF") ++ js ";".
Proof.
  refine (@asset_path_is_proxied WHATWG.NodeURL (js "https://site.test/js/app.js")
            (js "const font") (ch "=") (js " ") DQUOTE (js "fonts/Rubik") (js "TTF")
            (js ";") (js "/proxy/https%3A%2F%2Fsite.test%2Ffonts%2FRubik.TTF")
            _ _ _ _ _ _ _ _ _ _ _ _); vm_compute; reflexivity.
Defined.

(** ** The Dispatcher: the charset of a page *)

Section Greedy.

Variable A : Type.

(** A literal string, in any case, is matched in one way. *)
Lemma rmatch_istr_any_case (t : string) (h : jsstring) :
  map lower h = map lower (js t) ->
  forall prev s c (k : cont A),
    rmatch (istr t) prev (h ++ s) c k = k (last_unit prev h) s c.
Proof.
  unfold istr. generalize (js t). intros l. revert h.
  induction l as [|a l IH]; intros [|x h] E prev s c k; try discriminate.
  - reflexivity.
  - cbn [map] in E. injection E as Ex E. rewrite last_unit_cons.
    destruct l as [|b l].
    + destruct h; [|discriminate]. cbn [map seq app rmatch ilit].
      now rewrite (lower_upper _ _ Ex).
    + change (seq (map ilit (a :: b :: l)))
        with (RSeq (ilit a) (seq (map ilit (b :: l)))).
      cbn [rmatch app ilit]. rewrite (lower_upper _ _ Ex).
      now apply IH.
Qed.

(** A greedy star of a class reads the whole run of members of the class
    when the continuation accepts what follows it. *)
Lemma star_greedy_class (p : N -> bool) (a s : jsstring) :
  Forall (fun x => p x = true) a ->
  match s with [] => True | x :: _ => p x = false end ->
  forall fuel prev c (k : cont A) res,
    length (a ++ s) <= fuel ->
    k (last_unit prev a) s c = Some res ->
    star_loop (rmatch (RChar p)) true k fuel prev (a ++ s) c = Some res.
Proof.
  intros Ha Hs. induction Ha as [|x a Hx Ha IH]; intros fuel prev c k res Hf Hk.
  - cbn [app] in *. change (last_unit prev []) with prev in Hk.
    destruct fuel as [|fuel]; cbn [star_loop]; [exact Hk|].
    destruct s as [|y s]; cbn [rmatch]; [exact Hk|]. now rewrite Hs.
  - destruct fuel as [|fuel]; [cbn [app length] in Hf; lia|].
    cbn [app star_loop rmatch]. rewrite Hx.
    assert (L : Nat.ltb (length (a ++ s)) (length (x :: a ++ s)) = true)
      by (apply Nat.ltb_lt; cbn [length]; lia).
    rewrite L.
    assert (E : star_loop (rmatch (RChar p)) true k fuel (Some x) (a ++ s) c = Some res).
    { apply IH; [cbn [app length] in Hf; lia|now rewrite last_unit_cons in Hk]. }
    cbn [rmatch] in E. now rewrite E.
Qed.

Lemma plus_greedy_class (p : N -> bool) (x : N) (a s : jsstring) :
  p x = true -> Forall (fun y => p y = true) a ->
  match s with [] => True | y :: _ => p y = false end ->
  forall prev c (k : cont A) res,
    k (last_unit (Some x) a) s c = Some res ->
    rmatch (plus (RChar p)) prev (x :: a ++ s) c k = Some res.
Proof.
  intros Hx Ha Hs prev c k res Hk.
  pose proof (@star_greedy_class p a s Ha Hs (length (a ++ s)) (Some x) c k res
                (Nat.le_refl _) Hk) as E.
  unfold plus. cbn [rmatch] in E |- *. rewrite Hx. exact E.
Qed.

Lemma rmatch_seq (r1 r2 : regex) prev s c (k : cont A) :
  rmatch (RSeq r1 r2) prev s c k
  = rmatch r1 prev s c (fun prev' s' c' => rmatch r2 prev' s' c' k).
Proof. reflexivity. Qed.

Lemma rmatch_group (n : nat) (r : regex) prev s c (k : cont A) :
  rmatch (RGroup n r) prev s c k
  = rmatch r prev s c
      (fun prev' s' c' => k prev' s' ((n, firstn (length s - length s') s) :: c')).
Proof. reflexivity. Qed.

End Greedy.

Lemma search_none (r : regex) (s : jsstring) :
  forall prev before,
    (forall prev' a t, s = a ++ t -> exec_at r prev' t = None) ->
    search r prev before s = None.
Proof.
  induction s as [|x s IH]; intros prev before Hn; cbn [search].
  - now rewrite (Hn prev [] [] eq_refl).
  - rewrite (Hn prev [] (x :: s) eq_refl). apply IH.
    intros prev' a t ->. apply (Hn prev' (x :: a) t). reflexivity.
Qed.

Lemma charset_exec (name cs rest : jsstring) prev :
  map lower name = js "charset=" -> cs <> [] ->
  Forall (fun x => charset_char x = true) cs -> ends_name rest = true ->
  exec_at re_charset prev (charset_param name cs ++ rest)
  = Some (MatchResult (charset_param name cs) [(1, cs)] rest).
Proof.
  intros Hn Hcs Fcs Hrest. unfold exec_at, re_charset, charset_param.
  rewrite <- app_assoc. cbn [seq].
  rewrite rmatch_seq, (@rmatch_istr_any_case _ "charset=" name Hn), rmatch_group.
  destruct cs as [|x cs]; [contradiction|].
  inversion Fcs as [|? ? Hx Fcs']; subst. cbn [app].
  apply plus_greedy_class; try assumption.
  - destruct rest as [|y rest]; [exact I|]. cbn [ends_name] in Hrest.
    now apply negb_true_iff in Hrest.
  - f_equal. f_equal.
    + replace (name ++ x :: cs ++ rest) with ((name ++ x :: cs) ++ rest)
        by (norm_list; reflexivity).
      apply firstn_consumed.
    + f_equal. f_equal. change (x :: cs ++ rest) with ((x :: cs) ++ rest).
      apply firstn_consumed.
Qed.

(** X21: the charset of a page.  The name that follows the first
    [charset=] of the Content-Type, in any case, up to the next white space
    or semicolon, is the encoding in which the body of an HTML response is
    decoded; a Content-Type without [charset=] gives [utf-8]. *)
Theorem charset_is_read (pre name cs rest : jsstring) :
  includes (map lower pre) (js "charset=") = false ->
  map lower name = js "charset=" ->
  cs <> [] -> forallb charset_char cs = true -> ends_name rest = true ->
  charset_of (pre ++ charset_param name cs ++ rest) = cs
  /\ charset_of pre = js "utf-8".
Proof.
  intros Hpre Hn Hcs Fcs Hrest.
  assert (Fcs' : Forall (fun x => charset_char x = true) cs).
  { rewrite forallb_forall in Fcs. now apply Forall_forall. }
  assert (Habs : forall prev a t, pre = a ++ t -> exec_at re_charset prev t = None).
  { intros prev a t E. unfold re_charset. cbn [seq]. apply exec_at_istr_absent.
    exact (@absent_suffix pre _ Hpre a t E). }
  split.
  - unfold charset_of.
    rewrite (@search_first re_charset pre (charset_param name cs ++ rest)
               (MatchResult (charset_param name cs) [(1, cs)] rest) None []).
    + cbn [m_caps get_cap Nat.eqb]. destruct cs; [contradiction|reflexivity].
    + intros p1 x p2 E. unfold re_charset. cbn [seq]. apply exec_at_istr_absent.
      apply (@absent_before (js "charset=") pre (charset_param name cs ++ rest) Hpre)
        with (p1 := p1); [|exact E].
      intros k Hk. unfold charset_param. rewrite <- app_assoc, map_app, Hn.
      cbn [length js list_ascii_of_string map] in Hk.
      destruct k as [|[|[|[|[|[|[|[|k]]]]]]]]; try lia; reflexivity.
    + now apply charset_exec.
  - unfold charset_of. now rewrite (@search_none re_charset pre None [] Habs).
Qed.

(** The Content-Type of a page in Latin-1. *)
Lemma charset_is_read_witness :
  charset_of (js "text/html; " ++ charset_param (js "Charset=") (js "ISO-8859-1")
              ++ js "; boundary=x")
  = js "ISO-8859-1".
Proof.
  refine (proj1 (@charset_is_read (js "text/html; ") (js "Charset=") (js "ISO-8859-1")
                   (js "; boundary=x") _ _ _ _ _));
    try (vm_compute; reflexivity); discriminate.
Defined.

(** ** The pipelines: what they leave alone *)

Lemma needs_dynamic_import_quote :
  needs (fun y => quote_char y = true) re_dynamic_import.
Proof.
  unfold re_dynamic_import. cbn [seq needs]. right. left. intros x Hx. exact Hx.
Qed.

Lemma needs_asset_array_quote : needs (fun y => quote_char y = true) re_asset_array.
Proof.
  unfold re_asset_array, re_asset_string, plus. cbv zeta. cbn [seq needs lit].
  right. left. left. right. left. left.
  intros x Hx. apply N.eqb_eq in Hx. now subst x.
Qed.

Lemma needs_new_url_quote : needs (fun y => quote_char y = true) re_new_url.
Proof.
  unfold re_new_url. cbn [seq needs]. right. right. right. right. left.
  intros x Hx. exact Hx.
Qed.

Section LeftAlone.

Context `{URLClass}.
Variable finalUrl : jsstring.

(** X22: a module without string literals.  The JS pipeline only rewrites
    what stands between two quotes or in [url(...)]: a module that holds
    neither a quote nor [url(] is sent as it is, whatever it imports with
    template literals or computes. *)
Theorem module_without_literals_is_kept (code : jsstring) :
  no_quote code = true ->
  includes (map lower code) (js "url(") = false ->
  rewriteJs finalUrl code = code.
Proof.
  intros Hq Hurl. apply no_quote_class in Hq.
  assert (F : Forall (fun y => ~ quote_char y = true) code).
  { revert Hq. apply Forall_impl. intros y Hy. unfold quote_char. congruence. }
  assert (K : forall r f, needs (fun y => quote_char y = true) r ->
                replace r f code = code).
  { intros r f Hn. now apply (@replace_without (fun y => quote_char y = true)). }
  unfold rewriteJs. cbv zeta.
  rewrite (K (re_import "from") _ (needs_import_quote "from")).
  rewrite (K (re_import "import") _ (needs_import_quote "import")).
  rewrite (K re_dynamic_import _ needs_dynamic_import_quote).
  rewrite (K re_asset_array _ needs_asset_array_quote).
  assert (E5 : replace re_js_url (js_url_replacer finalUrl) code = code).
  { unfold replace, re_js_url. cbn [seq].
    rewrite (@scan_istr_absent "url(" _ code Hurl). apply flat_map_kept. }
  rewrite E5.
  rewrite (K re_new_url _ needs_new_url_quote).
  apply (K re_asset_path _ needs_asset_path_quote).
Qed.

(** X23: a data URI in a style sheet.  The CSS pipeline gives a reference
    that starts with [data:] back as it matched it, quotes and white space
    included. *)
Theorem data_reference_is_kept (pre q1 u q2 post : jsstring) :
  lacks LPAREN pre = true -> lacks LPAREN post = true ->
  quote_opt q1 -> quote_opt q2 -> bare u = true ->
  startsWith u (js "data:") = true ->
  rewriteCss finalUrl (pre ++ css_url q1 u q2 ++ post)
  = pre ++ css_url q1 u q2 ++ post.
Proof.
  intros Pp Pt Hq1 Hq2 Hb Hdata. apply lacks_spec in Pp, Pt.
  assert (Hu : u <> []) by (intros ->; discriminate).
  unfold rewriteCss.
  rewrite (@css_url_pass _ pre q1 u q2 post Pp Pt Hq1 Hq2 Hu Hb).
  unfold css_replacer, css_replace. cbn [cap get_cap Nat.eqb]. now rewrite Hdata.
Qed.

End LeftAlone.

(** An image inlined in a rule. *)
Lemma data_reference_is_kept_witness :
  let css :=
    js ".dot{background:" ++
    css_url [DQUOTE] (js "data:image/gif;base64,R0lGODlhAQABAAAAACw=") [DQUOTE]
    ++ js "}" in
  rewriteCss (H := WHATWG.NodeURL) (js "https://site.test/css/main.css") css = css.
Proof.
  cbv zeta.
  refine (@data_reference_is_kept WHATWG.NodeURL (js "https://site.test/css/main.css")
            (js ".dot{background:") [DQUOTE]
            (js "data:image/gif;base64,R0lGODlhAQABAAAAACw=") [DQUOTE] (js "}")
            _ _ _ _ _ _); try (vm_compute; reflexivity).
  - right; right; reflexivity.
  - right; right; reflexivity.
Defined.

(** A module that loads another through a template literal. *)
Lemma module_without_literals_is_kept_witness :
  let code := js "const m = await import(`./mod-${n}.js`); m.run(3);" in
  rewriteJs (H := WHATWG.NodeURL) (js "https://site.test/js/app.js") code = code.
Proof.
  cbv zeta.
  refine (@module_without_literals_is_kept WHATWG.NodeURL
            (js "https://site.test/js/app.js")
            (js "const m = await import(`./mod-${n}.js`); m.run(3);") _ _);
    vm_compute; reflexivity.
Defined.
